(** * OpenIFEM: the coupled time-stepping core, embedded and checked

    A shallow embedding of the parts of OpenIFEM that the specification of
    the coupled solid/fluid time-stepping algorithm talks about:

    - [Solid]      : [Solid::LinearElasticity] (linear_elasticity.cpp)
    - [Checkpoint] : [Solid::MPI::SharedSolidSolver::save_checkpoint]
                     (mpi_shared_solid_solver.cpp)
    - [Sable]      : the grid arithmetic of
                     [Fluid::MPI::SableWrap::find_ghost_nodes]
                     (mpi_sable_wrapper.cpp)
    - [Fluid]      : [Fluid::MPI::Stokes] (mpi_stokes.cpp) and
                     [Fluid::MPI::SableWrap] (mpi_sable_wrapper.cpp)

    Conventions.  A C++ [double] is an exact rational ([Q]); statements
    about values are made up to [Qeq].  A C++ [int] whose range plays no
    role is a [Z]; sizes and indices are [nat].  Code that can throw, or
    whose behaviour the language leaves undefined, returns an [Outcome]. *)

From Stdlib Require Import ZArith QArith Qabs String Ascii Bool Arith Lia Lqa List.
From Stdlib Require Import DecimalString DecimalNat Sorted.
From Stdlib Require OrderedTypeEx.
Import ListNotations.

Set Implicit Arguments.

(* ================================================================== *)
(** * Outcomes of fallible code *)
(* ================================================================== *)

(** The two kinds of exception the embedded code raises: [AssertThrow]
    with a message (a configuration error) and a linear solver that does
    not converge.  [Aborted] is not an exception of C++: it stands for the
    end of the process in [abort()] when an [assert] of <cassert> fails;
    like an exception it ends every call in progress, and nothing
    catches it. *)
Inductive Exception : Type :=
| ConfigurationError (msg : string)
| ConvergenceError
| Aborted (expr : string).

(** What a call does: it returns, it throws, or it runs into behaviour the
    language does not define (an unchecked [std::vector::operator[]]
    outside the vector). *)
Inductive Outcome (A : Type) : Type :=
| Returns (a : A)
| Throws (e : Exception)
| Undefined.

Arguments Returns {A} a.
Arguments Throws {A} e.
Arguments Undefined {A}.

Definition bind {A B : Type} (m : Outcome A) (k : A -> Outcome B) : Outcome B :=
  match m with
  | Returns a => k a
  | Throws e => Throws e
  | Undefined => Undefined
  end.

Declare Scope outcome_scope.
Delimit Scope outcome_scope with outcome.
Notation "x <- m ;; k" := (bind m (fun x => k))
  (at level 61, m at next level, right associativity) : outcome_scope.
Notation "m ;;; k" := (bind m (fun _ => k))
  (at level 61, right associativity) : outcome_scope.

Definition is_configuration_error {A : Type} (o : Outcome A) : bool :=
  match o with
  | Throws (ConfigurationError _) => true
  | _ => false
  end.

(** [AssertThrow(cond, ExcMessage(msg))]: checked in every build. *)
Definition AssertThrow (cond : bool) (msg : string) : Outcome unit :=
  if cond then Returns tt else Throws (ConfigurationError msg).

(** [assert(cond)] of <cassert>: compiled out when [NDEBUG] is defined;
    otherwise a false condition ends the process. *)
Definition C_assert (NDEBUG : bool) (cond : bool) (expr : string) : Outcome unit :=
  if NDEBUG then Returns tt
  else if cond then Returns tt else Throws (Aborted expr).

(** [v[i]] on a [std::vector]: no range check.  The index is the value of
    a C++ [int] expression converted to [size_t]; a negative one becomes a
    huge index, so everything outside [0 <= i < v.size()] is out of
    range. *)
Definition subscript {A : Type} (v : list A) (i : Z) : Outcome A :=
  if (0 <=? i)%Z then
    match nth_error v (Z.to_nat i) with
    | Some a => Returns a
    | None => Undefined
    end
  else Undefined.

(** Visit the elements of a list in order, stopping at the first one that
    does not return. *)
Fixpoint for_each {A S : Type} (xs : list A) (body : A -> S -> Outcome S)
         (s : S) : Outcome S :=
  match xs with
  | [] => Returns s
  | x :: rest => bind (body x s) (for_each rest body)
  end.

(* ================================================================== *)
(** * Vectors and matrices *)
(* ================================================================== *)

Module LA.

Open Scope Q_scope.

(** [Vector<double>] *)
Definition Vector := list Q.

(** [FullMatrix<double>] / [SparseMatrix<double>]: the list of rows. *)
Definition Matrix := list (list Q).

(** [Vector<double> v(n)]: [n] zeros. *)
Definition zero_vector (n : nat) : Vector := repeat 0 n.

Definition zero_matrix (m n : nat) : Matrix := repeat (repeat 0 n) m.

Fixpoint map2 {A B C : Type} (f : A -> B -> C) (xs : list A) (ys : list B)
  : list C :=
  match xs, ys with
  | x :: xs', y :: ys' => f x y :: map2 f xs' ys'
  | _, _ => []
  end.

(** [self.add(a, V)]: [self += a * V]. *)
Definition add (a : Q) (V : Vector) (self : Vector) : Vector :=
  map2 (fun s v => s + a * v) self V.

(** [self.add(a, V, b, W)]: [self += a * V + b * W]. *)
Fixpoint add2 (a : Q) (V : Vector) (b : Q) (W : Vector) (self : Vector)
  : Vector :=
  match self, V, W with
  | s :: self', v :: V', w :: W' => (s + (a * v + b * w)) :: add2 a V' b W' self'
  | _, _, _ => []
  end.

(** [self -= V] *)
Definition sub (V : Vector) (self : Vector) : Vector :=
  map2 (fun s v => s - v) self V.

(** [self *= a] *)
Definition scale (a : Q) (self : Vector) : Vector :=
  map (fun s => s * a) self.

Fixpoint dot (row : list Q) (x : Vector) : Q :=
  match row, x with
  | r :: row', v :: x' => r * v + dot row' x'
  | _, _ => 0
  end.

(** [M.vmult(dst, src)]: [dst = M * src].  Whatever [dst] held before
    the call is overwritten. *)
Definition vmult (M : Matrix) (dst : Vector) (src : Vector) : Vector :=
  map (fun row => dot row src) M.

(** [M.el(i, j)] *)
Definition el (M : Matrix) (i j : nat) : Q := nth j (nth i M []) 0.

Fixpoint update {A : Type} (i : nat) (f : A -> A) (xs : list A) : list A :=
  match xs, i with
  | [], _ => []
  | x :: xs', O => f x :: xs'
  | x :: xs', S i' => x :: update i' f xs'
  end.

(** [M.set(i, j, v)] *)
Definition set (i j : nat) (v : Q) (M : Matrix) : Matrix :=
  update i (update j (fun _ => v)) M.

(** [M.add(i, j, v)]: [M(i, j) += v]. *)
Definition add_entry (i j : nat) (v : Q) (M : Matrix) : Matrix :=
  update i (update j (fun x => x + v)) M.

(** [self.add(factor, M)]: [self += factor * M]. *)
Definition add_matrix (factor : Q) (M : Matrix) (self : Matrix) : Matrix :=
  map2 (fun srow mrow => map2 (fun s m => s + factor * m) srow mrow) self M.

(** The sum of a row. *)
Definition row_sum (M : Matrix) (i : nat) : Q :=
  fold_right Qplus 0 (nth i M []).

(** The same operations as expressions: sum, difference, multiple and
    matrix-vector product. *)
Definition vplus (x y : Vector) : Vector := map2 Qplus x y.
Definition vminus (x y : Vector) : Vector := map2 Qminus x y.
Definition vscale (a : Q) (x : Vector) : Vector := map (Qmult a) x.
Definition mv (M : Matrix) (x : Vector) : Vector := map (fun row => dot row x) M.

(** [Tensor<1, dim>] and [Tensor<2, dim>] (also [SymmetricTensor<2, dim>])
    by their components. *)
Definition Tensor1 := list Q.
Definition Tensor2 := list (list Q).

Definition tscale (a : Q) (t : Tensor1) : Tensor1 := map (fun x => a * x) t.
Definition tscale_r (t : Tensor1) (a : Q) : Tensor1 := map (fun x => x * a) t.
Definition t2scale (a : Q) (t : Tensor2) : Tensor2 := map (tscale a) t.
Definition t2scale_r (t : Tensor2) (a : Q) : Tensor2 :=
  map (fun r => tscale_r r a) t.

(** The double contraction [s : t], deal.II's [scalar_product]. *)
Fixpoint ddot (s t : Tensor2) : Q :=
  match s, t with
  | r :: s', r' :: t' => dot r r' + ddot s' t'
  | _, _ => 0
  end.

End LA.

(** Counted loops: [for (i = 0; i < n; ++i) s = body i s]. *)
Fixpoint for_loop {S : Type} (n : nat) (body : nat -> S -> S) (s : S) : S :=
  match n with
  | O => s
  | S n' => body n' (for_loop n' body s)
  end.

(* ================================================================== *)
(** * Time *)
(* ================================================================== *)

Module Time.

Open Scope Q_scope.

(** Modelled from the spec: [Utils::Time] (utilities.cpp is not among the
    sources).  Section 3, TimeState: current time, time-step size and step
    index, with [current = step_index * delta_t]; [increment] advances the
    step index by one and the current time by one step size. *)
Record Time : Type := mkTime {
  time_current : Q;
  delta_t : Q;
  timestep : nat
}.

Definition current (t : Time) : Q := time_current t.
Definition get_delta_t (t : Time) : Q := delta_t t.
Definition get_timestep (t : Time) : nat := timestep t.

Definition set_delta_t (dt : Q) (t : Time) : Time :=
  mkTime (time_current t) dt (timestep t).

Definition increment (t : Time) : Time :=
  mkTime (time_current t + delta_t t) (delta_t t) (S (timestep t)).

End Time.

(* ================================================================== *)
(** * Constraints: distributing local contributions *)
(* ================================================================== *)

Module Constraints.

Import LA.
Open Scope Q_scope.

(** deal.II's [AffineConstraints] is library code.  The model keeps what
    its documentation fixes: a constrained degree of freedom [i] carries a
    line [x_i = sum_k c_ik x_k + b_i] over unconstrained degrees of
    freedom (a hanging node interpolates its neighbours; a Dirichlet
    degree of freedom has no entries), and a local contribution is
    distributed by condensation: a constrained row or column is replaced
    by its line, so that what reaches the global matrix is
    [C^T M C]; each constrained degree of freedom of the cell also gets a
    positive diagonal entry to keep the matrix regular. *)
Record Line : Type := mkLine {
  entries : list (nat * Q);
  inhomogeneity : Q
}.

Definition AffineConstraints := list (nat * Line).

Fixpoint find_line (c : AffineConstraints) (dof : nat) : option Line :=
  match c with
  | [] => None
  | (d, l) :: rest => if Nat.eqb d dof then Some l else find_line rest dof
  end.

Definition is_constrained (c : AffineConstraints) (dof : nat) : bool :=
  match find_line c dof with Some _ => true | None => false end.

(** [constraints.add_line(dof)]: a new line, without entries and with
    inhomogeneity 0; nothing when the degree of freedom has a line
    already. *)
Definition add_line (dof : nat) (c : AffineConstraints) : AffineConstraints :=
  if is_constrained c dof then c else c ++ [(dof, mkLine [] 0)].

(** [constraints.set_inhomogeneity(dof, value)]: the constant of the line
    of [dof]; its entries are kept. *)
Definition set_inhomogeneity (dof : nat) (value : Q) (c : AffineConstraints)
  : AffineConstraints :=
  map (fun dl => if Nat.eqb (fst dl) dof
                 then (fst dl, mkLine (entries (snd dl)) value)
                 else dl) c.

(** The global rows (or columns) a local degree of freedom contributes to,
    with their weights. *)
Definition resolve (c : AffineConstraints) (dof : nat) : list (nat * Q) :=
  match find_line c dof with
  | Some l => entries l
  | None => [(dof, 1)]
  end.

Definition add_at (i : nat) (v : Q) (x : Vector) : Vector :=
  update i (fun s => s + v) x.

(** [global(r, c) += wr * m * wc] for every resolved row and column. *)
Definition scatter_entry (rows cols : list (nat * Q)) (m : Q) (global : Matrix)
  : Matrix :=
  fold_left
    (fun g '(r, wr) =>
       fold_left (fun g' '(c, wc) => add_entry r c (wr * m * wc) g') cols g)
    rows global.

Definition average_diagonal (local : Matrix) : Q :=
  for_loop (length local) (fun i s => s + Qabs (el local i i)) 0
  / inject_Z (Z.of_nat (length local)).

(** The diagonal entries of the constrained degrees of freedom. *)
Definition set_matrix_diagonals (c : AffineConstraints) (local : Matrix)
           (dofs : list nat) (global : Matrix) : Matrix :=
  for_loop (length dofs)
    (fun i g =>
       let gi := nth i dofs O in
       if is_constrained c gi then
         let d := Qabs (el local i i) in
         add_entry gi gi (if Qeq_bool d 0 then average_diagonal local else d) g
       else g)
    global.

(** [constraints.distribute_local_to_global(local_matrix,
    local_dof_indices, global_matrix)] *)
Definition distribute_matrix (c : AffineConstraints) (local : Matrix)
           (dofs : list nat) (global : Matrix) : Matrix :=
  let n := length dofs in
  let g :=
    for_loop n
      (fun i g =>
         for_loop n
           (fun j g' =>
              scatter_entry (resolve c (nth i dofs O)) (resolve c (nth j dofs O))
                            (el local i j) g')
           g)
      global in
  set_matrix_diagonals c local dofs g.

(** [constraints.distribute_local_to_global(local_vector,
    local_dof_indices, global_vector)] *)
Definition distribute_vector (c : AffineConstraints) (local : Vector)
           (dofs : list nat) (global : Vector) : Vector :=
  for_loop (length dofs)
    (fun i x =>
       fold_left (fun x' '(r, wr) => add_at r (wr * nth i local 0) x')
                 (resolve c (nth i dofs O)) x)
    global.

(** The right-hand side the matrix-and-vector variant produces: the local
    vector, corrected by the inhomogeneities of the constrained columns,
    is distributed like a vector. *)
Definition condensed_rhs (c : AffineConstraints) (local : Matrix)
           (local_rhs : Vector) (dofs : list nat) : Vector :=
  let n := length dofs in
  for_loop n
    (fun i acc =>
       acc ++
       [for_loop n
          (fun j s =>
             match find_line c (nth j dofs O) with
             | Some l => s - el local i j * inhomogeneity l
             | None => s
             end)
          (nth i local_rhs 0)])
    [].

(** [constraints.distribute_local_to_global(local_matrix, local_rhs,
    local_dof_indices, global_matrix, global_rhs)] *)
Definition distribute_system (c : AffineConstraints) (local : Matrix)
           (local_rhs : Vector) (dofs : list nat)
           (global : Matrix) (global_rhs : Vector) : Matrix * Vector :=
  (distribute_matrix c local dofs global,
   distribute_vector c (condensed_rhs c local local_rhs dofs) dofs global_rhs).

End Constraints.

(* ================================================================== *)
(** * The solid integrator: [Solid::LinearElasticity] *)
(* ================================================================== *)

Module Solid.

Import LA Constraints.
Open Scope Q_scope.

(** [Parameters::AllParameters]: the members linear_elasticity.cpp reads. *)
Record AllParameters : Type := mkParameters {
  n_solid_parts : nat;
  E : list Q;
  nu : list Q;
  eta : list Q;
  solid_rho : Q;
  damping : Q;
  simulation_type : string;
  gravity : list Q;
  solid_dirichlet_bcs : list (nat * nat);
  solid_neumann_bcs : list (nat * list Q);
  solid_neumann_bc_type : string
}.

(** Modelled from the spec: [LinearElasticMaterial] (its source file is
    not among the sources).  Section 3, Material: a record of Young's
    modulus, Poisson ratio, density and damping coefficient with the
    derived Lame parameters, immutable after construction. *)
Record LinearElasticMaterial : Type := mkMaterial {
  young : Q;
  poisson : Q;
  density : Q;
  viscosity : Q;
  lambda : Q;
  mu : Q
}.

Definition make_material (e n rho et : Q) : LinearElasticMaterial :=
  mkMaterial e n rho et
             (e * n / ((1 + n) * (1 - 2 * n)))
             (e / (2 * (1 + n))).

Definition get_density (m : LinearElasticMaterial) : Q := density m.
Definition get_lambda (m : LinearElasticMaterial) : Q := lambda m.
Definition get_mu (m : LinearElasticMaterial) : Q := mu m.

(** The constructor: [material.resize(n_solid_parts)] and one material per
    part from [E[i]], [nu[i]], [solid_rho], [eta[i]]. *)
Definition construct_materials (parameters : AllParameters)
  : Outcome (list LinearElasticMaterial) :=
  for_each (seq 0 (n_solid_parts parameters))
    (fun i material =>
       (e <- subscript (E parameters) (Z.of_nat i) ;;
        n <- subscript (nu parameters) (Z.of_nat i) ;;
        et <- subscript (eta parameters) (Z.of_nat i) ;;
        Returns (material ++ [make_material e n (solid_rho parameters) et]))%outcome)
    [].

(** What deal.II's [FEFaceValues] and the cell data give on one face. *)
Record Face : Type := mkFace {
  at_boundary : bool;
  boundary_id : nat;
  face_shape_value : nat -> nat -> Q;
  face_JxW : nat -> Q;
  normal_vector : nat -> Tensor1;
  fsi_traction : nat -> Tensor1
}.

(** What deal.II's [FEValues] and the cell iterator give on one cell. *)
Record Cell : Type := mkCell {
  material_id : Z;
  local_dof_indices : list nat;
  value : nat -> nat -> Tensor1;
  symmetric_gradient : nat -> nat -> Tensor2;
  JxW : nat -> Q;
  divergence_c : nat -> Q;
  JxW_c : Q;
  fsi_vel_diff : nat -> Tensor1;
  faces : list Face
}.

(** The finite element and the quadrature rules. *)
Record Discretisation : Type := mkDiscretisation {
  dim : nat;
  dofs_per_cell : nat;
  n_q_points : nat;
  n_f_q_points : nat;
  system_to_component_index : nat -> nat;
  n_dofs : nat
}.

(** The members of the solver that the embedded functions read or write. *)
Record State : Type := mkState {
  system_matrix : Matrix;
  stiffness_matrix : Matrix;
  damping_matrix : Matrix;
  system_matrix_updated : Matrix;
  system_rhs : Vector;
  nodal_forces_traction : Vector;
  nodal_forces_penalty : Vector;
  current_displacement : Vector;
  current_velocity : Vector;
  current_acceleration : Vector;
  previous_displacement : Vector;
  previous_velocity : Vector;
  previous_acceleration : Vector;
  added_mass_effect : Vector;
  nodal_mass : Vector;
  time : Time.Time
}.

Definition set_system_matrix (m : Matrix) (s : State) : State :=
  mkState m (stiffness_matrix s) (damping_matrix s) (system_matrix_updated s)
          (system_rhs s) (nodal_forces_traction s) (nodal_forces_penalty s)
          (current_displacement s) (current_velocity s) (current_acceleration s)
          (previous_displacement s) (previous_velocity s) (previous_acceleration s)
          (added_mass_effect s) (nodal_mass s) (time s).

Definition set_stiffness_matrix (m : Matrix) (s : State) : State :=
  mkState (system_matrix s) m (damping_matrix s) (system_matrix_updated s)
          (system_rhs s) (nodal_forces_traction s) (nodal_forces_penalty s)
          (current_displacement s) (current_velocity s) (current_acceleration s)
          (previous_displacement s) (previous_velocity s) (previous_acceleration s)
          (added_mass_effect s) (nodal_mass s) (time s).

Definition set_damping_matrix (m : Matrix) (s : State) : State :=
  mkState (system_matrix s) (stiffness_matrix s) m (system_matrix_updated s)
          (system_rhs s) (nodal_forces_traction s) (nodal_forces_penalty s)
          (current_displacement s) (current_velocity s) (current_acceleration s)
          (previous_displacement s) (previous_velocity s) (previous_acceleration s)
          (added_mass_effect s) (nodal_mass s) (time s).

Definition set_system_matrix_updated (m : Matrix) (s : State) : State :=
  mkState (system_matrix s) (stiffness_matrix s) (damping_matrix s) m
          (system_rhs s) (nodal_forces_traction s) (nodal_forces_penalty s)
          (current_displacement s) (current_velocity s) (current_acceleration s)
          (previous_displacement s) (previous_velocity s) (previous_acceleration s)
          (added_mass_effect s) (nodal_mass s) (time s).

Definition set_system_rhs (v : Vector) (s : State) : State :=
  mkState (system_matrix s) (stiffness_matrix s) (damping_matrix s)
          (system_matrix_updated s)
          v (nodal_forces_traction s) (nodal_forces_penalty s)
          (current_displacement s) (current_velocity s) (current_acceleration s)
          (previous_displacement s) (previous_velocity s) (previous_acceleration s)
          (added_mass_effect s) (nodal_mass s) (time s).

Definition set_nodal_forces (traction penalty : Vector) (s : State) : State :=
  mkState (system_matrix s) (stiffness_matrix s) (damping_matrix s)
          (system_matrix_updated s)
          (system_rhs s) traction penalty
          (current_displacement s) (current_velocity s) (current_acceleration s)
          (previous_displacement s) (previous_velocity s) (previous_acceleration s)
          (added_mass_effect s) (nodal_mass s) (time s).

Definition set_current (d v a : Vector) (s : State) : State :=
  mkState (system_matrix s) (stiffness_matrix s) (damping_matrix s)
          (system_matrix_updated s)
          (system_rhs s) (nodal_forces_traction s) (nodal_forces_penalty s)
          d v a
          (previous_displacement s) (previous_velocity s) (previous_acceleration s)
          (added_mass_effect s) (nodal_mass s) (time s).

Definition set_previous (d v a : Vector) (s : State) : State :=
  mkState (system_matrix s) (stiffness_matrix s) (damping_matrix s)
          (system_matrix_updated s)
          (system_rhs s) (nodal_forces_traction s) (nodal_forces_penalty s)
          (current_displacement s) (current_velocity s) (current_acceleration s)
          d v a
          (added_mass_effect s) (nodal_mass s) (time s).

Definition set_nodal_mass (v : Vector) (s : State) : State :=
  mkState (system_matrix s) (stiffness_matrix s) (damping_matrix s)
          (system_matrix_updated s)
          (system_rhs s) (nodal_forces_traction s) (nodal_forces_penalty s)
          (current_displacement s) (current_velocity s) (current_acceleration s)
          (previous_displacement s) (previous_velocity s) (previous_acceleration s)
          (added_mass_effect s) v (time s).

Definition set_time (t : Time.Time) (s : State) : State :=
  mkState (system_matrix s) (stiffness_matrix s) (damping_matrix s)
          (system_matrix_updated s)
          (system_rhs s) (nodal_forces_traction s) (nodal_forces_penalty s)
          (current_displacement s) (current_velocity s) (current_acceleration s)
          (previous_displacement s) (previous_velocity s) (previous_acceleration s)
          (added_mass_effect s) (nodal_mass s) t.

(** The per-cell accumulators of [assemble]. *)
Record Local : Type := mkLocal {
  local_matrix : Matrix;
  local_stiffness : Matrix;
  local_damping : Matrix;
  local_rhs : Vector;
  local_nodal_forces_traction : Vector;
  local_nodal_forces_penalty : Vector
}.

Definition on_local_matrix (f : Matrix -> Matrix) (l : Local) : Local :=
  mkLocal (f (local_matrix l)) (local_stiffness l) (local_damping l)
          (local_rhs l) (local_nodal_forces_traction l)
          (local_nodal_forces_penalty l).

Definition on_local_stiffness (f : Matrix -> Matrix) (l : Local) : Local :=
  mkLocal (local_matrix l) (f (local_stiffness l)) (local_damping l)
          (local_rhs l) (local_nodal_forces_traction l)
          (local_nodal_forces_penalty l).

Definition on_local_damping (f : Matrix -> Matrix) (l : Local) : Local :=
  mkLocal (local_matrix l) (local_stiffness l) (f (local_damping l))
          (local_rhs l) (local_nodal_forces_traction l)
          (local_nodal_forces_penalty l).

Definition on_local_rhs (f : Vector -> Vector) (l : Local) : Local :=
  mkLocal (local_matrix l) (local_stiffness l) (local_damping l)
          (f (local_rhs l)) (local_nodal_forces_traction l)
          (local_nodal_forces_penalty l).

Definition on_local_traction (f : Vector -> Vector) (l : Local) : Local :=
  mkLocal (local_matrix l) (local_stiffness l) (local_damping l)
          (local_rhs l) (f (local_nodal_forces_traction l))
          (local_nodal_forces_penalty l).

Definition on_local_penalty (f : Vector -> Vector) (l : Local) : Local :=
  mkLocal (local_matrix l) (local_stiffness l) (local_damping l)
          (local_rhs l) (local_nodal_forces_traction l)
          (f (local_nodal_forces_penalty l)).

Definition is_FSI (parameters : AllParameters) : bool :=
  String.eqb (simulation_type parameters) "FSI".

Fixpoint lookup {A : Type} (k : nat) (m : list (nat * A)) : option A :=
  match m with
  | [] => None
  | (k', a) :: rest => if Nat.eqb k' k then Some a else lookup k rest
  end.

Definition contains {A : Type} (k : nat) (m : list (nat * A)) : bool :=
  match lookup k m with Some _ => true | None => false end.

(** ** [LinearElasticity::assemble] *)

Section Assembly.

Variable parameters : AllParameters.
Variable fe : Discretisation.
Variable constraints : AffineConstraints.
Variable material : list LinearElasticMaterial.
Variable is_lag_penalty_explicit : bool.

Definition clear_matrix (m : Matrix) : Matrix := map (map (fun _ => 0)) m.
Definition clear_vector (v : Vector) : Vector := map (fun _ => 0) v.

(** The material of a cell, as [assemble] selects it (lines 88-92):
    [material[mat_id - 1]], with the id forced to 1 when there is a
    single material. *)
Definition assemble_material (cell : Cell) : Outcome LinearElasticMaterial :=
  let mat_id := material_id cell in
  let mat_id := if Nat.eqb (length material) 1 then 1%Z else mat_id in
  subscript material (mat_id - 1)%Z.

(** The material of a cell, as [update_strain_and_stress] selects it
    (lines 553-556): the same lookup, the override decided by
    [parameters.n_solid_parts]. *)
Definition update_material (cell : Cell) : Outcome LinearElasticMaterial :=
  let mat_id := material_id cell in
  let mat_id := if Nat.eqb (n_solid_parts parameters) 1 then 1%Z else mat_id in
  subscript material (mat_id - 1)%Z.

Definition gravity_tensor : Tensor1 :=
  map (fun j => nth j (gravity parameters) 0) (seq 0 (dim fe)).

(** The loop over the quadrature points (lines 106-175). *)
Definition integrate_volume (is_initial assemble_matrix : bool)
           (rho mu_ dt : Q) (cell : Cell) (l : Local) : Local :=
  for_loop (n_q_points fe)
    (fun q l =>
       let phi := fun k => value cell k q in
       let symmetric_grad_phi := fun k => symmetric_gradient cell k q in
       for_loop (dofs_per_cell fe)
         (fun i l =>
            let l :=
              if assemble_matrix then
                for_loop (dofs_per_cell fe)
                  (fun j l =>
                     let l :=
                       on_local_matrix
                         (add_entry i j
                            (dot (tscale rho (phi i)) (phi j) * JxW cell q)) l in
                     if negb is_initial then
                       on_local_stiffness
                         (add_entry i j
                            (ddot (t2scale_r (t2scale 2 (symmetric_grad_phi i)) mu_)
                                  (symmetric_grad_phi j) * JxW cell q)) l
                     else l)
                  l
              else l in
            let l :=
              on_local_rhs
                (add_at i (dot (phi i) gravity_tensor * rho * JxW cell q)) l in
            if is_FSI parameters then
              let l :=
                on_local_rhs
                  (add_at i (dot (phi i) (fsi_vel_diff cell q) * JxW cell q)) l in
              let l :=
                on_local_penalty
                  (add_at i (dot (phi i) (fsi_vel_diff cell q) * JxW cell q)) l in
              if negb is_lag_penalty_explicit then
                for_loop (dofs_per_cell fe)
                  (fun j l =>
                     on_local_damping
                       (add_entry i j
                          (dot (tscale rho (phi i)) (phi j) * JxW cell q / dt)) l)
                  l
              else l
            else l)
         l)
    l.

(** Reduced integration of the volumetric part (lines 177-196). *)
Definition integrate_volumetric (is_initial assemble_matrix : bool)
           (lambda_ : Q) (cell : Cell) (l : Local) : Local :=
  for_loop (dofs_per_cell fe)
    (fun i l =>
       let phi_i_div_c := divergence_c cell i in
       if assemble_matrix then
         for_loop (dofs_per_cell fe)
           (fun j l =>
              let phi_j_div_c := divergence_c cell j in
              if negb is_initial then
                on_local_stiffness
                  (add_entry i j (phi_i_div_c * phi_j_div_c * lambda_ * JxW_c cell)) l
              else l)
           l
       else l)
    l.

(** The Neumann boundary conditions of one face (lines 208-275). *)
Definition integrate_face (face : Face) (l : Local) : Local :=
  let id := boundary_id face in
  if negb (at_boundary face) || contains id (solid_dirichlet_bcs parameters)
  then l
  else if negb (is_FSI parameters) &&
          negb (contains id (solid_neumann_bcs parameters))
  then l
  else
    let prescribed_value :=
      if negb (is_FSI parameters) then
        match lookup id (solid_neumann_bcs parameters) with
        | Some v => v
        | None => []
        end
      else [] in
    let traction0 :=
      if negb (is_FSI parameters) &&
         String.eqb (solid_neumann_bc_type parameters) "Traction"
      then map (fun i => nth i prescribed_value 0) (seq 0 (dim fe))
      else repeat 0 (dim fe) in
    snd
      (for_loop (n_f_q_points fe)
         (fun q '(traction, l) =>
            let traction :=
              if negb (is_FSI parameters) &&
                 String.eqb (solid_neumann_bc_type parameters) "Pressure"
              then tscale_r (normal_vector face q) (nth 0 prescribed_value 0)
              else if is_FSI parameters then fsi_traction face q
              else traction in
            (traction,
             for_loop (dofs_per_cell fe)
               (fun j l =>
                  let component_j := system_to_component_index fe j in
                  let f := face_shape_value face j q *
                           nth component_j traction 0 * face_JxW face q in
                  on_local_traction (add_at j f) (on_local_rhs (add_at j f) l))
               l))
         (traction0, l)).

(** The lumped mass matrix (lines 279-300): the row sum goes to the
    diagonal, every other entry of the row becomes 0. *)
Definition lump_row (i : nat) (m : Matrix) : Matrix :=
  let sum := for_loop (dofs_per_cell fe) (fun j sum => sum + el m i j) 0 in
  for_loop (dofs_per_cell fe)
    (fun j m => if Nat.eqb i j then set i j sum m else set i j 0 m)
    m.

Definition lump (m : Matrix) : Matrix :=
  for_loop (dofs_per_cell fe) lump_row m.

(** The accumulators of a cell before lumping and distribution
    (lines 95-276). *)
Definition integrate_cell (is_initial assemble_matrix : bool) (rho dt : Q)
           (m : LinearElasticMaterial) (cell : Cell) (damping_in : Matrix)
  : Local :=
  let n := dofs_per_cell fe in
  let l := mkLocal (zero_matrix n n) (zero_matrix n n) damping_in
                   (zero_vector n) (zero_vector n) (zero_vector n) in
  let l := integrate_volume is_initial assemble_matrix rho (get_mu m) dt cell l in
  let l := integrate_volumetric is_initial assemble_matrix (get_lambda m) cell l in
  fold_left (fun l face => integrate_face face l) (faces cell) l.

(** Lumping and distribution of one cell (lines 278-335). *)
Definition distribute_cell (assemble_matrix : bool) (cell : Cell)
           (l : Local) (s : State) : State :=
  let dofs := local_dof_indices cell in
  if assemble_matrix then
    let l := on_local_matrix lump l in
    let '(sm, rhs) :=
      distribute_system constraints (local_matrix l) (local_rhs l) dofs
                        (system_matrix s) (system_rhs s) in
    let s := set_system_rhs rhs (set_system_matrix sm s) in
    let s :=
      set_stiffness_matrix
        (distribute_matrix constraints (local_stiffness l) dofs
                           (stiffness_matrix s)) s in
    set_nodal_forces
      (distribute_vector constraints (local_nodal_forces_traction l) dofs
                         (nodal_forces_traction s))
      (distribute_vector constraints (local_nodal_forces_penalty l) dofs
                         (nodal_forces_penalty s)) s
  else
    let s :=
      set_system_rhs
        (distribute_vector constraints (local_rhs l) dofs (system_rhs s)) s in
    let s :=
      set_nodal_forces
        (distribute_vector constraints (local_nodal_forces_traction l) dofs
                           (nodal_forces_traction s))
        (distribute_vector constraints (local_nodal_forces_penalty l) dofs
                           (nodal_forces_penalty s)) s in
    if negb is_lag_penalty_explicit then
      set_damping_matrix
        (distribute_matrix constraints (local_damping l) dofs
                           (damping_matrix s)) s
    else s.

(** One turn of the loop over the cells.  [local_damping] is declared
    outside the loop and not reset, so it is carried from cell to cell. *)
Definition assemble_cell (is_initial assemble_matrix : bool) (rho : Q)
           (cell : Cell) (acc : State * Matrix) : Outcome (State * Matrix) :=
  let '(s, damping_in) := acc in
  (m <- assemble_material cell ;;
   let l := integrate_cell is_initial assemble_matrix rho
                           (Time.get_delta_t (time s)) m cell damping_in in
   Returns (distribute_cell assemble_matrix cell l s, local_damping l))%outcome.

Definition assemble (mesh : list Cell) (is_initial assemble_matrix : bool)
           (s : State) : Outcome State :=
  let s :=
    if assemble_matrix
    then set_stiffness_matrix (clear_matrix (stiffness_matrix s))
           (set_system_matrix (clear_matrix (system_matrix s)) s)
    else s in
  let s := set_system_rhs (clear_vector (system_rhs s)) s in
  let s := set_nodal_forces (clear_vector (nodal_forces_traction s))
                            (clear_vector (nodal_forces_penalty s)) s in
  (m0 <- subscript material 0%Z ;;
   let rho := get_density m0 in
   let n := dofs_per_cell fe in
   r <- for_each mesh (assemble_cell is_initial assemble_matrix rho)
                 (s, zero_matrix n n) ;;
   Returns (fst r))%outcome.

(** The mass matrix assembled consistently: the loop over the cells of
    [assemble] with the lumping step left out.  It is what the lumped
    matrix is compared with; the solver itself never forms it. *)
Definition consistent_cell (is_initial : bool) (rho dt : Q) (cell : Cell)
           (acc : Matrix * Matrix) : Outcome (Matrix * Matrix) :=
  let '(global, damping_in) := acc in
  (m <- assemble_material cell ;;
   let l := integrate_cell is_initial true rho dt m cell damping_in in
   Returns (distribute_matrix constraints (local_matrix l)
                              (local_dof_indices cell) global,
            local_damping l))%outcome.

Definition consistent_mass_matrix (mesh : list Cell) (is_initial : bool)
           (s : State) : Outcome Matrix :=
  (m0 <- subscript material 0%Z ;;
   let n := dofs_per_cell fe in
   r <- for_each mesh
                 (consistent_cell is_initial (get_density m0)
                                  (Time.get_delta_t (time s)))
                 (clear_matrix (system_matrix s), zero_matrix n n) ;;
   Returns (fst r))%outcome.

Definition assemble_system (mesh : list Cell) (is_initial : bool) (s : State)
  : Outcome State :=
  assemble mesh is_initial true s.

Definition assemble_rhs (mesh : list Cell) (s : State) : Outcome State :=
  assemble mesh false false s.

(** The material lookups of [update_strain_and_stress], cell by cell
    (lines 547-556); the strain and stress fields it fills are not
    part of [State]. *)
Definition update_strain_and_stress_materials (mesh : list Cell)
  : Outcome (list LinearElasticMaterial) :=
  for_each mesh
    (fun cell acc =>
       (m <- update_material cell ;; Returns (acc ++ [m]))%outcome)
    [].

End Assembly.

(** ** [LinearElasticity::run_one_step] *)

(** The Newmark constants (lines 358-360), as [(alpha, gamma, beta)]. *)
Definition newmark_constants (damping_parameter : Q) : Q * Q * Q :=
  let alpha := - damping_parameter in
  let gamma := 0.5 - alpha in
  let beta := Qpower (1 - alpha) 2 / 4 in
  (alpha, gamma, beta).

Section RunOneStep.

Variable parameters : AllParameters.
Variable fe : Discretisation.
Variable constraints : AffineConstraints.
Variable material : list LinearElasticMaterial.
Variable is_lag_penalty_explicit : bool.
Variable mesh : list Cell.

(** [SolidSolver::solve(A, x, b)] is not among the sources: it solves
    [A x = b] starting from [x] and returns the solution with the
    iteration count and the residual, or fails to converge. *)
Variable solve : Matrix -> Vector -> Vector -> Outcome (Vector * (nat * Q)).

(** What follows the update of the fields in a step and is not among
    the sources either: [calculate_KE], [output_results] and, when it
    is time to refine, [refine_mesh] with the reassembly. *)
Variable epilogue : State -> Outcome State.

Definition alpha : Q := fst (fst (newmark_constants (damping parameters))).
Definition gamma : Q := snd (fst (newmark_constants (damping parameters))).
Definition beta : Q := snd (newmark_constants (damping parameters)).

(** [system_matrix_updated.set(i, i, system_matrix.el(i, i) +
    added_mass_effect[i])] for every degree of freedom. *)
Definition add_added_mass (s : State) : State :=
  set_system_matrix_updated
    (for_loop (n_dofs fe)
       (fun i m =>
          set i i (el (system_matrix s) i i + nth i (added_mass_effect s) 0) m)
       (system_matrix_updated s))
    s.

(** The first step (lines 362-406): the initial acceleration from the
    mass matrix, then the effective matrix. *)
Definition first_step_block (s : State) : Outcome State :=
  (s <- assemble_system parameters fe constraints material
                        is_lag_penalty_explicit mesh true s ;;
   let s :=
     set_nodal_mass
       (for_loop (n_dofs fe)
          (fun i v => update i (fun _ => el (system_matrix s) i i) v)
          (nodal_mass s)) s in
   let s := set_system_matrix_updated (system_matrix s) s in
   let s :=
     if is_FSI parameters then
       let s := add_added_mass s in
       if negb is_lag_penalty_explicit then
         let tmp := zero_vector (n_dofs fe) in
         let tmp := vmult (damping_matrix s) tmp (current_velocity s) in
         set_system_rhs (add (-1) tmp (system_rhs s)) s
       else s
     else s in
   r <- solve (system_matrix_updated s) (previous_acceleration s) (system_rhs s) ;;
   let s := set_previous (previous_displacement s) (previous_velocity s) (fst r) s in
   s <- assemble_system parameters fe constraints material
                        is_lag_penalty_explicit mesh false s ;;
   let dt := Time.get_delta_t (time s) in
   let s :=
     set_system_matrix
       (add_matrix (dt * dt * beta * (1 + alpha)) (stiffness_matrix s)
                   (system_matrix s)) s in
   let s := set_system_matrix_updated (system_matrix s) s in
   Returns (set_current (current_displacement s) (current_velocity s)
                        (previous_acceleration s) s))%outcome.

(** The clock advances and, in FSI mode, the right-hand side is
    assembled anew (lines 411-420). *)
Definition begin_step (s : State) : Outcome State :=
  let s := set_time (Time.increment (time s)) s in
  if is_FSI parameters
  then assemble_rhs parameters fe constraints material
                    is_lag_penalty_explicit mesh s
  else Returns s.

(** The displacement predicted from the previous step (lines 423-427). *)
Definition predictor (dt : Q) (s : State) : Vector :=
  add2 (dt * (1 + alpha)) (previous_velocity s)
       ((0.5 - beta) * dt * dt * (1 + alpha)) (previous_acceleration s)
       (previous_displacement s).

(** The system handed to the solver (lines 422-453): the state with
    [system_matrix_updated] brought up to date, and the modified
    right-hand side [tmp1]. *)
Definition effective_system (dt : Q) (s : State) : State * Vector :=
  let tmp1 := system_rhs s in
  let tmp2 := predictor dt s in
  let tmp3 := zero_vector (n_dofs fe) in
  let tmp3 := vmult (stiffness_matrix s) tmp3 tmp2 in
  let tmp1 := sub tmp3 tmp1 in
  if is_FSI parameters then
    let s := add_added_mass s in
    if negb is_lag_penalty_explicit then
      let s :=
        set_system_matrix_updated
          (add_matrix (gamma * dt) (damping_matrix s) (system_matrix_updated s))
          s in
      let tmp4 := zero_vector (n_dofs fe) in
      let tmp5 := zero_vector (n_dofs fe) in
      let tmp4 := scale (dt * (1 - gamma)) tmp4 in
      let tmp4 := vmult (damping_matrix s) tmp4 (previous_acceleration s) in
      let tmp5 := vmult (damping_matrix s) tmp5 (previous_velocity s) in
      let tmp1 := sub tmp4 tmp1 in
      let tmp1 := sub tmp5 tmp1 in
      (s, tmp1)
    else (s, tmp1)
  else (s, tmp1).

(** The update of velocity and displacement from the solved
    acceleration, and the shift of the current fields into the previous
    ones (lines 459-472). *)
Definition update_fields (dt : Q) (s : State) : State :=
  let current_velocity_ := previous_velocity s in
  let current_velocity_ :=
    add (dt * (1 - gamma)) (previous_acceleration s) current_velocity_ in
  let current_velocity_ :=
    add (dt * gamma) (current_acceleration s) current_velocity_ in
  let current_displacement_ := previous_displacement s in
  let current_displacement_ :=
    add dt (previous_velocity s) current_displacement_ in
  let current_displacement_ :=
    add (dt * dt * (0.5 - beta)) (previous_acceleration s) current_displacement_ in
  let current_displacement_ :=
    add (dt * dt * beta) (current_acceleration s) current_displacement_ in
  let s := set_current current_displacement_ current_velocity_
                       (current_acceleration s) s in
  set_previous (current_displacement s) (current_velocity s)
               (current_acceleration s) s.

(** Lines 408-472. *)
Definition advance (s : State) : Outcome State :=
  let dt := Time.get_delta_t (time s) in
  (s <- begin_step s ;;
   let '(s, tmp1) := effective_system dt s in
   r <- solve (system_matrix_updated s) (current_acceleration s) tmp1 ;;
   let s := set_current (current_displacement s) (current_velocity s) (fst r) s in
   Returns (update_fields dt s))%outcome.

Definition run_one_step (first_step : bool) (s : State) : Outcome State :=
  (s <- (if first_step then first_step_block s else Returns s) ;;
   s <- advance s ;;
   update_strain_and_stress_materials parameters material mesh ;;;
   epilogue s)%outcome.

End RunOneStep.

End Solid.

(* ================================================================== *)
(** * Checkpoints: [SharedSolidSolver::save_checkpoint] *)
(* ================================================================== *)

Module Checkpoint.

Import LA.
Open Scope string_scope.

(** An [fs::path] inside the working directory, split where
    [path::stem()] and [path::extension()] split it. *)
Record path : Type := mkPath {
  stem : string;
  extension : string
}.

Definition filename (p : path) : string := stem p ++ extension p.

(** [operator<] and [operator==] on paths of one directory compare the
    file names. *)
Definition path_ltb (p q : path) : bool := String.ltb (filename p) (filename q).
Definition path_eqb (p q : path) : bool := String.eqb (filename p) (filename q).

Definition replace_extension (ext : string) (p : path) : path :=
  mkPath (stem p) ext.

Definition displacement_ext : string := ".solid_checkpoint_displacement".
Definition velocity_ext : string := ".solid_checkpoint_velocity".
Definition acceleration_ext : string := ".solid_checkpoint_acceleration".

(** The working directory: the files in the order
    [fs::directory_iterator] yields them, each with its content. *)
Definition Directory := list (path * Vector).

(** [std::set<fs::path>::insert]: the set is kept sorted, an element
    equivalent to one already there is not inserted. *)
Fixpoint set_insert (p : path) (s : list path) : list path :=
  match s with
  | [] => [p]
  | q :: s' =>
      if path_ltb p q then p :: q :: s'
      else if path_ltb q p then q :: set_insert p s'
      else q :: s'
  end.

(** [fs::remove] *)
Definition remove (p : path) (d : Directory) : Directory :=
  filter (fun e => negb (path_eqb (fst e) p)) d.

(** [std::ofstream f(p)] followed by [v.block_write(f)]: the file is
    created, or truncated if it exists, and holds [v]. *)
Fixpoint write (p : path) (v : Vector) (d : Directory) : Directory :=
  match d with
  | [] => [(p, v)]
  | e :: d' => if path_eqb (fst e) p then (p, v) :: d' else e :: write p v d'
  end.

(** Lines 874-880: the displacement checkpoints in the directory. *)
Definition find_checkpoints (d : Directory) : list path :=
  fold_left
    (fun checkpoints e =>
       if String.eqb (extension (fst e)) displacement_ext
       then set_insert (fst e) checkpoints
       else checkpoints)
    d [].

(** Lines 881-891: while more than one checkpoint is in the set, the
    first one is removed from the disk with its two companions, and
    erased from the set. *)
Fixpoint remove_excess (checkpoints : list path) (d : Directory) : Directory :=
  match checkpoints with
  | [] => d
  | first :: rest =>
      match rest with
      | [] => d
      | _ :: _ =>
          let to_be_removed := first in
          let d := remove to_be_removed d in
          let to_be_removed := replace_extension velocity_ext to_be_removed in
          let d := remove to_be_removed d in
          let to_be_removed := replace_extension acceleration_ext to_be_removed in
          let d := remove to_be_removed d in
          remove_excess rest d
      end
  end.

Fixpoint zeros (n : nat) : string :=
  match n with
  | O => EmptyString
  | S n' => String "0" (zeros n')
  end.

(** deal.II's [Utilities::int_to_string(value, digits)]: the decimal
    representation, padded with leading zeros to [digits] characters. *)
Definition int_to_string (value digits : nat) : string :=
  let lc_string := NilEmpty.string_of_uint (Nat.to_uint value) in
  zeros (digits - String.length lc_string) ++ lc_string.

(** deal.II's [Utilities::string_to_int], on the strings
    [int_to_string] produces. *)
Definition string_to_int (s : string) : option nat :=
  option_map Nat.of_uint (NilEmpty.uint_of_string s).

(** The name of the checkpoint of a step (lines 893-895). *)
Definition checkpoint_file (output_index : nat) : path :=
  replace_extension displacement_ext (mkPath (int_to_string output_index 6) "").

(** [save_checkpoint(output_index)], as the process [this_mpi_process]
    runs it on the directory [d]. *)
Definition save_checkpoint (this_mpi_process : nat)
           (current_displacement current_velocity current_acceleration : Vector)
           (output_index : nat) (d : Directory) : Directory :=
  let localized_disp := current_displacement in
  let localized_vel := current_velocity in
  let localized_acc := current_acceleration in
  if Nat.eqb this_mpi_process 0 then
    let checkpoints := find_checkpoints d in
    let d := remove_excess checkpoints d in
    let checkpoint_file := checkpoint_file output_index in
    let d := write checkpoint_file localized_disp d in
    let checkpoint_file := replace_extension velocity_ext checkpoint_file in
    let d := write checkpoint_file localized_vel d in
    let checkpoint_file := replace_extension acceleration_ext checkpoint_file in
    write checkpoint_file localized_acc d
  else d.

Definition exists_file (p : path) (d : Directory) : bool :=
  existsb (fun e => path_eqb (fst e) p) d.

(** The checkpoint sets on disk, by their stems: the displacement files
    whose two companions exist. *)
Definition checkpoint_sets (d : Directory) : list string :=
  map (fun e => stem (fst e))
      (filter
         (fun e =>
            String.eqb (extension (fst e)) displacement_ext &&
            exists_file (replace_extension velocity_ext (fst e)) d &&
            exists_file (replace_extension acceleration_ext (fst e)) d)
         d).

(** The displacement files on disk. *)
Definition displacement_files (d : Directory) : list path :=
  filter (fun p => String.eqb (extension p) displacement_ext) (map fst d).

(** Saving at the steps of a list, one after the other, on process 0;
    the fields written are those of the step. *)
Fixpoint save_all (fields : nat -> Vector * Vector * Vector)
         (steps : list nat) (d : Directory) : Directory :=
  match steps with
  | [] => d
  | n :: rest =>
      let '(u, v, a) := fields n in
      save_all fields rest (save_checkpoint 0 u v a n d)
  end.

End Checkpoint.

(* ================================================================== *)
(** * The external-coupling wrapper: ghost nodes *)
(* ================================================================== *)

Module Sable.

Open Scope Z_scope.

(** The sizes of the grid of the external solver, as the reductions of
    [run_one_step] leave them. *)
Record Sizes : Type := mkSizes {
  sable_no_nodes_one_dir : Z;
  sable_no_ele : Z;
  sable_no_nodes : Z
}.

(** [a / b] on two [int]: the quotient truncated towards zero; a zero
    divisor is undefined behaviour. *)
Definition int_div (a b : Z) : Outcome Z :=
  if b =? 0 then Undefined else Returns (Z.quot a b).

(** [a % b] on two [int]: the remainder of that quotient; a zero divisor
    is undefined behaviour. *)
Definition int_rem (a b : Z) : Outcome Z :=
  if b =? 0 then Undefined else Returns (Z.rem a b).

(** [int(x)] on a [double]: the integer part, towards zero. *)
Definition double_to_int (x : Q) : Z := Z.quot (Qnum x) (Zpos (Qden x)).

(** [int(std::sqrt(x))]: the square root of a non-negative [int] is exact
    to the last bit, so its integer part is the integer square root; the
    root of a negative number is not a number, whose conversion to [int]
    is undefined. *)
Definition int_sqrt (x : Z) : Outcome Z :=
  if x <? 0 then Undefined else Returns (Z.sqrt x).

(** [for (int x = lo; x < hi; x++)]: the values [x] takes. *)
Definition int_range (lo hi : Z) : list Z :=
  map (fun k => lo + Z.of_nat k) (seq 0 (Z.to_nat (hi - lo))).

(** Lines 185-198 and 200-212: the ids one of the two triple loops
    pushes, layer by layer and row by row. *)
Definition interior_ids (one_dir z_begin z_end : Z) : list Z :=
  flat_map
    (fun l =>
       let corner_id := l * one_dir * one_dir + one_dir + 1 in
       flat_map
         (fun i => map (fun j => corner_id + j + i * one_dir)
                       (int_range 0 (one_dir - 2)))
         (int_range 0 (one_dir - 2)))
    (int_range z_begin z_end).

Section GhostNodes.

(** [int(std::cbrt(x))], used in three dimensions. *)
Variable int_cbrt : Z -> Outcome Z.

(** [find_ghost_nodes] up to the end of its two loops (lines 159-212):
    the lists [non_ghost_nodes] and [non_ghost_cells] after them; the
    loops append to the lists.  The two [assert]s that end the function
    are in [Fluid.find_ghost_nodes], which runs it on the members of the
    wrapper. *)
Definition find_ghost_nodes (dim : nat) (sizes : Sizes)
           (non_ghost_nodes non_ghost_cells : list Z) : Outcome (list Z * list Z) :=
  let n := sable_no_nodes_one_dir sizes in
  (node_z <- int_div (sable_no_nodes sizes) (n * n) ;;
   sable_no_el_one_dir <- (if Nat.eqb dim 2 then int_sqrt (sable_no_ele sizes)
                           else int_cbrt (sable_no_ele sizes)) ;;
   ele_z <- int_div (sable_no_ele sizes) (sable_no_el_one_dir * sable_no_el_one_dir) ;;
   let node_z_begin := if Nat.eqb dim 3 then 1 else 0 in
   let node_z_end := if Nat.eqb dim 3 then node_z - 1 else node_z in
   let ele_z_begin := if Nat.eqb dim 3 then 1 else 0 in
   let ele_z_end := if Nat.eqb dim 3 then ele_z - 1 else ele_z in
   Returns (non_ghost_nodes ++ interior_ids n node_z_begin node_z_end,
            non_ghost_cells
              ++ interior_ids sable_no_el_one_dir ele_z_begin ele_z_end))%outcome.

End GhostNodes.

End Sable.

(* ================================================================== *)
(** * The fluid integrator and the external-coupling wrapper *)
(* ================================================================== *)

Module Fluid.

Import LA Constraints.
Open Scope Q_scope.

(** [Parameters::AllParameters]: the members mpi_stokes.cpp and
    mpi_sable_wrapper.cpp read.  The element degrees are
    [unsigned int]. *)
Record AllParameters : Type := mkParameters {
  fluid_velocity_degree : Z;
  fluid_pressure_degree : Z;
  viscosity : Q;
  fluid_rho : Q;
  solid_rho : Q;
  penalty_scale_factor : Q;
  gravity : list Q;
  output_interval : Q
}.

(** Subtraction of two [unsigned int] values. *)
Definition unsigned_sub (a b : Z) : Z := ((a - b) mod 2 ^ 32)%Z.

(** deal.II's [Assert(cond, exc)]: checked in debug builds only. *)
Definition Assert (debug : bool) (cond : bool) (msg : string) : Outcome unit :=
  if debug then AssertThrow cond msg else Returns tt.

(** ** The constructors *)

(** [Stokes::Stokes] (lines 127-137). *)
Definition Stokes_constructor (debug : bool) (parameters : AllParameters)
  : Outcome unit :=
  Assert debug
    (unsigned_sub (fluid_velocity_degree parameters)
                  (fluid_pressure_degree parameters) =? 1)%Z
    "Velocity finite element should be one order higher than pressure!".

(** [a == b == 1] in C++ is [(a == b) == 1]: the inner comparison yields
    a [bool], which is promoted to [int] for the outer one. *)
Definition bool_to_int (b : bool) : Z := if b then 1%Z else 0%Z.

(** [SableWrap::SableWrap] (lines 10-20). *)
Definition SableWrap_constructor (parameters : AllParameters) : Outcome unit :=
  AssertThrow
    (bool_to_int (fluid_velocity_degree parameters =?
                  fluid_pressure_degree parameters)%Z =? 1)%Z
    "Use 1st order elements for both pressure and velocity!".

(** ** [Stokes::assemble]: the cell integrals *)

Record Cell : Type := mkCell {
  indicator : Z;
  phi_u : nat -> nat -> Tensor1;
  phi_p : nat -> nat -> Q;
  div_phi_u : nat -> nat -> Q;
  symgrad_phi_u : nat -> nat -> Tensor2;
  grad_phi_u : nat -> nat -> Tensor2;
  JxW : nat -> Q;
  current_velocity_values : nat -> Tensor1;
  fsi_acc_values : nat -> Tensor1;
  fsi_cell_stress : nat -> nat -> Q
}.

Record Discretisation : Type := mkDiscretisation {
  dim : nat;
  dofs_per_cell : nat;
  n_q_points : nat;
  system_to_component_index : nat -> nat
}.

Record Local : Type := mkLocal {
  local_matrix : Matrix;
  local_preconditioner_matrix : Matrix;
  local_rhs : Vector;
  local_rhs_acceleration_part : Vector;
  local_rhs_stress_part : Vector;
  local_fsi_force : Vector
}.

Definition on_local_matrix (f : Matrix -> Matrix) (l : Local) : Local :=
  mkLocal (f (local_matrix l)) (local_preconditioner_matrix l) (local_rhs l)
          (local_rhs_acceleration_part l) (local_rhs_stress_part l)
          (local_fsi_force l).

Definition on_local_preconditioner (f : Matrix -> Matrix) (l : Local) : Local :=
  mkLocal (local_matrix l) (f (local_preconditioner_matrix l)) (local_rhs l)
          (local_rhs_acceleration_part l) (local_rhs_stress_part l)
          (local_fsi_force l).

Definition on_local_rhs (f : Vector -> Vector) (l : Local) : Local :=
  mkLocal (local_matrix l) (local_preconditioner_matrix l) (f (local_rhs l))
          (local_rhs_acceleration_part l) (local_rhs_stress_part l)
          (local_fsi_force l).

Definition on_local_forces (fa fs ff : Vector -> Vector) (l : Local) : Local :=
  mkLocal (local_matrix l) (local_preconditioner_matrix l) (local_rhs l)
          (fa (local_rhs_acceleration_part l)) (fs (local_rhs_stress_part l))
          (ff (local_fsi_force l)).

Section Assembly.

Variable parameters : AllParameters.
Variable fe : Discretisation.
(** [time.get_delta_t()] *)
Variable delta_t : Q.

(** Lines 396-404. *)
Definition rho : Q := fluid_rho parameters.
Definition rho_s : Q := solid_rho parameters.
Definition dt_inv : Q := 1 / delta_t.
Definition theta : Q := penalty_scale_factor parameters.
Definition mass_coef_s : Q := (1 + theta) * rho_s * dt_inv.
Definition mass_coef_f : Q := rho * dt_inv.

Definition gravity_tensor : Tensor1 :=
  map (fun i => nth i (gravity parameters) 0) (seq 0 (dim fe)).

(** Lines 516-530: the symmetric stress tensor of the solid at a
    quadrature point, filled row by row from the stored components when
    the indicator is not 0, zero otherwise. *)
Definition fsi_stress_tensor (cell : Cell) (q : nat) : Tensor2 :=
  if (indicator cell =? 0)%Z then repeat (repeat 0 (dim fe)) (dim fe)
  else
    map (fun k =>
           map (fun m =>
                  let hi := Nat.max k m in
                  let lo := Nat.min k m in
                  fsi_cell_stress cell (hi * (hi + 1) / 2 + lo)%nat q)
               (seq 0 (dim fe)))
        (seq 0 (dim fe)).

(** Lines 502-623: the integrals of one cell. *)
Definition integrate_cell (cell : Cell) : Local :=
  let ind := indicator cell in
  let n := dofs_per_cell fe in
  let viscosity := viscosity parameters in
  for_loop (n_q_points fe)
    (fun q l =>
       let phi_u := fun k => phi_u cell k q in
       let phi_p := fun k => phi_p cell k q in
       let div_phi_u := fun k => div_phi_u cell k q in
       let symgrad_phi_u := fun k => symgrad_phi_u cell k q in
       let grad_phi_u := fun k => grad_phi_u cell k q in
       let fsi_stress_tensor := fsi_stress_tensor cell q in
       for_loop n
         (fun i l =>
            let l :=
              for_loop n
                (fun j l =>
                   let l :=
                     if (ind =? 0)%Z then
                       on_local_matrix
                         (add_entry i j
                            (mass_coef_f * dot (phi_u i) (phi_u j) * JxW cell q)) l
                     else
                       on_local_matrix
                         (add_entry i j
                            (mass_coef_s * dot (phi_u i) (phi_u j) * JxW cell q)) l in
                   let l :=
                     on_local_matrix
                       (add_entry i j
                          ((2 * viscosity * ddot (symgrad_phi_u i) (symgrad_phi_u j)
                            - div_phi_u i * phi_p j - phi_p i * div_phi_u j)
                           * JxW cell q)) l in
                   if Nat.ltb (system_to_component_index fe i) (dim fe) &&
                      Nat.ltb (system_to_component_index fe j) (dim fe)
                   then
                     on_local_preconditioner
                       (add_entry i j
                          ((dot (tscale (if (ind =? 0)%Z then mass_coef_f
                                         else mass_coef_s) (phi_u i)) (phi_u j)
                            + viscosity * ddot (grad_phi_u i) (grad_phi_u j))
                           * JxW cell q)) l
                   else if Nat.eqb (system_to_component_index fe i) (dim fe) &&
                           Nat.eqb (system_to_component_index fe j) (dim fe)
                   then
                     on_local_preconditioner
                       (add_entry i j
                          (1 / viscosity * phi_p i * phi_p j * JxW cell q)) l
                   else l)
                l in
            let l :=
              on_local_rhs (add_at i (dot (phi_u i) gravity_tensor * JxW cell q)) l in
            let l :=
              on_local_rhs
                (add_at i
                   ((if (ind =? 0)%Z then mass_coef_f else mass_coef_s)
                    * dot (phi_u i) (current_velocity_values cell q)
                    * JxW cell q)) l in
            if negb (ind =? 0)%Z then
              let stress_part := ddot (grad_phi_u i) fsi_stress_tensor in
              let acceleration_part :=
                dot (tscale_r (fsi_acc_values cell q) (solid_rho parameters))
                    (phi_u i) in
              let l :=
                on_local_rhs
                  (add_at i ((stress_part + acceleration_part) * JxW cell q)) l in
              on_local_forces
                (add_at i (acceleration_part * JxW cell q))
                (add_at i (stress_part * JxW cell q))
                (add_at i ((stress_part + acceleration_part) * JxW cell q))
                l
            else l)
         l)
    (mkLocal (zero_matrix n n) (zero_matrix n n) (zero_vector n)
             (zero_vector n) (zero_vector n) (zero_vector n)).

(** The velocity mass integral of a pair of shape functions over the
    cell, [sum_q (phi_u[i] . phi_u[j]) JxW(q)], and the integral of the
    Stokes terms. *)
Definition mass_integral (cell : Cell) (i j : nat) : Q :=
  for_loop (n_q_points fe)
    (fun q s => s + dot (phi_u cell i q) (phi_u cell j q) * JxW cell q) 0.

Definition stokes_integral (cell : Cell) (i j : nat) : Q :=
  for_loop (n_q_points fe)
    (fun q s =>
       s + (2 * viscosity parameters
              * ddot (symgrad_phi_u cell i q) (symgrad_phi_u cell j q)
            - div_phi_u cell i q * phi_p cell j q
            - phi_p cell i q * div_phi_u cell j q) * JxW cell q)
    0.

End Assembly.

(** ** [Stokes::set_up_boundary_values]: the pressure pin *)

Definition Point := list Q.

Definition Qltb (x y : Q) : bool := negb (Qle_bool y x).

(** [std::numeric_limits<double>::max()] *)
Definition double_max : Q := inject_Z (2 ^ 1024 - 2 ^ 971).

(** What one process knows of the distributed degrees of freedom:
    [dof_handler.locally_owned_dofs()], the pressure degrees of freedom
    [DoFTools::extract_dofs] returns (an [IndexSet], walked in increasing
    order) and the map from degrees of freedom to support points. *)
Record Process : Type := mkProcess {
  locally_owned_dofs : list nat;
  pressure_dofs : list nat;
  support_points : list (nat * Point)
}.

Definition is_element (i : nat) (s : list nat) : bool := existsb (Nat.eqb i) s.

Fixpoint find_point (dof : nat) (m : list (nat * Point)) : option Point :=
  match m with
  | [] => None
  | (d, pt) :: rest => if Nat.eqb d dof then Some pt else find_point dof rest
  end.

(** [MPI_MINLOC] on two (value, index) pairs: the smaller value, and of
    two equal values the smaller index. *)
Definition minloc (u v : Q * nat) : Q * nat :=
  match fst u ?= fst v with
  | Lt => u
  | Eq => (fst u, Nat.min (snd u) (snd v))
  | Gt => v
  end.

(** [MPI_Allreduce(..., MPI_DOUBLE_INT, MPI_MINLOC, ...)]: every process
    receives the reduction of the contributions of all of them, taken in
    rank order. *)
Definition MPI_Allreduce_MINLOC (local_data : list (Q * nat)) : Q * nat :=
  match local_data with
  | [] => (0, O)
  | d :: rest => fold_left minloc rest d
  end.

Section PressurePin.

(** deal.II's [numbers::invalid_dof_index], the largest value of the
    index type. *)
Variable invalid_dof_index : nat.

(** deal.II's [Point::distance]. *)
Variable distance : Point -> Point -> Q.

Variable target_point : Point.

(** Lines 204-214. *)
Definition locally_owned_pressure_dofs (P : Process) : list nat :=
  filter (fun i => is_element i (locally_owned_dofs P)) (pressure_dofs P).

(** Lines 218-244: the closest locally owned pressure degree of freedom,
    as [(local_min_distance, local_fixed_pressure_dof)]. *)
Definition local_search (P : Process) : Q * nat :=
  fold_left
    (fun acc dof =>
       let '(local_min_distance, local_fixed_pressure_dof) := acc in
       match find_point dof (support_points P) with
       | Some pt =>
           let d := distance pt target_point in
           if Qltb d local_min_distance then (d, dof) else acc
       | None => acc
       end)
    (locally_owned_pressure_dofs P)
    (double_max, invalid_dof_index).

(** Lines 246-267: [local_data] of every rank, and the reduction. *)
Definition local_data (world : list Process) : list (Q * nat) :=
  map (fun rP => (fst (local_search (snd rP)), fst rP))
      (combine (seq 0 (length world)) world).

Definition global_data (world : list Process) : Q * nat :=
  MPI_Allreduce_MINLOC (local_data world).

(** Lines 270-285: the process whose rank the reduction returned
    broadcasts its own candidate. *)
Definition global_fixed_pressure_dof (world : list Process) : nat :=
  let root := snd (global_data world) in
  match nth_error world root with
  | Some P => snd (local_search P)
  | None => invalid_dof_index
  end.

(** Lines 288-297, on the constraints of the process [P]: when line 288
    is reached they hold the hanging nodes and the boundary values of the
    velocity (lines 142-180). *)
Definition add_pin (world : list Process) (P : Process)
           (constraints : AffineConstraints) : AffineConstraints :=
  let dof := global_fixed_pressure_dof world in
  if negb (Nat.eqb dof invalid_dof_index) then
    if is_element dof (locally_owned_dofs P)
    then set_inhomogeneity dof 0 (add_line dof constraints)
    else constraints
  else constraints.

(** [set_up_boundary_values] (lines 140-298) on every process, in rank
    order: the constraints of each process when [close()] is called.
    [before] lists the constraints when line 182 is reached; they come
    from library calls.  [close()] (line 299) is library code and is
    left out: it sorts the lines and replaces, in the entries of a line,
    a constrained degree of freedom by the line of that degree of
    freedom; in a line without entries there is nothing to replace. *)
Definition set_up_boundary_values (world : list Process)
           (before : list AffineConstraints) : list AffineConstraints :=
  map (fun Pc => add_pin world (fst Pc) (snd Pc)) (combine world before).

(** The same on constraints that are empty: what the process [P] adds. *)
Definition pin_constraints (world : list Process) (P : Process)
  : AffineConstraints :=
  add_pin world P [].

(** The constraints added by every process, in rank order. *)
Definition set_up_pressure_pin (world : list Process)
  : list AffineConstraints :=
  map (pin_constraints world) world.

(** The distances of the candidates: every locally owned pressure
    degree of freedom of a process that has a support point. *)
Definition candidates (P : Process) : list (nat * Q) :=
  flat_map
    (fun dof =>
       match find_point dof (support_points P) with
       | Some pt => [(dof, distance pt target_point)]
       | None => []
       end)
    (locally_owned_pressure_dofs P).

End PressurePin.

(** ** [SableWrap]: the exchange loop *)

(** [MPI_Allreduce(..., MPI_INT, MPI_MAX, ...)] and the same on
    [MPI_DOUBLE]: the maximum of the contributions of all processes. *)
Definition MPI_Allreduce_MAX_int (mine : Z) (others : list Z) : Z :=
  fold_left Z.max others mine.

Definition Qmax (x y : Q) : Q := if Qle_bool x y then y else x.

Definition MPI_Allreduce_MAX_double (mine : Q) (others : list Q) : Q :=
  fold_left Qmax others mine.

(** [SableWrap::All(my_b)] (lines 81-87), given the flags the other
    processes pass to their call. *)
Definition All (my_b : bool) (others : list bool) : bool :=
  let ib := if my_b then 0%Z else 1%Z in
  let result :=
    MPI_Allreduce_MAX_int ib (map (fun b : bool => if b then 0%Z else 1%Z) others) in
  (result =? 0)%Z.

(** What the other processes of [MPI_COMM_WORLD] contribute: to the
    [k]-th round of the three reductions of the sizes, to the [k]-th call
    of [All] and to the [k]-th reduction of the step size. *)
Record Peers : Type := mkPeers {
  peer_sizes : nat -> list Sable.Sizes;
  peer_flags : nat -> list bool;
  peer_dt : nat -> list Q
}.

(** The members of the wrapper the loop reads or writes, what it reads of
    the triangulation ([n_vertices()], [n_cells()]), and the number of
    reductions of each kind it has taken part in. *)
Record SableWrap : Type := mkSableWrap {
  time : Time.Time;
  is_comm_active : bool;
  sable_sizes : Sable.Sizes;
  non_ghost_nodes : list Z;
  non_ghost_cells : list Z;
  n_vertices : nat;
  n_cells : nat;
  size_calls : nat;
  all_calls : nat;
  dt_calls : nat
}.

Section Exchange.

Variable peers : Peers.
Variable parameters : AllParameters.
(** The template parameter [dim]. *)
Variable space_dim : nat.
(** [int(std::cbrt(x))], used in three dimensions. *)
Variable int_cbrt : Z -> Outcome Z.
(** Whether the build defines [NDEBUG]. *)
Variable NDEBUG : bool.
(** [FluidSolver::output_results] (not among the sources) writes the
    solution of a step to files; it does not touch the members above. *)
Variable output_results : nat -> Outcome unit.

(** Lines 46-51 and 60-65: the three sizes are set to 0 and replaced by
    the largest value a process passes to [Max]. *)
Definition Max_sizes (w : SableWrap) : SableWrap :=
  let others := peer_sizes peers (size_calls w) in
  let sable_no_nodes_one_dir :=
    MPI_Allreduce_MAX_int 0 (map Sable.sable_no_nodes_one_dir others) in
  let sable_no_ele := MPI_Allreduce_MAX_int 0 (map Sable.sable_no_ele others) in
  let sable_no_nodes := MPI_Allreduce_MAX_int 0 (map Sable.sable_no_nodes others) in
  mkSableWrap (time w) (is_comm_active w)
              (Sable.mkSizes sable_no_nodes_one_dir sable_no_ele sable_no_nodes)
              (non_ghost_nodes w) (non_ghost_cells w) (n_vertices w) (n_cells w)
              (S (size_calls w)) (all_calls w) (dt_calls w).

(** [SableWrap::find_ghost_nodes] (lines 159-216) on the members of the
    wrapper: the two loops, then the two [assert]s. *)
Definition find_ghost_nodes (w : SableWrap) : Outcome SableWrap :=
  (lists <- Sable.find_ghost_nodes int_cbrt space_dim (sable_sizes w)
                                   (non_ghost_nodes w) (non_ghost_cells w) ;;
   C_assert NDEBUG (Nat.eqb (length (fst lists)) (n_vertices w))
            "non_ghost_nodes.size() == triangulation.n_vertices()" ;;;
   C_assert NDEBUG (Nat.eqb (length (snd lists)) (n_cells w))
            "non_ghost_cells.size() == triangulation.n_cells()" ;;;
   Returns (mkSableWrap (time w) (is_comm_active w) (sable_sizes w)
                        (fst lists) (snd lists) (n_vertices w) (n_cells w)
                        (size_calls w) (all_calls w) (dt_calls w)))%outcome.

(** Line 67: [is_comm_active = All(is_comm_active)]. *)
Definition All_flags (w : SableWrap) : SableWrap :=
  mkSableWrap (time w)
              (All (is_comm_active w) (peer_flags peers (all_calls w)))
              (sable_sizes w) (non_ghost_nodes w) (non_ghost_cells w)
              (n_vertices w) (n_cells w)
              (size_calls w) (S (all_calls w)) (dt_calls w).

(** [SableWrap::run_one_step] (lines 39-78). *)
Definition run_one_step (w : SableWrap) : Outcome SableWrap :=
  if Nat.eqb (Time.get_timestep (time w)) 0 then
    let w := Max_sizes w in
    (w <- find_ghost_nodes w ;;
     output_results 0 ;;;
     Returns w)%outcome
  else
    let w := Max_sizes w in
    let w := All_flags w in
    (r <- Sable.int_rem (Z.of_nat (Time.get_timestep (time w)))
                        (Sable.double_to_int (output_interval parameters)) ;;
     (if (r =? 0)%Z then output_results (Time.get_timestep (time w))
      else Returns tt) ;;;
     Returns w)%outcome.

(** [SableWrap::get_dt_sable] (lines 90-96). *)
Definition get_dt_sable (w : SableWrap) : SableWrap :=
  let dt := 0 in
  let dt := MPI_Allreduce_MAX_double dt (peer_dt peers (dt_calls w)) in
  mkSableWrap (Time.increment (Time.set_delta_t dt (time w)))
              (is_comm_active w) (sable_sizes w)
              (non_ghost_nodes w) (non_ghost_cells w) (n_vertices w) (n_cells w)
              (size_calls w) (all_calls w) (S (dt_calls w)).

(** The body of the loop of [SableWrap::run] (lines 31-34). *)
Definition loop_body (w : SableWrap) : Outcome SableWrap :=
  (w <- (if Qeq_bool (Time.current (time w)) 0 then run_one_step w
         else Returns w) ;;
   let w := get_dt_sable w in
   run_one_step w)%outcome.

(** [while (is_comm_active) ...] (lines 29-35): [None] when the loop is
    still running after [fuel] turns; otherwise how it ended, with the
    members when it was left. *)
Fixpoint run_loop (fuel : nat) (w : SableWrap) : option (Outcome SableWrap) :=
  match fuel with
  | O => None
  | S fuel' =>
      if is_comm_active w then
        match loop_body w with
        | Returns w' => run_loop fuel' w'
        | Throws e => Some (Throws e)
        | Undefined => Some Undefined
        end
      else Some (Returns w)
  end.

(** The flags passed to the calls of [All] of one turn of the loop, the
    wrapper's own first. *)
Definition reports (w : SableWrap) : list (list bool) :=
  let first :=
    if Qeq_bool (Time.current (time w)) 0 &&
       negb (Nat.eqb (Time.get_timestep (time w)) 0)
    then [is_comm_active w :: peer_flags peers (all_calls w)]
    else [] in
  match (if Qeq_bool (Time.current (time w)) 0 then run_one_step w
         else Returns w) with
  | Returns w1 => first ++ [is_comm_active w1 :: peer_flags peers (all_calls w1)]
  | _ => first
  end.

End Exchange.

(** ** The wrapper on every rank of the fluid solver *)

(** [l] without its entry [i]. *)
Definition others {A : Type} (i : nat) (l : list A) : list A :=
  firstn i l ++ skipn (S i) l.

(** Run [f] on the elements of a list in order, stopping at the first one
    that does not return. *)
Fixpoint each {A B : Type} (f : A -> Outcome B) (l : list A) : Outcome (list B) :=
  match l with
  | [] => Returns []
  | x :: rest =>
      (y <- f x ;; ys <- each f rest ;; Returns (y :: ys))%outcome
  end.

Section World.

(** What the processes of the external solver contribute. *)
Variable external : Peers.
Variable parameters : AllParameters.
Variable space_dim : nat.
Variable int_cbrt : Z -> Outcome Z.
Variable NDEBUG : bool.
Variable output_results : nat -> Outcome unit.

(** What rank [i] receives in a reduction all ranks [ws] of the fluid
    solver enter together: from each other rank the 0 it sets before
    [Max] (lines 46-48, 60-62, 92) or the flag it passes to [All], and
    the contributions of the external processes. *)
Definition peers_of (ws : list SableWrap) (i : nat) : Peers :=
  mkPeers
    (fun k => map (fun _ => Sable.mkSizes 0 0 0) (others i ws) ++ peer_sizes external k)
    (fun k => map is_comm_active (others i ws) ++ peer_flags external k)
    (fun k => map (fun _ => 0) (others i ws) ++ peer_dt external k).

(** A call all ranks make at the same point of the program. *)
Definition collective (f : Peers -> SableWrap -> Outcome SableWrap)
           (ws : list SableWrap) : Outcome (list SableWrap) :=
  each (fun iw => f (peers_of ws (fst iw)) (snd iw))
       (combine (seq 0 (length ws)) ws).

(** Whether the ranks take the same branches in a turn of the loop, and
    so enter the same reductions in the same order. *)
Definition same_branches (ws : list SableWrap) : bool :=
  match ws with
  | [] => true
  | w :: rest =>
      forallb
        (fun v =>
           Bool.eqb (Qeq_bool (Time.current (time v)) 0)
                    (Qeq_bool (Time.current (time w)) 0) &&
           Bool.eqb (Nat.eqb (Time.get_timestep (time v)) 0)
                    (Nat.eqb (Time.get_timestep (time w)) 0))
        rest
  end.

(** One turn of the loop on all ranks.  Ranks that enter different
    reductions make an erroneous MPI program, whose behaviour is not
    defined. *)
Definition world_loop_body (ws : list SableWrap) : Outcome (list SableWrap) :=
  if negb (same_branches ws) then Undefined
  else
    (ws <- (if existsb (fun w => Qeq_bool (Time.current (time w)) 0) ws
            then collective
                   (fun p => run_one_step p parameters space_dim int_cbrt NDEBUG
                                          output_results) ws
            else Returns ws) ;;
     ws <- collective (fun p w => Returns (get_dt_sable p w)) ws ;;
     collective
       (fun p => run_one_step p parameters space_dim int_cbrt NDEBUG output_results)
       ws)%outcome.

(** The loop on all ranks: every rank tests its own flag.  [None] when
    the loop is still running after [fuel] turns, as it is for ever when
    some ranks have left it and the others wait for them in a
    reduction. *)
Fixpoint world_run_loop (fuel : nat) (ws : list SableWrap)
  : option (Outcome (list SableWrap)) :=
  match fuel with
  | O => None
  | S fuel' =>
      if forallb (fun w => negb (is_comm_active w)) ws then Some (Returns ws)
      else if forallb is_comm_active ws then
        match world_loop_body ws with
        | Returns ws' => world_run_loop fuel' ws'
        | Throws e => Some (Throws e)
        | Undefined => Some Undefined
        end
      else None
  end.

End World.

End Fluid.

(* ================================================================== *)
(** * Restart: [SharedSolidSolver::load_checkpoint] *)
(* ================================================================== *)

Module Restart.

Import LA Checkpoint.
Open Scope string_scope.

(** The fields of the solver that a restart sets, and its clock. *)
Record Fields : Type := mkFields {
  current_displacement : Vector;
  current_velocity : Vector;
  current_acceleration : Vector;
  previous_displacement : Vector;
  previous_velocity : Vector;
  previous_acceleration : Vector;
  time : Time.Time
}.

(** What a call of [load_checkpoint] comes to when nothing before the
    reading of the files throws: it returns [false] and changes nothing,
    it returns [true] with the fields restored, or [Vector::block_read]
    throws [ExcIO] on a stream that could not be opened. *)
Inductive Loaded : Type :=
| NotFound
| Restored (s : Fields)
| ExcIO.

(** Lines 920-929: the latest checkpoint.  The search starts from
    [checkpoint_file == local_path], here [None]; a displacement file
    replaces the one found so far when its stem is greater as a
    [std::string], that is in the lexicographic order of the characters. *)
Definition find_latest (d : Directory) : option path :=
  fold_left
    (fun checkpoint_file e =>
       let p := fst e in
       if String.eqb (extension p) displacement_ext &&
          match checkpoint_file with
          | Some c => String.ltb (stem c) (stem p)
          | None => true
          end
       then Some p
       else checkpoint_file)
    d None.

(** [std::ifstream f(p)] followed by [v.block_read(f)]: the content of the
    file, or nothing when the file is not there. *)
Definition block_read (p : path) (d : Directory) : option Vector :=
  option_map snd (find (fun e => path_eqb (fst e) p) d).

(** The assignment of a localized vector to a distributed one of the
    re-initialised system: deal.II requires the two sizes to agree. *)
Definition assign (n_dofs : nat) (v : Vector) : Outcome Vector :=
  if Nat.eqb (length v) n_dofs then Returns v else Undefined.

(** [load_checkpoint] (lines 913-977).  [setup] stands for the calls of
    [setup_dofs] and [initialize_system], which may throw and otherwise
    leave vectors of [n_dofs] entries that the loaded ones overwrite.
    The loop at the end advances the clock once per step up to the step
    of the checkpoint; what it writes through [pvd_writer] is not
    modelled.  [string_to_int] is applied to the stem of a displacement
    file; for a stem that is not a decimal numeral deal.II throws. *)
Definition load_checkpoint (setup : Outcome unit) (n_dofs : nat) (s : Fields)
           (d : Directory) : Outcome Loaded :=
  match find_latest d with
  | None => Returns NotFound
  | Some checkpoint_file =>
      (setup ;;;
       let disp := block_read checkpoint_file d in
       let checkpoint_file := replace_extension velocity_ext checkpoint_file in
       let vel := block_read checkpoint_file d in
       let checkpoint_file := replace_extension acceleration_ext checkpoint_file in
       let acc := block_read checkpoint_file d in
       match disp, vel, acc with
       | Some localized_disp, Some localized_vel, Some localized_acc =>
           u <- assign n_dofs localized_disp ;;
           v <- assign n_dofs localized_vel ;;
           a <- assign n_dofs localized_acc ;;
           match string_to_int (stem checkpoint_file) with
           | Some n =>
               Returns
                 (Restored
                    (mkFields u v a u v a (Nat.iter n Time.increment (time s))))
           | None =>
               Throws (ConfigurationError "Can't convert the stem to an integer.")
           end
       | _, _, _ => Returns ExcIO
       end)%outcome
  end.

End Restart.

(* ================================================================== *)
(** * The distributed solid solver: [Solid::MPI::SharedSolidSolver] *)
(* ================================================================== *)

Module SharedSolid.

Import LA.
Open Scope Q_scope.

(** ** [setup_dofs]: the components a Dirichlet flag constrains *)

(** [v[i] = x] on a [std::vector]: no range check. *)
Definition assign {A : Type} (v : list A) (i : nat) (x : A) : Outcome (list A) :=
  if Nat.ltb i (length v) then Returns (update i (fun _ => x) v) else Undefined.

(** Lines 83-98: the component mask of a boundary id from its flag
    (1-x, 2-y, 3-xy, 4-z, 5-xz, 6-yz, 7-xyz). *)
Definition dirichlet_mask (spacedim flag : nat) : Outcome (list bool) :=
  let mask := repeat false spacedim in
  (mask <- (if Nat.eqb flag 1 || Nat.eqb flag 3 || Nat.eqb flag 5 || Nat.eqb flag 7
            then assign mask 0 true else Returns mask) ;;
   mask <- (if Nat.eqb flag 2 || Nat.eqb flag 3 || Nat.eqb flag 6 || Nat.eqb flag 7
            then assign mask 1 true else Returns mask) ;;
   mask <- (if Nat.eqb flag 4 || Nat.eqb flag 5 || Nat.eqb flag 6 || Nat.eqb flag 7
            then assign mask 2 true else Returns mask) ;;
   Returns mask)%outcome.

(** ** [calculate_KE] *)

(** A cell of the partitioned triangulation: the process it is assigned
    to and the global indices of its degrees of freedom, as
    [get_dof_indices] returns them. *)
Record Cell : Type := mkCell {
  subdomain_id : nat;
  dof_indices : list nat
}.

(** A process and the range of indices its part of a distributed vector
    holds, [local_begin <= index < local_end]. *)
Record Process : Type := mkProcess {
  this_mpi_process : nat;
  local_begin : nat;
  local_end : nat
}.

Definition in_local_range (P : Process) (index : nat) : bool :=
  Nat.leb (local_begin P) index && Nat.ltb index (local_end P).

Section KineticEnergy.

Variable n_dofs : nat.
Variables current_velocity previous_velocity nodal_mass : Vector.
Variable time : Time.Time.

(** Lines 321-352: one degree of freedom of a cell.  The state is
    [dof_touched] with the two sums [ke] and [ke_rate].  The quotients by
    the step size are those of the rationals: they describe the code for
    a step size that is not zero. *)
Definition visit_dof (P : Process) (index : nat) (acc : list nat * (Q * Q))
  : Outcome (list nat * (Q * Q)) :=
  let '(dof_touched, (ke, ke_rate)) := acc in
  if negb (in_local_range P index) then Returns acc
  else
    (touched <- subscript dof_touched (Z.of_nat index) ;;
     if Nat.eqb touched 0 then
       let dof_touched := update index (fun _ => 1%nat) dof_touched in
       let ke_rate :=
         if Qeq_bool (Time.current time) (Time.get_delta_t time)
         then ke_rate
              + nth index current_velocity 0 * nth index nodal_mass 0
                * nth index previous_velocity 0 / Time.get_delta_t time
         else ke_rate in
       let ke_rate :=
         ke_rate
         + nth index current_velocity 0 * nth index nodal_mass 0
           * (nth index current_velocity 0 - nth index previous_velocity 0)
           / Time.get_delta_t time in
       let ke :=
         ke + 0.5 * nth index current_velocity 0 * nth index current_velocity 0
              * nth index nodal_mass 0 in
       Returns (dof_touched, (ke, ke_rate))
     else Returns acc)%outcome.

(** Lines 302-355: the sums of one process, as [(ke, ke_rate)]. *)
Definition local_KE (P : Process) (mesh : list Cell) : Outcome (Q * Q) :=
  (r <- for_each mesh
          (fun cell acc =>
             if Nat.eqb (subdomain_id cell) (this_mpi_process P)
             then for_each (dof_indices cell) (visit_dof P) acc
             else Returns acc)
          (repeat 0%nat n_dofs, (0, 0)) ;;
   Returns (snd r))%outcome.

(** [Utilities::MPI::sum]: the sum of the contributions of all
    processes, in rank order. *)
Definition MPI_sum (contributions : list Q) : Q := fold_left Qplus contributions 0.

(** [calculate_KE] (lines 298-389) on all processes: the two global sums
    [(ke, ke_rate)] that process 0 appends to the file. *)
Definition calculate_KE (world : list Process) (mesh : list Cell) : Outcome (Q * Q) :=
  (locals <- for_each world
               (fun P acc => r <- local_KE P mesh ;; Returns (acc ++ [r]))
               [] ;;
   Returns (MPI_sum (map fst locals), MPI_sum (map snd locals)))%outcome.

End KineticEnergy.

End SharedSolid.

(* ================================================================== *)
(** * The diagnostics of the Stokes solver *)
(* ================================================================== *)

Module Diagnostics.

Import LA.
Open Scope Q_scope.

(** What [FEFaceValues] gives on a face of a cell, at each quadrature
    point of the face: weight, outward normal, and the velocity, its
    gradient and the pressure of [solution]. *)
Record Face : Type := mkFace {
  at_boundary : bool;
  boundary_id : nat;
  face_JxW : nat -> Q;
  normal_vector : nat -> Tensor1;
  face_velocity : nat -> Tensor1;
  face_grad_u : nat -> Tensor2;
  face_pressure : nat -> Q
}.

(** A cell as one process sees it, with what [FEValues] gives at each
    quadrature point: the weight, the velocity of [solution] and of
    [previous_solution], the symmetric gradient and the divergence of the
    velocity, the pressure and its gradient. *)
Record Cell : Type := mkCell {
  is_locally_owned : bool;
  indicator : Z;
  JxW : nat -> Q;
  velocity_values : nat -> Tensor1;
  velocity_prev_values : nat -> Tensor1;
  sym_grad_u : nat -> Tensor2;
  pressure_values : nat -> Q;
  div_u_values : nat -> Q;
  gradp_values : nat -> Tensor1;
  faces : list Face
}.

(** [t.norm_square()] *)
Definition norm_square (t : Tensor1) : Q := dot t t.

(** [Physics::Elasticity::StandardTensors<dim>::I] *)
Definition unit_symmetric_tensor (dim : nat) : Tensor2 :=
  map (fun i => map (fun j => if Nat.eqb i j then 1 else 0) (seq 0 dim)) (seq 0 dim).

(** The sum of two tensors of rank 2. *)
Definition t2plus (s t : Tensor2) : Tensor2 := map2 (map2 Qplus) s t.

(** [MPI_Allreduce(..., MPI_DOUBLE, MPI_SUM, ...)]: the sum of the
    contributions of all processes, in rank order. *)
Definition MPI_Allreduce_SUM (contributions : list Q) : Q :=
  fold_left Qplus contributions 0.

(** The local accumulators of [compute_energy_estimates] (lines 774-790). *)
Record Energy : Type := mkEnergy {
  local_ke : Q;
  local_visc : Q;
  local_p_div_u : Q;
  local_boundary_work_inlet : Q;
  local_boundary_work_outlet : Q;
  local_pressure_power_inlet : Q;
  local_shear_power_inlet : Q;
  local_pressure_power_outlet : Q;
  local_shear_power_outlet : Q;
  local_ke_artificial : Q;
  local_visc_artificial : Q;
  local_alg_diss : Q;
  local_alg_diss_artificial : Q
}.

Section EnergyEstimates.

Variable parameters : Fluid.AllParameters.
Variable dim : nat.
(** [volume_quad_formula.size()] and [face_quad_formula.size()] *)
Variables n_q_points n_face_q_points : nat.
(** [time.get_delta_t()] *)
Variable delta_t : Q.

(** Lines 828-876: one quadrature point of a cell.  The quotients by the
    step size are those of the rationals: they describe the code for a
    step size that is not zero. *)
Definition energy_at_point (cell : Cell) (is_artificial : bool) (q : nat) (e : Energy)
  : Energy :=
  let u_sq := norm_square (velocity_values cell q) in
  let ke_increment :=
    if is_artificial
    then 0.5 * Fluid.solid_rho parameters * u_sq * JxW cell q
    else 0.5 * Fluid.fluid_rho parameters * u_sq * JxW cell q in
  let eps_eps := ddot (sym_grad_u cell q) (sym_grad_u cell q) in
  let visc_increment := 2.0 * Fluid.viscosity parameters * eps_eps * JxW cell q in
  let p_div_u_increment := pressure_values cell q * div_u_values cell q * JxW cell q in
  if is_artificial then
    let diff := vminus (velocity_values cell q) (velocity_prev_values cell q) in
    let alg_diss_increment_artificial :=
      0.5 * Fluid.solid_rho parameters / delta_t * norm_square diff * JxW cell q in
    mkEnergy (local_ke e) (local_visc e) (local_p_div_u e)
             (local_boundary_work_inlet e) (local_boundary_work_outlet e)
             (local_pressure_power_inlet e) (local_shear_power_inlet e)
             (local_pressure_power_outlet e) (local_shear_power_outlet e)
             (local_ke_artificial e + ke_increment)
             (local_visc_artificial e + visc_increment)
             (local_alg_diss e)
             (local_alg_diss_artificial e + alg_diss_increment_artificial)
  else
    let diff := vminus (velocity_values cell q) (velocity_prev_values cell q) in
    let alg_diss_increment :=
      0.5 * Fluid.fluid_rho parameters / delta_t * norm_square diff * JxW cell q in
    mkEnergy (local_ke e + ke_increment) (local_visc e + visc_increment)
             (local_p_div_u e + p_div_u_increment)
             (local_boundary_work_inlet e) (local_boundary_work_outlet e)
             (local_pressure_power_inlet e) (local_shear_power_inlet e)
             (local_pressure_power_outlet e) (local_shear_power_outlet e)
             (local_ke_artificial e) (local_visc_artificial e)
             (local_alg_diss e + alg_diss_increment)
             (local_alg_diss_artificial e).

(** Lines 907-917: the symmetric part of the velocity gradient. *)
Definition symmetrize (grad_u : Tensor2) : Tensor2 :=
  map (fun i => map (fun j => 0.5 * (el grad_u i j + el grad_u j i)) (seq 0 dim))
      (seq 0 dim).

(** Lines 903-959: one quadrature point of a boundary face. *)
Definition energy_at_face_point (face : Face) (qf : nat) (e : Energy) : Energy :=
  let u_face := face_velocity face qf in
  let n_face := normal_vector face qf in
  let symgrad_u_face := symmetrize (face_grad_u face qf) in
  let stress_face :=
    t2plus (t2scale (- face_pressure face qf) (unit_symmetric_tensor dim))
           (t2scale (2.0 * Fluid.viscosity parameters) symgrad_u_face) in
  let traction := mv stress_face n_face in
  let integrand := dot u_face traction in
  let pressure_term := - face_pressure face qf * dot u_face n_face in
  let viscous_traction :=
    mv (t2scale (2.0 * Fluid.viscosity parameters) symgrad_u_face) n_face in
  let shear_term := dot viscous_traction u_face in
  let b_id := boundary_id face in
  if Nat.eqb b_id 0 then
    mkEnergy (local_ke e) (local_visc e) (local_p_div_u e)
             (local_boundary_work_inlet e + integrand * face_JxW face qf)
             (local_boundary_work_outlet e)
             (local_pressure_power_inlet e + pressure_term * face_JxW face qf)
             (local_shear_power_inlet e + shear_term * face_JxW face qf)
             (local_pressure_power_outlet e) (local_shear_power_outlet e)
             (local_ke_artificial e) (local_visc_artificial e)
             (local_alg_diss e) (local_alg_diss_artificial e)
  else if Nat.eqb b_id 1 then
    mkEnergy (local_ke e) (local_visc e) (local_p_div_u e)
             (local_boundary_work_inlet e)
             (local_boundary_work_outlet e + integrand * face_JxW face qf)
             (local_pressure_power_inlet e) (local_shear_power_inlet e)
             (local_pressure_power_outlet e + pressure_term * face_JxW face qf)
             (local_shear_power_outlet e + shear_term * face_JxW face qf)
             (local_ke_artificial e) (local_visc_artificial e)
             (local_alg_diss e) (local_alg_diss_artificial e)
  else e.

(** Lines 804-963: one cell. *)
Definition energy_of_cell (e : Energy) (cell : Cell) : Energy :=
  if negb (is_locally_owned cell) then e
  else
    let is_artificial := (indicator cell =? 1)%Z in
    let e := for_loop n_q_points (energy_at_point cell is_artificial) e in
    if negb is_artificial then
      fold_left
        (fun e face =>
           if at_boundary face
           then for_loop n_face_q_points (energy_at_face_point face) e
           else e)
        (faces cell) e
    else e.

(** Lines 774-964: the sums of one process over the cells it owns. *)
Definition local_energy (cells : list Cell) : Energy :=
  fold_left energy_of_cell cells (mkEnergy 0 0 0 0 0 0 0 0 0 0 0 0 0).

(** [compute_energy_estimates] (lines 752-1067): the global sums process 0
    writes, named here as the local ones they reduce.  [world] lists, for
    each process, the cells as that process sees them. *)
Definition compute_energy_estimates (world : list (list Cell)) : Energy :=
  let reduce := fun field => MPI_Allreduce_SUM (map (fun cells => field (local_energy cells)) world) in
  mkEnergy (reduce local_ke) (reduce local_visc) (reduce local_p_div_u)
           (reduce local_boundary_work_inlet) (reduce local_boundary_work_outlet)
           (reduce local_pressure_power_inlet) (reduce local_shear_power_inlet)
           (reduce local_pressure_power_outlet) (reduce local_shear_power_outlet)
           (reduce local_ke_artificial) (reduce local_visc_artificial)
           (reduce local_alg_diss) (reduce local_alg_diss_artificial).

(** Lines 1191-1227 of [compute_fluid_norms]: the sums of one process,
    [(local_sum_vel, local_sum_div)]. *)
Definition local_fluid_sums (cells : list Cell) : Q * Q :=
  fold_left
    (fun sums cell =>
       if is_locally_owned cell then
         if (indicator cell =? 1)%Z then sums
         else
           for_loop n_q_points
             (fun q sums =>
                let vel_norm_sq := norm_square (velocity_values cell q) in
                let local_sum_vel := fst sums + vel_norm_sq * JxW cell q in
                let div_u := div_u_values cell q in
                (local_sum_vel, snd sums + div_u * div_u * JxW cell q))
             sums
       else sums)
    cells (0, 0).

(** [compute_fluid_norms] (lines 1180-1242): [(global_sum_vel,
    global_sum_div)], the two sums whose square roots are written as the
    norms of the velocity and of its divergence. *)
Definition compute_fluid_norms (world : list (list Cell)) : Q * Q :=
  (MPI_Allreduce_SUM (map (fun cells => fst (local_fluid_sums cells)) world),
   MPI_Allreduce_SUM (map (fun cells => snd (local_fluid_sums cells)) world)).

(** Lines 1281-1307 of [compute_pressure_gradient_norm]. *)
Definition local_sum_gradp (cells : list Cell) : Q :=
  fold_left
    (fun local_sum_gradp cell =>
       if negb (is_locally_owned cell) then local_sum_gradp
       else if negb (indicator cell =? 0)%Z then local_sum_gradp
       else
         for_loop n_q_points
           (fun q local_sum_gradp =>
              let gradp_sq := norm_square (gradp_values cell q) in
              local_sum_gradp + gradp_sq * JxW cell q)
           local_sum_gradp)
    cells 0.

(** [compute_pressure_gradient_norm] (lines 1273-1315):
    [global_sum_gradp], whose square root is written. *)
Definition compute_pressure_gradient_norm (world : list (list Cell)) : Q :=
  MPI_Allreduce_SUM (map local_sum_gradp world).

End EnergyEstimates.

End Diagnostics.

(* ================================================================== *)
(** * The time loop of the Stokes solver *)
(* ================================================================== *)

Module StokesRun.

Open Scope Q_scope.

Section Run.

(** [time.increment()].  [Utils::Time] is not among the sources; the
    loop is described for any clock: [Time.increment] adds the step size
    exactly, the sum of two [double]s is rounded and can leave the time
    where it was. *)
Variable increment : Time.Time -> Time.Time.

(** Lines 1660-1662: the global refinement and [initialize_bcs]. *)
Variable initialize : Outcome unit.

(** Lines 1562-1566: the output and the diagnostics of step 0. *)
Variable first_output : Outcome unit.

(** Lines 1575-1599, with the clock they read: the boundary values, the
    assembly, the linear solver, the diagnostics, the output and the
    refinement of the mesh.  The solver throws when it does not
    converge. *)
Variable step_work : Time.Time -> Outcome unit.

(** [time.end()] *)
Variable end_time : Q.

(** [run_one_step_new] (lines 1551-1600): the clock after the step. *)
Definition run_one_step_new (time : Time.Time) : Outcome Time.Time :=
  ((if Nat.eqb (Time.get_timestep time) 0 then first_output else Returns tt) ;;;
   let time := increment time in
   step_work time ;;;
   Returns time)%outcome.

(** [while (time.end() - time.current() > 1e-12) run_one_step_new();]
    (lines 1666-1669): [None] when the loop is still running after [fuel]
    turns. *)
Fixpoint time_loop (fuel : nat) (time : Time.Time) : option (Outcome Time.Time) :=
  match fuel with
  | O => None
  | S fuel' =>
      if Fluid.Qltb 1e-12 (end_time - Time.current time) then
        match run_one_step_new time with
        | Returns time' => time_loop fuel' time'
        | Throws e => Some (Throws e)
        | Undefined => Some Undefined
        end
      else Some (Returns time)
  end.

(** [Stokes::run] (lines 1654-1670): how the function ends, with the clock
    when it returns. *)
Definition run (fuel : nat) (time : Time.Time) : option (Outcome Time.Time) :=
  match (initialize ;;; run_one_step_new time)%outcome with
  | Returns time' => time_loop fuel time'
  | Throws e => Some (Throws e)
  | Undefined => Some Undefined
  end.

End Run.

End StokesRun.

(* ================================================================== *)
(** * The distributed solid solver: constrained points *)
(* ================================================================== *)

Module PointConstraints.

Import LA.
Open Scope Q_scope.

(** An active cell of the solid: for each of its vertices the index of
    the vertex in the triangulation, its position, and the degree of
    freedom of each component there ([cell->vertex_index(v)],
    [cell->vertex(v)], [cell->vertex_dof_index(v, d)]). *)
Record Cell : Type := mkCell {
  vertex_index : nat -> nat;
  vertex : nat -> Fluid.Point;
  vertex_dof_index : nat -> nat -> nat
}.

(** [p(k)] on a [Point]. *)
Definition coordinate (p : Fluid.Point) (k : nat) : Q := nth k p 0.

(** What the search for one point keeps: [vertex_touched], [find_point]
    and the lines added to [constraints] so far, in the order of the
    calls of [add_line]. *)
Record VertexSearch : Type := mkVertexSearch {
  vertex_touched : list bool;
  find_point : bool;
  lines : list nat
}.

Section SetupDofs.

Variable dim : nat.
(** [GeometryInfo<dim>::vertices_per_cell] and
    [triangulation.n_vertices()] *)
Variables vertices_per_cell n_vertices : nat.
(** The unqualified [abs] of lines 139-140: which overload it names
    depends on the headers in scope. *)
Variable abs : Q -> Q.
(** The active cells, in the order of the iterators. *)
Variable mesh : list Cell.

(** Lines 136-149: one vertex of a cell.  [assert(d < dim)] stops the
    program in a build that keeps assertions; in one that does not,
    [vertex_dof_index] is asked for a component the element does not
    have.  Neither is described further. *)
Definition visit_vertex (point : Fluid.Point) (d : nat) (cell : Cell) (v : nat)
           (s : VertexSearch) : Outcome VertexSearch :=
  (touched <- subscript (vertex_touched s) (Z.of_nat (vertex_index cell v)) ;;
   if negb touched then
     let vertex_touched :=
       update (vertex_index cell v) (fun _ => true) (vertex_touched s) in
     if Fluid.Qltb (abs (coordinate (vertex cell v) 0 - coordinate point 0)) 1e-4 &&
        Fluid.Qltb (abs (coordinate (vertex cell v) 1 - coordinate point 1)) 1e-4
     then
       if Nat.ltb d dim
       then Returns (mkVertexSearch vertex_touched true
                              (lines s ++ [vertex_dof_index cell v d]))
       else Undefined
     else Returns (mkVertexSearch vertex_touched (find_point s) (lines s))
   else Returns s)%outcome.

(** Lines 121-153: one point, with the lines added before it. *)
Definition constrain_point (point : Fluid.Point) (d : nat) (constraints : list nat)
  : Outcome (list nat) :=
  (s <- for_each mesh
          (fun cell s =>
             for_each (seq 0 vertices_per_cell) (visit_vertex point d cell) s)
          (mkVertexSearch (repeat false n_vertices) false constraints) ;;
   AssertThrow (find_point s) "Did not find the specified point!" ;;;
   Returns (lines s))%outcome.

(** Lines 109-155 of [setup_dofs]: the lines added for the points and
    directions that [constrain_points] stored. *)
Definition point_constraints (points : list Fluid.Point) (directions : list nat)
           (constraints : list nat) : Outcome (list nat) :=
  if negb (Nat.eqb (length points) 0) && negb (Nat.eqb (length directions) 0) then
    (AssertThrow (Nat.eqb (length points) (length directions))
                 "Number of points and direcions must match!" ;;;
     for_each (seq 0 (length points))
       (fun i constraints =>
          point <- subscript points (Z.of_nat i) ;;
          d <- subscript directions (Z.of_nat i) ;;
          constrain_point point d constraints)
       constraints)%outcome
  else Returns constraints.

End SetupDofs.

End PointConstraints.

(* ================================================================== *)
(** * The strain and stress fields of the solid *)
(* ================================================================== *)

Module StrainStress.

Import LA Constraints.
Open Scope Q_scope.

(** [strain] and [stress]: [dim] by [dim] vectors over the scalar degrees
    of freedom. *)
Definition Field := list (list Vector).

(** [f[i][j][k]] *)
Definition component (f : Field) (i j k : nat) : Q := nth k (nth j (nth i f []) []) 0.

Definition on_component (i j : nat) (g : Vector -> Vector) (f : Field) : Field :=
  update i (update j g) f.

(** A cell of the solid with the cell of [scalar_dof_handler] that goes
    with it: the degrees of freedom of the latter and the gradient of
    [current_displacement] at the quadrature points. *)
Record Cell : Type := mkCell {
  cell : Solid.Cell;
  dof_indices : list nat;
  current_displacement_gradients : nat -> Tensor2
}.

Record Fields : Type := mkFields {
  strain : Field;
  stress : Field;
  surrounding_cells : list Z
}.

Section Update.

Variable parameters : Solid.AllParameters.
Variable material : list Solid.LinearElasticMaterial.
Variable dim : nat.
(** [volume_quad_formula.size()], [scalar_fe.dofs_per_cell] and
    [scalar_dof_handler.n_dofs()] *)
Variables n_q_points dofs_per_cell n_dofs : nat.
(** The matrix [FETools::compute_projection_from_quadrature_points_matrix]
    fills, [dofs_per_cell] by [n_q_points]. *)
Variable qpt_to_dof : Matrix.
(** [material.get_elasticity() * tmp_strain] *)
Variable elasticity : Solid.LinearElasticMaterial -> Tensor2 -> Tensor2.

(** Lines 561-571: [tmp_strain] at a quadrature point. *)
Definition symmetric_part (grad : Tensor2) : Tensor2 :=
  map (fun i => map (fun j => (el grad i j + el grad j i) / 2) (seq 0 dim)) (seq 0 dim).

(** Lines 558-596: the contributions of one cell, of material [m].  The
    indices [dof_indices[k]] are those of [scalar_dof_handler], below
    [n_dofs]. *)
Definition scatter_cell (c : Cell) (m : Solid.LinearElasticMaterial) (s : Fields)
  : Fields :=
  let tmp_strain := fun q => symmetric_part (current_displacement_gradients c q) in
  let tmp_stress := fun q => elasticity m (tmp_strain q) in
  let quad_strain := fun i j => map (fun q => el (tmp_strain q) i j) (seq 0 n_q_points) in
  let quad_stress := fun i j => map (fun q => el (tmp_stress q) i j) (seq 0 n_q_points) in
  for_loop dim
    (fun i s =>
       for_loop dim
         (fun j s =>
            let cell_strain :=
              vmult qpt_to_dof (zero_vector dofs_per_cell) (quad_strain i j) in
            let cell_stress :=
              vmult qpt_to_dof (zero_vector dofs_per_cell) (quad_stress i j) in
            for_loop dofs_per_cell
              (fun k s =>
                 let index := nth k (dof_indices c) 0%nat in
                 mkFields
                   (on_component i j (add_at index (nth k cell_strain 0)) (strain s))
                   (on_component i j (add_at index (nth k cell_stress 0)) (stress s))
                   (if Nat.eqb i 0 && Nat.eqb j 0
                    then update index Z.succ (surrounding_cells s)
                    else surrounding_cells s))
              s)
         s)
    s.

(** Lines 599-609: the sums are divided by the number of cells around
    each degree of freedom.  The quotient is that of the rationals: it
    describes the code where that number is not zero. *)
Definition average (s : Fields) : Fields :=
  for_loop dim
    (fun i s =>
       for_loop dim
         (fun j s =>
            for_loop n_dofs
              (fun k s =>
                 let n := inject_Z (nth k (surrounding_cells s) 0%Z) in
                 mkFields (on_component i j (update k (fun x => x / n)) (strain s))
                          (on_component i j (update k (fun x => x / n)) (stress s))
                          (surrounding_cells s))
              s)
         s)
    s.

(** [update_strain_and_stress] (lines 495-610): the two fields, with the
    number of cells around each degree of freedom. *)
Definition update_strain_and_stress (mesh : list Cell) : Outcome Fields :=
  let zero := repeat (repeat (zero_vector n_dofs) dim) dim in
  (s <- for_each mesh
          (fun c s =>
             m <- Solid.update_material parameters material (cell c) ;;
             Returns (scatter_cell c m s))
          (mkFields zero zero (repeat 0%Z n_dofs)) ;;
   Returns (average s))%outcome.

End Update.

End StrainStress.

(* ================================================================== *)
(** * The stress of the solid in the Stokes solver *)
(* ================================================================== *)

Module FsiStress.

Import LA.
Open Scope Q_scope.

(** The conversion of a [double] to [int]: towards zero. *)
Definition to_int (x : Q) : Z := Z.quot (Qnum x) (Zpos (Qden x)).

(** [initialize_system], line 367: the number of vectors of [fsi_stress],
    [int stress_vec_size = dim + dim * (dim - 1) * 0.5]. *)
Definition stress_vec_size (dim : Z) : Z :=
  to_int (inject_Z dim + inject_Z (dim * (dim - 1)) * 0.5).

(** [assemble], lines 525-527: one assignment
    [fsi_stress_tensor[k][m] = fsi_cell_stress[stress_index][q]] followed
    by [stress_index++].  The state is the counter and the assignments
    made so far, as [(k, m, value)]. *)
Definition read_component (fsi_cell_stress : list (list Q)) (q k m : nat)
           (acc : Z * list (nat * nat * Q)) : Outcome (Z * list (nat * nat * Q)) :=
  let stress_index := fst acc in
  (row <- subscript fsi_cell_stress stress_index ;;
   value <- subscript row (Z.of_nat q) ;;
   Returns ((stress_index + 1)%Z, snd acc ++ [(k, m, value)]))%outcome.

(** [assemble], lines 520-529: the assignments that fill
    [fsi_stress_tensor] at the quadrature point [q] of a cell whose
    indicator is not 0, in order. *)
Definition fill_stress_tensor (dim : nat) (fsi_cell_stress : list (list Q)) (q : nat)
  : Outcome (list (nat * nat * Q)) :=
  (r <- for_each (seq 0 dim)
          (fun k acc =>
             for_each (seq 0 (k + 1)) (read_component fsi_cell_stress q k) acc)
          (0%Z, []) ;;
   Returns (snd r))%outcome.

End FsiStress.

(* ================================================================== *)
(** * The acoustic test: absorbing layer and inlet pulse *)
(* ================================================================== *)

Module AcousticPML.

Open Scope Q_scope.

Section Fields.

(** The values the two closures capture: [PMLlength] and [SigmaMax] for
    the first, [params.time_step] for the second. *)
Variables PMLlength SigmaMax dt : Q.
(** [exp] of <cmath>. *)
Variable exp : Q -> Q.

(** [sigma_pml_field] (lines 36-50). *)
Definition sigma_pml_field (p : Fluid.Point) (component : nat) : Q :=
  let SigmaPML := 0.0 in
  let boundary := 1.4 in
  if Fluid.Qltb (boundary - PMLlength) (nth 0 p 0)
  then SigmaMax * ((nth 0 p 0 + PMLlength - boundary) / PMLlength) ^ 4
  else SigmaPML.

(** [time_value] (lines 56-58). *)
Definition time_value (t : Q) : Q :=
  6.0 * exp (- 0.5 * ((t - 0.5e-6) / 0.15e-6) ^ 2).

(** [gaussian_pulse] (lines 52-67). *)
Definition gaussian_pulse (p : Fluid.Point) (component : nat) (time : Q) : Q :=
  if Nat.eqb component 0 && Fluid.Qltb (Qabs (nth 0 p 0)) 1e-10 then
    let previous_value :=
      if Fluid.Qltb time (2 * dt) then 0.0 else time_value (time - dt) in
    time_value time - previous_value
  else 0.0.

End Fields.

End AcousticPML.

(* ================================================================== *)
(** * The distributed solid solver: the rate of the potential energy *)
(* ================================================================== *)

Module PotentialEnergy.

Import LA.
Open Scope Q_scope.

(** A cell of [dof_handler]: the process it is assigned to and, at each
    quadrature point, the weight and the velocity. *)
Record Cell : Type := mkCell {
  subdomain_id : nat;
  JxW : nat -> Q;
  vel : nat -> Tensor1
}.

(** A cell of [scalar_dof_handler]: the gradient of the stress component
    [(i, j)] at each quadrature point, [stress_grad[i][j][q]]. *)
Record ScalarCell : Type := mkScalarCell {
  stress_grad : nat -> nat -> nat -> Tensor1
}.

Section Rate.

Variable dim : nat.
(** [volume_quad_formula.size()] *)
Variable n_q_points : nat.
Variable this_mpi_process : nat.

(** Lines 494-501: the divergence of the stress at a quadrature point. *)
Definition stress_div (scalar_cell : ScalarCell) (q : nat) : Tensor1 :=
  map (fun i =>
         for_loop dim (fun j s => s + nth j (stress_grad scalar_cell i j q) 0) 0.0)
      (seq 0 dim).

(** Lines 492-505: the quadrature points of a cell. *)
Definition integrate (cell : Cell) (scalar_cell : ScalarCell) (pe_rate : Q) : Q :=
  for_loop n_q_points
    (fun q pe_rate =>
       pe_rate + dot (vel cell q) (stress_div scalar_cell q) * JxW cell q)
    pe_rate.

(** Lines 466-609: the loop over the two lists of cells.  Its condition,
    [cell != dof_handler.end(), scalar_cell != scalar_dof_handler.end()],
    has the value of its second comparison; the body dereferences
    [cell]. *)
Fixpoint cell_loop (cells : list Cell) (scalar_cells : list ScalarCell) (pe_rate : Q)
  : Outcome Q :=
  match scalar_cells with
  | [] => Returns pe_rate
  | scalar_cell :: scalar_rest =>
      match cells with
      | [] => Undefined
      | cell :: rest =>
          if negb (Nat.eqb (subdomain_id cell) this_mpi_process)
          then cell_loop rest scalar_rest pe_rate
          else cell_loop rest scalar_rest (integrate cell scalar_cell pe_rate)
      end
  end.

(** Lines 394-609: the sum of one process. *)
Definition local_PE_rate (cells : list Cell) (scalar_cells : list ScalarCell)
  : Outcome Q :=
  cell_loop cells scalar_cells 0.

End Rate.

(** [compute_PE_rate] (lines 392-613) on the processes [0 .. n - 1]: the
    sum that process 0 writes. *)
Definition compute_PE_rate (dim n_q_points n_mpi_processes : nat)
           (cells : list Cell) (scalar_cells : list ScalarCell) : Outcome Q :=
  (locals <- for_each (seq 0 n_mpi_processes)
               (fun this_mpi_process acc =>
                  r <- local_PE_rate dim n_q_points this_mpi_process cells scalar_cells ;;
                  Returns (acc ++ [r]))
               [] ;;
   Returns (SharedSolid.MPI_sum locals))%outcome.

End PotentialEnergy.

(* ================================================================== *)
(** * Small configurations *)
(* ================================================================== *)

(** Concrete inputs on which the embedded functions are evaluated: a bar of
    two elements with three degrees of freedom, one quadrature point per
    cell and face, and a world of a few processes. *)
Module Sample.

Import LA.
Open Scope Q_scope.

Definition parameters (n_parts : nat) (simulation : string) : Solid.AllParameters :=
  Solid.mkParameters n_parts [200; 100] [0.25; 0.25] [0; 0] 1 0 simulation
                     [0] [] [] "Traction".

Definition fe : Solid.Discretisation :=
  Solid.mkDiscretisation 1 2 1 1 (fun _ => O) 3.

(** A cell whose two shape functions have the value 1 at the quadrature
    point: its consistent mass matrix has the entry [rho] everywhere. *)
Definition cell (id : Z) (dofs : list nat) : Solid.Cell :=
  Solid.mkCell id dofs (fun _ _ => [1]) (fun _ _ => [[1]]) (fun _ => 1)
               (fun _ => 1) 1 (fun _ => [1]) [].

Definition mesh : list Solid.Cell := [cell 1 [0; 1]%nat; cell 2 [1; 2]%nat].

(** The same bar, the second cell tagged with a third material. *)
Definition mesh_three : list Solid.Cell := [cell 1 [0; 1]%nat; cell 3 [1; 2]%nat].

Definition materials : list Solid.LinearElasticMaterial :=
  [Solid.make_material 200 0.25 1 0; Solid.make_material 100 0.25 1 0].

(** The state after some step: lumped mass matrix, stiffness and damping
    matrices of the bar, and the fields of the previous step. *)
Definition state : Solid.State :=
  Solid.mkState [[2; 0; 0]; [0; 4; 0]; [0; 0; 2]]
                [[1; -1; 0]; [-1; 2; -1]; [0; -1; 1]]
                [[1; 0; 0]; [0; 1; 0]; [0; 0; 1]]
                [[2; 0; 0]; [0; 4; 0]; [0; 0; 2]]
                [1; 2; 3] (zero_vector 3) (zero_vector 3)
                [0; 1; 2] [1; 1; 1] [2; 0; 4]
                [0; 1; 2] [1; 1; 1] [2; 0; 4]
                [1; 1; 1] [2; 4; 2]
                (Time.mkTime 1 (1 # 2) 2).

(** A solver for the diagonal systems of the bar, and a solver that never
    converges. *)
Definition solve_diagonal (A : Matrix) (x b : Vector)
  : Outcome (Vector * (nat * Q)) :=
  Returns (map (fun i => nth i b 0 / el A i i) (seq 0 (length b)), (1%nat, 0)).

Definition epilogue (s : Solid.State) : Outcome Solid.State := Returns s.

Definition returned {A : Type} (o : Outcome A) (default : A) : A :=
  match o with Returns a => a | _ => default end.

(** The state after [begin_step], and the acceleration the solver returns,
    in a stand-alone run and in an FSI run with the implicit penalty. *)
Definition state_begun : Solid.State :=
  Eval vm_compute in
    returned (Solid.begin_step (parameters 2 "Solid") fe [] materials true mesh state)
             state.

Definition solved : Vector * (nat * Q) :=
  Eval vm_compute in
    returned
      (solve_diagonal
         (Solid.system_matrix_updated
            (fst (Solid.effective_system (parameters 2 "Solid") fe true
                                         (1 # 2) state_begun)))
         (Solid.current_acceleration state_begun)
         (snd (Solid.effective_system (parameters 2 "Solid") fe true
                                      (1 # 2) state_begun)))
      ([], (O, 0)).

(** The state after the assembly of the first step, without constraints
    and with the middle degree of freedom fixed (a Dirichlet line without
    entries). *)
Definition state_assembled : Solid.State :=
  Eval vm_compute in
    returned (Solid.assemble (parameters 2 "Solid") fe [] materials true mesh
                             true true state)
             state.

Definition dirichlet : Constraints.AffineConstraints :=
  [(1%nat, Constraints.mkLine [] 0)].

(** The middle degree of freedom of the bar as a hanging node between its
    neighbours, and the state after the assembly of the first step with
    it. *)
Definition hanging_node : Constraints.AffineConstraints :=
  [(1%nat, Constraints.mkLine [(0%nat, 1 # 2); (2%nat, 1 # 2)] 0)].

Definition state_assembled_hanging : Solid.State :=
  Eval vm_compute in
    returned (Solid.assemble (parameters 2 "Solid") fe hanging_node materials true mesh
                             true true state)
             state.

Definition state_begun_FSI : Solid.State :=
  Eval vm_compute in
    returned (Solid.begin_step (parameters 2 "FSI") fe [] materials false mesh state)
             state.

(** Two processes on a line of six degrees of freedom; the pressure
    degrees of freedom 2 (on rank 0) and 4 (on rank 1) are equally close
    to the anchor at 3/2. *)
Definition distance (p q : Fluid.Point) : Q := Qabs (nth 0 p 0 - nth 0 q 0).

Definition anchor : Fluid.Point := [3 # 2].

Definition world : list Fluid.Process :=
  [Fluid.mkProcess [0; 1; 2]%nat [1; 2]%nat
                   [(0%nat, [0]); (1%nat, [0]); (2%nat, [1])];
   Fluid.mkProcess [3; 4; 5]%nat [4; 5]%nat
                   [(3%nat, [2]); (4%nat, [2]); (5%nat, [3])]].

(** The constraints of the two processes before the pin: a boundary value
    on rank 0; and the same with the pressure degree of freedom 2 a
    hanging node between 1 and 4. *)
Definition constraints_before : list Constraints.AffineConstraints :=
  [[(0%nat, Constraints.mkLine [] 1)]; []].

Definition constraints_hanging : list Constraints.AffineConstraints :=
  [[(0%nat, Constraints.mkLine [] 1);
    (2%nat, Constraints.mkLine [(1%nat, 1 # 2); (4%nat, 1 # 2)] 0)]; []].

(** Two processes that own no pressure degree of freedom. *)
Definition world_without_pressure : list Fluid.Process :=
  [Fluid.mkProcess [0; 1; 2]%nat [] [(0%nat, [0]); (1%nat, [0]); (2%nat, [1])];
   Fluid.mkProcess [3; 4; 5]%nat [] [(3%nat, [2]); (4%nat, [2]); (5%nat, [3])]].

(** A fluid cell with one velocity and one pressure shape function and two
    quadrature points. *)
Definition fluid_fe : Fluid.Discretisation :=
  Fluid.mkDiscretisation 1 2 2 (fun i => i).

Definition fluid_cell (indicator : Z) : Fluid.Cell :=
  Fluid.mkCell indicator
               (fun k _ => if Nat.eqb k 0 then [1] else [0])
               (fun k _ => if Nat.eqb k 1 then 1 else 0)
               (fun k _ => if Nat.eqb k 0 then 1 else 0)
               (fun k _ => [[if Nat.eqb k 0 then 1 else 0]])
               (fun k _ => [[if Nat.eqb k 0 then 1 else 0]])
               (fun _ => 1 # 2)
               (fun _ => [1])
               (fun _ => [1])
               (fun _ _ => 1).

(** The fields saved at a step. *)
Definition fields (step : nat) : Vector * Vector * Vector :=
  ([inject_Z (Z.of_nat step); 0; 0], [1; 1; 1], [0; 0; 0]).

Definition fluid_parameters (velocity_degree pressure_degree : Z)
  : Fluid.AllParameters :=
  Fluid.mkParameters velocity_degree pressure_degree (1 # 1000) 1 2 (1 # 2)
                     [0; 0] 1.

(** [output_results] when the files can be written; no cube roots are
    taken in two dimensions. *)
Definition output_results (step : nat) : Outcome unit := Returns tt.

Definition int_cbrt (x : Z) : Outcome Z := Undefined.

(** A wrapper at the start of its loop, on a triangulation of 4 vertices
    and 1 cell, and one other process that passes the sizes of a grid of
    4 by 4 nodes and 3 by 3 elements and reports its flag inactive from
    the first reduction on. *)
Definition wrapper : Fluid.SableWrap :=
  Fluid.mkSableWrap (Time.mkTime 0 0 0) true (Sable.mkSizes 0 0 0) [] [] 4 1 0 0 0.

Definition peers_inactive : Fluid.Peers :=
  Fluid.mkPeers (fun _ => [Sable.mkSizes 4 9 16]) (fun _ => [false])
                (fun _ => [1 # 100]).

(** The same process when it reports its flag active once, then
    inactive, and passes the step size 0; and the wrapper after the
    first turn of its loop with it: the time is still 0. *)
Definition peers_stalled : Fluid.Peers :=
  Fluid.mkPeers (fun _ => [Sable.mkSizes 4 9 16]) (fun k => [Nat.eqb k 0])
                (fun _ => [0]).

Definition wrapper_stalled : Fluid.SableWrap :=
  Eval vm_compute in
    returned (Fluid.loop_body peers_stalled (fluid_parameters 1 1) 2 int_cbrt false
                              output_results wrapper)
             wrapper.

(** The bar split between two processes: the first owns the left cell and
    the degrees of freedom 0 and 1, the second the right cell and the
    degree of freedom 2. *)
Definition partition : list SharedSolid.Process :=
  [SharedSolid.mkProcess 0 0 2; SharedSolid.mkProcess 1 2 3].

Definition cells : list SharedSolid.Cell :=
  [SharedSolid.mkCell 0 [0; 1]%nat; SharedSolid.mkCell 1 [1; 2]%nat].

(** The clock after the first step. *)
Definition first_step : Time.Time := Time.mkTime (1 # 2) (1 # 2) 1.

(** A channel of two cells seen by two processes, in two dimensions with
    one quadrature point per cell and per face: the left cell is fluid
    and has a face on the inlet (boundary id 0), the right cell is
    artificial fluid.  Each process owns one of them. *)
Definition inlet_face : Diagnostics.Face :=
  Diagnostics.mkFace true 0 (fun _ => 1 # 2) (fun _ => [-1; 0]) (fun _ => [3; 1])
                     (fun _ => [[1; 2]; [0; -1]]) (fun _ => 5).

Definition channel_cell (owned : bool) (indicator : Z) (faces : list Diagnostics.Face)
  : Diagnostics.Cell :=
  Diagnostics.mkCell owned indicator (fun _ => 1 # 4) (fun _ => [3; 1]) (fun _ => [1; 1])
                     (fun _ => [[1; 1]; [1; -1]]) (fun _ => 5) (fun _ => 0)
                     (fun _ => [2; 0]) faces.

Definition channel : list (list Diagnostics.Cell) :=
  [[channel_cell true 0 [inlet_face]; channel_cell false 1 []];
   [channel_cell false 0 [inlet_face]; channel_cell true 1 []]].

(** Two quadrilaterals side by side that share the vertices 1 and 4;
    the degree of freedom of component [d] at vertex [n] is [2 n + d]. *)
Definition quad (indices : list nat) (positions : list Fluid.Point)
  : PointConstraints.Cell :=
  PointConstraints.mkCell (fun v => nth v indices 0%nat) (fun v => nth v positions [])
                          (fun v d => (2 * nth v indices 0 + d)%nat).

Definition two_quads : list PointConstraints.Cell :=
  [quad [0; 1; 3; 4]%nat [[0; 0]; [1; 0]; [0; 1]; [1; 1]];
   quad [1; 2; 4; 5]%nat [[1; 0]; [2; 0]; [1; 1]; [2; 1]]].

(** The bar of two cells with one scalar degree of freedom at each end
    and one quadrature point, under the same displacement gradient in
    both cells. *)
Definition strained_bar : list StrainStress.Cell :=
  [StrainStress.mkCell (cell 1 [0; 1]%nat) [0; 1]%nat (fun _ => [[1; 2]; [0; 3]]);
   StrainStress.mkCell (cell 2 [1; 2]%nat) [1; 2]%nat (fun _ => [[1; 2]; [0; 3]])].

(** Two cells in one dimension with one quadrature point, assigned to
    the processes 0 and 1, and the cells of the scalar handler that go
    with them. *)
Definition energy_cells : list PotentialEnergy.Cell :=
  [PotentialEnergy.mkCell 0 (fun _ => 1) (fun _ => [2]);
   PotentialEnergy.mkCell 1 (fun _ => 1) (fun _ => [3])].

Definition energy_scalar_cells : list PotentialEnergy.ScalarCell :=
  [PotentialEnergy.mkScalarCell (fun _ _ _ => [5]);
   PotentialEnergy.mkScalarCell (fun _ _ _ => [7])].

End Sample.

(* ================================================================== *)
(** * Properties *)
(* ================================================================== *)

Unset Implicit Arguments.
Open Scope Q_scope.

(** ** Predicates the statements are written with *)

(** The fields a step computes with that the assembly leaves alone. *)
Definition same_kinematics (s s' : Solid.State) : Prop :=
  Solid.previous_displacement s' = Solid.previous_displacement s /\
  Solid.previous_velocity s' = Solid.previous_velocity s /\
  Solid.previous_acceleration s' = Solid.previous_acceleration s /\
  Solid.current_displacement s' = Solid.current_displacement s /\
  Solid.current_velocity s' = Solid.current_velocity s /\
  Solid.current_acceleration s' = Solid.current_acceleration s /\
  Solid.time s' = Solid.time s.

(** [M] has [m] rows of [n] entries. *)
Definition dims (m n : nat) (M : LA.Matrix) : Prop :=
  length M = m /\ Forall (fun row => length row = n) M.

(** The sum of the first [n] entries of row [i], as the lumping loop
    accumulates it. *)
Definition row_total (n : nat) (M : LA.Matrix) (i : nat) : Q :=
  for_loop n (fun j sum => sum + LA.el M i j) 0.

(** A mesh whose cells have [dofs_per_cell] degrees of freedom each, all
    below [N]. *)
Definition well_numbered (fe : Solid.Discretisation) (N : nat)
           (mesh : list Solid.Cell) : Prop :=
  Forall (fun cell =>
            length (Solid.local_dof_indices cell) = Solid.dofs_per_cell fe /\
            Forall (fun dof => (dof < N)%nat) (Solid.local_dof_indices cell))
         mesh.

(** The last character of a string, if it has one. *)
Fixpoint last_char (s : string) : option ascii :=
  match s with
  | EmptyString => None
  | String c rest =>
      match rest with
      | EmptyString => Some c
      | String _ _ => last_char rest
      end
  end.

(** The extensions of the three files of a checkpoint. *)
Definition checkpoint_extension (e : string) : Prop :=
  e = Checkpoint.displacement_ext \/ e = Checkpoint.velocity_ext \/
  e = Checkpoint.acceleration_ext.

(** The order in which a [std::set] of paths iterates. *)
Definition sorted_paths (s : list Checkpoint.path) : Prop :=
  StronglySorted (fun p q => Checkpoint.path_ltb p q = true) s.

(** The path is the displacement file of a checkpoint. *)
Definition is_displacement (p : Checkpoint.path) : bool :=
  String.eqb (Checkpoint.extension p) Checkpoint.displacement_ext.

(** The directory holds no two files of the same name. *)
Definition unique_names (d : Checkpoint.Directory) : Prop :=
  NoDup (map (fun e => Checkpoint.filename (fst e)) d).

(** [q] is one of the three files of the checkpoint [p]. *)
Definition file_of_set (p q : Checkpoint.path) : Prop :=
  Checkpoint.filename q = Checkpoint.filename p \/
  Checkpoint.filename q
  = Checkpoint.filename (Checkpoint.replace_extension Checkpoint.velocity_ext p) \/
  Checkpoint.filename q
  = Checkpoint.filename (Checkpoint.replace_extension Checkpoint.acceleration_ext p).

(** [k] zero digits in front of a decimal number. *)
Fixpoint leading_zeros (k : nat) (d : Decimal.uint) : Decimal.uint :=
  match k with
  | O => d
  | S k' => Decimal.D0 (leading_zeros k' d)
  end.

(** Every displacement file has its two companions. *)
Definition complete_sets (d : Checkpoint.Directory) : Prop :=
  forall e, In e d -> is_displacement (fst e) = true ->
            Checkpoint.exists_file
              (Checkpoint.replace_extension Checkpoint.velocity_ext (fst e)) d = true /\
            Checkpoint.exists_file
              (Checkpoint.replace_extension Checkpoint.acceleration_ext (fst e)) d = true.

(** Every displacement file is the checkpoint of one of the steps [S]. *)
Definition saved_at (S : list nat) (d : Checkpoint.Directory) : Prop :=
  forall e, In e d -> is_displacement (fst e) = true ->
            exists k, In k S /\ fst e = Checkpoint.checkpoint_file k.

(** The reduction returns the least value and the least index among those
    that contribute it. *)
Definition least_at (result : Q * nat) (contributions : list (Q * nat)) : Prop :=
  (exists x, In (x, snd result) contributions /\ x == fst result) /\
  (forall x i, In (x, i) contributions ->
               fst result <= x /\ (x == fst result -> (snd result <= i)%nat)).

(** Every degree of freedom is owned by one process. *)
Definition owned_once (world : list Fluid.Process) : Prop :=
  forall r1 r2 P1 P2 dof,
    nth_error world r1 = Some P1 -> nth_error world r2 = Some P2 ->
    Fluid.is_element dof (Fluid.locally_owned_dofs P1) = true ->
    Fluid.is_element dof (Fluid.locally_owned_dofs P2) = true ->
    r1 = r2.

(** ** The ranks of the exchange loop *)

(** The ranks of the fluid solver are in step: they hold the same clock
    and the same flag, and have taken part in the same reductions. *)
Definition in_step (ws : list Fluid.SableWrap) : Prop :=
  forall a b, In a ws -> In b ws ->
    Fluid.time a = Fluid.time b /\
    Fluid.is_comm_active a = Fluid.is_comm_active b /\
    Fluid.size_calls a = Fluid.size_calls b /\
    Fluid.all_calls a = Fluid.all_calls b /\
    Fluid.dt_calls a = Fluid.dt_calls b.

(** What a rank holds that the other ranks can see in the reductions. *)
Definition key (w : Fluid.SableWrap) : Time.Time * bool * nat * nat * nat :=
  (Fluid.time w, Fluid.is_comm_active w, Fluid.size_calls w, Fluid.all_calls w,
   Fluid.dt_calls w).

(** ** Constraints and row sums *)

(** The sum of the weights of a resolved degree of freedom: 1 when it is
    not constrained, the sum of the coefficients of its line otherwise (1
    for a hanging node, which interpolates; 0 for a line without
    entries). *)
Definition weight_sum (line : list (nat * Q)) : Q :=
  fold_right (fun rw s => snd rw + s) 0 line.

(** The weight with which a resolved degree of freedom contributes to the
    global row [k]. *)
Definition weight_at (k : nat) (line : list (nat * Q)) : Q :=
  fold_right (fun rw s => (if Nat.eqb k (fst rw) then snd rw else 0) + s) 0 line.

(** The lines refer to degrees of freedom below [N]. *)
Definition constraints_in_range (N : nat) (c : Constraints.AffineConstraints) : Prop :=
  forall dof l, Constraints.find_line c dof = Some l ->
                Forall (fun rw => (fst rw < N)%nat) (Constraints.entries l).

(** The cell with the degrees of freedom [dofs] contributes to the global
    row [k]: one of them is [k] or is constrained to it. *)
Definition reaches (c : Constraints.AffineConstraints) (dofs : list nat) (k : nat)
  : Prop :=
  exists i, (i < length dofs)%nat /\
            In k (map fst (Constraints.resolve c (nth i dofs O))).

(** Every degree of freedom of the cell is free or has a line whose
    coefficients add up to 1. *)
Definition unit_weights (c : Constraints.AffineConstraints) (dofs : list nat) : Prop :=
  forall j, (j < length dofs)%nat ->
            weight_sum (Constraints.resolve c (nth j dofs O)) == 1.

(** What a cell matrix [M] adds to the sum of the global row [k]. *)
Definition row_contribution (c : Constraints.AffineConstraints) (M : LA.Matrix)
           (dofs : list nat) (k : nat) : Q :=
  for_loop (length dofs)
    (fun i s =>
       s + for_loop (length dofs)
             (fun j t =>
                t + weight_at k (Constraints.resolve c (nth i dofs O))
                    * LA.el M i j
                    * weight_sum (Constraints.resolve c (nth j dofs O)))
             0)
    0.

(** The viscous integral of the velocity block of the preconditioner and
    the pressure mass integral of its pressure block, for a pair of shape
    functions over a cell. *)
Definition velocity_gradient_integral (fe : Fluid.Discretisation) (cell : Fluid.Cell)
           (i j : nat) : Q :=
  for_loop (Fluid.n_q_points fe)
    (fun q s => s + LA.ddot (Fluid.grad_phi_u cell i q) (Fluid.grad_phi_u cell j q)
                    * Fluid.JxW cell q) 0.

Definition pressure_mass_integral (fe : Fluid.Discretisation) (cell : Fluid.Cell)
           (i j : nat) : Q :=
  for_loop (Fluid.n_q_points fe)
    (fun q s => s + Fluid.phi_p cell i q * Fluid.phi_p cell j q * Fluid.JxW cell q) 0.

(** The interaction force of a cell is the sum of its two parts. *)
Definition forces_split (l : Fluid.Local) : Prop :=
  length (Fluid.local_rhs_acceleration_part l) = length (Fluid.local_fsi_force l) /\
  length (Fluid.local_rhs_stress_part l) = length (Fluid.local_fsi_force l) /\
  forall i, nth i (Fluid.local_fsi_force l) 0
            == nth i (Fluid.local_rhs_acceleration_part l) 0
               + nth i (Fluid.local_rhs_stress_part l) 0.

(** The cell contributes no interaction force. *)
Definition forces_zero (n : nat) (l : Fluid.Local) : Prop :=
  Fluid.local_fsi_force l = LA.zero_vector n /\
  Fluid.local_rhs_acceleration_part l = LA.zero_vector n /\
  Fluid.local_rhs_stress_part l = LA.zero_vector n.

(** The matrices and nodal data that an assembly of the right-hand side
    alone leaves as they are; the damping matrix is among them when the
    penalty is explicit. *)
Definition same_matrices (explicit : bool) (s s' : Solid.State) : Prop :=
  Solid.system_matrix s' = Solid.system_matrix s /\
  Solid.stiffness_matrix s' = Solid.stiffness_matrix s /\
  Solid.system_matrix_updated s' = Solid.system_matrix_updated s /\
  Solid.nodal_mass s' = Solid.nodal_mass s /\
  Solid.added_mass_effect s' = Solid.added_mass_effect s /\
  (explicit = true -> Solid.damping_matrix s' = Solid.damping_matrix s).

(** The damping integral of a pair of shape functions over a cell,
    [sum_q rho (phi[i] . phi[j]) JxW(q) / dt]. *)
Definition damping_integral (fe : Solid.Discretisation) (rho dt : Q)
           (cell : Solid.Cell) (i j : nat) : Q :=
  for_loop (Solid.n_q_points fe)
    (fun q s => s + LA.dot (LA.tscale rho (Solid.value cell i q)) (Solid.value cell j q)
                    * Solid.JxW cell q / dt) 0.

(** The degrees of freedom a process visits in [calculate_KE], in the order
    of the loops: those of the cells of its subdomain. *)
Definition visited (P : SharedSolid.Process) (mesh : list SharedSolid.Cell) : list nat :=
  flat_map SharedSolid.dof_indices
           (filter (fun cell => Nat.eqb (SharedSolid.subdomain_id cell)
                                        (SharedSolid.this_mpi_process P)) mesh).

(** The degrees of freedom of a list that a process counts: those in its
    local range. *)
Definition counted (P : SharedSolid.Process) (seen : list nat) (i : nat) : bool :=
  SharedSolid.in_local_range P i && existsb (Nat.eqb i) seen.

(** The kinetic energy of a degree of freedom and its rate, as
    [calculate_KE] adds them up. *)
Definition ke_term (current_velocity nodal_mass : LA.Vector) (i : nat) : Q :=
  0.5 * nth i current_velocity 0 * nth i current_velocity 0 * nth i nodal_mass 0.

Definition ke_rate_term (time : Time.Time)
           (current_velocity previous_velocity nodal_mass : LA.Vector) (i : nat) : Q :=
  (if Qeq_bool (Time.current time) (Time.get_delta_t time)
   then nth i current_velocity 0 * nth i nodal_mass 0 * nth i previous_velocity 0
        / Time.get_delta_t time
   else 0)
  + nth i current_velocity 0 * nth i nodal_mass 0
    * (nth i current_velocity 0 - nth i previous_velocity 0) / Time.get_delta_t time.

(** The sum of [f i] over the [i < n] that [c] selects. *)
Definition masked_sum (n : nat) (c : nat -> bool) (f : nat -> Q) : Q :=
  for_loop n (fun i s => s + (if c i then f i else 0)) 0.

(** The cells of a process give the normal of a face by [dim]
    components, as a [Tensor<1, dim>] has them. *)
Definition normals_of_dim (dim n_face_q_points : nat) (cells : list Diagnostics.Cell)
  : Prop :=
  forall cell face qf,
    In cell cells -> In face (Diagnostics.faces cell) -> (qf < n_face_q_points)%nat ->
    length (Diagnostics.normal_vector face qf) = dim.

(** The quadrature weights of the cells a process owns are not negative. *)
Definition weights_nonnegative (n_q_points : nat) (cells : list Diagnostics.Cell)
  : Prop :=
  forall cell q,
    In cell cells -> Diagnostics.is_locally_owned cell = true -> (q < n_q_points)%nat ->
    0 <= Diagnostics.JxW cell q.

(** The work on the inlet and on the outlet is the power of the pressure
    plus the power of the shear stress. *)
Definition work_split (e : Diagnostics.Energy) : Prop :=
  Diagnostics.local_boundary_work_inlet e
  == Diagnostics.local_pressure_power_inlet e + Diagnostics.local_shear_power_inlet e /\
  Diagnostics.local_boundary_work_outlet e
  == Diagnostics.local_pressure_power_outlet e + Diagnostics.local_shear_power_outlet e.

(** The energies and dissipations, of the fluid and of the artificial
    fluid, are not negative. *)
Definition energies_nonnegative (e : Diagnostics.Energy) : Prop :=
  0 <= Diagnostics.local_ke e /\ 0 <= Diagnostics.local_visc e /\
  0 <= Diagnostics.local_alg_diss e /\
  0 <= Diagnostics.local_ke_artificial e /\ 0 <= Diagnostics.local_visc_artificial e /\
  0 <= Diagnostics.local_alg_diss_artificial e.

(** The vertices of the cells of a mesh in the order [setup_dofs] visits
    them, as pairs of a cell and a local vertex number. *)
Definition vertices_of (vertices_per_cell : nat) (mesh : list PointConstraints.Cell)
  : list (PointConstraints.Cell * nat) :=
  flat_map (fun cell => map (pair cell) (seq 0 vertices_per_cell)) mesh.

(** Of the visits of a list, the first one of every vertex that is not
    in [seen]. *)
Fixpoint first_visits (seen : list nat) (l : list (PointConstraints.Cell * nat))
  : list (PointConstraints.Cell * nat) :=
  match l with
  | [] => []
  | cv :: rest =>
      let index := PointConstraints.vertex_index (fst cv) (snd cv) in
      if existsb (Nat.eqb index) seen then first_visits seen rest
      else cv :: first_visits (index :: seen) rest
  end.

(** A vertex lies at a point: its first two coordinates differ from
    those of the point by less than [1e-4], as [abs] measures it. *)
Definition lies_at (abs : Q -> Q) (point : Fluid.Point)
           (cv : PointConstraints.Cell * nat) : bool :=
  Fluid.Qltb (abs (PointConstraints.coordinate (PointConstraints.vertex (fst cv) (snd cv)) 0
                   - PointConstraints.coordinate point 0)) 1e-4 &&
  Fluid.Qltb (abs (PointConstraints.coordinate (PointConstraints.vertex (fst cv) (snd cv)) 1
                   - PointConstraints.coordinate point 1)) 1e-4.

(** The degrees of freedom of component [d] at the vertices of the mesh
    that lie at a point, every vertex taken once. *)
Definition lines_at (abs : Q -> Q) (vertices_per_cell : nat)
           (mesh : list PointConstraints.Cell) (point : Fluid.Point) (d : nat)
  : list nat :=
  map (fun cv => PointConstraints.vertex_dof_index (fst cv) (snd cv) d)
      (filter (lies_at abs point) (first_visits [] (vertices_of vertices_per_cell mesh))).

(** [vertex_touched] when the vertices of [seen] have been visited. *)
Definition touched_of (n_vertices : nat) (seen : list nat) : list bool :=
  map (fun i => existsb (Nat.eqb i) seen) (seq 0 n_vertices).

(** A field has [dim] by [dim] components, each over [n] degrees of
    freedom. *)
Definition field_dims (dim n : nat) (f : StrainStress.Field) : Prop :=
  length f = dim /\
  forall i, (i < dim)%nat ->
    length (nth i f []) = dim /\
    forall j, (j < dim)%nat -> length (nth j (nth i f []) []) = n.

(** The fields of [update_strain_and_stress] have the sizes [dim] and
    [n_dofs] give them. *)
Definition fields_dims (dim n_dofs : nat) (s : StrainStress.Fields) : Prop :=
  field_dims dim n_dofs (StrainStress.strain s) /\
  field_dims dim n_dofs (StrainStress.stress s) /\
  length (StrainStress.surrounding_cells s) = n_dofs.

(** The degrees of freedom of the cells of a mesh are below [n_dofs]. *)
Definition dofs_in_range (dofs_per_cell n_dofs : nat) (mesh : list StrainStress.Cell)
  : Prop :=
  forall c k, In c mesh -> (k < dofs_per_cell)%nat ->
              (nth k (StrainStress.dof_indices c) 0 < n_dofs)%nat.

(** The number of pairs [(k, m)] with [m <= k < dim]. *)
Definition triangle (dim : nat) : nat := (dim * (dim + 1) / 2)%nat.

(** These pairs, row by row. *)
Definition lower_triangle (dim : nat) : list (nat * nat) :=
  flat_map (fun k => map (pair k) (seq 0 (k + 1))) (seq 0 dim).

(** The integral of [v . div(stress)] over the pairs of cells whose
    subdomain [owned] selects. *)
Fixpoint integral_over (dim n_q_points : nat) (owned : nat -> bool)
         (pairs : list (PotentialEnergy.Cell * PotentialEnergy.ScalarCell)) : Q :=
  match pairs with
  | [] => 0
  | (cell, scalar_cell) :: rest =>
      (if owned (PotentialEnergy.subdomain_id cell)
       then PotentialEnergy.integrate dim n_q_points cell scalar_cell 0
       else 0)
      + integral_over dim n_q_points owned rest
  end.

(** ** General facts about outcomes and loops *)

Lemma for_each_undefined {A S : Type} (body : A -> S -> Outcome S) (xs : list A) :
  (forall x s, In x xs -> forall e, body x s <> Throws e) ->
  (exists x, In x xs /\ forall s, body x s = Undefined) ->
  forall s, for_each xs body s = Undefined.
Proof.
  induction xs as [| x xs IH]; intros Hthrow [y [Hin Hy]] s.
  - destruct Hin.
  - simpl. destruct Hin as [-> | Hin].
    + rewrite Hy. reflexivity.
    + destruct (body x s) as [s' | e |] eqn:Hb.
      * simpl. apply IH.
        -- intros x' s'' Hx'. apply Hthrow. now right.
        -- exists y. split; assumption.
      * exfalso. apply (Hthrow x s (or_introl eq_refl) e Hb).
      * reflexivity.
Qed.

Lemma subscript_out_of_range {A : Type} (v : list A) (i : Z) :
  (i < 0 \/ Z.of_nat (length v) <= i)%Z -> subscript v i = Undefined.
Proof.
  intros H. unfold subscript.
  destruct (0 <=? i)%Z eqn:Hi; [| reflexivity].
  apply Z.leb_le in Hi.
  destruct (nth_error v (Z.to_nat i)) eqn:Hn; [| reflexivity].
  exfalso.
  assert (Z.to_nat i < length v)%nat
    by (apply nth_error_Some; rewrite Hn; discriminate).
  lia.
Qed.

Lemma subscript_not_thrown {A : Type} (v : list A) (i : Z) (e : Exception) :
  subscript v i <> Throws e.
Proof.
  unfold subscript.
  destruct (0 <=? i)%Z; [| discriminate].
  destruct (nth_error v (Z.to_nat i)); discriminate.
Qed.

(** ** C4: the Newmark constants *)



(** ** C2: the material of a cell *)

Lemma construct_materials_length (parameters : Solid.AllParameters)
      (material : list Solid.LinearElasticMaterial) :
  Solid.construct_materials parameters = Returns material ->
  length material = Solid.n_solid_parts parameters.
Proof.
  unfold Solid.construct_materials.
  assert (G : forall l acc r,
             for_each l
               (fun i material =>
                  (e <- subscript (Solid.E parameters) (Z.of_nat i) ;;
                   n <- subscript (Solid.nu parameters) (Z.of_nat i) ;;
                   et <- subscript (Solid.eta parameters) (Z.of_nat i) ;;
                   Returns (material ++
                            [Solid.make_material e n (Solid.solid_rho parameters) et]))%outcome)
               acc = Returns r ->
             length r = (length acc + length l)%nat).
  { induction l as [| i l IH]; intros acc r H; simpl in H.
    - inversion H. simpl. lia.
    - destruct (subscript (Solid.E parameters) (Z.of_nat i)); try discriminate.
      destruct (subscript (Solid.nu parameters) (Z.of_nat i)); try discriminate.
      destruct (subscript (Solid.eta parameters) (Z.of_nat i)); try discriminate.
      simpl in H. apply IH in H. rewrite H, length_app. simpl. lia. }
  intros H. apply G in H. rewrite H, length_seq. reflexivity.
Qed.

(** C2, as the code has it.  When more than one material is configured and
    some cell carries a material id above their number, the assembly and
    the strain/stress update index [material] outside its range: there is
    no range check and no configuration error, the behaviour is
    undefined. *)
Theorem material_lookup_unchecked
        (parameters : Solid.AllParameters) (fe : Solid.Discretisation)
        (constraints : Constraints.AffineConstraints)
        (material : list Solid.LinearElasticMaterial)
        (is_lag_penalty_explicit : bool) (mesh : list Solid.Cell)
        (is_initial assemble_matrix : bool) (s : Solid.State) :
  Solid.construct_materials parameters = Returns material ->
  Solid.n_solid_parts parameters <> 1%nat ->
  (exists cell, In cell mesh /\
                (Z.of_nat (Solid.n_solid_parts parameters) < Solid.material_id cell)%Z) ->
  Solid.assemble parameters fe constraints material is_lag_penalty_explicit
                 mesh is_initial assemble_matrix s = Undefined /\
  Solid.update_strain_and_stress_materials parameters material mesh = Undefined.
Proof.
  intros Hc Hn [cell [Hin Hid]].
  apply construct_materials_length in Hc.
  assert (Hone : Nat.eqb (length material) 1 = false)
    by (apply Nat.eqb_neq; lia).
  assert (Hone' : Nat.eqb (Solid.n_solid_parts parameters) 1 = false)
    by (apply Nat.eqb_neq; lia).
  split.
  - unfold Solid.assemble.
    destruct (subscript material 0) as [m0 | e |] eqn:H0; simpl;
      [| exfalso; exact (subscript_not_thrown _ _ _ H0) | reflexivity].
    rewrite for_each_undefined; [reflexivity | |].
    + intros x [s' dmp] _ e. unfold Solid.assemble_cell.
      destruct (Solid.assemble_material material x) eqn:Hm; simpl; try discriminate.
      unfold Solid.assemble_material in Hm.
      exfalso. exact (subscript_not_thrown _ _ _ Hm).
    + exists cell. split; [assumption |].
      intros [s' dmp]. unfold Solid.assemble_cell, Solid.assemble_material.
      rewrite Hone, subscript_out_of_range; [reflexivity | lia].
  - unfold Solid.update_strain_and_stress_materials.
    apply for_each_undefined.
    + intros x acc _ e. unfold Solid.update_material.
      destruct (subscript material _) eqn:Hm; simpl; try discriminate.
      exfalso. exact (subscript_not_thrown _ _ _ Hm).
    + exists cell. split; [assumption |].
      intros acc. unfold Solid.update_material.
      rewrite Hone', subscript_out_of_range; [reflexivity | lia].
Qed.

Lemma material_lookup_unchecked_witness :
  Solid.assemble (Sample.parameters 2 "Solid") Sample.fe [] Sample.materials true
                 Sample.mesh_three true true Sample.state = Undefined /\
  Solid.update_strain_and_stress_materials (Sample.parameters 2 "Solid")
                                           Sample.materials Sample.mesh_three
  = Undefined.
Proof.
  apply (material_lookup_unchecked (Sample.parameters 2 "Solid") Sample.fe []
                                   Sample.materials true Sample.mesh_three
                                   true true Sample.state).
  - reflexivity.
  - discriminate.
  - exists (Sample.cell 3 [1; 2]%nat). split; [right; left; reflexivity | reflexivity].
Defined.

(** C2, as stated, fails: with two materials and a cell tagged 3 neither
    the assembly nor the strain/stress update ends in a configuration
    error. *)
Lemma material_lookup_counterexample :
  Solid.construct_materials (Sample.parameters 2 "Solid") = Returns Sample.materials /\
  is_configuration_error
    (Solid.assemble (Sample.parameters 2 "Solid") Sample.fe [] Sample.materials
                    true Sample.mesh_three true true Sample.state) = false /\
  is_configuration_error
    (Solid.update_strain_and_stress_materials (Sample.parameters 2 "Solid")
                                              Sample.materials Sample.mesh_three)
  = false.
Proof. repeat split; vm_compute; reflexivity. Qed.

(** ** C9: the degrees of the elements *)

(** C9 at the failing input.  The check of the wrapper,
    [velocity_degree == pressure_degree == 1], compares the truth value of
    the first comparison with 1: it passes exactly when the two degrees
    are equal, so matched second-order elements are let through. *)
Theorem SableWrap_constructor_equal_degrees :
  Fluid.SableWrap_constructor (Sample.fluid_parameters 2 2) = Returns tt /\
  (forall parameters,
      Fluid.SableWrap_constructor parameters = Returns tt <->
      Fluid.fluid_velocity_degree parameters = Fluid.fluid_pressure_degree parameters).
Proof.
  split; [reflexivity |].
  intros parameters. unfold Fluid.SableWrap_constructor, AssertThrow.
  destruct (Z.eqb_spec (Fluid.fluid_velocity_degree parameters)
                       (Fluid.fluid_pressure_degree parameters)) as [He | Hne]; simpl.
  - split; [intros _; exact He | reflexivity].
  - split; [discriminate | intros He; contradiction].
Qed.

(** The check of [Stokes]: in a debug build the construction fails unless
    the velocity degree minus the pressure degree is 1 (as [unsigned int]);
    in a release build [Assert] is compiled out. *)
Lemma Stokes_constructor_spec (parameters : Fluid.AllParameters) :
  (Fluid.Stokes_constructor true parameters = Returns tt <->
   Fluid.unsigned_sub (Fluid.fluid_velocity_degree parameters)
                      (Fluid.fluid_pressure_degree parameters) = 1%Z) /\
  Fluid.Stokes_constructor false parameters = Returns tt.
Proof.
  split; [| reflexivity].
  unfold Fluid.Stokes_constructor, Fluid.Assert, AssertThrow.
  destruct (Z.eqb_spec (Fluid.unsigned_sub (Fluid.fluid_velocity_degree parameters)
                                           (Fluid.fluid_pressure_degree parameters)) 1)
    as [He | Hne].
  - split; [intros _; exact He | reflexivity].
  - split; [discriminate | intros He; contradiction].
Qed.

(** ** C3: the exchange loop of the wrapper *)

Lemma fold_max_flags (others : list bool) (acc : Z) :
  (0 <= acc)%Z ->
  (fold_left Z.max (map (fun b : bool => if b then 0%Z else 1%Z) others) acc =? 0)%Z
  = (acc =? 0)%Z && forallb (fun b => b) others.
Proof.
  revert acc. induction others as [| b others IH]; intros acc Hacc; simpl.
  - now rewrite andb_true_r.
  - rewrite IH by (destruct b; lia).
    destruct b; simpl.
    + rewrite Z.max_l by lia. reflexivity.
    + rewrite andb_false_r.
      replace (Z.max acc 1 =? 0)%Z with false; [reflexivity |].
      symmetry. apply Z.eqb_neq. lia.
Qed.

(** [All] is the conjunction of the flags: true exactly when every process
    passes [true]. *)
Lemma All_spec (my_b : bool) (others : list bool) :
  Fluid.All my_b others = my_b && forallb (fun b => b) others.
Proof.
  unfold Fluid.All, Fluid.MPI_Allreduce_MAX_int.
  rewrite fold_max_flags by (destruct my_b; lia).
  destruct my_b; reflexivity.
Qed.

Lemma All_false_iff (my_b : bool) (others : list bool) :
  Fluid.All my_b others = false <-> In false (my_b :: others).
Proof.
  rewrite All_spec. split.
  - intros H. apply andb_false_iff in H. destruct H as [H | H].
    + left. now symmetry.
    + right. induction others as [| b others IH]; simpl in H; [discriminate |].
      apply andb_false_iff in H. destruct H as [H | H].
      * left. exact H.
      * right. apply IH, H.
  - intros [H | H].
    + subst. reflexivity.
    + apply andb_false_iff. right.
      induction others as [| b others IH]; [destruct H |].
      simpl. destruct H as [H | H].
      * subst. reflexivity.
      * rewrite (IH H). apply andb_false_r.
Qed.

(** The result of the reduction does not depend on the rank that asks. *)
Lemma All_same_on_every_rank (flags : list bool) (i : nat) :
  (i < length flags)%nat ->
  Fluid.All (nth i flags true) (firstn i flags ++ skipn (S i) flags)
  = forallb (fun b => b) flags.
Proof.
  rewrite All_spec. revert i.
  induction flags as [| b flags IH]; intros i Hi; simpl in Hi; [lia |].
  destruct i as [| i]; [reflexivity |].
  simpl. rewrite <- (IH i) by lia.
  destruct b, (nth i flags true); reflexivity.
Qed.

Section ExchangeLoop.

Variable peers : Fluid.Peers.
Variable parameters : Fluid.AllParameters.
Variable space_dim : nat.
Variable int_cbrt : Z -> Outcome Z.
Variable NDEBUG : bool.
Variable output_results : nat -> Outcome unit.

Local Abbreviation run_one_step :=
  (Fluid.run_one_step peers parameters space_dim int_cbrt NDEBUG output_results).
Local Abbreviation loop_body :=
  (Fluid.loop_body peers parameters space_dim int_cbrt NDEBUG output_results).
Local Abbreviation run_loop :=
  (Fluid.run_loop peers parameters space_dim int_cbrt NDEBUG output_results).
Local Abbreviation reports :=
  (Fluid.reports peers parameters space_dim int_cbrt NDEBUG output_results).

(** What the first branch of [run_one_step] leaves untouched. *)
Lemma find_ghost_nodes_keeps (w w' : Fluid.SableWrap) :
  Fluid.find_ghost_nodes space_dim int_cbrt NDEBUG w = Returns w' ->
  Fluid.time w' = Fluid.time w /\
  Fluid.is_comm_active w' = Fluid.is_comm_active w /\
  Fluid.size_calls w' = Fluid.size_calls w /\
  Fluid.all_calls w' = Fluid.all_calls w /\
  Fluid.dt_calls w' = Fluid.dt_calls w.
Proof.
  unfold Fluid.find_ghost_nodes.
  destruct (Sable.find_ghost_nodes int_cbrt space_dim (Fluid.sable_sizes w)
              (Fluid.non_ghost_nodes w) (Fluid.non_ghost_cells w)) as [lists | e |];
    try discriminate.
  cbn [bind].
  destruct (C_assert NDEBUG _ _) as [[] | e |]; try discriminate. cbn [bind].
  destruct (C_assert NDEBUG _ _) as [[] | e |]; try discriminate. cbn [bind].
  intros H. inversion H. subst w'. simpl. repeat split.
Qed.

(** A call of [run_one_step] that returns: the clock is kept; at step 0
    the flag is kept and [All] is not called; at a later step the flag is
    the result of [All]. *)
Lemma run_one_step_returns (w w' : Fluid.SableWrap) :
  run_one_step w = Returns w' ->
  Fluid.time w' = Fluid.time w /\
  Fluid.size_calls w' = S (Fluid.size_calls w) /\
  Fluid.dt_calls w' = Fluid.dt_calls w /\
  (if Nat.eqb (Time.get_timestep (Fluid.time w)) 0
   then Fluid.is_comm_active w' = Fluid.is_comm_active w /\
        Fluid.all_calls w' = Fluid.all_calls w
   else Fluid.is_comm_active w'
        = Fluid.All (Fluid.is_comm_active w)
                    (Fluid.peer_flags peers (Fluid.all_calls w)) /\
        Fluid.all_calls w' = S (Fluid.all_calls w)).
Proof.
  unfold Fluid.run_one_step.
  destruct (Nat.eqb (Time.get_timestep (Fluid.time w)) 0) eqn:Ht.
  - cbv zeta.
    destruct (Fluid.find_ghost_nodes space_dim int_cbrt NDEBUG (Fluid.Max_sizes peers w))
      as [w1 | e |] eqn:Hg; try discriminate.
    cbn [bind]. destruct (output_results 0) as [[] | e |]; try discriminate.
    cbn [bind]. intros H. inversion H. subst w'.
    destruct (find_ghost_nodes_keeps _ _ Hg) as (H1 & H2 & H3 & H4 & H5).
    rewrite H1, H2, H3, H4, H5. simpl. repeat split.
  - cbv zeta.
    destruct (Sable.int_rem _ _) as [r | e |]; try discriminate. cbn [bind].
    destruct (if (r =? 0)%Z then _ else _) as [[] | e |]; try discriminate.
    cbn [bind]. intros H. inversion H. subst w'. simpl. repeat split.
Qed.

Lemma get_dt_sable_keeps (w : Fluid.SableWrap) :
  Nat.eqb (Time.get_timestep (Fluid.time (Fluid.get_dt_sable peers w))) 0 = false /\
  Fluid.is_comm_active (Fluid.get_dt_sable peers w) = Fluid.is_comm_active w /\
  Fluid.all_calls (Fluid.get_dt_sable peers w) = Fluid.all_calls w /\
  Fluid.size_calls (Fluid.get_dt_sable peers w) = Fluid.size_calls w.
Proof. repeat split. Qed.

(** The flag after a turn of the loop that returns: the result of the
    last call of [All]. *)
Lemma loop_body_flag (w w' : Fluid.SableWrap) :
  loop_body w = Returns w' ->
  exists w1,
    (if Qeq_bool (Time.current (Fluid.time w)) 0 then run_one_step w else Returns w)
    = Returns w1 /\
    Fluid.is_comm_active w'
    = Fluid.All (Fluid.is_comm_active w1)
                (Fluid.peer_flags peers (Fluid.all_calls w1)).
Proof.
  unfold Fluid.loop_body.
  destruct (if Qeq_bool (Time.current (Fluid.time w)) 0 then run_one_step w
            else Returns w) as [w1 | e |]; try discriminate.
  cbn [bind]. cbv zeta. intros H. exists w1. split; [reflexivity |].
  apply run_one_step_returns in H. destruct H as (_ & _ & _ & H).
  destruct (get_dt_sable_keeps w1) as (Ht & Hf & Ha & _).
  rewrite Ht, Hf, Ha in H. apply H.
Qed.

Lemma loop_body_reports (w w' : Fluid.SableWrap) :
  loop_body w = Returns w' ->
  (Fluid.is_comm_active w' = false <->
   exists report, In report (reports w) /\ In false report).
Proof.
  intros Hbody. destruct (loop_body_flag w w' Hbody) as (w1 & Hfirst & Hflag).
  unfold Fluid.reports. rewrite Hfirst, Hflag, All_false_iff.
  split.
  - intros H. eexists. split; [apply in_or_app; right; left; reflexivity | exact H].
  - intros [report [Hin Hf]].
    apply in_app_or in Hin. destruct Hin as [Hin | [<- | []]]; [| exact Hf].
    destruct (Qeq_bool (Time.current (Fluid.time w)) 0) eqn:Hc; [| destruct Hin].
    destruct (Nat.eqb (Time.get_timestep (Fluid.time w)) 0) eqn:Ht;
      simpl in Hin; [destruct Hin |].
    destruct Hin as [<- | []].
    left. apply run_one_step_returns in Hfirst.
    destruct Hfirst as (_ & _ & _ & H). rewrite Ht in H. destruct H as [-> _].
    now apply All_false_iff.
Qed.

Lemma run_loop_step (fuel : nat) (w : Fluid.SableWrap) :
  Fluid.is_comm_active w = true ->
  run_loop (S fuel) w
  = match loop_body w with
    | Returns w' => run_loop fuel w'
    | Throws e => Some (Throws e)
    | Undefined => Some Undefined
    end.
Proof. intros H. cbn [Fluid.run_loop]. now rewrite H. Qed.

(** The second call of [run_one_step] of a turn divides by
    [int(output_interval)]. *)
Lemma run_one_step_later (w : Fluid.SableWrap) :
  Nat.eqb (Time.get_timestep (Fluid.time w)) 0 = false ->
  (Sable.double_to_int (Fluid.output_interval parameters) = 0%Z ->
   run_one_step w = Undefined) /\
  (Sable.double_to_int (Fluid.output_interval parameters) <> 0%Z ->
   (forall step, output_results step = Returns tt) ->
   run_one_step w = Returns (Fluid.All_flags peers (Fluid.Max_sizes peers w))).
Proof.
  intros Ht. unfold Fluid.run_one_step. rewrite Ht. cbv zeta.
  unfold Sable.int_rem. split.
  - intros ->. reflexivity.
  - intros Hne Hout.
    destruct (Z.eqb_spec (Sable.double_to_int (Fluid.output_interval parameters)) 0)
      as [H0 | _]; [contradiction |].
    cbn [bind].
    match goal with
    | |- context [if ?c then output_results ?n else Returns tt] =>
        destruct c; [rewrite (Hout n) |]; reflexivity
    end.
Qed.

Lemma loop_body_returns (w : Fluid.SableWrap) :
  (Sable.double_to_int (Fluid.output_interval parameters) = 0%Z ->
   forall w', loop_body w <> Returns w') /\
  (Sable.double_to_int (Fluid.output_interval parameters) <> 0%Z ->
   (forall step, output_results step = Returns tt) ->
   (Qeq_bool (Time.current (Fluid.time w)) 0 = true ->
    Time.get_timestep (Fluid.time w) = 0%nat ->
    exists w1, Fluid.find_ghost_nodes space_dim int_cbrt NDEBUG
                                      (Fluid.Max_sizes peers w) = Returns w1) ->
   exists w', loop_body w = Returns w').
Proof.
  split.
  - intros H0 w'. unfold Fluid.loop_body.
    destruct (if Qeq_bool (Time.current (Fluid.time w)) 0 then run_one_step w
              else Returns w) as [w1 | e |]; try discriminate.
    cbn [bind]. cbv zeta.
    destruct (run_one_step_later (Fluid.get_dt_sable peers w1) eq_refl) as [H _].
    rewrite (H H0). discriminate.
  - intros Hne Hout Hfirst. unfold Fluid.loop_body.
    assert (H1 : exists w1,
               (if Qeq_bool (Time.current (Fluid.time w)) 0 then run_one_step w
                else Returns w) = Returns w1).
    { destruct (Qeq_bool (Time.current (Fluid.time w)) 0) eqn:Hc; [| now exists w].
      destruct (Nat.eqb (Time.get_timestep (Fluid.time w)) 0) eqn:Ht.
      - apply Nat.eqb_eq in Ht. destruct (Hfirst eq_refl Ht) as [w1 Hw1].
        unfold Fluid.run_one_step. rewrite Ht. simpl Nat.eqb. cbv iota zeta.
        rewrite Hw1. cbn [bind]. rewrite Hout. cbn [bind]. now exists w1.
      - destruct (run_one_step_later w Ht) as [_ H]. rewrite (H Hne Hout).
        eexists. reflexivity. }
    destruct H1 as [w1 ->]. cbn [bind]. cbv zeta.
    destruct (run_one_step_later (Fluid.get_dt_sable peers w1) eq_refl) as [_ H].
    rewrite (H Hne Hout). eexists. reflexivity.
Qed.

End ExchangeLoop.

(** *** All ranks together *)

Lemma each_returns {A B : Type} (f : A -> Outcome B) (l : list A) (l' : list B) :
  Fluid.each f l = Returns l' -> Forall2 (fun x y => f x = Returns y) l l'.
Proof.
  revert l'. induction l as [| x l IH]; intros l' H; simpl in H.
  - inversion H. constructor.
  - destruct (f x) as [y | e |] eqn:Hx; try discriminate. cbn [bind] in H.
    destruct (Fluid.each f l) as [ys | e |]; try discriminate. cbn [bind] in H.
    inversion H. subst l'. constructor; [exact Hx | now apply IH].
Qed.

Lemma Forall2_In_r {A B : Type} (R : A -> B -> Prop) (l : list A) (l' : list B) (y : B) :
  Forall2 R l l' -> In y l' -> exists x, In x l /\ R x y.
Proof.
  induction 1 as [| x y' l l' HR _ IH]; intros Hin; [destruct Hin |].
  destruct Hin as [<- | Hin].
  - exists x. split; [now left | exact HR].
  - destruct (IH Hin) as [x' [Hx' HR']]. exists x'. split; [now right | exact HR'].
Qed.

Lemma Forall2_length {A B : Type} (R : A -> B -> Prop) (l : list A) (l' : list B) :
  Forall2 R l l' -> length l' = length l.
Proof. induction 1; simpl; congruence. Qed.

Lemma others_In {A : Type} (i : nat) (l : list A) (x : A) :
  In x (Fluid.others i l) -> In x l.
Proof.
  unfold Fluid.others. intros H. apply in_app_or in H. destruct H as [H | H].
  - rewrite <- (firstn_skipn i l). apply in_or_app. now left.
  - rewrite <- (firstn_skipn (S i) l). apply in_or_app. now right.
Qed.

Lemma in_step_key (ws : list Fluid.SableWrap) :
  in_step ws <-> forall a b, In a ws -> In b ws -> key a = key b.
Proof.
  unfold in_step, key. split; intros H a b Ha Hb.
  - destruct (H a b Ha Hb) as (-> & -> & -> & -> & ->). reflexivity.
  - specialize (H a b Ha Hb). inversion H. repeat split.
Qed.

Section WorldLoop.

Variable external : Fluid.Peers.
Variable parameters : Fluid.AllParameters.
Variable space_dim : nat.
Variable int_cbrt : Z -> Outcome Z.
Variable NDEBUG : bool.
Variable output_results : nat -> Outcome unit.

Lemma collective_in_step (f : Fluid.Peers -> Fluid.SableWrap -> Outcome Fluid.SableWrap)
      (next : Time.Time * bool * nat * nat * nat -> Time.Time * bool * nat * nat * nat)
      (ws ws' : list Fluid.SableWrap) :
  (forall i w w', In w ws -> f (Fluid.peers_of external ws i) w = Returns w' ->
                  key w' = next (key w)) ->
  in_step ws ->
  Fluid.collective external f ws = Returns ws' ->
  in_step ws' /\ length ws' = length ws /\
  (forall a a', In a ws -> In a' ws' -> key a' = next (key a)).
Proof.
  intros Hnext Hstep Hrun. unfold Fluid.collective in Hrun.
  apply each_returns in Hrun.
  assert (Hkey : forall a a', In a ws -> In a' ws' -> key a' = next (key a)).
  { intros a a' Ha Ha'.
    destruct (Forall2_In_r _ _ _ _ Hrun Ha') as [[i v] [Hin Hv]]. simpl in Hv.
    apply in_combine_r in Hin.
    rewrite (Hnext i v a' Hin Hv). f_equal.
    exact (proj1 (in_step_key ws) Hstep v a Hin Ha). }
  split; [| split; [| exact Hkey]].
  - apply in_step_key. intros a' b' Ha' Hb'.
    destruct (Forall2_In_r _ _ _ _ Hrun Ha') as [[i v] [Hin _]].
    apply in_combine_r in Hin.
    rewrite (Hkey v a' Hin Ha'), (Hkey v b' Hin Hb'). reflexivity.
  - rewrite (Forall2_length _ _ _ Hrun), length_combine, length_seq.
    apply Nat.min_id.
Qed.

(** Among ranks in step, [All] returns to every rank the conjunction of
    the common flag and of the flags of the external processes. *)
Lemma All_in_step (ws : list Fluid.SableWrap) (i : nat) (w : Fluid.SableWrap)
      (flags : list bool) :
  in_step ws -> In w ws ->
  Fluid.All (Fluid.is_comm_active w)
            (map Fluid.is_comm_active (Fluid.others i ws) ++ flags)
  = Fluid.is_comm_active w && forallb (fun b => b) flags.
Proof.
  intros Hstep Hw. rewrite All_spec, forallb_app.
  destruct (Fluid.is_comm_active w) eqn:Hb; [| reflexivity]. simpl.
  replace (forallb (fun b => b) (map Fluid.is_comm_active (Fluid.others i ws)))
    with true; [reflexivity |].
  symmetry. apply forallb_forall. intros b Hin. apply in_map_iff in Hin.
  destruct Hin as [v [<- Hv]]. apply others_In in Hv.
  destruct (Hstep v w Hv Hw) as (_ & -> & _). exact Hb.
Qed.

Lemma fold_Qmax_zeros {A : Type} (l : list A) (rest : list Q) :
  fold_left Fluid.Qmax (map (fun _ => 0) l ++ rest) 0 = fold_left Fluid.Qmax rest 0.
Proof.
  rewrite fold_left_app. f_equal. induction l as [| x l IH]; [reflexivity | exact IH].
Qed.

Local Abbreviation run_one_step :=
  (fun p => Fluid.run_one_step p parameters space_dim int_cbrt NDEBUG output_results).

Lemma world_run_one_step_in_step (ws ws' : list Fluid.SableWrap) :
  in_step ws ->
  Fluid.collective external run_one_step ws = Returns ws' ->
  in_step ws' /\ length ws' = length ws /\
  (forall a a', In a ws -> In a' ws' ->
     Fluid.time a' = Fluid.time a /\
     Fluid.is_comm_active a'
     = (if Nat.eqb (Time.get_timestep (Fluid.time a)) 0
        then Fluid.is_comm_active a
        else Fluid.is_comm_active a &&
             forallb (fun b => b) (Fluid.peer_flags external (Fluid.all_calls a)))).
Proof.
  intros Hstep Hrun.
  destruct (collective_in_step run_one_step
              (fun k =>
                 let '(t, b, sc, ac, dc) := k in
                 if Nat.eqb (Time.get_timestep t) 0 then (t, b, S sc, ac, dc)
                 else (t, b && forallb (fun b => b) (Fluid.peer_flags external ac),
                       S sc, S ac, dc))
              ws ws') as (H1 & H2 & H3); [| exact Hstep | exact Hrun |].
  - intros i w w' Hw Hf. apply run_one_step_returns in Hf.
    destruct Hf as (Ht & Hs & Hd & Hflag). unfold key. rewrite Ht, Hs, Hd.
    destruct (Nat.eqb (Time.get_timestep (Fluid.time w)) 0).
    + destruct Hflag as [-> ->]. reflexivity.
    + destruct Hflag as [-> ->]. simpl Fluid.peer_flags.
      rewrite (All_in_step ws i w _ Hstep Hw). reflexivity.
  - split; [exact H1 |]. split; [exact H2 |].
    intros a a' Ha Ha'. specialize (H3 a a' Ha Ha'). unfold key in H3.
    destruct (Nat.eqb (Time.get_timestep (Fluid.time a)) 0);
      inversion H3; split; reflexivity.
Qed.

Lemma world_get_dt_sable_in_step (ws ws' : list Fluid.SableWrap) :
  in_step ws ->
  Fluid.collective external (fun p w => Returns (Fluid.get_dt_sable p w)) ws
  = Returns ws' ->
  in_step ws' /\ length ws' = length ws /\
  (forall a a', In a ws -> In a' ws' ->
     Fluid.is_comm_active a' = Fluid.is_comm_active a /\
     Nat.eqb (Time.get_timestep (Fluid.time a')) 0 = false /\
     Fluid.all_calls a' = Fluid.all_calls a).
Proof.
  intros Hstep Hrun.
  destruct (collective_in_step (fun p w => Returns (Fluid.get_dt_sable p w))
              (fun k =>
                 let '(t, b, sc, ac, dc) := k in
                 (Time.increment
                    (Time.set_delta_t
                       (Fluid.MPI_Allreduce_MAX_double 0 (Fluid.peer_dt external dc)) t),
                  b, sc, ac, S dc))
              ws ws') as (H1 & H2 & H3); [| exact Hstep | exact Hrun |].
  - intros i w w' Hw Hf. inversion Hf. unfold key, Fluid.get_dt_sable. simpl.
    unfold Fluid.MPI_Allreduce_MAX_double. rewrite fold_Qmax_zeros. reflexivity.
  - split; [exact H1 |]. split; [exact H2 |].
    intros a a' Ha Ha'. specialize (H3 a a' Ha Ha'). unfold key in H3.
    injection H3 as Et Eb _ Ea _. rewrite Et, Eb, Ea. repeat split.
Qed.

(** One turn of the loop keeps the ranks in step. *)
Lemma world_loop_body_in_step (ws ws' : list Fluid.SableWrap) :
  in_step ws ->
  Fluid.world_loop_body external parameters space_dim int_cbrt NDEBUG output_results ws
  = Returns ws' ->
  in_step ws' /\ length ws' = length ws.
Proof.
  intros Hstep. unfold Fluid.world_loop_body.
  destruct (negb (Fluid.same_branches ws)); [discriminate |].
  destruct (existsb _ ws).
  - destruct (Fluid.collective external run_one_step ws) as [ws1 | e |] eqn:H1;
      try discriminate.
    cbn [bind].
    destruct (world_run_one_step_in_step ws ws1 Hstep H1) as (S1 & L1 & _).
    destruct (Fluid.collective external _ ws1) as [ws2 | e |] eqn:H2;
      try discriminate.
    cbn [bind].
    destruct (world_get_dt_sable_in_step ws1 ws2 S1 H2) as (S2 & L2 & _).
    intros H3. destruct (world_run_one_step_in_step ws2 ws' S2 H3) as (S3 & L3 & _).
    split; [exact S3 | congruence].
  - cbn [bind].
    destruct (Fluid.collective external _ ws) as [ws2 | e |] eqn:H2;
      try discriminate.
    cbn [bind].
    destruct (world_get_dt_sable_in_step ws ws2 Hstep H2) as (S2 & L2 & _).
    intros H3. destruct (world_run_one_step_in_step ws2 ws' S2 H3) as (S3 & L3 & _).
    split; [exact S3 | congruence].
Qed.

Lemma in_step_flags (ws : list Fluid.SableWrap) :
  in_step ws ->
  forallb Fluid.is_comm_active ws = true \/
  forallb (fun w => negb (Fluid.is_comm_active w)) ws = true.
Proof.
  intros Hstep. destruct ws as [| w ws]; [now left |].
  destruct (Fluid.is_comm_active w) eqn:Hb; [left | right];
    apply forallb_forall; intros v Hv;
    destruct (Hstep v w Hv (or_introl eq_refl)) as (_ & -> & _); now rewrite Hb.
Qed.

(** The loop keeps the ranks in step until all of them leave it. *)
Lemma world_run_loop_in_step (fuel : nat) :
  forall ws ws',
    in_step ws ->
    Fluid.world_run_loop external parameters space_dim int_cbrt NDEBUG output_results
                         fuel ws = Some (Returns ws') ->
    in_step ws' /\ length ws' = length ws /\
    forall v, In v ws' -> Fluid.is_comm_active v = false.
Proof.
  induction fuel as [| fuel IH]; intros ws ws' Hstep Hrun; [discriminate |].
  cbn [Fluid.world_run_loop] in Hrun.
  destruct (forallb (fun w => negb (Fluid.is_comm_active w)) ws) eqn:Hleft.
  - inversion Hrun. subst ws'. split; [exact Hstep |]. split; [reflexivity |].
    intros v Hv. rewrite forallb_forall in Hleft. specialize (Hleft v Hv).
    now apply negb_true_iff in Hleft.
  - destruct (forallb Fluid.is_comm_active ws); [| discriminate].
    destruct (Fluid.world_loop_body external parameters space_dim int_cbrt NDEBUG
                                    output_results ws) as [ws1 | e |] eqn:Hbody;
      try discriminate.
    destruct (world_loop_body_in_step ws ws1 Hstep Hbody) as [S1 L1].
    destruct (IH ws1 ws' S1 Hrun) as (S2 & L2 & F2).
    split; [exact S2 |]. split; [congruence | exact F2].
Qed.

End WorldLoop.

Lemma reports_own_flag peers parameters space_dim int_cbrt NDEBUG output_results
      (w : Fluid.SableWrap) (report : list bool) :
  In report (Fluid.reports peers parameters space_dim int_cbrt NDEBUG output_results w) ->
  exists b rest, report = b :: rest.
Proof.
  unfold Fluid.reports.
  set (first := if Qeq_bool (Time.current (Fluid.time w)) 0 &&
                   negb (Nat.eqb (Time.get_timestep (Fluid.time w)) 0)
                then [Fluid.is_comm_active w
                        :: Fluid.peer_flags peers (Fluid.all_calls w)]
                else []).
  assert (Hfirst : In report first -> exists b rest, report = b :: rest).
  { unfold first. destruct (_ && _); [| intros []].
    intros [<- | []]. eexists. eexists. reflexivity. }
  destruct (if Qeq_bool (Time.current (Fluid.time w)) 0 then _ else _)
    as [w1 | e |]; try exact Hfirst.
  intros H. apply in_app_or in H. destruct H as [H | [<- | []]]; [now apply Hfirst |].
  eexists. eexists. reflexivity.
Qed.

(** C3, as the code has it.  [All] returns true only when every process
    passes an active flag.  For a wrapper inside the loop: when a turn of
    the loop returns, the flag is false after it exactly when some process
    passed an inactive flag to a call of [All] of that turn, which is the
    case when all of them did; the loop ends with that turn, and goes on to
    the next otherwise.  A turn that does not return ends the run: no
    turn returns when [int(output_interval)] is 0 (the remainder of a
    division by 0), and every turn returns when it is not 0, the output can
    be written and, at step 0, [find_ghost_nodes] returns, without which
    the turn of step 0 does not return.  Every process
    receives the same result from [All]; the ranks of the fluid solver
    that enter a turn in step, with the same clock and flag, are in step
    after it: either all of them or none go on, and when the loop has
    ended on all of them they hold the same step index. *)
Theorem exchange_loop_termination
        (peers : Fluid.Peers) (parameters : Fluid.AllParameters) (space_dim : nat)
        (int_cbrt : Z -> Outcome Z) (NDEBUG : bool)
        (output_results : nat -> Outcome unit) (w : Fluid.SableWrap) :
  Fluid.is_comm_active w = true ->
  let loop_body :=
    Fluid.loop_body peers parameters space_dim int_cbrt NDEBUG output_results in
  let run_loop :=
    Fluid.run_loop peers parameters space_dim int_cbrt NDEBUG output_results in
  let reports :=
    Fluid.reports peers parameters space_dim int_cbrt NDEBUG output_results in
  (forall w',
      loop_body w = Returns w' ->
      (Fluid.is_comm_active w' = false <->
       exists report, In report (reports w) /\ In false report) /\
      ((exists report, In report (reports w) /\ forall b, In b report -> b = false) ->
       Fluid.is_comm_active w' = false) /\
      (Fluid.is_comm_active w' = false ->
       forall fuel, run_loop (S (S fuel)) w = Some (Returns w')) /\
      (Fluid.is_comm_active w' = true ->
       forall fuel, run_loop (S fuel) w = run_loop fuel w')) /\
  ((forall w', loop_body w <> Returns w') ->
   forall fuel, run_loop (S fuel) w = Some (loop_body w)) /\
  (Sable.double_to_int (Fluid.output_interval parameters) = 0%Z ->
   forall w', loop_body w <> Returns w') /\
  (Sable.double_to_int (Fluid.output_interval parameters) <> 0%Z ->
   (forall step, output_results step = Returns tt) ->
   (Qeq_bool (Time.current (Fluid.time w)) 0 = true ->
    Time.get_timestep (Fluid.time w) = 0%nat ->
    exists w1, Fluid.find_ghost_nodes space_dim int_cbrt NDEBUG
                                      (Fluid.Max_sizes peers w) = Returns w1) ->
   exists w', loop_body w = Returns w') /\
  (Qeq_bool (Time.current (Fluid.time w)) 0 = true ->
   Time.get_timestep (Fluid.time w) = 0%nat ->
   (forall w1, Fluid.find_ghost_nodes space_dim int_cbrt NDEBUG
                                      (Fluid.Max_sizes peers w) <> Returns w1) ->
   forall w', loop_body w <> Returns w') /\
  (forall flags i j,
      (i < length flags)%nat -> (j < length flags)%nat ->
      Fluid.All (nth i flags true) (Fluid.others i flags)
      = Fluid.All (nth j flags true) (Fluid.others j flags)) /\
  (forall external ws ws',
      in_step ws ->
      Fluid.world_loop_body external parameters space_dim int_cbrt NDEBUG
                            output_results ws = Returns ws' ->
      in_step ws' /\ length ws' = length ws) /\
  (forall ws,
      in_step ws ->
      forallb Fluid.is_comm_active ws = true \/
      forallb (fun v => negb (Fluid.is_comm_active v)) ws = true) /\
  (forall external fuel ws ws',
      in_step ws ->
      Fluid.world_run_loop external parameters space_dim int_cbrt NDEBUG
                           output_results fuel ws = Some (Returns ws') ->
      in_step ws' /\ length ws' = length ws /\
      forall v, In v ws' -> Fluid.is_comm_active v = false).
Proof.
  intros Hactive. cbv zeta.
  split; [| split; [| split; [| split; [| split; [| split; [| split; [| split]]]]]]].
  - intros w' Hbody.
    pose proof (loop_body_reports _ _ _ _ _ _ w w' Hbody) as Hflag.
    split; [exact Hflag |]. split; [| split].
    + intros [report [Hin Hall]]. apply Hflag. exists report. split; [exact Hin |].
      destruct (reports_own_flag _ _ _ _ _ _ w report Hin) as (b & rest & ->).
      left. apply Hall. now left.
    + intros Hend fuel. rewrite run_loop_step by exact Hactive. rewrite Hbody.
      cbn [Fluid.run_loop]. now rewrite Hend.
    + intros Hgo fuel. rewrite run_loop_step by exact Hactive. now rewrite Hbody.
  - intros Hfail fuel. rewrite run_loop_step by exact Hactive.
    destruct (Fluid.loop_body peers parameters space_dim int_cbrt NDEBUG
                              output_results w) as [w' | e |] eqn:Hbody;
      [| reflexivity | reflexivity].
    exfalso. exact (Hfail w' eq_refl).
  - apply loop_body_returns.
  - apply loop_body_returns.
  - intros Hzero Hfirst Hfail w'. unfold Fluid.loop_body, Fluid.run_one_step.
    rewrite Hzero, Hfirst. simpl Nat.eqb. cbv iota zeta.
    destruct (Fluid.find_ghost_nodes space_dim int_cbrt NDEBUG (Fluid.Max_sizes peers w))
      as [w1 | e |]; [exfalso; exact (Hfail w1 eq_refl) | |]; discriminate.
  - intros flags i j Hi Hj. unfold Fluid.others.
    rewrite (All_same_on_every_rank flags i Hi), (All_same_on_every_rank flags j Hj).
    reflexivity.
  - intros external ws ws'. apply world_loop_body_in_step.
  - apply in_step_flags.
  - intros external fuel ws ws'. apply world_run_loop_in_step.
Qed.

Lemma exchange_loop_termination_witness :
  Fluid.reports Sample.peers_stalled (Sample.fluid_parameters 1 1) 2 Sample.int_cbrt
                false Sample.output_results Sample.wrapper_stalled
  = [[true; false]; [false; false]] /\
  Fluid.is_comm_active
    (Sample.returned
       (Fluid.loop_body Sample.peers_stalled (Sample.fluid_parameters 1 1) 2
                        Sample.int_cbrt false Sample.output_results
                        Sample.wrapper_stalled)
       Sample.wrapper_stalled) = false /\
  Fluid.run_loop Sample.peers_stalled (Sample.fluid_parameters 1 1) 2
                 Sample.int_cbrt false Sample.output_results 2 Sample.wrapper_stalled
  = Some (Fluid.loop_body Sample.peers_stalled (Sample.fluid_parameters 1 1) 2
                          Sample.int_cbrt false Sample.output_results
                          Sample.wrapper_stalled) /\
  (exists w',
      Fluid.loop_body Sample.peers_inactive (Sample.fluid_parameters 1 1) 2
                      Sample.int_cbrt false Sample.output_results Sample.wrapper
      = Returns w') /\
  in_step
    (Sample.returned
       (Fluid.world_loop_body Sample.peers_inactive (Sample.fluid_parameters 1 1) 2
                              Sample.int_cbrt false Sample.output_results
                              [Sample.wrapper; Sample.wrapper])
       []) /\
  (exists ws',
      Fluid.world_run_loop Sample.peers_inactive (Sample.fluid_parameters 1 1) 2
                           Sample.int_cbrt false Sample.output_results 2
                           [Sample.wrapper; Sample.wrapper]
      = Some (Returns ws') /\
      length ws' = 2%nat /\
      forall v, In v ws' ->
                Fluid.is_comm_active v = false /\
                Time.get_timestep (Fluid.time v) = 1%nat).
Proof.
  destruct (exchange_loop_termination
              Sample.peers_stalled (Sample.fluid_parameters 1 1) 2 Sample.int_cbrt
              false Sample.output_results Sample.wrapper_stalled eq_refl)
    as (Hturn & _).
  destruct (exchange_loop_termination
              Sample.peers_inactive (Sample.fluid_parameters 1 1) 2 Sample.int_cbrt
              false Sample.output_results Sample.wrapper eq_refl)
    as (_ & _ & _ & Hreturns & _ & _ & Hworld & _ & Hloop).
  cbv zeta in Hturn, Hreturns.
  destruct (Hturn (Sample.returned
                     (Fluid.loop_body Sample.peers_stalled (Sample.fluid_parameters 1 1)
                                      2 Sample.int_cbrt false Sample.output_results
                                      Sample.wrapper_stalled)
                     Sample.wrapper_stalled) eq_refl)
    as (_ & Hall & Hend & _).
  assert (Hflag :
            Fluid.is_comm_active
              (Sample.returned
                 (Fluid.loop_body Sample.peers_stalled (Sample.fluid_parameters 1 1) 2
                                  Sample.int_cbrt false Sample.output_results
                                  Sample.wrapper_stalled)
                 Sample.wrapper_stalled) = false).
  { apply Hall. exists [false; false]. split; [right; left; reflexivity |].
    intros b [<- | [<- | []]]; reflexivity. }
  split; [reflexivity |]. split; [exact Hflag |].
  split; [exact (Hend Hflag 0%nat) |].
  split.
  - apply Hreturns.
    + discriminate.
    + reflexivity.
    + intros _ _. eexists. vm_compute. reflexivity.
  - assert (Hstep : in_step [Sample.wrapper; Sample.wrapper])
      by (intros a b [<- | [<- | []]] [<- | [<- | []]]; repeat split).
    split.
    + apply (Hworld Sample.peers_inactive [Sample.wrapper; Sample.wrapper] _ Hstep).
      reflexivity.
    + eexists. split; [vm_compute; reflexivity |].
      match goal with
      | |- length ?ws' = _ /\ _ =>
          destruct (Hloop Sample.peers_inactive 2%nat
                          [Sample.wrapper; Sample.wrapper] ws' Hstep eq_refl)
            as (_ & Hlen & Hflags)
      end.
      split; [exact Hlen |].
      intros v Hv. split; [exact (Hflags v Hv) |].
      destruct Hv as [<- | [<- | []]]; reflexivity.
Defined.

(** C3, as stated, fails: the wrapper reports its flag active, one other
    process reports inactive, and the loop ends with that step (step 1)
    although not every process reported inactive. *)
Lemma exchange_loop_counterexample :
  Fluid.reports Sample.peers_inactive (Sample.fluid_parameters 1 1) 2 Sample.int_cbrt
                false Sample.output_results Sample.wrapper
  = [[true; false]] /\
  Fluid.run_loop Sample.peers_inactive (Sample.fluid_parameters 1 1) 2 Sample.int_cbrt
                 false Sample.output_results 2 Sample.wrapper
  = Some (Fluid.loop_body Sample.peers_inactive (Sample.fluid_parameters 1 1) 2
                          Sample.int_cbrt false Sample.output_results Sample.wrapper) /\
  (exists w',
      Fluid.loop_body Sample.peers_inactive (Sample.fluid_parameters 1 1) 2
                      Sample.int_cbrt false Sample.output_results Sample.wrapper
      = Returns w' /\
      Fluid.is_comm_active w' = false /\
      Time.get_timestep (Fluid.time w') = 1%nat) /\
  ~ (forall b, In b [true; false] -> b = false).
Proof.
  split; [reflexivity |]. split; [reflexivity |]. split.
  - eexists. split; [vm_compute; reflexivity |]. split; reflexivity.
  - intros H. specialize (H true (or_introl eq_refl)). discriminate.
Qed.

(** ** C5 and C10: one step of the Newmark integrator *)

Lemma add_vplus (a : Q) (V self : LA.Vector) :
  LA.add a V self = LA.vplus self (LA.vscale a V).
Proof.
  unfold LA.add, LA.vplus, LA.vscale. revert V.
  induction self as [| x self IH]; intros [| v V]; simpl; try reflexivity.
  now rewrite IH.
Qed.

Lemma add2_vplus (a b : Q) (V W self : LA.Vector) :
  LA.add2 a V b W self = LA.vplus self (LA.vplus (LA.vscale a V) (LA.vscale b W)).
Proof.
  unfold LA.vplus, LA.vscale. revert V W.
  induction self as [| x self IH]; intros [| v V] [| w W]; simpl; try reflexivity.
  now rewrite IH.
Qed.

Lemma sub_vminus (V self : LA.Vector) : LA.sub V self = LA.vminus self V.
Proof. reflexivity. Qed.

Lemma vminus_swap (x a b : LA.Vector) :
  Forall2 Qeq (LA.vminus (LA.vminus x a) b) (LA.vminus (LA.vminus x b) a).
Proof.
  unfold LA.vminus. revert a b.
  induction x as [| x0 x IH]; intros [| a0 a] [| b0 b]; simpl; try constructor.
  - ring.
  - apply IH.
Qed.

Lemma same_kinematics_refl (s : Solid.State) : same_kinematics s s.
Proof. repeat split. Qed.

Lemma same_kinematics_trans (s1 s2 s3 : Solid.State) :
  same_kinematics s1 s2 -> same_kinematics s2 s3 -> same_kinematics s1 s3.
Proof.
  unfold same_kinematics.
  intros (A1 & A2 & A3 & A4 & A5 & A6 & A7) (B1 & B2 & B3 & B4 & B5 & B6 & B7).
  repeat split; congruence.
Qed.

Lemma distribute_cell_kinematics fe constraints explicit assemble_matrix cell l s :
  same_kinematics s (Solid.distribute_cell fe constraints explicit assemble_matrix cell l s).
Proof.
  unfold Solid.distribute_cell, Constraints.distribute_system.
  destruct assemble_matrix, explicit; repeat split.
Qed.

Lemma assemble_cells_kinematics parameters fe constraints material explicit
      is_initial assemble_matrix rho mesh :
  forall acc r,
    for_each mesh
             (Solid.assemble_cell parameters fe constraints material explicit
                                  is_initial assemble_matrix rho) acc = Returns r ->
    same_kinematics (fst acc) (fst r).
Proof.
  induction mesh as [| cell mesh IH]; intros [s d] r H; simpl in H.
  - inversion H. apply same_kinematics_refl.
  - unfold Solid.assemble_cell at 1 in H.
    destruct (Solid.assemble_material material cell) as [m | e |]; try discriminate.
    simpl in H. apply IH in H. simpl in *.
    eapply same_kinematics_trans; [| exact H].
    apply distribute_cell_kinematics.
Qed.

Lemma assemble_kinematics parameters fe constraints material explicit mesh
      is_initial assemble_matrix s s' :
  Solid.assemble parameters fe constraints material explicit mesh
                 is_initial assemble_matrix s = Returns s' ->
  same_kinematics s s'.
Proof.
  unfold Solid.assemble. intros H.
  destruct (subscript material 0) as [m0 | e |]; try discriminate.
  simpl in H.
  match type of H with
  | bind (for_each _ _ ?acc) _ = _ =>
      destruct (for_each mesh
                  (Solid.assemble_cell parameters fe constraints material explicit
                                       is_initial assemble_matrix (Solid.get_density m0))
                  acc) as [r | e |] eqn:Hr; try discriminate
  end.
  simpl in H. inversion H; subst s'.
  apply assemble_cells_kinematics in Hr.
  eapply same_kinematics_trans; [| exact Hr].
  destruct assemble_matrix; repeat split.
Qed.

Lemma begin_step_kinematics parameters fe constraints material explicit mesh s s1 :
  Solid.begin_step parameters fe constraints material explicit mesh s = Returns s1 ->
  Solid.previous_displacement s1 = Solid.previous_displacement s /\
  Solid.previous_velocity s1 = Solid.previous_velocity s /\
  Solid.previous_acceleration s1 = Solid.previous_acceleration s.
Proof.
  unfold Solid.begin_step, Solid.assemble_rhs. intros H.
  destruct (Solid.is_FSI parameters).
  - apply assemble_kinematics in H.
    destruct H as (A1 & A2 & A3 & _). simpl in *. repeat split; assumption.
  - inversion H. repeat split.
Qed.

Lemma effective_system_kinematics parameters fe explicit dt s :
  same_kinematics s (fst (Solid.effective_system parameters fe explicit dt s)).
Proof.
  unfold Solid.effective_system.
  destruct (Solid.is_FSI parameters), explicit; repeat split.
Qed.

(** C5.  In a step that is not the first, once the effective system is
    solved for the new acceleration [a_new], the new velocity is
    [v + dt (1 - gamma) a + dt gamma a_new] and the new displacement is
    [d + dt v + dt^2 (0.5 - beta) a + dt^2 beta a_new], with [d], [v], [a]
    the fields of the previous step; the new fields then become the
    previous ones. *)
Theorem newmark_update_laws
        (parameters : Solid.AllParameters) (fe : Solid.Discretisation)
        (constraints : Constraints.AffineConstraints)
        (material : list Solid.LinearElasticMaterial)
        (is_lag_penalty_explicit : bool) (mesh : list Solid.Cell)
        (solve : LA.Matrix -> LA.Vector -> LA.Vector -> Outcome (LA.Vector * (nat * Q)))
        (epilogue : Solid.State -> Outcome Solid.State)
        (s s1 : Solid.State) (a_new : LA.Vector) (info : nat * Q) :
  let dt := Time.get_delta_t (Solid.time s) in
  let gamma := Solid.gamma parameters in
  let beta := Solid.beta parameters in
  let d := Solid.previous_displacement s in
  let v := Solid.previous_velocity s in
  let a := Solid.previous_acceleration s in
  Solid.begin_step parameters fe constraints material is_lag_penalty_explicit mesh s
  = Returns s1 ->
  solve (Solid.system_matrix_updated
           (fst (Solid.effective_system parameters fe is_lag_penalty_explicit dt s1)))
        (Solid.current_acceleration s1)
        (snd (Solid.effective_system parameters fe is_lag_penalty_explicit dt s1))
  = Returns (a_new, info) ->
  exists s2,
    Solid.advance parameters fe constraints material is_lag_penalty_explicit mesh
                  solve s = Returns s2 /\
    Solid.run_one_step parameters fe constraints material is_lag_penalty_explicit
                       mesh solve epilogue false s
    = bind (Solid.update_strain_and_stress_materials parameters material mesh)
           (fun _ => epilogue s2) /\
    Solid.current_acceleration s2 = a_new /\
    Solid.current_velocity s2
    = LA.vplus (LA.vplus v (LA.vscale (dt * (1 - gamma)) a))
               (LA.vscale (dt * gamma) a_new) /\
    Solid.current_displacement s2
    = LA.vplus (LA.vplus (LA.vplus d (LA.vscale dt v))
                         (LA.vscale (dt * dt * (0.5 - beta)) a))
               (LA.vscale (dt * dt * beta) a_new) /\
    Solid.previous_displacement s2 = Solid.current_displacement s2 /\
    Solid.previous_velocity s2 = Solid.current_velocity s2 /\
    Solid.previous_acceleration s2 = Solid.current_acceleration s2.
Proof.
  intros dt gamma beta d v a Hbegin Hsolve.
  destruct (begin_step_kinematics _ _ _ _ _ _ _ _ Hbegin) as (Hd & Hv & Ha).
  pose proof (effective_system_kinematics parameters fe is_lag_penalty_explicit dt s1)
    as (Ed & Ev & Ea & _ & _ & Eca & _).
  destruct (Solid.effective_system parameters fe is_lag_penalty_explicit dt s1)
    as [se tmp1] eqn:Heff.
  simpl fst in *. simpl snd in *.
  assert (Hadv :
            Solid.advance parameters fe constraints material is_lag_penalty_explicit
                          mesh solve s
            = Returns (Solid.update_fields parameters dt
                         (Solid.set_current (Solid.current_displacement se)
                                            (Solid.current_velocity se) a_new se))).
  { unfold Solid.advance. rewrite Hbegin. simpl bind. fold dt. rewrite Heff.
    rewrite Eca, Hsolve. reflexivity. }
  eexists. split; [exact Hadv |].
  split; [unfold Solid.run_one_step; simpl bind at 1; rewrite Hadv; reflexivity |].
  unfold Solid.update_fields. simpl.
  rewrite !add_vplus, Ed, Ev, Ea, Hd, Hv, Ha.
  repeat split.
Qed.

(** C10.  In a step that is not the first, in FSI mode with the implicit
    Lagrangian penalty, the right-hand side handed to the solver is the
    assembled right-hand side minus the stiffness matrix applied to the
    predicted displacement, minus the damping matrix applied to the
    previous velocity, minus the damping matrix applied to the previous
    acceleration, both with coefficient 1: the scaling of the temporary
    by [dt (1 - gamma)] is overwritten by the product. *)
Theorem implicit_penalty_rhs
        (parameters : Solid.AllParameters) (fe : Solid.Discretisation)
        (constraints : Constraints.AffineConstraints)
        (material : list Solid.LinearElasticMaterial)
        (mesh : list Solid.Cell)
        (solve : LA.Matrix -> LA.Vector -> LA.Vector -> Outcome (LA.Vector * (nat * Q)))
        (s s1 : Solid.State) :
  let dt := Time.get_delta_t (Solid.time s) in
  let alpha := Solid.alpha parameters in
  let beta := Solid.beta parameters in
  let K := Solid.stiffness_matrix s1 in
  let C := Solid.damping_matrix s1 in
  let system := Solid.effective_system parameters fe false dt s1 in
  Solid.is_FSI parameters = true ->
  Solid.begin_step parameters fe constraints material false mesh s = Returns s1 ->
  Solid.advance parameters fe constraints material false mesh solve s
  = bind (solve (Solid.system_matrix_updated (fst system))
                (Solid.current_acceleration (fst system)) (snd system))
         (fun r =>
            Returns (Solid.update_fields parameters dt
                       (Solid.set_current (Solid.current_displacement (fst system))
                                          (Solid.current_velocity (fst system))
                                          (fst r) (fst system)))) /\
  Solid.predictor parameters dt s1
  = LA.vplus (Solid.previous_displacement s)
             (LA.vplus (LA.vscale (dt * (1 + alpha)) (Solid.previous_velocity s))
                       (LA.vscale ((0.5 - beta) * dt * dt * (1 + alpha))
                                  (Solid.previous_acceleration s))) /\
  Forall2 Qeq (snd system)
          (LA.vminus
             (LA.vminus
                (LA.vminus (Solid.system_rhs s1)
                           (LA.mv K (Solid.predictor parameters dt s1)))
                (LA.mv C (Solid.previous_velocity s)))
             (LA.mv C (Solid.previous_acceleration s))).
Proof.
  intros dt alpha beta K C system HFSI Hbegin.
  destruct (begin_step_kinematics _ _ _ _ _ _ _ _ Hbegin) as (Hd & Hv & Ha).
  split; [| split].
  - unfold Solid.advance. rewrite Hbegin. simpl bind at 1. fold dt. fold system.
    destruct system as [se tmp1]. reflexivity.
  - unfold Solid.predictor. rewrite add2_vplus, Hd, Hv, Ha. reflexivity.
  - subst system. unfold Solid.effective_system. rewrite HFSI. simpl negb. cbv iota.
    simpl snd. rewrite !sub_vminus. unfold LA.vmult. simpl Solid.damping_matrix.
    simpl Solid.previous_acceleration. simpl Solid.previous_velocity.
    rewrite Hv, Ha. fold K. fold C.
    change (map (fun row => LA.dot row ?x) ?M) with (LA.mv M x).
    apply vminus_swap.
Qed.

Lemma newmark_update_laws_witness :
  exists s2,
    Solid.advance (Sample.parameters 2 "Solid") Sample.fe [] Sample.materials true
                  Sample.mesh Sample.solve_diagonal Sample.state = Returns s2 /\
    Solid.current_velocity s2
    = LA.vplus
        (LA.vplus (Solid.previous_velocity Sample.state)
                  (LA.vscale ((1 # 2) * (1 - Solid.gamma (Sample.parameters 2 "Solid")))
                             (Solid.previous_acceleration Sample.state)))
        (LA.vscale ((1 # 2) * Solid.gamma (Sample.parameters 2 "Solid"))
                   (fst Sample.solved)).
Proof.
  destruct (newmark_update_laws
              (Sample.parameters 2 "Solid") Sample.fe [] Sample.materials true
              Sample.mesh Sample.solve_diagonal Sample.epilogue
              Sample.state Sample.state_begun (fst Sample.solved) (snd Sample.solved))
    as (s2 & Hadv & _ & _ & Hvel & _).
  - vm_compute. reflexivity.
  - vm_compute. reflexivity.
  - exists s2. split; [exact Hadv | exact Hvel].
Defined.

Lemma implicit_penalty_rhs_witness :
  Forall2 Qeq
    (snd (Solid.effective_system (Sample.parameters 2 "FSI") Sample.fe false
                                 (1 # 2) Sample.state_begun_FSI))
    (LA.vminus
       (LA.vminus
          (LA.vminus (Solid.system_rhs Sample.state_begun_FSI)
                     (LA.mv (Solid.stiffness_matrix Sample.state_begun_FSI)
                            (Solid.predictor (Sample.parameters 2 "FSI") (1 # 2)
                                             Sample.state_begun_FSI)))
          (LA.mv (Solid.damping_matrix Sample.state_begun_FSI)
                 (Solid.previous_velocity Sample.state)))
       (LA.mv (Solid.damping_matrix Sample.state_begun_FSI)
              (Solid.previous_acceleration Sample.state))).
Proof.
  apply (implicit_penalty_rhs
           (Sample.parameters 2 "FSI") Sample.fe [] Sample.materials Sample.mesh
           Sample.solve_diagonal Sample.state Sample.state_begun_FSI).
  - reflexivity.
  - vm_compute. reflexivity.
Defined.

(** ** Matrices as lists of rows: entries, shapes, row sums *)

Lemma length_update {A : Type} (i : nat) (f : A -> A) (xs : list A) :
  length (LA.update i f xs) = length xs.
Proof.
  revert i. induction xs as [| x xs IH]; intros [| i]; simpl; try reflexivity.
  now rewrite IH.
Qed.

Lemma nth_update {A : Type} (i k : nat) (f : A -> A) (xs : list A) (d : A) :
  (i < length xs)%nat ->
  nth k (LA.update i f xs) d = if Nat.eqb k i then f (nth i xs d) else nth k xs d.
Proof.
  revert i k. induction xs as [| x xs IH]; intros i k Hi; simpl in Hi; [lia |].
  destruct i as [| i], k as [| k]; simpl; try reflexivity.
  apply IH. lia.
Qed.

Lemma update_out_of_range {A : Type} (i : nat) (f : A -> A) (xs : list A) :
  (length xs <= i)%nat -> LA.update i f xs = xs.
Proof.
  revert i. induction xs as [| x xs IH]; intros [| i] Hi; simpl in *;
    try reflexivity; try lia.
  rewrite IH by lia. reflexivity.
Qed.

Lemma dims_nth (m n : nat) (M : LA.Matrix) (i : nat) :
  dims m n M -> (i < m)%nat -> length (nth i M []) = n.
Proof.
  intros [Hm Hrows] Hi. rewrite Forall_forall in Hrows.
  apply Hrows. apply nth_In. lia.
Qed.

Lemma dims_update_row (m n i : nat) (f : list Q -> list Q) (M : LA.Matrix) :
  dims m n M -> (forall row, length (f row) = length row) ->
  dims m n (LA.update i f M).
Proof.
  intros [Hm Hrows] Hf. split; [now rewrite length_update |].
  clear Hm. revert i. induction Hrows as [| row M Hrow Hrows IH]; intros [| i]; simpl.
  - constructor.
  - constructor.
  - constructor; [now rewrite Hf | assumption].
  - constructor; [assumption | apply IH].
Qed.

Lemma dims_add_entry (m n i j : nat) (v : Q) (M : LA.Matrix) :
  dims m n M -> dims m n (LA.add_entry i j v M).
Proof.
  intros H. apply dims_update_row; [assumption |].
  intros row. apply length_update.
Qed.

Lemma dims_set (m n i j : nat) (v : Q) (M : LA.Matrix) :
  dims m n M -> dims m n (LA.set i j v M).
Proof.
  intros H. apply dims_update_row; [assumption |].
  intros row. apply length_update.
Qed.

Lemma dims_zero_matrix (m n : nat) : dims m n (LA.zero_matrix m n).
Proof.
  unfold LA.zero_matrix. split; [apply repeat_length |].
  apply Forall_forall. intros row Hrow. apply repeat_spec in Hrow. subst.
  apply repeat_length.
Qed.

Lemma el_zero_matrix (m n i j : nat) : LA.el (LA.zero_matrix m n) i j = 0.
Proof.
  unfold LA.el, LA.zero_matrix.
  destruct (Nat.lt_ge_cases i m) as [Hi | Hi].
  - rewrite nth_repeat_lt by assumption.
    destruct (Nat.lt_ge_cases j n) as [Hj | Hj].
    + now rewrite nth_repeat_lt.
    + rewrite nth_overflow; [reflexivity | now rewrite repeat_length].
  - rewrite (nth_overflow (repeat (repeat 0 n) m)) by (now rewrite repeat_length).
    now destruct j.
Qed.

(** The entries after [M(i, j) = f (M(i, j))], for [(i, j)] inside [M]. *)
Lemma el_update_entry (m n i j i' j' : nat) (f : Q -> Q) (M : LA.Matrix) :
  dims m n M -> (i < m)%nat -> (j < n)%nat ->
  LA.el (LA.update i (LA.update j f) M) i' j'
  = if Nat.eqb i' i && Nat.eqb j' j then f (LA.el M i j) else LA.el M i' j'.
Proof.
  intros HM Hi Hj. unfold LA.el.
  destruct HM as [Hm Hrows].
  rewrite nth_update by lia.
  destruct (Nat.eqb_spec i' i) as [-> | Hne]; simpl; [| reflexivity].
  rewrite nth_update; [reflexivity |].
  rewrite (dims_nth m n M i (conj Hm Hrows) Hi). exact Hj.
Qed.

Lemma el_add_entry (m n i j i' j' : nat) (v : Q) (M : LA.Matrix) :
  dims m n M -> (i < m)%nat -> (j < n)%nat ->
  LA.el (LA.add_entry i j v M) i' j'
  = if Nat.eqb i' i && Nat.eqb j' j then LA.el M i j + v else LA.el M i' j'.
Proof. apply el_update_entry. Qed.

Lemma el_set (m n i j i' j' : nat) (v : Q) (M : LA.Matrix) :
  dims m n M -> (i < m)%nat -> (j < n)%nat ->
  LA.el (LA.set i j v M) i' j'
  = if Nat.eqb i' i && Nat.eqb j' j then v else LA.el M i' j'.
Proof. apply (el_update_entry m n i j i' j' (fun _ => v)). Qed.

(** A projection commutes with a loop when it commutes with its body. *)
Lemma for_loop_project {S T : Type} (f : S -> T) (n : nat)
      (body : nat -> S -> S) (body' : nat -> T -> T) (s : S) :
  (forall k s, f (body k s) = body' k (f s)) ->
  f (for_loop n body s) = for_loop n body' (f s).
Proof.
  intros H. induction n as [| n IH]; simpl; [reflexivity |].
  now rewrite H, IH.
Qed.

Lemma for_loop_ext {S : Type} (n : nat) (body body' : nat -> S -> S) (s : S) :
  (forall k s, (k < n)%nat -> body k s = body' k s) ->
  for_loop n body s = for_loop n body' s.
Proof.
  induction n as [| n IH]; intros H; simpl; [reflexivity |].
  rewrite IH by (intros; apply H; lia). apply H. lia.
Qed.

(** Loops that rewrite the entries of a square matrix one at a time. *)
Section EntryLoops.

Variable n : nat.

(** One row: [for j: M = g j M], where [g j] rewrites the entry
    [(i, j)] to [h j] of its value and nothing else. *)
Lemma row_loop (i : nat) (g : nat -> LA.Matrix -> LA.Matrix) (h : nat -> Q -> Q) :
  (i < n)%nat ->
  (forall j M, dims n n M -> dims n n (g j M)) ->
  (forall j M i' j',
      dims n n M -> (j < n)%nat ->
      LA.el (g j M) i' j'
      = if Nat.eqb i' i && Nat.eqb j' j then h j (LA.el M i j) else LA.el M i' j') ->
  forall k M,
    (k <= n)%nat -> dims n n M ->
    dims n n (for_loop k g M) /\
    forall i' j',
      LA.el (for_loop k g M) i' j'
      = if Nat.eqb i' i && Nat.ltb j' k then h j' (LA.el M i j') else LA.el M i' j'.
Proof.
  intros Hi Hdims Hel k M Hk HM.
  induction k as [| k IH]; simpl.
  - split; [assumption |]. intros i' j'. now rewrite andb_false_r.
  - destruct IH as [IHd IHe]; [lia |].
    split; [apply Hdims, IHd |].
    intros i' j'. rewrite Hel by (assumption || lia). rewrite !IHe.
    rewrite Nat.eqb_refl, Nat.ltb_irrefl. simpl.
    destruct (Nat.eqb_spec i' i) as [-> | Hne]; simpl; [| reflexivity].
    destruct (Nat.eqb_spec j' k) as [-> | Hjk].
    + replace (k <? S k)%nat with true by (symmetry; apply Nat.ltb_lt; lia).
      reflexivity.
    + destruct (Nat.ltb_spec j' k) as [Hlt | Hge].
      * replace (j' <? S k)%nat with true by (symmetry; apply Nat.ltb_lt; lia).
        reflexivity.
      * replace (j' <? S k)%nat with false by (symmetry; apply Nat.ltb_ge; lia).
        reflexivity.
Qed.

(** All rows: [for i: for j: M = g i j M]. *)
Lemma grid_loop (g : nat -> nat -> LA.Matrix -> LA.Matrix) (h : nat -> nat -> Q -> Q) :
  (forall i j M, dims n n M -> dims n n (g i j M)) ->
  (forall i j M i' j',
      dims n n M -> (i < n)%nat -> (j < n)%nat ->
      LA.el (g i j M) i' j'
      = if Nat.eqb i' i && Nat.eqb j' j then h i j (LA.el M i j) else LA.el M i' j') ->
  forall k M,
    (k <= n)%nat -> dims n n M ->
    dims n n (for_loop k (fun i M => for_loop n (g i) M) M) /\
    forall i' j',
      LA.el (for_loop k (fun i M => for_loop n (g i) M) M) i' j'
      = if Nat.ltb i' k && Nat.ltb j' n then h i' j' (LA.el M i' j') else LA.el M i' j'.
Proof.
  intros Hdims Hel k M Hk HM.
  induction k as [| k IH]; simpl.
  - split; [assumption | reflexivity].
  - destruct IH as [IHd IHe]; [lia |].
    destruct (row_loop k (g k) (h k)) with (k := n)
      (M := for_loop k (fun i M => for_loop n (g i) M) M) as [Rd Re];
      try assumption; try lia.
    + intros j M0. apply Hdims.
    + intros j M0 i' j' HM0 Hj. apply Hel; (assumption || lia).
    + split; [exact Rd |].
      intros i' j'. rewrite Re, !IHe.
      destruct (Nat.eqb_spec i' k) as [-> | Hne]; simpl.
      * replace (k <? S k)%nat with true by (symmetry; apply Nat.ltb_lt; lia).
        rewrite Nat.ltb_irrefl. simpl. destruct (j' <? n)%nat; reflexivity.
      * destruct (Nat.ltb_spec i' k) as [Hlt | Hge].
        -- replace (i' <? S k)%nat with true by (symmetry; apply Nat.ltb_lt; lia).
           reflexivity.
        -- replace (i' <? S k)%nat with false by (symmetry; apply Nat.ltb_ge; lia).
           reflexivity.
Qed.

End EntryLoops.

(** ** C7: the mass coefficient of the fluid assembly *)

Section FluidMassCoefficient.

Variable parameters : Fluid.AllParameters.
Variable fe : Fluid.Discretisation.
Variable delta_t : Q.
Variable cell : Fluid.Cell.

Let n := Fluid.dofs_per_cell fe.

(** The coefficient the assembly multiplies the velocity mass term with. *)
Let coefficient : Q :=
  if (Fluid.indicator cell =? 0)%Z
  then Fluid.mass_coef_f parameters delta_t
  else Fluid.mass_coef_s parameters delta_t.

Let mass_term (q i j : nat) : Q :=
  coefficient * LA.dot (Fluid.phi_u cell i q) (Fluid.phi_u cell j q) * Fluid.JxW cell q.

Let stokes_term (q i j : nat) : Q :=
  (2 * Fluid.viscosity parameters
     * LA.ddot (Fluid.symgrad_phi_u cell i q) (Fluid.symgrad_phi_u cell j q)
   - Fluid.div_phi_u cell i q * Fluid.phi_p cell j q
   - Fluid.phi_p cell i q * Fluid.div_phi_u cell j q) * Fluid.JxW cell q.

Let entry_step (q i j : nat) (M : LA.Matrix) : LA.Matrix :=
  LA.add_entry i j (stokes_term q i j) (LA.add_entry i j (mass_term q i j) M).

(** What the loops of [integrate_cell] do to [local_matrix]. *)
Lemma integrate_cell_local_matrix :
  Fluid.local_matrix (Fluid.integrate_cell parameters fe delta_t cell)
  = for_loop (Fluid.n_q_points fe)
      (fun q M => for_loop n (fun i M => for_loop n (entry_step q i) M) M)
      (LA.zero_matrix n n).
Proof.
  unfold Fluid.integrate_cell.
  rewrite (for_loop_project Fluid.local_matrix) with
    (body' := fun q M => for_loop n (fun i M => for_loop n (entry_step q i) M) M);
    [reflexivity |].
  intros q l.
  apply (for_loop_project Fluid.local_matrix). intros i l'.
  match goal with
  | |- context [for_loop (Fluid.dofs_per_cell fe) ?body l'] =>
      transitivity (Fluid.local_matrix (for_loop (Fluid.dofs_per_cell fe) body l'))
  end.
  - destruct (negb (Fluid.indicator cell =? 0)%Z); reflexivity.
  - apply (for_loop_project Fluid.local_matrix). intros j l''.
    unfold entry_step, mass_term, stokes_term, coefficient. cbv zeta.
    destruct (Fluid.indicator cell =? 0)%Z;
      destruct (Nat.ltb (Fluid.system_to_component_index fe i) (Fluid.dim fe) &&
                Nat.ltb (Fluid.system_to_component_index fe j) (Fluid.dim fe));
      try reflexivity;
      destruct (Nat.eqb (Fluid.system_to_component_index fe i) (Fluid.dim fe) &&
                Nat.eqb (Fluid.system_to_component_index fe j) (Fluid.dim fe));
      reflexivity.
Qed.

Lemma entry_step_dims (q i j : nat) (M : LA.Matrix) :
  dims n n M -> dims n n (entry_step q i j M).
Proof. intros H. unfold entry_step. now apply dims_add_entry, dims_add_entry. Qed.

Lemma entry_step_el (q i j : nat) (M : LA.Matrix) (i' j' : nat) :
  dims n n M -> (i < n)%nat -> (j < n)%nat ->
  LA.el (entry_step q i j M) i' j'
  = if Nat.eqb i' i && Nat.eqb j' j
    then LA.el M i j + mass_term q i j + stokes_term q i j
    else LA.el M i' j'.
Proof.
  intros HM Hi Hj. unfold entry_step.
  rewrite (el_add_entry n n) by (try apply dims_add_entry; assumption).
  rewrite !(el_add_entry n n) by assumption.
  rewrite !Nat.eqb_refl. simpl.
  destruct (Nat.eqb i' i && Nat.eqb j' j); reflexivity.
Qed.

Lemma quadrature_loop_el (k i j : nat) :
  (i < n)%nat -> (j < n)%nat ->
  dims n n (for_loop k
              (fun q M => for_loop n (fun i M => for_loop n (entry_step q i) M) M)
              (LA.zero_matrix n n)) /\
  LA.el (for_loop k
           (fun q M => for_loop n (fun i M => for_loop n (entry_step q i) M) M)
           (LA.zero_matrix n n)) i j
  = for_loop k (fun q s => s + mass_term q i j + stokes_term q i j) 0.
Proof.
  intros Hi Hj. induction k as [| k [IHd IHe]]; simpl.
  - split; [apply dims_zero_matrix | apply el_zero_matrix].
  - destruct (grid_loop n (entry_step k)
                        (fun i j x => x + mass_term k i j + stokes_term k i j))
      with (k := n)
           (M := for_loop k
                   (fun q M => for_loop n (fun i M => for_loop n (entry_step q i) M) M)
                   (LA.zero_matrix n n)) as [Gd Ge]; try assumption; try lia.
    + intros. now apply entry_step_dims.
    + intros. now apply entry_step_el.
    + split; [exact Gd |].
      rewrite Ge, IHe.
      replace (i <? n)%nat with true by (symmetry; apply Nat.ltb_lt; lia).
      replace (j <? n)%nat with true by (symmetry; apply Nat.ltb_lt; lia).
      reflexivity.
Qed.

Lemma quadrature_sum_split (k i j : nat) :
  for_loop k (fun q s => s + mass_term q i j + stokes_term q i j) 0
  == coefficient
     * for_loop k
         (fun q s => s + LA.dot (Fluid.phi_u cell i q) (Fluid.phi_u cell j q)
                         * Fluid.JxW cell q) 0
     + for_loop k (fun q s => s + stokes_term q i j) 0.
Proof.
  induction k as [| k IH]; simpl.
  - ring.
  - rewrite IH. unfold mass_term. ring.
Qed.

(** C7.  The entry [(i, j)] of the cell matrix is the mass coefficient
    times the velocity mass integral plus the integral of the Stokes terms,
    and the coefficient is the fluid density over the step size when the
    indicator of the cell is 0, and [(1 + theta)] times the solid density
    over the step size for every other indicator. *)
Theorem mass_coefficient_by_indicator (i j : nat) :
  (i < Fluid.dofs_per_cell fe)%nat -> (j < Fluid.dofs_per_cell fe)%nat ->
  (coefficient ==
   if (Fluid.indicator cell =? 0)%Z
   then Fluid.fluid_rho parameters / delta_t
   else (1 + Fluid.penalty_scale_factor parameters) * Fluid.solid_rho parameters
        / delta_t) /\
  LA.el (Fluid.local_matrix (Fluid.integrate_cell parameters fe delta_t cell)) i j
  == coefficient * Fluid.mass_integral fe cell i j
     + Fluid.stokes_integral parameters fe cell i j.
Proof.
  intros Hi Hj. split.
  - unfold coefficient, Fluid.mass_coef_f, Fluid.mass_coef_s, Fluid.dt_inv,
      Fluid.rho, Fluid.rho_s, Fluid.theta.
    destruct (Fluid.indicator cell =? 0)%Z; unfold Qdiv; ring.
  - rewrite integrate_cell_local_matrix.
    destruct (quadrature_loop_el (Fluid.n_q_points fe) i j Hi Hj) as [_ He].
    rewrite He, quadrature_sum_split. reflexivity.
Qed.

End FluidMassCoefficient.

(** ** C6: the lumped mass matrix *)

Lemma for_loop_invariant {S : Type} (P : S -> Prop) (n : nat)
      (body : nat -> S -> S) (s : S) :
  (forall k s, (k < n)%nat -> P s -> P (body k s)) -> P s -> P (for_loop n body s).
Proof.
  induction n as [| n IH]; intros Hbody Hs; simpl; [assumption |].
  apply Hbody; [lia |]. apply IH; [| assumption].
  intros k s' Hk. apply Hbody. lia.
Qed.

Lemma sum_loop_ext (n : nat) (f g : nat -> Q) :
  (forall j, (j < n)%nat -> f j == g j) ->
  for_loop n (fun j s => s + f j) 0 == for_loop n (fun j s => s + g j) 0.
Proof.
  induction n as [| n IH]; intros H; simpl; [reflexivity |].
  rewrite IH by (intros; apply H; lia). rewrite (H n) by lia. reflexivity.
Qed.

Lemma sum_loop_shift (x : Q) (row : list Q) (k : nat) :
  for_loop (S k) (fun j s => s + nth j (x :: row) 0) 0
  == x + for_loop k (fun j s => s + nth j row 0) 0.
Proof.
  induction k as [| k IH].
  - simpl. ring.
  - change (for_loop (S (S k)) (fun j s => s + nth j (x :: row) 0) 0)
      with (for_loop (S k) (fun j s => s + nth j (x :: row) 0) 0 + nth k row 0).
    rewrite IH. simpl. ring.
Qed.

(** The sum of a row, entry by entry. *)
Lemma row_sum_loop (row : list Q) :
  fold_right Qplus 0 row == for_loop (length row) (fun j s => s + nth j row 0) 0.
Proof.
  induction row as [| x row IH]; [reflexivity |].
  cbn [fold_right length]. rewrite sum_loop_shift, IH. reflexivity.
Qed.

Lemma row_sum_total (n : nat) (M : LA.Matrix) (i : nat) :
  dims n n M -> (i < n)%nat -> LA.row_sum M i == row_total n M i.
Proof.
  intros HM Hi. unfold LA.row_sum, row_total, LA.el.
  rewrite row_sum_loop, (dims_nth n n M i HM Hi). reflexivity.
Qed.

(** The sum of a row whose only entry that may differ from 0 is at [i]. *)
Lemma sum_loop_single (n i : nat) (a : Q) :
  (i < n)%nat ->
  for_loop n (fun j s => s + (if Nat.eqb i j then a else 0)) 0 == a.
Proof.
  intros Hi.
  assert (G : forall k,
             for_loop k (fun j s => s + (if Nat.eqb i j then a else 0)) 0
             == if Nat.ltb i k then a else 0).
  { induction k as [| k IH]; [reflexivity |].
    simpl for_loop. rewrite IH.
    destruct (Nat.eqb_spec i k) as [-> | Hne].
    - rewrite Nat.ltb_irrefl.
      replace (k <? S k)%nat with true by (symmetry; apply Nat.ltb_lt; lia). ring.
    - destruct (Nat.ltb_spec i k) as [Hlt | Hge].
      + replace (i <? S k)%nat with true by (symmetry; apply Nat.ltb_lt; lia). ring.
      + replace (i <? S k)%nat with false by (symmetry; apply Nat.ltb_ge; lia). ring. }
  rewrite G. replace (i <? n)%nat with true by (symmetry; apply Nat.ltb_lt; lia).
  reflexivity.
Qed.

Section Lumping.

Variable fe : Solid.Discretisation.

Let n := Solid.dofs_per_cell fe.

Lemma lump_row_spec (i : nat) (M : LA.Matrix) :
  (i < n)%nat -> dims n n M ->
  dims n n (Solid.lump_row fe i M) /\
  forall i' j',
    LA.el (Solid.lump_row fe i M) i' j'
    = if Nat.eqb i' i && Nat.ltb j' n
      then (if Nat.eqb i j' then row_total n M i else 0)
      else LA.el M i' j'.
Proof.
  intros Hi HM. unfold Solid.lump_row. fold n. fold (row_total n M i).
  apply (row_loop n i
           (fun j M' => if Nat.eqb i j then LA.set i j (row_total n M i) M'
                        else LA.set i j 0 M')
           (fun j _ => if Nat.eqb i j then row_total n M i else 0));
    try assumption; try lia.
  - intros j M' HM'. destruct (Nat.eqb i j); now apply dims_set.
  - intros j M' i' j' HM' Hj.
    destruct (Nat.eqb i j); rewrite (el_set n n) by assumption; reflexivity.
Qed.

Lemma row_total_ext (M M' : LA.Matrix) (i : nat) :
  (forall j, LA.el M' i j = LA.el M i j) -> row_total n M' i = row_total n M i.
Proof.
  intros H. unfold row_total. apply for_loop_ext. intros k s _. now rewrite H.
Qed.

Lemma lump_rows_spec (M : LA.Matrix) (k : nat) :
  (k <= n)%nat -> dims n n M ->
  dims n n (for_loop k (Solid.lump_row fe) M) /\
  forall i' j',
    LA.el (for_loop k (Solid.lump_row fe) M) i' j'
    = if Nat.ltb i' k && Nat.ltb j' n
      then (if Nat.eqb i' j' then row_total n M i' else 0)
      else LA.el M i' j'.
Proof.
  intros Hk HM. induction k as [| k IH]; simpl.
  - split; [assumption | reflexivity].
  - destruct IH as [IHd IHe]; [lia |].
    destruct (lump_row_spec k (for_loop k (Solid.lump_row fe) M)) as [Ld Le];
      [lia | assumption |].
    split; [exact Ld |].
    intros i' j'. rewrite Le, IHe.
    rewrite (row_total_ext M (for_loop k (Solid.lump_row fe) M) k)
      by (intros j; rewrite IHe, Nat.ltb_irrefl; reflexivity).
    destruct (Nat.eqb_spec i' k) as [-> | Hne]; simpl.
    + replace (k <? S k)%nat with true by (symmetry; apply Nat.ltb_lt; lia).
      rewrite Nat.ltb_irrefl. simpl. destruct (j' <? n)%nat; reflexivity.
    + destruct (Nat.ltb_spec i' k) as [Hlt | Hge].
      * replace (i' <? S k)%nat with true by (symmetry; apply Nat.ltb_lt; lia).
        reflexivity.
      * replace (i' <? S k)%nat with false by (symmetry; apply Nat.ltb_ge; lia).
        reflexivity.
Qed.

(** The lumped cell matrix: the row sum on the diagonal, 0 elsewhere; the
    sum of every row is kept. *)
Lemma lump_spec (M : LA.Matrix) :
  dims n n M ->
  dims n n (Solid.lump fe M) /\
  (forall i j, (i < n)%nat -> (j < n)%nat ->
               LA.el (Solid.lump fe M) i j
               == if Nat.eqb i j then LA.row_sum M i else 0) /\
  (forall i, (i < n)%nat -> LA.row_sum (Solid.lump fe M) i == LA.row_sum M i).
Proof.
  intros HM. unfold Solid.lump. fold n.
  destruct (lump_rows_spec M n (Nat.le_refl n) HM) as [Ld Le].
  assert (Hel : forall i j, (i < n)%nat -> (j < n)%nat ->
                            LA.el (for_loop n (Solid.lump_row fe) M) i j
                            == if Nat.eqb i j then LA.row_sum M i else 0).
  { intros i j Hi Hj. rewrite Le.
    replace (i <? n)%nat with true by (symmetry; apply Nat.ltb_lt; lia).
    replace (j <? n)%nat with true by (symmetry; apply Nat.ltb_lt; lia).
    simpl. destruct (Nat.eqb i j); [| reflexivity].
    symmetry. now apply row_sum_total. }
  split; [exact Ld |]. split; [exact Hel |].
  intros i Hi.
  rewrite (row_sum_total n _ i Ld Hi). unfold row_total.
  rewrite (sum_loop_ext n _ (fun j => if Nat.eqb i j then LA.row_sum M i else 0))
    by (intros j Hj; now apply Hel).
  now apply sum_loop_single.
Qed.

End Lumping.

(** Row sums of a global matrix under [M(r, c) += v]. *)
Lemma fold_right_update_add (c : nat) (v : Q) (row : list Q) :
  (c < length row)%nat ->
  fold_right Qplus 0 (LA.update c (fun x => x + v) row)
  == fold_right Qplus 0 row + v.
Proof.
  revert c. induction row as [| x row IH]; intros c Hc; simpl in Hc; [lia |].
  destruct c as [| c]; simpl.
  - ring.
  - rewrite IH by lia. ring.
Qed.

Lemma row_sum_add_entry (N r c k : nat) (v : Q) (G : LA.Matrix) :
  dims N N G -> (r < N)%nat -> (c < N)%nat ->
  LA.row_sum (LA.add_entry r c v G) k
  == LA.row_sum G k + (if Nat.eqb k r then v else 0).
Proof.
  intros HG Hr Hc. unfold LA.row_sum, LA.add_entry.
  destruct HG as [HN Hrows].
  rewrite nth_update by lia.
  destruct (Nat.eqb_spec k r) as [-> | Hne]; [| ring].
  apply fold_right_update_add.
  rewrite (dims_nth N N G r (conj HN Hrows) Hr). exact Hc.
Qed.

(** The cell matrix keeps its shape through the integration loops. *)
Lemma integrate_face_local_matrix parameters fe face l :
  Solid.local_matrix (Solid.integrate_face parameters fe face l)
  = Solid.local_matrix l.
Proof.
  unfold Solid.integrate_face.
  destruct (negb (Solid.at_boundary face) ||
            Solid.contains (Solid.boundary_id face) (Solid.solid_dirichlet_bcs parameters));
    [reflexivity |].
  destruct (negb (Solid.is_FSI parameters) &&
            negb (Solid.contains (Solid.boundary_id face)
                                 (Solid.solid_neumann_bcs parameters)));
    [reflexivity |].
  match goal with
  | |- Solid.local_matrix (snd (for_loop ?k ?body ?init)) = _ =>
      apply (for_loop_invariant
               (fun p => Solid.local_matrix (snd p) = Solid.local_matrix l)
               k body init)
  end; [| reflexivity].
  intros q [traction l'] _ Hl'. simpl in *.
  apply (for_loop_invariant
           (fun l0 => Solid.local_matrix l0 = Solid.local_matrix l)); [| exact Hl'].
  intros j l0 _ Hl0. exact Hl0.
Qed.

Lemma integrate_cell_dims parameters fe explicit is_initial assemble_matrix
      rho dt m cell damping_in :
  dims (Solid.dofs_per_cell fe) (Solid.dofs_per_cell fe)
       (Solid.local_matrix
          (Solid.integrate_cell parameters fe explicit is_initial assemble_matrix
                                rho dt m cell damping_in)).
Proof.
  unfold Solid.integrate_cell.
  set (n := Solid.dofs_per_cell fe).
  set (P := fun l => dims n n (Solid.local_matrix l)).
  assert (Hfaces : forall faces l,
             P l ->
             P (fold_left (fun l face => Solid.integrate_face parameters fe face l)
                          faces l)).
  { induction faces as [| face faces IH]; intros l Hl; simpl; [assumption |].
    apply IH. unfold P. now rewrite integrate_face_local_matrix. }
  apply Hfaces.
  unfold Solid.integrate_volumetric. fold n.
  apply (for_loop_invariant P).
  { intros i l _ Hl. destruct assemble_matrix; [| assumption].
    apply (for_loop_invariant P); [| assumption].
    intros j l' _ Hl'. destruct (negb is_initial); assumption. }
  unfold Solid.integrate_volume. fold n.
  apply (for_loop_invariant P); [| apply dims_zero_matrix].
  intros q l _ Hl.
  apply (for_loop_invariant P); [| assumption].
  intros i l' _ Hl'.
  assert (Hmat :
            P (if assemble_matrix
               then
                 for_loop n
                   (fun j l0 =>
                      let l1 :=
                        Solid.on_local_matrix
                          (LA.add_entry i j
                             (LA.dot (LA.tscale rho (Solid.value cell i q))
                                     (Solid.value cell j q) * Solid.JxW cell q)) l0 in
                      if negb is_initial
                      then
                        Solid.on_local_stiffness
                          (LA.add_entry i j
                             (LA.ddot
                                (LA.t2scale_r
                                   (LA.t2scale 2 (Solid.symmetric_gradient cell i q))
                                   (Solid.get_mu m))
                                (Solid.symmetric_gradient cell j q)
                              * Solid.JxW cell q)) l1
                      else l1) l'
               else l')).
  { destruct assemble_matrix; [| assumption].
    apply (for_loop_invariant P); [| assumption].
    intros j l0 _ Hl0. cbv zeta.
    destruct (negb is_initial); unfold P; simpl; now apply dims_add_entry. }
  cbv zeta.
  destruct (Solid.is_FSI parameters); [| exact Hmat].
  destruct (negb explicit); [| exact Hmat].
  apply (for_loop_invariant P); [| exact Hmat].
  intros j l0 _ Hl0. exact Hl0.
Qed.

Lemma distribute_cell_system_matrix fe constraints explicit cell l s :
  Solid.system_matrix (Solid.distribute_cell fe constraints explicit true cell l s)
  = Constraints.distribute_matrix constraints
      (Solid.lump fe (Solid.local_matrix l)) (Solid.local_dof_indices cell)
      (Solid.system_matrix s).
Proof. reflexivity. Qed.

Lemma row_total_lump (fe : Solid.Discretisation) (M : LA.Matrix) (i : nat) :
  dims (Solid.dofs_per_cell fe) (Solid.dofs_per_cell fe) M ->
  (i < Solid.dofs_per_cell fe)%nat ->
  row_total (Solid.dofs_per_cell fe) (Solid.lump fe M) i
  == row_total (Solid.dofs_per_cell fe) M i.
Proof.
  intros HM Hi. destruct (lump_spec fe M HM) as (Ld & _ & Lsum).
  rewrite <- !(row_sum_total (Solid.dofs_per_cell fe)) by assumption.
  now apply Lsum.
Qed.

Lemma assemble_cell_step parameters fe constraints material explicit
      is_initial assemble_matrix rho cell s damping_in :
  Solid.assemble_cell parameters fe constraints material explicit
                      is_initial assemble_matrix rho cell (s, damping_in)
  = bind (Solid.assemble_material material cell)
         (fun m =>
            Returns
              (Solid.distribute_cell
                 fe constraints explicit assemble_matrix cell
                 (Solid.integrate_cell parameters fe explicit is_initial
                                       assemble_matrix rho
                                       (Time.get_delta_t (Solid.time s)) m cell
                                       damping_in) s,
               Solid.local_damping
                 (Solid.integrate_cell parameters fe explicit is_initial
                                       assemble_matrix rho
                                       (Time.get_delta_t (Solid.time s)) m cell
                                       damping_in))).
Proof. reflexivity. Qed.

Lemma consistent_cell_step parameters fe constraints material explicit
      is_initial rho dt cell G damping_in :
  Solid.consistent_cell parameters fe constraints material explicit
                        is_initial rho dt cell (G, damping_in)
  = bind (Solid.assemble_material material cell)
         (fun m =>
            Returns
              (Constraints.distribute_matrix
                 constraints
                 (Solid.local_matrix
                    (Solid.integrate_cell parameters fe explicit is_initial true
                                          rho dt m cell damping_in))
                 (Solid.local_dof_indices cell) G,
               Solid.local_damping
                 (Solid.integrate_cell parameters fe explicit is_initial true
                                       rho dt m cell damping_in))).
Proof. reflexivity. Qed.

Lemma dims_clear_matrix (m n : nat) (M : LA.Matrix) :
  dims m n M -> dims m n (Solid.clear_matrix M).
Proof.
  intros [Hm Hrows]. unfold Solid.clear_matrix. split; [now rewrite length_map |].
  apply Forall_map. eapply Forall_impl; [| exact Hrows].
  intros row Hrow. simpl. now rewrite length_map.
Qed.

(** *** Row sums under constraints *)

Lemma row_sum_add_entry_other (r c k : nat) (v : Q) (G : LA.Matrix) :
  k <> r -> LA.row_sum (LA.add_entry r c v G) k = LA.row_sum G k.
Proof.
  intros Hne. unfold LA.row_sum, LA.add_entry.
  destruct (Nat.lt_ge_cases r (length G)) as [Hlt | Hge].
  - rewrite nth_update by exact Hlt.
    apply Nat.eqb_neq in Hne. now rewrite Hne.
  - now rewrite update_out_of_range.
Qed.

Lemma scatter_columns_row_sum (N r k : nat) (wr m : Q) (cols : list (nat * Q)) :
  (r < N)%nat -> Forall (fun cw => (fst cw < N)%nat) cols ->
  forall G,
    dims N N G ->
    dims N N (fold_left (fun g' '(c, wc) => LA.add_entry r c (wr * m * wc) g') cols G) /\
    LA.row_sum (fold_left (fun g' '(c, wc) => LA.add_entry r c (wr * m * wc) g') cols G) k
    == LA.row_sum G k + (if Nat.eqb k r then wr * m * weight_sum cols else 0).
Proof.
  intros Hr Hcols. induction Hcols as [| [c wc] cols Hc Hcols IH]; intros G HG; simpl.
  - split; [exact HG |]. destruct (Nat.eqb k r); ring.
  - destruct (IH (LA.add_entry r c (wr * m * wc) G)) as [Id Ie];
      [now apply dims_add_entry |].
    split; [exact Id |]. rewrite Ie.
    rewrite (row_sum_add_entry N) by assumption.
    destruct (Nat.eqb k r); ring.
Qed.

Lemma scatter_entry_row_sum (N k : nat) (m : Q) (rows cols : list (nat * Q)) :
  Forall (fun rw => (fst rw < N)%nat) rows ->
  Forall (fun cw => (fst cw < N)%nat) cols ->
  forall G,
    dims N N G ->
    dims N N (Constraints.scatter_entry rows cols m G) /\
    LA.row_sum (Constraints.scatter_entry rows cols m G) k
    == LA.row_sum G k + weight_at k rows * m * weight_sum cols.
Proof.
  intros Hrows Hcols. unfold Constraints.scatter_entry.
  induction Hrows as [| [r wr] rows Hr Hrows IH]; intros G HG; simpl.
  - split; [exact HG | ring].
  - destruct (scatter_columns_row_sum N r k wr m cols Hr Hcols G HG) as [Sd Se].
    destruct (IH _ Sd) as [Id Ie].
    split; [exact Id |]. rewrite Ie, Se.
    destruct (Nat.eqb k r); ring.
Qed.

Lemma resolve_in_range (N : nat) (c : Constraints.AffineConstraints) (dof : nat) :
  constraints_in_range N c -> (dof < N)%nat ->
  Forall (fun rw => (fst rw < N)%nat) (Constraints.resolve c dof).
Proof.
  intros Hc Hdof. unfold Constraints.resolve.
  destruct (Constraints.find_line c dof) as [l |] eqn:Hl.
  - exact (Hc dof l Hl).
  - constructor; [exact Hdof | constructor].
Qed.

Lemma set_matrix_diagonals_row_sum (N : nat) (c : Constraints.AffineConstraints)
      (local : LA.Matrix) (dofs : list nat) (G : LA.Matrix) (k : nat) :
  dims N N G -> Constraints.is_constrained c k = false ->
  dims N N (Constraints.set_matrix_diagonals c local dofs G) /\
  LA.row_sum (Constraints.set_matrix_diagonals c local dofs G) k = LA.row_sum G k.
Proof.
  intros HG Hk. unfold Constraints.set_matrix_diagonals.
  apply (for_loop_invariant
           (fun g => dims N N g /\ LA.row_sum g k = LA.row_sum G k));
    [| split; [exact HG | reflexivity]].
  intros i g _ [Hd He].
  destruct (Constraints.is_constrained c (nth i dofs O)) eqn:Hi;
    [| split; assumption].
  split; [now apply dims_add_entry |].
  rewrite row_sum_add_entry_other; [exact He |].
  intros ->. congruence.
Qed.

Section DistributeRowSum.

Variable N : nat.
Variable c : Constraints.AffineConstraints.
Hypothesis c_range : constraints_in_range N c.
Variable M : LA.Matrix.
Variable dofs : list nat.
Hypothesis dofs_range : Forall (fun dof => (dof < N)%nat) dofs.
Variable k : nat.

Let res (i : nat) : list (nat * Q) := Constraints.resolve c (nth i dofs O).

Lemma res_in_range (i : nat) :
  (i < length dofs)%nat -> Forall (fun rw => (fst rw < N)%nat) (res i).
Proof.
  intros Hi. apply resolve_in_range; [exact c_range |].
  rewrite Forall_forall in dofs_range. apply dofs_range, nth_In, Hi.
Qed.

Lemma scatter_row_loop (i : nat) (G : LA.Matrix) (n : nat) :
  (i < length dofs)%nat -> (n <= length dofs)%nat -> dims N N G ->
  dims N N (for_loop n (fun j g' =>
                          Constraints.scatter_entry (res i) (res j) (LA.el M i j) g') G) /\
  LA.row_sum (for_loop n (fun j g' =>
                            Constraints.scatter_entry (res i) (res j) (LA.el M i j) g') G)
             k
  == LA.row_sum G k
     + for_loop n (fun j t => t + weight_at k (res i) * LA.el M i j * weight_sum (res j)) 0.
Proof.
  intros Hi Hn HG. induction n as [| n IH]; simpl.
  - split; [exact HG | ring].
  - destruct IH as [Id Ie]; [lia |].
    destruct (scatter_entry_row_sum N k (LA.el M i n) (res i) (res n)
                (res_in_range i Hi) (res_in_range n ltac:(lia)) _ Id) as [Sd Se].
    split; [exact Sd |]. rewrite Se, Ie. ring.
Qed.

Lemma scatter_loops (G : LA.Matrix) (n : nat) :
  (n <= length dofs)%nat -> dims N N G ->
  dims N N (for_loop n
              (fun i g =>
                 for_loop (length dofs)
                   (fun j g' =>
                      Constraints.scatter_entry (res i) (res j) (LA.el M i j) g') g)
              G) /\
  LA.row_sum (for_loop n
                (fun i g =>
                   for_loop (length dofs)
                     (fun j g' =>
                        Constraints.scatter_entry (res i) (res j) (LA.el M i j) g') g)
                G) k
  == LA.row_sum G k
     + for_loop n
         (fun i s =>
            s + for_loop (length dofs)
                  (fun j t =>
                     t + weight_at k (res i) * LA.el M i j * weight_sum (res j)) 0)
         0.
Proof.
  intros Hn HG. induction n as [| n IH]; simpl.
  - split; [exact HG | ring].
  - destruct IH as [Id Ie]; [lia |].
    destruct (scatter_row_loop n _ (length dofs) ltac:(lia) (Nat.le_refl _) Id)
      as [Sd Se].
    split; [exact Sd |]. rewrite Se, Ie. ring.
Qed.

(** The sum of a row that is not constrained, after a cell matrix has been
    distributed. *)
Lemma distribute_row_sum (G : LA.Matrix) :
  dims N N G -> Constraints.is_constrained c k = false ->
  dims N N (Constraints.distribute_matrix c M dofs G) /\
  LA.row_sum (Constraints.distribute_matrix c M dofs G) k
  == LA.row_sum G k + row_contribution c M dofs k.
Proof.
  intros HG Hk. unfold Constraints.distribute_matrix. cbv zeta.
  destruct (scatter_loops G (length dofs) (Nat.le_refl _) HG) as [Sd Se].
  destruct (set_matrix_diagonals_row_sum N c M dofs _ k Sd Hk) as [Dd De].
  unfold res in *. split; [exact Dd |]. rewrite De. exact Se.
Qed.

(** The shape alone needs no hypothesis on the row. *)
Lemma distribute_dims (G : LA.Matrix) :
  dims N N G -> dims N N (Constraints.distribute_matrix c M dofs G).
Proof.
  intros HG. unfold Constraints.distribute_matrix. cbv zeta.
  destruct (scatter_loops G (length dofs) (Nat.le_refl _) HG) as [Sd _].
  unfold res in *. unfold Constraints.set_matrix_diagonals.
  apply (for_loop_invariant (dims N N)); [| exact Sd].
  intros i g _ Hg. destruct (Constraints.is_constrained c _); [| exact Hg].
  now apply dims_add_entry.
Qed.

End DistributeRowSum.

Lemma weight_at_notin (k : nat) (line : list (nat * Q)) :
  ~ In k (map fst line) -> weight_at k line == 0.
Proof.
  induction line as [| [r w] line IH]; intros Hn; simpl; [reflexivity |].
  simpl in Hn.
  destruct (Nat.eqb_spec k r) as [-> | _]; [exfalso; apply Hn; now left |].
  rewrite IH by (intros H; apply Hn; now right). ring.
Qed.

Lemma sum_loop_scale (n : nat) (a : Q) (f : nat -> Q) :
  for_loop n (fun j t => t + a * f j) 0 == a * for_loop n (fun j t => t + f j) 0.
Proof.
  induction n as [| n IH]; simpl; [ring |]. rewrite IH. ring.
Qed.

(** Lumping keeps what a cell adds to a row, when the cell does not
    contribute to the row or the weights of its degrees of freedom add up
    to 1. *)
Lemma row_contribution_lump (fe : Solid.Discretisation)
      (c : Constraints.AffineConstraints) (M : LA.Matrix) (dofs : list nat) (k : nat) :
  dims (Solid.dofs_per_cell fe) (Solid.dofs_per_cell fe) M ->
  length dofs = Solid.dofs_per_cell fe ->
  (reaches c dofs k -> unit_weights c dofs) ->
  row_contribution c (Solid.lump fe M) dofs k == row_contribution c M dofs k.
Proof.
  intros HM Hlen Hunit. unfold row_contribution.
  apply sum_loop_ext. intros i Hi.
  destruct (in_dec Nat.eq_dec k
              (map fst (Constraints.resolve c (nth i dofs O)))) as [Hin | Hout].
  - assert (Hu : unit_weights c dofs) by (apply Hunit; exists i; split; assumption).
    rewrite (sum_loop_ext (length dofs) _
               (fun j => weight_at k (Constraints.resolve c (nth i dofs O))
                         * LA.el (Solid.lump fe M) i j)).
    2:{ intros j Hj. rewrite (Hu j Hj). ring. }
    rewrite (sum_loop_ext (length dofs)
               (fun j => weight_at k (Constraints.resolve c (nth i dofs O))
                         * LA.el M i j
                         * weight_sum (Constraints.resolve c (nth j dofs O)))
               (fun j => weight_at k (Constraints.resolve c (nth i dofs O))
                         * LA.el M i j)).
    2:{ intros j Hj. rewrite (Hu j Hj). ring. }
    rewrite !sum_loop_scale.
    apply Qmult_comp; [reflexivity |].
    rewrite Hlen in *.
    exact (row_total_lump fe M i HM Hi).
  - rewrite (sum_loop_ext (length dofs) _ (fun _ => 0)).
    2:{ intros j Hj. rewrite (weight_at_notin k _ Hout). ring. }
    rewrite (sum_loop_ext (length dofs)
               (fun j => weight_at k (Constraints.resolve c (nth i dofs O))
                         * LA.el M i j
                         * weight_sum (Constraints.resolve c (nth j dofs O)))
               (fun _ => 0)).
    2:{ intros j Hj. rewrite (weight_at_notin k _ Hout). ring. }
    reflexivity.
Qed.

Lemma lumped_cells_row_sums parameters fe constraints material explicit is_initial
      rho N mesh k :
  well_numbered fe N mesh ->
  constraints_in_range N constraints ->
  Constraints.is_constrained constraints k = false ->
  (forall cell, In cell mesh ->
                reaches constraints (Solid.local_dof_indices cell) k ->
                unit_weights constraints (Solid.local_dof_indices cell)) ->
  forall s damping_in G r,
    dims N N (Solid.system_matrix s) -> dims N N G ->
    LA.row_sum (Solid.system_matrix s) k == LA.row_sum G k ->
    for_each mesh
             (Solid.assemble_cell parameters fe constraints material explicit
                                  is_initial true rho)
             (s, damping_in) = Returns r ->
    exists r',
      for_each mesh
               (Solid.consistent_cell parameters fe constraints material explicit
                                      is_initial rho (Time.get_delta_t (Solid.time s)))
               (G, damping_in) = Returns r' /\
      LA.row_sum (Solid.system_matrix (fst r)) k == LA.row_sum (fst r') k.
Proof.
  intros Hmesh Hrange Hk.
  induction Hmesh as [| cell mesh [Hlen Hdofs] Hmesh IH];
    intros Hunit s damping_in G r Hs HG Hsum Hrun; cbn [for_each] in Hrun |- *.
  - inversion Hrun. eexists. split; [reflexivity | exact Hsum].
  - rewrite assemble_cell_step in Hrun. rewrite consistent_cell_step.
    destruct (Solid.assemble_material material cell) as [m | e |]; try discriminate.
    cbn [bind] in Hrun |- *.
    set (l := Solid.integrate_cell parameters fe explicit is_initial true rho
                                   (Time.get_delta_t (Solid.time s)) m cell damping_in)
      in *.
    pose proof (integrate_cell_dims parameters fe explicit is_initial true rho
                                    (Time.get_delta_t (Solid.time s)) m cell damping_in)
      as Hl. fold l in Hl.
    destruct (distribute_row_sum N constraints Hrange
                (Solid.lump fe (Solid.local_matrix l))
                (Solid.local_dof_indices cell) Hdofs k (Solid.system_matrix s) Hs Hk)
      as [Dl El].
    destruct (distribute_row_sum N constraints Hrange (Solid.local_matrix l)
                (Solid.local_dof_indices cell) Hdofs k G HG Hk) as [Dc Ec].
    specialize (IH (fun cell' Hin => Hunit cell' (or_intror Hin))
                   (Solid.distribute_cell fe constraints explicit true cell l s)
                   (Solid.local_damping l)
                   (Constraints.distribute_matrix constraints (Solid.local_matrix l)
                                                  (Solid.local_dof_indices cell) G)
                   r).
    apply IH; [exact Dl | exact Dc | | exact Hrun].
    rewrite distribute_cell_system_matrix, El, Ec, Hsum.
    apply Qplus_comp; [reflexivity |].
    apply row_contribution_lump; [exact Hl | exact Hlen |].
    apply Hunit. now left.
Qed.

Lemma unit_weights_unconstrained (dofs : list nat) : unit_weights [] dofs.
Proof. intros j _. simpl. reflexivity. Qed.

(** C6, as the code has it.  In every cell the lumped matrix carries the
    sum of each row of the consistent cell matrix on the diagonal and 0
    elsewhere, so the row sums are those of the consistent cell matrix.
    A cell matrix adds to the sum of a global row that is not constrained
    the entries of its rows, weighted by the lines of their rows and
    columns.  Hence the row sums of the assembled global matrix are those
    of the mass matrix assembled without lumping for every degree of
    freedom that is not constrained and whose cells have no degree of
    freedom with a line whose coefficients do not add up to 1: with
    hanging nodes, or without constraints, for every degree of freedom
    that is free. *)
Theorem lumped_mass_row_sums
        (parameters : Solid.AllParameters) (fe : Solid.Discretisation)
        (constraints : Constraints.AffineConstraints)
        (material : list Solid.LinearElasticMaterial)
        (is_lag_penalty_explicit : bool) (mesh : list Solid.Cell)
        (is_initial : bool) (N : nat) (s s' : Solid.State) :
  dims N N (Solid.system_matrix s) ->
  well_numbered fe N mesh ->
  constraints_in_range N constraints ->
  Solid.assemble parameters fe constraints material is_lag_penalty_explicit mesh
                 is_initial true s = Returns s' ->
  (forall M,
      dims (Solid.dofs_per_cell fe) (Solid.dofs_per_cell fe) M ->
      (forall i j,
          (i < Solid.dofs_per_cell fe)%nat -> (j < Solid.dofs_per_cell fe)%nat ->
          LA.el (Solid.lump fe M) i j == if Nat.eqb i j then LA.row_sum M i else 0) /\
      (forall i, (i < Solid.dofs_per_cell fe)%nat ->
                 LA.row_sum (Solid.lump fe M) i == LA.row_sum M i)) /\
  (forall M dofs G dof,
      dims N N G -> Forall (fun d => (d < N)%nat) dofs ->
      Constraints.is_constrained constraints dof = false ->
      LA.row_sum (Constraints.distribute_matrix constraints M dofs G) dof
      == LA.row_sum G dof + row_contribution constraints M dofs dof) /\
  exists consistent,
    Solid.consistent_mass_matrix parameters fe constraints material
                                 is_lag_penalty_explicit mesh is_initial s
    = Returns consistent /\
    (forall dof,
        Constraints.is_constrained constraints dof = false ->
        (forall cell, In cell mesh ->
                      reaches constraints (Solid.local_dof_indices cell) dof ->
                      unit_weights constraints (Solid.local_dof_indices cell)) ->
        LA.row_sum (Solid.system_matrix s') dof == LA.row_sum consistent dof) /\
    (constraints = [] ->
     forall dof, LA.row_sum (Solid.system_matrix s') dof == LA.row_sum consistent dof).
Proof.
  intros Hs Hmesh Hrange Hrun. split; [| split].
  - intros M HM. destruct (lump_spec fe M HM) as (_ & Hel & Hsum). split; assumption.
  - intros M dofs G dof HG Hdofs Hdof.
    exact (proj2 (distribute_row_sum N constraints Hrange M dofs Hdofs dof G HG Hdof)).
  - unfold Solid.assemble in Hrun. unfold Solid.consistent_mass_matrix.
    destruct (subscript material 0) as [m0 | e |]; try discriminate.
    simpl bind in Hrun |- *. cbv zeta in Hrun |- *.
    match type of Hrun with
    | bind (for_each _ _ (?s0, ?d0)) _ = _ =>
        set (start := s0) in *;
        destruct (for_each mesh
                    (Solid.assemble_cell parameters fe constraints material
                                         is_lag_penalty_explicit is_initial true
                                         (Solid.get_density m0)) (start, d0))
          as [r | e |] eqn:Hr; try discriminate
    end.
    assert (Hcells :
              forall dof,
                Constraints.is_constrained constraints dof = false ->
                (forall cell, In cell mesh ->
                              reaches constraints (Solid.local_dof_indices cell) dof ->
                              unit_weights constraints (Solid.local_dof_indices cell)) ->
                exists r',
                  for_each mesh
                    (Solid.consistent_cell parameters fe constraints material
                                           is_lag_penalty_explicit is_initial
                                           (Solid.get_density m0)
                                           (Time.get_delta_t (Solid.time start)))
                    (Solid.clear_matrix (Solid.system_matrix s),
                     LA.zero_matrix (Solid.dofs_per_cell fe) (Solid.dofs_per_cell fe))
                  = Returns r' /\
                  LA.row_sum (Solid.system_matrix (fst r)) dof == LA.row_sum (fst r') dof).
    { intros dof Hdof Hunit.
      apply (lumped_cells_row_sums parameters fe constraints material
               is_lag_penalty_explicit is_initial (Solid.get_density m0) N mesh dof
               Hmesh Hrange Hdof Hunit start _ _ r);
        [subst start; simpl; now apply dims_clear_matrix
        | now apply dims_clear_matrix
        | subst start; simpl; reflexivity
        | exact Hr]. }
    (* the consistent assembly returns whatever the row *)
    assert (Hreturns :
              exists r',
                for_each mesh
                  (Solid.consistent_cell parameters fe constraints material
                                         is_lag_penalty_explicit is_initial
                                         (Solid.get_density m0)
                                         (Time.get_delta_t (Solid.time start)))
                  (Solid.clear_matrix (Solid.system_matrix s),
                   LA.zero_matrix (Solid.dofs_per_cell fe) (Solid.dofs_per_cell fe))
                = Returns r').
    { clear Hcells Hrun.
      generalize dependent r. generalize start.
      generalize (Solid.clear_matrix (Solid.system_matrix s)).
      generalize (LA.zero_matrix (Solid.dofs_per_cell fe) (Solid.dofs_per_cell fe)).
      clear Hmesh. induction mesh as [| cell mesh' IH]; intros d0 G0 s0 r Hr;
        cbn [for_each] in Hr |- *; [eexists; reflexivity |].
      rewrite assemble_cell_step in Hr. rewrite consistent_cell_step.
      destruct (Solid.assemble_material material cell) as [m | e |]; try discriminate.
      cbn [bind] in Hr |- *.
      destruct (IH _ (Constraints.distribute_matrix constraints
                        (Solid.local_matrix
                           (Solid.integrate_cell parameters fe is_lag_penalty_explicit
                              is_initial true (Solid.get_density m0)
                              (Time.get_delta_t (Solid.time s0)) m cell d0))
                        (Solid.local_dof_indices cell) G0)
                  _ r Hr) as [r' Hr'].
      exists r'.
      replace (Time.get_delta_t (Solid.time s0))
        with (Time.get_delta_t
                (Solid.time
                   (Solid.distribute_cell fe constraints is_lag_penalty_explicit true cell
                      (Solid.integrate_cell parameters fe is_lag_penalty_explicit
                         is_initial true (Solid.get_density m0)
                         (Time.get_delta_t (Solid.time s0)) m cell d0) s0))) at 2
        by reflexivity.
      exact Hr'. }
    destruct Hreturns as [r' Hr'].
    replace (Time.get_delta_t (Solid.time start)) with (Time.get_delta_t (Solid.time s))
      in Hr', Hcells by (subst start; reflexivity).
    rewrite Hr'. simpl bind. eexists. split; [reflexivity |].
    simpl in Hrun. inversion Hrun. subst s'.
    assert (Hfree :
              forall dof,
                Constraints.is_constrained constraints dof = false ->
                (forall cell, In cell mesh ->
                              reaches constraints (Solid.local_dof_indices cell) dof ->
                              unit_weights constraints (Solid.local_dof_indices cell)) ->
                LA.row_sum (Solid.system_matrix (fst r)) dof == LA.row_sum (fst r') dof).
    { intros dof Hdof Hunit. destruct (Hcells dof Hdof Hunit) as (r'' & Hr'' & Hsum).
      rewrite Hr' in Hr''. inversion Hr''. subst r''. exact Hsum. }
    split; [exact Hfree |].
    intros -> dof. apply Hfree; [reflexivity |].
    intros cell _ _. apply unit_weights_unconstrained.
Qed.

Lemma lumped_mass_row_sums_witness :
  (exists consistent,
      Solid.consistent_mass_matrix (Sample.parameters 2 "Solid") Sample.fe []
                                   Sample.materials true Sample.mesh true Sample.state
      = Returns consistent /\
      forall dof,
        LA.row_sum (Solid.system_matrix Sample.state_assembled) dof
        == LA.row_sum consistent dof) /\
  (exists consistent,
      Solid.consistent_mass_matrix (Sample.parameters 2 "Solid") Sample.fe
                                   Sample.hanging_node Sample.materials true Sample.mesh
                                   true Sample.state
      = Returns consistent /\
      LA.row_sum (Solid.system_matrix Sample.state_assembled_hanging) 0
      == LA.row_sum consistent 0 /\
      LA.row_sum (Solid.system_matrix Sample.state_assembled_hanging) 2
      == LA.row_sum consistent 2).
Proof.
  split.
  - destruct (lumped_mass_row_sums (Sample.parameters 2 "Solid") Sample.fe []
                                   Sample.materials true Sample.mesh true 3
                                   Sample.state Sample.state_assembled)
      as (_ & _ & consistent & Hc & _ & Hall).
    + split; [reflexivity | repeat constructor].
    + repeat constructor.
    + intros dof l Hl. discriminate Hl.
    + vm_compute. reflexivity.
    + exists consistent. split; [exact Hc | exact (Hall eq_refl)].
  - destruct (lumped_mass_row_sums (Sample.parameters 2 "Solid") Sample.fe
                                   Sample.hanging_node Sample.materials true Sample.mesh
                                   true 3 Sample.state Sample.state_assembled_hanging)
      as (_ & _ & consistent & Hc & Hfree & _).
    + split; [reflexivity | repeat constructor].
    + repeat constructor.
    + intros dof l Hl. unfold Sample.hanging_node in Hl. simpl in Hl.
      destruct dof as [| [| dof]]; simpl in Hl; try discriminate Hl.
      inversion Hl. repeat constructor.
    + vm_compute. reflexivity.
    + assert (Hunit : forall cell, In cell Sample.mesh ->
                                   unit_weights Sample.hanging_node
                                                (Solid.local_dof_indices cell)).
      { intros cell [<- | [<- | []]] j Hj; simpl in Hj;
          destruct j as [| [| j]]; try lia; vm_compute; reflexivity. }
      exists consistent. split; [exact Hc |]. split.
      * apply Hfree; [reflexivity |]. intros cell Hcell _. now apply Hunit.
      * apply Hfree; [reflexivity |]. intros cell Hcell _. now apply Hunit.
Defined.

(** C6, as stated, fails for the rows the constraints touch.  With the
    middle degree of freedom of the bar fixed (a line without entries),
    row 0, of a free degree of freedom that shares a cell with it, sums to
    2 in the lumped matrix (the whole row sum of the cell matrix is on the
    diagonal) and to 1 in the consistent one (the entry of the eliminated
    column is dropped).  With the middle degree of freedom a hanging node,
    rows 0 and 2 agree, and the row of the hanging node itself sums to 4
    in the lumped matrix and to 2 in the consistent one. *)
Lemma lumped_mass_counterexample :
  LA.row_sum
    (Solid.system_matrix
       (Sample.returned
          (Solid.assemble (Sample.parameters 2 "Solid") Sample.fe Sample.dirichlet
                          Sample.materials true Sample.mesh true true Sample.state)
          Sample.state)) 0 == 2 /\
  LA.row_sum
    (Sample.returned
       (Solid.consistent_mass_matrix (Sample.parameters 2 "Solid") Sample.fe
                                     Sample.dirichlet Sample.materials true
                                     Sample.mesh true Sample.state)
       []) 0 == 1 /\
  is_configuration_error
    (Solid.assemble (Sample.parameters 2 "Solid") Sample.fe Sample.dirichlet
                    Sample.materials true Sample.mesh true true Sample.state) = false /\
  ~ (2 == 1) /\
  Constraints.is_constrained Sample.dirichlet 0 = false /\
  ~ unit_weights Sample.dirichlet [0; 1]%nat /\
  LA.row_sum (Solid.system_matrix Sample.state_assembled_hanging) 1 == 4 /\
  LA.row_sum
    (Sample.returned
       (Solid.consistent_mass_matrix (Sample.parameters 2 "Solid") Sample.fe
                                     Sample.hanging_node Sample.materials true
                                     Sample.mesh true Sample.state)
       []) 1 == 2 /\
  Constraints.is_constrained Sample.hanging_node 1 = true /\
  ~ (4 == 2).
Proof.
  split; [vm_compute; reflexivity |]. split; [vm_compute; reflexivity |].
  split; [vm_compute; reflexivity |]. split; [intros H; discriminate H |].
  split; [reflexivity |]. split.
  - intros H. specialize (H 1%nat ltac:(simpl; lia)). vm_compute in H. discriminate H.
  - split; [vm_compute; reflexivity |]. split; [vm_compute; reflexivity |].
    split; [reflexivity |]. intros H. discriminate H.
Qed.

(** ** C1: the checkpoints on disk *)

(** *** Strings and file names *)

Lemma string_length_append (s t : string) :
  String.length (s ++ t) = (String.length s + String.length t)%nat.
Proof. induction s as [| c s IH]; simpl; [reflexivity | now rewrite IH]. Qed.

Lemma append_inj_r (s a b : string) : (s ++ a = s ++ b)%string -> a = b.
Proof.
  induction s as [| c s IH]; simpl; intros H; [exact H |].
  apply IH. now inversion H.
Qed.

Lemma append_inj_l (e s1 s2 : string) : (s1 ++ e = s2 ++ e)%string -> s1 = s2.
Proof.
  revert s2. induction s1 as [| c s1 IH]; intros [| c2 s2] H; simpl in H.
  - reflexivity.
  - exfalso. apply (f_equal String.length) in H. simpl in H.
    rewrite string_length_append in H. lia.
  - exfalso. apply (f_equal String.length) in H. simpl in H.
    rewrite string_length_append in H. lia.
  - inversion H. f_equal. now apply IH.
Qed.

Lemma last_char_append (s e : string) :
  e <> EmptyString -> last_char (s ++ e) = last_char e.
Proof.
  intros He. induction s as [| c s IH]; simpl; [reflexivity |].
  destruct (s ++ e)%string eqn:Hse; [| exact IH].
  destruct s; simpl in Hse; [contradiction | discriminate].
Qed.

(** Two checkpoint files of the same name are the same path: the three
    extensions end in different letters. *)
Lemma filename_inj (p q : Checkpoint.path) :
  checkpoint_extension (Checkpoint.extension p) ->
  checkpoint_extension (Checkpoint.extension q) ->
  Checkpoint.filename p = Checkpoint.filename q -> p = q.
Proof.
  destruct p as [sp ep], q as [sq eq]. unfold Checkpoint.filename. simpl.
  intros Hp Hq H.
  assert (Hep : ep <> EmptyString)
    by (destruct Hp as [-> | [-> | ->]]; discriminate).
  assert (Heq : eq <> EmptyString)
    by (destruct Hq as [-> | [-> | ->]]; discriminate).
  assert (Hlast : last_char ep = last_char eq)
    by (rewrite <- (last_char_append sp ep Hep), <- (last_char_append sq eq Heq), H;
        reflexivity).
  assert (He : ep = eq).
  { destruct Hp as [-> | [-> | ->]], Hq as [-> | [-> | ->]];
      (reflexivity || discriminate Hlast). }
  subst eq. apply append_inj_l in H. now subst.
Qed.

Lemma path_eqb_eq (p q : Checkpoint.path) :
  Checkpoint.path_eqb p q = true <-> Checkpoint.filename p = Checkpoint.filename q.
Proof. apply String.eqb_eq. Qed.

Lemma path_eqb_refl (p : Checkpoint.path) : Checkpoint.path_eqb p p = true.
Proof. apply String.eqb_refl. Qed.

Lemma path_ltb_lt (p q : Checkpoint.path) :
  Checkpoint.path_ltb p q = true <->
  OrderedTypeEx.String_as_OT.lt (Checkpoint.filename p) (Checkpoint.filename q).
Proof.
  unfold Checkpoint.path_ltb, String.ltb.
  rewrite <- OrderedTypeEx.String_as_OT.cmp_lt. unfold OrderedTypeEx.String_as_OT.cmp.
  destruct (String.compare (Checkpoint.filename p) (Checkpoint.filename q));
    split; intros H; (reflexivity || discriminate).
Qed.

Lemma path_ltb_trans (p q r : Checkpoint.path) :
  Checkpoint.path_ltb p q = true -> Checkpoint.path_ltb q r = true ->
  Checkpoint.path_ltb p r = true.
Proof.
  rewrite !path_ltb_lt. apply OrderedTypeEx.String_as_OT.lt_trans.
Qed.

Lemma path_ltb_not_eq (p q : Checkpoint.path) :
  Checkpoint.path_ltb p q = true -> Checkpoint.filename p <> Checkpoint.filename q.
Proof.
  rewrite path_ltb_lt. apply OrderedTypeEx.String_as_OT.lt_not_eq.
Qed.

(** Two paths neither of which is below the other have the same name. *)
Lemma path_ltb_total (p q : Checkpoint.path) :
  Checkpoint.path_ltb p q = false -> Checkpoint.path_ltb q p = false ->
  Checkpoint.filename p = Checkpoint.filename q.
Proof.
  unfold Checkpoint.path_ltb, String.ltb. intros Hpq Hqp.
  pose proof (OrderedTypeEx.String_as_OT.cmp_antisym
                (Checkpoint.filename p) (Checkpoint.filename q)) as Ha.
  unfold OrderedTypeEx.String_as_OT.cmp in Ha.
  apply String.compare_eq_iff.
  destruct (String.compare (Checkpoint.filename p) (Checkpoint.filename q));
    destruct (String.compare (Checkpoint.filename q) (Checkpoint.filename p));
    simpl in Ha; try discriminate; reflexivity.
Qed.

(** *** The set of checkpoints found on disk *)

Lemma set_insert_In (p x : Checkpoint.path) (s : list Checkpoint.path) :
  In x (Checkpoint.set_insert p s) -> x = p \/ In x s.
Proof.
  induction s as [| q s IH]; simpl.
  - intros [<- | []]. now left.
  - destruct (Checkpoint.path_ltb p q).
    + intros [<- | H]; [now left | now right].
    + destruct (Checkpoint.path_ltb q p).
      * intros [<- | H]; [right; now left |].
        destruct (IH H) as [-> | H']; [now left | right; now right].
      * intros H. now right.
Qed.

Lemma set_insert_keeps (p x : Checkpoint.path) (s : list Checkpoint.path) :
  In x s -> In x (Checkpoint.set_insert p s).
Proof.
  induction s as [| q s IH]; simpl; [intros [] |].
  intros H. destruct (Checkpoint.path_ltb p q); [now right |].
  destruct (Checkpoint.path_ltb q p); [| exact H].
  destruct H as [<- | H]; [now left | right; now apply IH].
Qed.

Lemma set_insert_covers (p : Checkpoint.path) (s : list Checkpoint.path) :
  exists r, In r (Checkpoint.set_insert p s) /\
            Checkpoint.filename r = Checkpoint.filename p.
Proof.
  induction s as [| q s [r [Hr Hn]]]; simpl.
  - exists p. split; [now left | reflexivity].
  - destruct (Checkpoint.path_ltb p q) eqn:Hpq.
    + exists p. split; [now left | reflexivity].
    + destruct (Checkpoint.path_ltb q p) eqn:Hqp.
      * exists r. split; [now right | exact Hn].
      * exists q. split; [now left |]. symmetry. now apply path_ltb_total.
Qed.

Lemma set_insert_sorted (p : Checkpoint.path) (s : list Checkpoint.path) :
  sorted_paths s -> sorted_paths (Checkpoint.set_insert p s).
Proof.
  intros Hs. induction Hs as [| q s Hs IH Hq]; simpl.
  - constructor; constructor.
  - destruct (Checkpoint.path_ltb p q) eqn:Hpq.
    + constructor; [constructor; assumption |].
      constructor; [exact Hpq |].
      eapply Forall_impl; [| exact Hq].
      intros x Hx. eapply path_ltb_trans; eassumption.
    + destruct (Checkpoint.path_ltb q p) eqn:Hqp.
      * constructor; [exact IH |].
        apply Forall_forall. intros x Hx.
        apply set_insert_In in Hx. destruct Hx as [-> | Hx]; [exact Hqp |].
        rewrite Forall_forall in Hq. now apply Hq.
      * constructor; assumption.
Qed.

Lemma find_checkpoints_acc (d : Checkpoint.Directory) :
  forall acc,
    sorted_paths acc ->
    (forall x, In x acc -> is_displacement x = true) ->
    let found :=
      fold_left
        (fun checkpoints e =>
           if String.eqb (Checkpoint.extension (fst e)) Checkpoint.displacement_ext
           then Checkpoint.set_insert (fst e) checkpoints
           else checkpoints) d acc in
    sorted_paths found /\
    (forall x, In x found -> is_displacement x = true) /\
    (forall x, In x acc -> In x found) /\
    (forall e, In e d -> is_displacement (fst e) = true ->
               exists r, In r found /\
                         Checkpoint.filename r = Checkpoint.filename (fst e)).
Proof.
  induction d as [| e d IH]; intros acc Hs Hacc; simpl.
  - repeat split; auto. intros e [].
  - fold (is_displacement (fst e)).
    destruct (is_displacement (fst e)) eqn:He.
    + destruct (IH (Checkpoint.set_insert (fst e) acc)) as (S1 & S2 & S3 & S4).
      * now apply set_insert_sorted.
      * intros x Hx. apply set_insert_In in Hx. destruct Hx as [-> | Hx]; auto.
      * repeat split; try assumption.
        -- intros x Hx. apply S3. now apply set_insert_keeps.
        -- intros e' [<- | Hin] He'; [| now apply S4].
           destruct (set_insert_covers (fst e) acc) as [r [Hr Hn]].
           exists r. split; [now apply S3 | exact Hn].
    + destruct (IH acc Hs Hacc) as (S1 & S2 & S3 & S4).
      repeat split; try assumption.
      intros e' [<- | Hin] He'; [congruence | now apply S4].
Qed.

Lemma find_checkpoints_spec (d : Checkpoint.Directory) :
  sorted_paths (Checkpoint.find_checkpoints d) /\
  (forall x, In x (Checkpoint.find_checkpoints d) -> is_displacement x = true) /\
  (forall e, In e d -> is_displacement (fst e) = true ->
             exists r, In r (Checkpoint.find_checkpoints d) /\
                       Checkpoint.filename r = Checkpoint.filename (fst e)).
Proof.
  destruct (find_checkpoints_acc d []) as (S1 & S2 & _ & S4).
  - constructor.
  - intros x [].
  - repeat split; assumption.
Qed.

(** *** Removing and writing files *)

Lemma remove_In (p : Checkpoint.path) (d : Checkpoint.Directory) e :
  In e (Checkpoint.remove p d) <->
  In e d /\ Checkpoint.filename (fst e) <> Checkpoint.filename p.
Proof.
  unfold Checkpoint.remove. rewrite filter_In, negb_true_iff.
  split; intros [H1 H2]; split; try assumption.
  - intros Hn. apply path_eqb_eq in Hn. congruence.
  - destruct (Checkpoint.path_eqb (fst e) p) eqn:Hb; [| reflexivity].
    apply path_eqb_eq in Hb. contradiction.
Qed.

Lemma remove_excess_In (cps : list Checkpoint.path) :
  forall d e,
    In e (Checkpoint.remove_excess cps d) <->
    In e d /\ forall p, In p (removelast cps) -> ~ file_of_set p (fst e).
Proof.
  induction cps as [| x cps IH]; intros d e.
  - simpl. split; [intros H; split; [exact H | intros p []] | intros [H _]; exact H].
  - destruct cps as [| y cps].
    + simpl. split; [intros H; split; [exact H | intros p []] | intros [H _]; exact H].
    + change (Checkpoint.remove_excess (x :: y :: cps) d)
        with (Checkpoint.remove_excess
                (y :: cps)
                (Checkpoint.remove
                   (Checkpoint.replace_extension
                      Checkpoint.acceleration_ext
                      (Checkpoint.replace_extension Checkpoint.velocity_ext x))
                   (Checkpoint.remove
                      (Checkpoint.replace_extension Checkpoint.velocity_ext x)
                      (Checkpoint.remove x d)))).
      change (removelast (x :: y :: cps)) with (x :: removelast (y :: cps)).
      rewrite IH, !remove_In. unfold file_of_set. simpl In.
      split.
      * intros [[[[H1 H2] H3] H4] H5]. split; [exact H1 |].
        intros p [<- | Hp]; [| now apply H5].
        intros [H | [H | H]]; contradiction.
      * intros [H1 H2]. repeat split; try assumption.
        -- intros H. apply (H2 x (or_introl eq_refl)). now left.
        -- intros H. apply (H2 x (or_introl eq_refl)). right. now left.
        -- intros H. apply (H2 x (or_introl eq_refl)). right. now right.
        -- intros p Hp. apply H2. now right.
Qed.

Lemma NoDup_map_filter {A B : Type} (f : A -> B) (g : A -> bool) (l : list A) :
  NoDup (map f l) -> NoDup (map f (filter g l)).
Proof.
  induction l as [| x l IH]; simpl; intros H; [constructor |].
  inversion H as [| ? ? Hx Hl]; subst.
  destruct (g x); simpl; [| now apply IH].
  constructor; [| now apply IH].
  intros Hin. apply Hx. apply in_map_iff in Hin. destruct Hin as [y [Hy Hin]].
  apply filter_In in Hin. apply in_map_iff. exists y. tauto.
Qed.

Lemma remove_unique (p : Checkpoint.path) (d : Checkpoint.Directory) :
  unique_names d -> unique_names (Checkpoint.remove p d).
Proof. apply NoDup_map_filter. Qed.

Lemma remove_excess_unique (cps : list Checkpoint.path) :
  forall d, unique_names d -> unique_names (Checkpoint.remove_excess cps d).
Proof.
  induction cps as [| x cps IH]; intros d Hd; [exact Hd |].
  destruct cps as [| y cps]; [exact Hd |].
  change (Checkpoint.remove_excess (x :: y :: cps) d)
    with (Checkpoint.remove_excess
            (y :: cps)
            (Checkpoint.remove
               (Checkpoint.replace_extension
                  Checkpoint.acceleration_ext
                  (Checkpoint.replace_extension Checkpoint.velocity_ext x))
               (Checkpoint.remove
                  (Checkpoint.replace_extension Checkpoint.velocity_ext x)
                  (Checkpoint.remove x d)))).
  apply IH. now repeat apply remove_unique.
Qed.

Lemma write_In (p : Checkpoint.path) (v : LA.Vector) (d : Checkpoint.Directory) e :
  In e (Checkpoint.write p v d) -> e = (p, v) \/ In e d.
Proof.
  induction d as [| e0 d IH]; simpl.
  - intros [<- | []]. now left.
  - destruct (Checkpoint.path_eqb (fst e0) p).
    + intros [<- | H]; [now left | right; now right].
    + intros [<- | H]; [right; now left |].
      destruct (IH H) as [-> | H']; [now left | right; now right].
Qed.

Lemma write_self (p : Checkpoint.path) (v : LA.Vector) (d : Checkpoint.Directory) :
  In (p, v) (Checkpoint.write p v d).
Proof.
  induction d as [| e0 d IH]; simpl; [now left |].
  destruct (Checkpoint.path_eqb (fst e0) p); [now left | now right].
Qed.

Lemma write_keeps (p : Checkpoint.path) (v : LA.Vector) (d : Checkpoint.Directory) e :
  In e d -> Checkpoint.filename (fst e) <> Checkpoint.filename p ->
  In e (Checkpoint.write p v d).
Proof.
  intros Hin Hne. induction d as [| e0 d IH]; simpl; [destruct Hin |].
  destruct (Checkpoint.path_eqb (fst e0) p) eqn:Hb.
  - destruct Hin as [<- | Hin]; [| now right].
    apply path_eqb_eq in Hb. contradiction.
  - destruct Hin as [<- | Hin]; [now left | right; now apply IH].
Qed.

Lemma write_unique (p : Checkpoint.path) (v : LA.Vector) (d : Checkpoint.Directory) :
  unique_names d -> unique_names (Checkpoint.write p v d).
Proof.
  unfold unique_names. induction d as [| e0 d IH]; simpl; intros H.
  - constructor; [intros [] | constructor].
  - inversion H as [| ? ? Hx Hl]; subst.
    destruct (Checkpoint.path_eqb (fst e0) p) eqn:Hb; simpl.
    + apply path_eqb_eq in Hb. rewrite <- Hb. constructor; assumption.
    + constructor; [| now apply IH].
      intros Hin. apply in_map_iff in Hin. destruct Hin as [e [He Hin]].
      apply write_In in Hin. destruct Hin as [-> | Hin].
      * simpl in He.
        assert (Checkpoint.path_eqb (fst e0) p = true)
          by (apply path_eqb_eq; congruence).
        congruence.
      * apply Hx. apply in_map_iff. exists e. split; assumption.
Qed.

(** *** What one save leaves on disk *)

Lemma filter_map_commute {A B : Type} (f : A -> B) (g : B -> bool) (l : list A) :
  filter g (map f l) = map f (filter (fun x => g (f x)) l).
Proof.
  induction l as [| x l IH]; simpl; [reflexivity |].
  destruct (g (f x)); simpl; now rewrite IH.
Qed.

Lemma displacement_files_entries (d : Checkpoint.Directory) :
  Checkpoint.displacement_files d
  = map fst (filter (fun e => is_displacement (fst e)) d).
Proof. apply filter_map_commute. Qed.

Lemma same_key_length {A B : Type} (f : A -> B) (c : B) (l : list A) :
  NoDup (map f l) -> (forall x, In x l -> f x = c) -> (length l <= 1)%nat.
Proof.
  destruct l as [| x [| y l]]; simpl; intros Hn Hc; try lia.
  exfalso. inversion Hn as [| ? ? Hx _]; subst. apply Hx. left.
  rewrite (Hc x), (Hc y); auto.
Qed.

(** After the excess checkpoints are removed, a displacement file still on
    disk has the name of the last checkpoint of the set. *)
Lemma survivor_name (d : Checkpoint.Directory) e :
  In e (Checkpoint.remove_excess (Checkpoint.find_checkpoints d) d) ->
  is_displacement (fst e) = true ->
  Checkpoint.find_checkpoints d <> [] /\
  Checkpoint.filename (fst e)
  = Checkpoint.filename (last (Checkpoint.find_checkpoints d) (fst e)).
Proof.
  intros Hin He. apply remove_excess_In in Hin. destruct Hin as [Hd Hkeep].
  destruct (find_checkpoints_spec d) as (_ & _ & Hcover).
  destruct (Hcover e Hd He) as [r [Hr Hn]].
  assert (Hne : Checkpoint.find_checkpoints d <> [])
    by (intros H0; rewrite H0 in Hr; destruct Hr).
  split; [exact Hne |].
  rewrite (app_removelast_last (fst e) Hne) in Hr.
  apply in_app_or in Hr. destruct Hr as [Hr | [<- | []]]; [| now symmetry].
  exfalso. apply (Hkeep r Hr). left. now symmetry.
Qed.

Lemma survivors_at_most_one (d : Checkpoint.Directory) :
  unique_names d ->
  (length (Checkpoint.displacement_files
             (Checkpoint.remove_excess (Checkpoint.find_checkpoints d) d)) <= 1)%nat.
Proof.
  intros Hu. rewrite displacement_files_entries, length_map.
  set (d1 := Checkpoint.remove_excess (Checkpoint.find_checkpoints d) d).
  assert (Hu1 : unique_names d1) by now apply remove_excess_unique.
  destruct (filter (fun e => is_displacement (fst e)) d1) as [| e0 l] eqn:Hl;
    [simpl; lia |].
  rewrite <- Hl.
  apply (same_key_length
           (fun e => Checkpoint.filename (fst e))
           (Checkpoint.filename (last (Checkpoint.find_checkpoints d) (fst e0)))).
  - now apply NoDup_map_filter.
  - intros e He. apply filter_In in He. destruct He as [He1 He2].
    destruct (survivor_name d e He1 He2) as [Hne ->].
    f_equal. destruct (Checkpoint.find_checkpoints d) as [| c cs]; [contradiction |].
    clear. revert c. induction cs as [| c' cs IH]; intros c; [reflexivity |].
    apply (IH c').
Qed.

Lemma write_displacement_count (p : Checkpoint.path) (v : LA.Vector)
      (d : Checkpoint.Directory) :
  (length (Checkpoint.displacement_files (Checkpoint.write p v d))
   <= length (Checkpoint.displacement_files d)
      + (if is_displacement p then 1 else 0))%nat.
Proof.
  unfold Checkpoint.displacement_files.
  induction d as [| e0 d IH]; simpl.
  - fold (is_displacement p). destruct (is_displacement p); simpl; lia.
  - destruct (Checkpoint.path_eqb (fst e0) p); simpl.
    + fold (is_displacement p). fold (is_displacement (fst e0)).
      destruct (is_displacement p), (is_displacement (fst e0)); simpl; lia.
    + fold (is_displacement (fst e0)).
      destruct (is_displacement (fst e0)); simpl; lia.
Qed.

Lemma filter_length_le {A : Type} (f h : A -> bool) (l : list A) :
  (forall x, h x = true -> f x = true) ->
  (length (filter h l) <= length (filter f l))%nat.
Proof.
  intros Himp. induction l as [| x l IH]; simpl; [lia |].
  destruct (h x) eqn:Hh.
  - rewrite (Himp x Hh). simpl. lia.
  - destruct (f x); simpl; lia.
Qed.

Lemma checkpoint_sets_count (d : Checkpoint.Directory) :
  (length (Checkpoint.checkpoint_sets d)
   <= length (Checkpoint.displacement_files d))%nat.
Proof.
  unfold Checkpoint.checkpoint_sets.
  rewrite displacement_files_entries, !length_map.
  apply filter_length_le. intros e He.
  apply andb_true_iff in He. destruct He as [He _].
  apply andb_true_iff in He. destruct He as [He _]. exact He.
Qed.

Lemma exists_file_In (p : Checkpoint.path) (d : Checkpoint.Directory) :
  Checkpoint.exists_file p d = true <->
  exists e, In e d /\ Checkpoint.filename (fst e) = Checkpoint.filename p.
Proof.
  unfold Checkpoint.exists_file. rewrite existsb_exists.
  split; intros [e [H1 H2]]; exists e; (split; [exact H1 |]); now apply path_eqb_eq.
Qed.

Lemma checkpoint_sets_In (d : Checkpoint.Directory) (p : Checkpoint.path)
      (v : LA.Vector) :
  In (p, v) d -> is_displacement p = true ->
  Checkpoint.exists_file (Checkpoint.replace_extension Checkpoint.velocity_ext p) d
  = true ->
  Checkpoint.exists_file (Checkpoint.replace_extension Checkpoint.acceleration_ext p) d
  = true ->
  In (Checkpoint.stem p) (Checkpoint.checkpoint_sets d).
Proof.
  intros Hin Hd Hv Ha. unfold Checkpoint.checkpoint_sets.
  apply in_map_iff. exists (p, v). split; [reflexivity |].
  apply filter_In. split; [exact Hin |]. simpl.
  unfold is_displacement in Hd. now rewrite Hd, Hv, Ha.
Qed.

Lemma extension_names_differ (s e1 e2 : string) :
  e1 <> e2 ->
  Checkpoint.filename (Checkpoint.mkPath s e1)
  <> Checkpoint.filename (Checkpoint.mkPath s e2).
Proof.
  intros Hne H. unfold Checkpoint.filename in H. simpl in H.
  apply append_inj_r in H. contradiction.
Qed.

(** The three files of the step just saved are on disk. *)
Lemma saved_set_complete (u v a : LA.Vector) (n : nat) (d : Checkpoint.Directory) :
  let d' := Checkpoint.save_checkpoint 0 u v a n d in
  let file := Checkpoint.checkpoint_file n in
  In (file, u) d' /\
  In (Checkpoint.replace_extension Checkpoint.velocity_ext file, v) d' /\
  In (Checkpoint.replace_extension Checkpoint.acceleration_ext file, a) d'.
Proof.
  unfold Checkpoint.save_checkpoint, Checkpoint.checkpoint_file,
    Checkpoint.replace_extension. simpl Nat.eqb. cbv iota. simpl Checkpoint.stem.
  set (d1 := Checkpoint.remove_excess (Checkpoint.find_checkpoints d) d).
  set (s := Checkpoint.int_to_string n 6).
  cbv zeta. repeat split.
  - apply write_keeps; [apply write_keeps; [apply write_self |] |];
      apply extension_names_differ; discriminate.
  - apply write_keeps; [apply write_self |].
    apply extension_names_differ; discriminate.
  - apply write_self.
Qed.

(** *** Step indices and file names *)

Lemma uint_of_string_zeros (k : nat) (s : string) (d : Decimal.uint) :
  NilEmpty.uint_of_string s = Some d ->
  NilEmpty.uint_of_string (Checkpoint.zeros k ++ s) = Some (leading_zeros k d).
Proof.
  intros H. induction k as [| k IH]; simpl; [exact H |].
  rewrite IH. reflexivity.
Qed.

Lemma of_uint_leading_zeros (k : nat) (d : Decimal.uint) :
  Nat.of_uint (leading_zeros k d) = Nat.of_uint d.
Proof. induction k as [| k IH]; simpl; [reflexivity | exact IH]. Qed.

(** [string_to_int] reads back what [int_to_string] prints. *)
Lemma string_to_int_to_string (n digits : nat) :
  Checkpoint.string_to_int (Checkpoint.int_to_string n digits) = Some n.
Proof.
  unfold Checkpoint.string_to_int, Checkpoint.int_to_string.
  rewrite (uint_of_string_zeros _ _ (Nat.to_uint n)) by apply NilEmpty.usu.
  simpl. now rewrite of_uint_leading_zeros, DecimalNat.Unsigned.of_to.
Qed.

Lemma int_to_string_inj (n m digits : nat) :
  Checkpoint.int_to_string n digits = Checkpoint.int_to_string m digits -> n = m.
Proof.
  intros H. apply (f_equal Checkpoint.string_to_int) in H.
  rewrite !string_to_int_to_string in H. now inversion H.
Qed.

Lemma checkpoint_file_inj (n m : nat) :
  Checkpoint.filename (Checkpoint.checkpoint_file n)
  = Checkpoint.filename (Checkpoint.checkpoint_file m) -> n = m.
Proof.
  unfold Checkpoint.checkpoint_file, Checkpoint.filename,
    Checkpoint.replace_extension. simpl. intros H.
  apply append_inj_l in H. now apply int_to_string_inj in H.
Qed.

Lemma is_displacement_ext (p : Checkpoint.path) :
  is_displacement p = true <-> Checkpoint.extension p = Checkpoint.displacement_ext.
Proof. apply String.eqb_eq. Qed.

(** *** The invariants of a directory that only holds saved checkpoints *)

Lemma find_checkpoints_from (d : Checkpoint.Directory) :
  forall acc x,
    In x (fold_left
            (fun checkpoints e =>
               if String.eqb (Checkpoint.extension (fst e)) Checkpoint.displacement_ext
               then Checkpoint.set_insert (fst e) checkpoints
               else checkpoints) d acc) ->
    In x acc \/ exists e, In e d /\ fst e = x.
Proof.
  induction d as [| e d IH]; intros acc x; simpl; [now left |].
  intros H. apply IH in H. destruct H as [H | [e' [H1 H2]]].
  - destruct (String.eqb (Checkpoint.extension (fst e)) Checkpoint.displacement_ext);
      [| now left].
    apply set_insert_In in H. destruct H as [-> | H]; [| now left].
    right. exists e. split; [now left | reflexivity].
  - right. exists e'. split; [now right | exact H2].
Qed.

Lemma sorted_before_last (l : list Checkpoint.path) (dflt p : Checkpoint.path) :
  sorted_paths l -> In p (removelast l) ->
  Checkpoint.path_ltb p (last l dflt) = true.
Proof.
  intros Hs. induction Hs as [| q l Hs IH Hq]; [intros [] |].
  destruct l as [| q' l]; [intros [] |].
  change (removelast (q :: q' :: l)) with (q :: removelast (q' :: l)).
  change (last (q :: q' :: l) dflt) with (last (q' :: l) dflt).
  intros [<- | Hp]; [| now apply IH].
  rewrite Forall_forall in Hq. apply Hq.
  clear. revert q'. induction l as [| x l IHl]; intros q'; [now left |].
  right. apply (IHl x).
Qed.

Lemma removelast_In {A : Type} (l : list A) (x : A) : In x (removelast l) -> In x l.
Proof.
  induction l as [| y l IH]; [intros [] |].
  destruct l as [| z l]; [intros [] |].
  change (removelast (y :: z :: l)) with (y :: removelast (z :: l)).
  intros [<- | H]; [now left | right; now apply IH].
Qed.

(** The files of two checkpoints with different names are different. *)
Lemma sets_disjoint (p m q : Checkpoint.path) :
  is_displacement p = true -> is_displacement m = true ->
  Checkpoint.filename m <> Checkpoint.filename p ->
  file_of_set m q -> ~ file_of_set p q.
Proof.
  intros Hp Hm Hne Hmq Hpq.
  apply is_displacement_ext in Hp. apply is_displacement_ext in Hm.
  destruct p as [sp ep], m as [sm em]. simpl in Hp, Hm. subst ep em.
  unfold file_of_set, Checkpoint.replace_extension in Hmq, Hpq. simpl in Hmq, Hpq.
  assert (Hext : forall e, e = Checkpoint.displacement_ext \/
                           e = Checkpoint.velocity_ext \/
                           e = Checkpoint.acceleration_ext ->
                           checkpoint_extension e) by (intros e He; exact He).
  destruct Hmq as [Hmq | [Hmq | Hmq]], Hpq as [Hpq | [Hpq | Hpq]];
    rewrite Hmq in Hpq;
    apply filename_inj in Hpq;
    try (inversion Hpq; subst; apply Hne; reflexivity);
    try discriminate Hpq;
    simpl; unfold checkpoint_extension; tauto.
Qed.

Lemma exists_file_write (q p : Checkpoint.path) (v : LA.Vector)
      (d : Checkpoint.Directory) :
  Checkpoint.exists_file q d = true ->
  Checkpoint.exists_file q (Checkpoint.write p v d) = true.
Proof.
  rewrite !exists_file_In. intros [e [Hin Hn]].
  destruct (string_dec (Checkpoint.filename (fst e)) (Checkpoint.filename p)) as [He | He].
  - exists (p, v). split; [apply write_self | simpl; congruence].
  - exists e. split; [now apply write_keeps | exact Hn].
Qed.

Lemma survivor_complete (d : Checkpoint.Directory) e :
  complete_sets d ->
  In e (Checkpoint.remove_excess (Checkpoint.find_checkpoints d) d) ->
  is_displacement (fst e) = true ->
  Checkpoint.exists_file
    (Checkpoint.replace_extension Checkpoint.velocity_ext (fst e))
    (Checkpoint.remove_excess (Checkpoint.find_checkpoints d) d) = true /\
  Checkpoint.exists_file
    (Checkpoint.replace_extension Checkpoint.acceleration_ext (fst e))
    (Checkpoint.remove_excess (Checkpoint.find_checkpoints d) d) = true.
Proof.
  intros HJ Hin He.
  pose proof Hin as Hin'. apply remove_excess_In in Hin'. destruct Hin' as [Hd Hkeep].
  destruct (HJ e Hd He) as [Hv Ha].
  destruct (find_checkpoints_spec d) as (_ & Hdisp & _).
  assert (Hcompanion :
            forall q, file_of_set (fst e) q ->
                      Checkpoint.exists_file q d = true ->
                      Checkpoint.exists_file
                        q (Checkpoint.remove_excess (Checkpoint.find_checkpoints d) d)
                      = true).
  { intros q Hq Hex. apply exists_file_In in Hex. destruct Hex as [e' [Hin1 Hn1]].
    apply exists_file_In. exists e'. split; [| exact Hn1].
    apply remove_excess_In. split; [exact Hin1 |].
    intros p Hp.
    apply (sets_disjoint p (fst e)).
    - apply Hdisp. now apply removelast_In.
    - exact He.
    - intros Hn. apply (Hkeep p Hp). now left.
    - unfold file_of_set in *. rewrite Hn1. exact Hq. }
  split; apply Hcompanion; try assumption.
  - right. now left.
  - right. now right.
Qed.

Lemma last_survives (d : Checkpoint.Directory) (dflt : Checkpoint.path) :
  Checkpoint.find_checkpoints d <> [] ->
  exists e,
    In e (Checkpoint.remove_excess (Checkpoint.find_checkpoints d) d) /\
    fst e = last (Checkpoint.find_checkpoints d) dflt /\
    is_displacement (fst e) = true.
Proof.
  intros Hne.
  destruct (find_checkpoints_spec d) as (Hsorted & Hdisp & _).
  set (cps := Checkpoint.find_checkpoints d) in *.
  assert (Hm : In (last cps dflt) cps).
  { rewrite (app_removelast_last dflt Hne) at 2.
    apply in_or_app. right. now left. }
  destruct (find_checkpoints_from d [] (last cps dflt) Hm) as [[] | [e [Hin He]]].
  exists e. split; [| split; [exact He | rewrite He; now apply Hdisp]].
  apply remove_excess_In. split; [exact Hin |].
  intros p Hp. rewrite He.
  apply (sets_disjoint p (last cps dflt)).
  - apply Hdisp. now apply removelast_In.
  - now apply Hdisp.
  - intros Hn. apply (path_ltb_not_eq p (last cps dflt)).
    + now apply sorted_before_last.
    + now symmetry.
  - now left.
Qed.

Lemma two_distinct_members {A : Type} (l : list A) (a b : A) :
  (length l <= 2)%nat -> In a l -> In b l -> a <> b -> length l = 2%nat.
Proof.
  destruct l as [| x [| y [| z l]]]; simpl; intros Hlen Ha Hb Hne.
  - destruct Ha.
  - destruct Ha as [<- | []], Hb as [<- | []]. contradiction.
  - reflexivity.
  - lia.
Qed.

Section OneSave.

Variables (u v a : LA.Vector) (n : nat) (d : Checkpoint.Directory).

Let kept : Checkpoint.Directory :=
  Checkpoint.remove_excess (Checkpoint.find_checkpoints d) d.
Let file_d : Checkpoint.path := Checkpoint.checkpoint_file n.
Let file_v : Checkpoint.path :=
  Checkpoint.replace_extension Checkpoint.velocity_ext file_d.
Let file_a : Checkpoint.path :=
  Checkpoint.replace_extension Checkpoint.acceleration_ext file_d.
Let saved : Checkpoint.Directory := Checkpoint.save_checkpoint 0 u v a n d.

Lemma save_unfold :
  saved = Checkpoint.write file_a a (Checkpoint.write file_v v
                                                      (Checkpoint.write file_d u kept)).
Proof. reflexivity. Qed.

Lemma save_unique : unique_names d -> unique_names saved.
Proof.
  intros Hu. rewrite save_unfold.
  repeat apply write_unique. now apply remove_excess_unique.
Qed.

Lemma save_count : unique_names d -> (length (Checkpoint.checkpoint_sets saved) <= 2)%nat.
Proof.
  intros Hu.
  pose proof (checkpoint_sets_count saved) as H0. rewrite save_unfold in H0 |- *.
  pose proof (write_displacement_count
                file_a a (Checkpoint.write file_v v (Checkpoint.write file_d u kept))) as H1.
  pose proof (write_displacement_count file_v v (Checkpoint.write file_d u kept)) as H2.
  pose proof (write_displacement_count file_d u kept) as H3.
  pose proof (survivors_at_most_one d Hu) as H4. fold kept in H4.
  change (is_displacement file_a) with false in H1.
  change (is_displacement file_v) with false in H2.
  change (is_displacement file_d) with true in H3.
  cbv iota in H1, H2, H3. lia.
Qed.

Lemma save_In e :
  In e saved -> e = (file_d, u) \/ e = (file_v, v) \/ e = (file_a, a) \/ In e kept.
Proof.
  rewrite save_unfold. intros H.
  apply write_In in H. destruct H as [H | H]; [tauto |].
  apply write_In in H. destruct H as [H | H]; [tauto |].
  apply write_In in H. tauto.
Qed.

Lemma save_has_new :
  In (file_d, u) saved /\
  Checkpoint.exists_file file_v saved = true /\
  Checkpoint.exists_file file_a saved = true /\
  In (Checkpoint.int_to_string n 6) (Checkpoint.checkpoint_sets saved).
Proof.
  destruct (saved_set_complete u v a n d) as (Hd & Hv & Ha).
  fold saved file_d file_v in Hd, Hv, Ha.
  assert (Ev : Checkpoint.exists_file file_v saved = true)
    by (apply exists_file_In; eexists; split; [exact Hv | reflexivity]).
  assert (Ea : Checkpoint.exists_file file_a saved = true)
    by (apply exists_file_In; eexists; split; [exact Ha | reflexivity]).
  repeat split; try assumption.
  apply (checkpoint_sets_In saved file_d u); try assumption. reflexivity.
Qed.

Lemma kept_exists_file (q : Checkpoint.path) :
  Checkpoint.exists_file q kept = true -> Checkpoint.exists_file q saved = true.
Proof. intros H. rewrite save_unfold. now repeat apply exists_file_write. Qed.

Lemma save_complete : complete_sets d -> complete_sets saved.
Proof.
  intros HJ e Hin He.
  destruct (save_In e Hin) as [-> | [-> | [-> | Hk]]]; try discriminate He.
  - destruct save_has_new as (_ & Hv & Ha & _). split; assumption.
  - destruct (survivor_complete d e HJ Hk He) as [Hv Ha].
    split; now apply kept_exists_file.
Qed.

Lemma save_saved_at (S : list nat) : saved_at S d -> saved_at (n :: S) saved.
Proof.
  intros HK e Hin He.
  destruct (save_In e Hin) as [-> | [-> | [-> | Hk]]]; try discriminate He.
  - exists n. split; [now left | reflexivity].
  - apply remove_excess_In in Hk. destruct Hk as [Hd _].
    destruct (HK e Hd He) as [k [Hk1 Hk2]].
    exists k. split; [now right | exact Hk2].
Qed.

Lemma save_two (S : list nat) :
  unique_names d -> complete_sets d -> saved_at S d -> ~ In n S ->
  (exists e, In e d /\ is_displacement (fst e) = true) ->
  length (Checkpoint.checkpoint_sets saved) = 2%nat.
Proof.
  intros Hu HJ HK Hn [e0 [Hin0 He0]].
  destruct (find_checkpoints_spec d) as (_ & _ & Hcover).
  assert (Hne : Checkpoint.find_checkpoints d <> []).
  { destruct (Hcover e0 Hin0 He0) as [r [Hr _]].
    intros H0. rewrite H0 in Hr. destruct Hr. }
  destruct (last_survives d file_d Hne) as [[m vm] [Hm [_ Hmd]]].
  fold kept in Hm. simpl in Hmd.
  pose proof Hm as Hm'. apply remove_excess_In in Hm'. destruct Hm' as [Hmin _].
  destruct (HK (m, vm) Hmin Hmd) as [k [Hk Hmk]]. simpl in Hmk.
  assert (Hkn : k <> n) by (intros ->; contradiction).
  destruct (survivor_complete d (m, vm) HJ Hm Hmd) as [Hv Ha]. fold kept in Hv, Ha.
  assert (Hstay : In (m, vm) saved).
  { rewrite save_unfold. subst m.
    repeat apply write_keeps; try exact Hm; simpl.
    - intros H. apply checkpoint_file_inj in H. contradiction.
    - intros H. apply filename_inj in H; [discriminate H | |];
        unfold checkpoint_extension; simpl; tauto.
    - intros H. apply filename_inj in H; [discriminate H | |];
        unfold checkpoint_extension; simpl; tauto. }
  apply (two_distinct_members _ (Checkpoint.stem m) (Checkpoint.int_to_string n 6)).
  - now apply save_count.
  - apply (checkpoint_sets_In saved m vm); try assumption;
      now apply kept_exists_file.
  - apply save_has_new.
  - subst m. simpl. intros H. apply int_to_string_inj in H. contradiction.
Qed.

End OneSave.

Lemma save_all_two (fields : nat -> LA.Vector * LA.Vector * LA.Vector)
      (steps : list nat) :
  forall S d,
    unique_names d -> complete_sets d -> saved_at S d ->
    (exists e, In e d /\ is_displacement (fst e) = true) ->
    NoDup steps -> (forall k, In k steps -> ~ In k S) -> steps <> [] ->
    length (Checkpoint.checkpoint_sets (Checkpoint.save_all fields steps d)) = 2%nat /\
    In (Checkpoint.int_to_string (last steps O) 6)
       (Checkpoint.checkpoint_sets (Checkpoint.save_all fields steps d)).
Proof.
  induction steps as [| k steps IH]; intros S d Hu HJ HK Hex Hnd Hnew Hne;
    [contradiction |].
  cbn [Checkpoint.save_all]. destruct (fields k) as [[u v] a].
  inversion Hnd as [| ? ? Hk Hnd']; subst.
  assert (HkS : ~ In k S) by (apply Hnew; now left).
  destruct steps as [| k' steps].
  - cbn [Checkpoint.save_all last]. split.
    + now apply (save_two u v a k d S).
    + apply save_has_new.
  - change (last (k :: k' :: steps) O) with (last (k' :: steps) O).
    apply (IH (k :: S)).
    + now apply save_unique.
    + now apply save_complete.
    + now apply save_saved_at.
    + exists (Checkpoint.checkpoint_file k, u). split; [apply save_has_new | reflexivity].
    + exact Hnd'.
    + intros j Hj [<- | HjS]; [contradiction |].
      apply (Hnew j); [now right | exact HjS].
    + discriminate.
Qed.

(** C1, as the code has it.  The excess checkpoints are removed before the
    new one is written, and one is kept: after a save at most two
    checkpoint sets are on disk, one of them the set just written; after
    two or more saves at distinct steps into an empty directory exactly two
    sets are on disk, one of them that of the last save. *)
Theorem checkpoint_retention (u v a : LA.Vector) (n : nat) (d : Checkpoint.Directory) :
  unique_names d ->
  (length (Checkpoint.checkpoint_sets (Checkpoint.save_checkpoint 0 u v a n d)) <= 2)%nat /\
  In (Checkpoint.int_to_string n 6)
     (Checkpoint.checkpoint_sets (Checkpoint.save_checkpoint 0 u v a n d)) /\
  (forall fields steps,
      NoDup steps -> (2 <= length steps)%nat ->
      length (Checkpoint.checkpoint_sets (Checkpoint.save_all fields steps [])) = 2%nat /\
      In (Checkpoint.int_to_string (last steps O) 6)
         (Checkpoint.checkpoint_sets (Checkpoint.save_all fields steps []))).
Proof.
  intros Hu. split; [now apply save_count |]. split; [apply save_has_new |].
  intros fields steps Hnd Hlen.
  destruct steps as [| k [| k' steps]]; simpl in Hlen; try lia.
  inversion Hnd as [| ? ? Hk Hnd']; subst.
  cbn [Checkpoint.save_all]. destruct (fields k) as [[u0 v0] a0].
  change (last (k :: k' :: steps) O) with (last (k' :: steps) O).
  change (let '(u1, v1, a1) := fields k' in
          Checkpoint.save_all fields steps
            (Checkpoint.save_checkpoint 0 u1 v1 a1 k'
               (Checkpoint.save_checkpoint 0 u0 v0 a0 k [])))
    with (Checkpoint.save_all fields (k' :: steps)
            (Checkpoint.save_checkpoint 0 u0 v0 a0 k [])).
  apply (save_all_two fields (k' :: steps) [k]).
  - apply save_unique. constructor.
  - apply save_complete. intros e [].
  - apply save_saved_at. intros e [].
  - exists (Checkpoint.checkpoint_file k, u0). split; [apply save_has_new | reflexivity].
  - exact Hnd'.
  - intros j Hj [<- | []]. contradiction.
  - discriminate.
Qed.

Lemma checkpoint_retention_witness :
  (length (Checkpoint.checkpoint_sets
             (Checkpoint.save_checkpoint 0 [1; 2]%Q [3; 4]%Q [5; 6]%Q 7 [])) <= 2)%nat /\
  In (Checkpoint.int_to_string 7 6)
     (Checkpoint.checkpoint_sets
        (Checkpoint.save_checkpoint 0 [1; 2]%Q [3; 4]%Q [5; 6]%Q 7 [])).
Proof.
  destruct (checkpoint_retention [1; 2]%Q [3; 4]%Q [5; 6]%Q 7%nat []) as (H1 & H2 & _).
  - constructor.
  - split; [exact H1 | exact H2].
Defined.

(** C1, as stated, fails: after the saves at steps 1 and 2 into an empty
    directory both sets are on disk, and after a third save at step 3 the
    sets of steps 2 and 3 are. *)
Lemma checkpoint_retention_counterexample :
  Checkpoint.checkpoint_sets (Checkpoint.save_all Sample.fields [1; 2]%nat [])
  = ["000001"; "000002"]%string /\
  Checkpoint.checkpoint_sets (Checkpoint.save_all Sample.fields [1; 2; 3]%nat [])
  = ["000002"; "000003"]%string /\
  map (fun e => Checkpoint.filename (fst e))
      (Checkpoint.save_all Sample.fields [1; 2]%nat [])
  = ["000001.solid_checkpoint_displacement"; "000001.solid_checkpoint_velocity";
     "000001.solid_checkpoint_acceleration"; "000002.solid_checkpoint_displacement";
     "000002.solid_checkpoint_velocity"; "000002.solid_checkpoint_acceleration"]%string.
Proof. repeat split; vm_compute; reflexivity. Qed.

(** ** C8: the pressure pin *)

Lemma Qltb_lt (x y : Q) : Fluid.Qltb x y = true <-> x < y.
Proof.
  unfold Fluid.Qltb. rewrite negb_true_iff. split.
  - intros H. apply Qnot_le_lt. intros Hle.
    apply Qle_bool_iff in Hle. congruence.
  - intros H. destruct (Qle_bool y x) eqn:Hb; [| reflexivity].
    apply Qle_bool_iff in Hb. exfalso. exact (Qlt_not_le _ _ H Hb).
Qed.

Section PressurePinFacts.

Variable invalid_dof_index : nat.
Variable distance : Fluid.Point -> Fluid.Point -> Q.
Variable target_point : Fluid.Point.

(** The candidates among a list of degrees of freedom. *)
Let candidates_of (P : Fluid.Process) (dofs : list nat) : list (nat * Q) :=
  flat_map
    (fun dof =>
       match Fluid.find_point dof (Fluid.support_points P) with
       | Some pt => [(dof, distance pt target_point)]
       | None => []
       end) dofs.

Let search_step (P : Fluid.Process) (acc : Q * nat) (dof : nat) : Q * nat :=
  let '(local_min_distance, local_fixed_pressure_dof) := acc in
  match Fluid.find_point dof (Fluid.support_points P) with
  | Some pt =>
      let d := distance pt target_point in
      if Fluid.Qltb d local_min_distance then (d, dof) else acc
  | None => acc
  end.

Lemma search_fold (P : Fluid.Process) (dofs : list nat) :
  forall m0 f0,
    let r := fold_left (search_step P) dofs (m0, f0) in
    fst r <= m0 /\
    (forall c, In c (candidates_of P dofs) -> fst r <= snd c) /\
    (r = (m0, f0) \/ (In (snd r, fst r) (candidates_of P dofs) /\ fst r < m0)).
Proof.
  induction dofs as [| dof dofs IH]; intros m0 f0; cbn [fold_left].
  - cbv zeta. simpl. split; [apply Qle_refl |]. split; [intros c [] | now left].
  - assert (Hc : candidates_of P (dof :: dofs)
                 = match Fluid.find_point dof (Fluid.support_points P) with
                   | Some pt => [(dof, distance pt target_point)]
                   | None => []
                   end ++ candidates_of P dofs) by reflexivity.
    rewrite Hc. clear Hc.
    destruct (Fluid.find_point dof (Fluid.support_points P)) as [pt |] eqn:Hfp.
    + destruct (Fluid.Qltb (distance pt target_point) m0) eqn:Hlt.
      * assert (Hs : search_step P (m0, f0) dof = (distance pt target_point, dof))
          by (unfold search_step; rewrite Hfp, Hlt; reflexivity).
        rewrite Hs. clear Hs.
        apply Qltb_lt in Hlt.
        destruct (IH (distance pt target_point) dof) as (I1 & I2 & I3).
        cbv zeta in I1, I2, I3 |- *.
        split; [eapply Qle_trans; [exact I1 | now apply Qlt_le_weak] |].
        split.
        -- intros c [<- | Hc]; [exact I1 | now apply I2].
        -- right. destruct I3 as [-> | [I3 I4]].
           ++ split; [now left | exact Hlt].
           ++ split; [now right | eapply Qlt_trans; eassumption].
      * assert (Hs : search_step P (m0, f0) dof = (m0, f0))
          by (unfold search_step; rewrite Hfp, Hlt; reflexivity).
        rewrite Hs. clear Hs.
        destruct (IH m0 f0) as (I1 & I2 & I3). cbv zeta in I1, I2, I3 |- *.
        split; [exact I1 |].
        assert (Hge : m0 <= distance pt target_point).
        { apply Qnot_lt_le. intros H. apply Qltb_lt in H. congruence. }
        split.
        -- intros c [<- | Hc]; [eapply Qle_trans; eassumption | now apply I2].
        -- destruct I3 as [I3 | [I3 I4]]; [now left | right].
           split; [now right | exact I4].
    + assert (Hs : search_step P (m0, f0) dof = (m0, f0))
        by (unfold search_step; rewrite Hfp; reflexivity).
      rewrite Hs. apply IH.
Qed.

(** The local search returns the least distance among the candidates of a
    process, with a degree of freedom that attains it, or the initial
    pair when no candidate is closer than the largest [double]. *)
Lemma local_search_spec (P : Fluid.Process) :
  let r := Fluid.local_search invalid_dof_index distance target_point P in
  (forall c, In c (Fluid.candidates distance target_point P) -> fst r <= snd c) /\
  fst r <= Fluid.double_max /\
  (r = (Fluid.double_max, invalid_dof_index) \/
   (In (snd r, fst r) (Fluid.candidates distance target_point P) /\
    fst r < Fluid.double_max)).
Proof.
  destruct (search_fold P (Fluid.locally_owned_pressure_dofs P)
                        Fluid.double_max invalid_dof_index) as (I1 & I2 & I3).
  cbv zeta in *. repeat split; assumption.
Qed.

End PressurePinFacts.

Lemma minloc_step (u v : Q * nat) (seen : list (Q * nat)) :
  least_at u seen -> least_at (Fluid.minloc u v) (seen ++ [v]).
Proof.
  destruct u as [g r], v as [x i]. unfold least_at, Fluid.minloc. simpl fst. simpl snd.
  intros [[x0 [Hin0 Hx0]] Hall].
  destruct (g ?= x) eqn:Hcmp.
  - apply Qeq_alt in Hcmp. simpl fst. simpl snd. split.
    + destruct (Nat.le_gt_cases r i) as [Hri | Hri].
      * rewrite Nat.min_l by assumption. exists x0. split; [| exact Hx0].
        apply in_or_app. now left.
      * rewrite Nat.min_r by lia. exists x. split; [| now symmetry].
        apply in_or_app. right. now left.
    + intros x' i' Hin. apply in_app_or in Hin. destruct Hin as [Hin | [Heq | []]].
      * destruct (Hall x' i' Hin) as [H1 H2]. split; [exact H1 |].
        intros He. specialize (H2 He). lia.
      * inversion Heq; subst. split; [rewrite Hcmp; apply Qle_refl |]. intros _. lia.
  - apply Qlt_alt in Hcmp. simpl fst. simpl snd. split.
    + exists x0. split; [apply in_or_app; now left | exact Hx0].
    + intros x' i' Hin. apply in_app_or in Hin. destruct Hin as [Hin | [Heq | []]].
      * now apply Hall.
      * inversion Heq; subst. split; [now apply Qlt_le_weak |].
        intros He. rewrite He in Hcmp. exfalso. exact (Qlt_irrefl _ Hcmp).
  - apply Qgt_alt in Hcmp. simpl fst. simpl snd. split.
    + exists x. split; [apply in_or_app; right; now left | reflexivity].
    + intros x' i' Hin. apply in_app_or in Hin. destruct Hin as [Hin | [Heq | []]].
      * destruct (Hall x' i' Hin) as [H1 _]. split.
        -- apply Qlt_le_weak. eapply Qlt_le_trans; eassumption.
        -- intros He. exfalso. rewrite He in H1.
           exact (Qlt_not_le _ _ Hcmp H1).
      * inversion Heq; subst. split; [apply Qle_refl | intros _; lia].
Qed.

Lemma minloc_fold (rest : list (Q * nat)) :
  forall acc seen,
    least_at acc seen -> least_at (fold_left Fluid.minloc rest acc) (seen ++ rest).
Proof.
  induction rest as [| v rest IH]; intros acc seen H; simpl.
  - now rewrite app_nil_r.
  - replace (seen ++ v :: rest) with ((seen ++ [v]) ++ rest)
      by (rewrite <- app_assoc; reflexivity).
    apply IH. now apply minloc_step.
Qed.

Lemma MPI_Allreduce_MINLOC_spec (local_data : list (Q * nat)) :
  local_data <> [] -> least_at (Fluid.MPI_Allreduce_MINLOC local_data) local_data.
Proof.
  destruct local_data as [| d rest]; [contradiction |]. intros _.
  apply (minloc_fold rest d [d]).
  destruct d as [g r]. split.
  - exists g. split; [now left | reflexivity].
  - intros x i [Heq | []]. inversion Heq; subst. simpl.
    split; [apply Qle_refl | intros _; lia].
Qed.

Lemma In_combine_seq {A : Type} (l : list A) :
  forall s i x,
    In (i, x) (combine (seq s (length l)) l) <->
    (s <= i)%nat /\ nth_error l (i - s) = Some x.
Proof.
  induction l as [| y l IH]; intros s i x; simpl.
  - split; [intros [] |]. intros [_ H]. destruct (i - s)%nat; discriminate.
  - rewrite IH. split.
    + intros [Heq | [Hle Hn]].
      * inversion Heq; subst. rewrite Nat.sub_diag. split; [lia | reflexivity].
      * split; [lia |].
        replace (i - s)%nat with (S (i - S s)) by lia. exact Hn.
    + intros [Hle Hn].
      destruct (Nat.eq_dec i s) as [-> | Hne].
      * rewrite Nat.sub_diag in Hn. simpl in Hn. inversion Hn. now left.
      * right. split; [lia |].
        replace (i - s)%nat with (S (i - S s)) in Hn by lia. exact Hn.
Qed.

Lemma candidate_owned distance target_point (P : Fluid.Process) (c : nat * Q) :
  In c (Fluid.candidates distance target_point P) ->
  In (fst c) (Fluid.pressure_dofs P) /\
  Fluid.is_element (fst c) (Fluid.locally_owned_dofs P) = true.
Proof.
  unfold Fluid.candidates. intros H. apply in_flat_map in H.
  destruct H as [dof [Hdof Hc]].
  destruct (Fluid.find_point dof (Fluid.support_points P)); [| destruct Hc].
  destruct Hc as [<- | []]. simpl.
  unfold Fluid.locally_owned_pressure_dofs in Hdof. now apply filter_In in Hdof.
Qed.

Lemma local_data_In invalid_dof_index distance target_point
      (world : list Fluid.Process) (x : Q) (r : nat) :
  In (x, r) (Fluid.local_data invalid_dof_index distance target_point world) <->
  exists P, nth_error world r = Some P /\
            x = fst (Fluid.local_search invalid_dof_index distance target_point P).
Proof.
  unfold Fluid.local_data. rewrite in_map_iff. split.
  - intros [[r' P] [Heq Hin]]. simpl in Heq. inversion Heq; subst.
    apply In_combine_seq in Hin. destruct Hin as [_ Hn].
    rewrite Nat.sub_0_r in Hn. now exists P.
  - intros [P [Hn ->]]. exists (r, P). split; [reflexivity |].
    apply In_combine_seq. split; [lia |]. now rewrite Nat.sub_0_r.
Qed.

Lemma find_line_app (c1 c2 : Constraints.AffineConstraints) (d : nat) :
  Constraints.find_line (c1 ++ c2) d
  = match Constraints.find_line c1 d with
    | Some l => Some l
    | None => Constraints.find_line c2 d
    end.
Proof.
  induction c1 as [| [d' l'] c1 IH]; simpl; [reflexivity |].
  destruct (Nat.eqb d' d); [reflexivity | exact IH].
Qed.

(** The lines after [add_line]: a line that exists is kept, a new one has
    no entries and the inhomogeneity 0. *)
Lemma find_line_add_line (dof d : nat) (c : Constraints.AffineConstraints) :
  Constraints.find_line (Constraints.add_line dof c) d
  = match Constraints.find_line c d with
    | Some l => Some l
    | None => if Nat.eqb dof d then Some (Constraints.mkLine [] 0) else None
    end.
Proof.
  unfold Constraints.add_line, Constraints.is_constrained.
  destruct (Constraints.find_line c dof) as [l |] eqn:Hdof.
  - destruct (Constraints.find_line c d) as [l' |] eqn:Hd; [reflexivity |].
    destruct (Nat.eqb_spec dof d) as [-> | _]; [congruence | reflexivity].
  - rewrite find_line_app. simpl.
    destruct (Constraints.find_line c d); reflexivity.
Qed.

Lemma find_line_set_inhomogeneity (dof d : nat) (v : Q)
      (c : Constraints.AffineConstraints) :
  Constraints.find_line (Constraints.set_inhomogeneity dof v c) d
  = if Nat.eqb d dof
    then match Constraints.find_line c d with
         | Some l => Some (Constraints.mkLine (Constraints.entries l) v)
         | None => None
         end
    else Constraints.find_line c d.
Proof.
  unfold Constraints.set_inhomogeneity.
  induction c as [| [d' l'] c IH]; simpl.
  - now destruct (Nat.eqb d dof).
  - destruct (Nat.eqb_spec d' dof) as [-> | Hne]; simpl.
    + destruct (Nat.eqb_spec dof d) as [<- | Hne'].
      * now rewrite Nat.eqb_refl.
      * rewrite IH. reflexivity.
    + destruct (Nat.eqb_spec d' d) as [-> | Hne'].
      * apply Nat.eqb_neq in Hne. now rewrite Hne.
      * exact IH.
Qed.

(** The lines of a process after the pin of [dof]. *)
Lemma find_line_pin (dof d : nat) (c : Constraints.AffineConstraints) :
  Constraints.find_line
    (Constraints.set_inhomogeneity dof 0 (Constraints.add_line dof c)) d
  = if Nat.eqb d dof
    then match Constraints.find_line c dof with
         | Some l => Some (Constraints.mkLine (Constraints.entries l) 0)
         | None => Some (Constraints.mkLine [] 0)
         end
    else Constraints.find_line c d.
Proof.
  rewrite find_line_set_inhomogeneity, find_line_add_line.
  destruct (Nat.eqb_spec d dof) as [-> | Hne].
  - rewrite Nat.eqb_refl. destruct (Constraints.find_line c dof); reflexivity.
  - destruct (Constraints.find_line c d); [reflexivity |].
    destruct (Nat.eqb_spec dof d) as [-> | _]; [contradiction | reflexivity].
Qed.

(** The degree of freedom that is broadcast, when some process has a
    candidate: a closest candidate, of the process of lowest rank among
    those that hold one at that distance, owned by that process alone. *)
Lemma pin_selection
      (invalid_dof_index : nat) (distance : Fluid.Point -> Fluid.Point -> Q)
      (target_point : Fluid.Point) (world : list Fluid.Process) :
  owned_once world ->
  (forall P dof, In P world -> In dof (Fluid.pressure_dofs P) ->
                 dof <> invalid_dof_index) ->
  (exists P c, In P world /\ In c (Fluid.candidates distance target_point P) /\
               snd c < Fluid.double_max) ->
  exists root P_root dof x,
    nth_error world root = Some P_root /\
    In (dof, x) (Fluid.candidates distance target_point P_root) /\
    (forall P c, In P world -> In c (Fluid.candidates distance target_point P) ->
                 x <= snd c) /\
    (forall r P c, nth_error world r = Some P ->
                   In c (Fluid.candidates distance target_point P) ->
                   snd c == x -> (root <= r)%nat) /\
    Fluid.global_fixed_pressure_dof invalid_dof_index distance target_point world
    = dof /\
    Nat.eqb dof invalid_dof_index = false /\
    (forall r P, nth_error world r = Some P ->
                 Fluid.is_element dof (Fluid.locally_owned_dofs P)
                 = Nat.eqb r root).
Proof.
  intros Howned Hvalid [P0 [c0 [HP0 [Hc0 Hlt0]]]].
  set (ls := Fluid.local_search invalid_dof_index distance target_point).
  set (data := Fluid.local_data invalid_dof_index distance target_point world).
  assert (Hin_data : forall r P, nth_error world r = Some P -> In (fst (ls P), r) data).
  { intros r P Hn. apply local_data_In. now exists P. }
  destruct (In_nth_error world P0 HP0) as [r0 Hr0].
  assert (Hne : data <> []).
  { intros H0. pose proof (Hin_data r0 P0 Hr0) as H. rewrite H0 in H. destruct H. }
  pose proof (MPI_Allreduce_MINLOC_spec data Hne) as [[x0 [Hroot Hx0]] Hleast].
  apply local_data_In in Hroot. destruct Hroot as [P_root [Hn_root Hx0']].
  fold ls in Hx0'. subst x0.
  destruct (local_search_spec invalid_dof_index distance target_point P0) as (L0 & _ & _).
  fold ls in L0.
  assert (Hglobal_lt : fst (ls P_root) < Fluid.double_max).
  { rewrite Hx0.
    eapply Qle_lt_trans; [apply (Hleast _ _ (Hin_data r0 P0 Hr0)) |].
    eapply Qle_lt_trans; [apply (L0 c0 Hc0) | exact Hlt0]. }
  destruct (local_search_spec invalid_dof_index distance target_point P_root)
    as (Lr & _ & Hcase).
  fold ls in Lr, Hcase. destruct Hcase as [Hsentinel | [Hcand _]].
  { exfalso. rewrite Hsentinel in Hglobal_lt. exact (Qlt_irrefl _ Hglobal_lt). }
  destruct (candidate_owned _ _ _ _ Hcand) as [Hpressure Hown]. simpl in Hpressure, Hown.
  assert (Hfixed : Fluid.global_fixed_pressure_dof invalid_dof_index distance
                                                   target_point world
                   = snd (ls P_root)).
  { unfold Fluid.global_fixed_pressure_dof, Fluid.global_data. fold data.
    now rewrite Hn_root. }
  assert (Hvalid_dof : Nat.eqb (snd (ls P_root)) invalid_dof_index = false).
  { apply Nat.eqb_neq. apply (Hvalid P_root); [| exact Hpressure].
    eapply nth_error_In. exact Hn_root. }
  exists (snd (Fluid.MPI_Allreduce_MINLOC data)), P_root,
    (snd (ls P_root)), (fst (ls P_root)).
  split; [exact Hn_root |]. split; [exact Hcand |].
  split; [| split; [| split; [exact Hfixed | split; [exact Hvalid_dof |]]]].
  - intros P c HP Hc.
    destruct (In_nth_error world P HP) as [r Hr].
    destruct (local_search_spec invalid_dof_index distance target_point P) as (L & _ & _).
    fold ls in L. rewrite Hx0.
    eapply Qle_trans; [apply (Hleast _ _ (Hin_data r P Hr)) | now apply L].
  - intros r P c Hr Hc Heq.
    destruct (local_search_spec invalid_dof_index distance target_point P) as (L & _ & _).
    fold ls in L.
    apply (Hleast _ _ (Hin_data r P Hr)).
    apply Qle_antisym; [| apply (Hleast _ _ (Hin_data r P Hr))].
    rewrite <- Hx0, <- Heq. now apply L.
  - intros r P HP.
    destruct (Nat.eqb_spec r (snd (Fluid.MPI_Allreduce_MINLOC data))) as [-> | Hr].
    + rewrite Hn_root in HP. inversion HP. subst P. exact Hown.
    + destruct (Fluid.is_element (snd (ls P_root)) (Fluid.locally_owned_dofs P)) eqn:He;
        [| reflexivity].
      exfalso. apply Hr. exact (Howned r _ P P_root _ HP Hn_root He Hown).
Qed.

(** C8, as the code has it.  When the degrees of freedom are partitioned
    among the processes and some locally owned pressure degree of freedom
    has a support point closer to the anchor than the largest [double],
    one degree of freedom is selected: a pressure degree of freedom whose
    support point is as close to the anchor as any; of the processes that
    hold one at that distance the one of lowest rank provides it; and that
    process, and no other, changes its constraints.  It calls [add_line]
    and sets the inhomogeneity to 0: when [close()] is called the degree
    of freedom is constrained to zero if it had no line before, and keeps
    the entries of the line it had otherwise; the lines of the other
    degrees of freedom are as they were. *)
Theorem pressure_pin_unique
        (invalid_dof_index : nat) (distance : Fluid.Point -> Fluid.Point -> Q)
        (target_point : Fluid.Point) (world : list Fluid.Process)
        (before : list Constraints.AffineConstraints) :
  owned_once world ->
  (forall P dof, In P world -> In dof (Fluid.pressure_dofs P) ->
                 dof <> invalid_dof_index) ->
  (exists P c, In P world /\ In c (Fluid.candidates distance target_point P) /\
               snd c < Fluid.double_max) ->
  length before = length world ->
  exists root P_root c_root dof x,
    nth_error world root = Some P_root /\
    nth_error before root = Some c_root /\
    In (dof, x) (Fluid.candidates distance target_point P_root) /\
    (forall P c, In P world -> In c (Fluid.candidates distance target_point P) ->
                 x <= snd c) /\
    (forall r P c, nth_error world r = Some P ->
                   In c (Fluid.candidates distance target_point P) ->
                   snd c == x -> (root <= r)%nat) /\
    (exists after,
        nth_error (Fluid.set_up_boundary_values invalid_dof_index distance
                                                target_point world before) root
        = Some after /\
        (Constraints.is_constrained c_root dof = false ->
         Constraints.find_line after dof = Some (Constraints.mkLine [] 0)) /\
        (forall l, Constraints.find_line c_root dof = Some l ->
                   Constraints.find_line after dof
                   = Some (Constraints.mkLine (Constraints.entries l) 0)) /\
        (forall d, d <> dof ->
                   Constraints.find_line after d = Constraints.find_line c_root d)) /\
    (forall r, r <> root -> (r < length world)%nat ->
               nth_error (Fluid.set_up_boundary_values invalid_dof_index distance
                                                       target_point world before) r
               = nth_error before r) /\
    nth_error (Fluid.set_up_pressure_pin invalid_dof_index distance target_point world)
              root
    = Some [(dof, Constraints.mkLine [] 0)] /\
    (forall r, r <> root -> (r < length world)%nat ->
               nth_error (Fluid.set_up_pressure_pin invalid_dof_index distance
                                                    target_point world) r
               = Some []).
Proof.
  intros Howned Hvalid Hcandidate Hlen.
  destruct (pin_selection invalid_dof_index distance target_point world
                          Howned Hvalid Hcandidate)
    as (root & P_root & dof & x & Hroot & Hcand & Hmin & Htie & Hfixed & Hvalid_dof
        & Hown).
  assert (Hroot_lt : (root < length world)%nat)
    by (apply nth_error_Some; congruence).
  destruct (nth_error before root) as [c_root |] eqn:Hc_root;
    [| apply nth_error_None in Hc_root; lia].
  assert (Hpin : forall r P c,
             nth_error world r = Some P ->
             Fluid.add_pin invalid_dof_index distance target_point world P c
             = if Nat.eqb r root
               then Constraints.set_inhomogeneity dof 0 (Constraints.add_line dof c)
               else c).
  { intros r P c HP. unfold Fluid.add_pin.
    rewrite Hfixed, Hvalid_dof, (Hown r P HP). reflexivity. }
  assert (Hnth : forall r P c,
             nth_error world r = Some P -> nth_error before r = Some c ->
             nth_error (Fluid.set_up_boundary_values invalid_dof_index distance
                                                     target_point world before) r
             = Some (Fluid.add_pin invalid_dof_index distance target_point world P c)).
  { intros r P c HP Hc. unfold Fluid.set_up_boundary_values.
    apply map_nth_error with (d := (P, c)).
    clear - HP Hc. revert r before HP Hc.
    induction world as [| P' world' IH]; intros r before HP Hc;
      [destruct r; discriminate |].
    destruct before as [| c' before']; [destruct r; discriminate |].
    destruct r as [| r]; simpl in *.
    - inversion HP. inversion Hc. reflexivity.
    - now apply IH. }
  exists root, P_root, c_root, dof, x.
  split; [exact Hroot |]. split; [exact Hc_root |]. split; [exact Hcand |].
  split; [exact Hmin |]. split; [exact Htie |].
  split; [| split; [| split]].
  - exists (Constraints.set_inhomogeneity dof 0 (Constraints.add_line dof c_root)).
    split.
    + rewrite (Hnth root P_root c_root Hroot Hc_root),
        (Hpin root P_root c_root Hroot), Nat.eqb_refl. reflexivity.
    + split; [| split].
      * intros Hfree. rewrite find_line_pin, Nat.eqb_refl.
        unfold Constraints.is_constrained in Hfree.
        destruct (Constraints.find_line c_root dof); [discriminate | reflexivity].
      * intros l Hl. rewrite find_line_pin, Nat.eqb_refl, Hl. reflexivity.
      * intros d Hd. rewrite find_line_pin.
        apply Nat.eqb_neq in Hd. now rewrite Hd.
  - intros r Hr Hr_lt.
    destruct (nth_error world r) as [P |] eqn:HP;
      [| apply nth_error_None in HP; lia].
    destruct (nth_error before r) as [c |] eqn:Hc;
      [| apply nth_error_None in Hc; lia].
    rewrite (Hnth r P c HP Hc), (Hpin r P c HP).
    apply Nat.eqb_neq in Hr. now rewrite Hr.
  - unfold Fluid.set_up_pressure_pin.
    rewrite (map_nth_error _ _ _ Hroot). f_equal.
    unfold Fluid.pin_constraints.
    rewrite (Hpin root P_root [] Hroot), Nat.eqb_refl.
    unfold Constraints.add_line, Constraints.set_inhomogeneity. simpl.
    now rewrite Nat.eqb_refl.
  - intros r Hr Hr_lt.
    destruct (nth_error world r) as [P |] eqn:HP;
      [| apply nth_error_None in HP; lia].
    unfold Fluid.set_up_pressure_pin.
    rewrite (map_nth_error _ _ _ HP). f_equal.
    unfold Fluid.pin_constraints. rewrite (Hpin r P [] HP).
    apply Nat.eqb_neq in Hr. now rewrite Hr.
Qed.

Lemma pressure_pin_unique_witness :
  exists root P_root c_root dof x,
    nth_error Sample.world root = Some P_root /\
    nth_error Sample.constraints_before root = Some c_root /\
    In (dof, x) (Fluid.candidates Sample.distance Sample.anchor P_root) /\
    (forall P c, In P Sample.world ->
                 In c (Fluid.candidates Sample.distance Sample.anchor P) -> x <= snd c) /\
    (forall r P c, nth_error Sample.world r = Some P ->
                   In c (Fluid.candidates Sample.distance Sample.anchor P) ->
                   snd c == x -> (root <= r)%nat) /\
    (exists after,
        nth_error (Fluid.set_up_boundary_values 1000 Sample.distance Sample.anchor
                                                Sample.world Sample.constraints_before)
                  root
        = Some after /\
        (Constraints.is_constrained c_root dof = false ->
         Constraints.find_line after dof = Some (Constraints.mkLine [] 0)) /\
        (forall l, Constraints.find_line c_root dof = Some l ->
                   Constraints.find_line after dof
                   = Some (Constraints.mkLine (Constraints.entries l) 0)) /\
        (forall d, d <> dof ->
                   Constraints.find_line after d = Constraints.find_line c_root d)) /\
    (forall r, r <> root -> (r < length Sample.world)%nat ->
               nth_error (Fluid.set_up_boundary_values 1000 Sample.distance Sample.anchor
                                                       Sample.world
                                                       Sample.constraints_before) r
               = nth_error Sample.constraints_before r) /\
    nth_error (Fluid.set_up_pressure_pin 1000 Sample.distance Sample.anchor Sample.world)
              root
    = Some [(dof, Constraints.mkLine [] 0)] /\
    (forall r, r <> root -> (r < length Sample.world)%nat ->
               nth_error (Fluid.set_up_pressure_pin 1000 Sample.distance Sample.anchor
                                                    Sample.world) r
               = Some []).
Proof.
  apply (pressure_pin_unique 1000 Sample.distance Sample.anchor Sample.world
                             Sample.constraints_before).
  - intros r1 r2 P1 P2 dof H1 H2 E1 E2.
    destruct r1 as [| [| r1]], r2 as [| [| r2]]; simpl in H1, H2;
      try reflexivity; try (destruct r1; discriminate);
      try (destruct r2; discriminate);
      inversion H1; inversion H2; subst; simpl in E1, E2;
      do 6 (destruct dof as [| dof]; simpl in E1, E2; try discriminate).
  - intros P dof [<- | [<- | []]] Hd; simpl in Hd; intros ->;
      repeat (destruct Hd as [Hd | Hd]; try discriminate Hd); destruct Hd.
  - exists (Fluid.mkProcess [0; 1; 2]%nat [1; 2]%nat
                            [(0%nat, [0]); (1%nat, [0]); (2%nat, [1])]).
    exists (2%nat, Sample.distance [1] Sample.anchor).
    split; [left; reflexivity |].
    split; [right; left; reflexivity | reflexivity].
  - reflexivity.
Defined.

(** The tie of the small world: degree of freedom 2 of rank 0 and degree of
    freedom 4 of rank 1 are equally close; rank 0 adds the constraint, next
    to the boundary value it holds. *)
Example pressure_pin_tie :
  Fluid.set_up_pressure_pin 1000 Sample.distance Sample.anchor Sample.world
  = [[(2%nat, Constraints.mkLine [] 0)]; []] /\
  Fluid.set_up_boundary_values 1000 Sample.distance Sample.anchor Sample.world
                               Sample.constraints_before
  = [[(0%nat, Constraints.mkLine [] 1); (2%nat, Constraints.mkLine [] 0)]; []].
Proof. split; vm_compute; reflexivity. Qed.

(** C8, as stated, fails in two ways.  In a world in which no process owns
    a pressure degree of freedom with a support point, no degree of freedom
    is selected and no process changes its constraints.  And when the
    closest pressure degree of freedom is a hanging node, [add_line] finds
    its line and does nothing: the degree of freedom keeps the entries of
    that line and is not constrained to zero. *)
Lemma pressure_pin_counterexample :
  Fluid.global_fixed_pressure_dof 1000 Sample.distance Sample.anchor
                                  Sample.world_without_pressure = 1000%nat /\
  Fluid.set_up_boundary_values 1000 Sample.distance Sample.anchor
                               Sample.world_without_pressure Sample.constraints_before
  = Sample.constraints_before /\
  Fluid.global_fixed_pressure_dof 1000 Sample.distance Sample.anchor Sample.world
  = 2%nat /\
  Constraints.find_line
    (nth 0 (Fluid.set_up_boundary_values 1000 Sample.distance Sample.anchor
                                         Sample.world Sample.constraints_hanging) [])
    2
  = Some (Constraints.mkLine [(1%nat, 1 # 2); (4%nat, 1 # 2)] 0) /\
  Constraints.mkLine [(1%nat, 1 # 2); (4%nat, 1 # 2)] 0 <> Constraints.mkLine [] 0.
Proof.
  split; [vm_compute; reflexivity |]. split; [vm_compute; reflexivity |].
  split; [vm_compute; reflexivity |]. split; [vm_compute; reflexivity |].
  discriminate.
Qed.

Lemma mass_coefficient_by_indicator_witness :
  LA.el (Fluid.local_matrix
           (Fluid.integrate_cell (Sample.fluid_parameters 2 1) Sample.fluid_fe
                                 (1 # 100) (Sample.fluid_cell 1))) 0 0
  == Fluid.mass_coef_s (Sample.fluid_parameters 2 1) (1 # 100)
     * Fluid.mass_integral Sample.fluid_fe (Sample.fluid_cell 1) 0 0
     + Fluid.stokes_integral (Sample.fluid_parameters 2 1) Sample.fluid_fe
                             (Sample.fluid_cell 1) 0 0.
Proof.
  apply (mass_coefficient_by_indicator (Sample.fluid_parameters 2 1) Sample.fluid_fe
                                       (1 # 100) (Sample.fluid_cell 1) 0 0);
    simpl; lia.
Defined.

(* ================================================================== *)
(** * Further properties of the embedded code *)
(* ================================================================== *)

(** ** The cell integrals of [Stokes::assemble] *)
Lemma dot_comm (x y : list Q) : LA.dot x y == LA.dot y x.
Proof.
  revert y. induction x as [| a x IH]; intros [| b y]; simpl; try reflexivity.
  rewrite IH. ring.
Qed.

Lemma ddot_comm (s t : LA.Tensor2) : LA.ddot s t == LA.ddot t s.
Proof.
  revert t. induction s as [| a s IH]; intros [| b t]; simpl; try reflexivity.
  rewrite IH, (dot_comm a b). reflexivity.
Qed.

Lemma for_loop_Qeq (n : nat) (f g : nat -> Q -> Q) (a b : Q) :
  (forall k s t, (k < n)%nat -> s == t -> f k s == g k t) -> a == b ->
  for_loop n f a == for_loop n g b.
Proof.
  intros H Hab. induction n as [| n IH]; simpl; [exact Hab |].
  apply H; [lia |]. apply IH. intros k s t Hk. apply H. lia.
Qed.

(** X1.  The cell matrix of the Stokes system is symmetric: the entries
    [(i, j)] and [(j, i)] of [local_matrix] agree for every pair of local
    degrees of freedom, whatever the indicator of the cell. *)
Theorem stokes_local_matrix_symmetric
        (parameters : Fluid.AllParameters) (fe : Fluid.Discretisation)
        (delta_t : Q) (cell : Fluid.Cell) (i j : nat) :
  (i < Fluid.dofs_per_cell fe)%nat -> (j < Fluid.dofs_per_cell fe)%nat ->
  LA.el (Fluid.local_matrix (Fluid.integrate_cell parameters fe delta_t cell)) i j
  == LA.el (Fluid.local_matrix (Fluid.integrate_cell parameters fe delta_t cell)) j i.
Proof.
  intros Hi Hj. rewrite integrate_cell_local_matrix.
  destruct (quadrature_loop_el parameters fe delta_t cell (Fluid.n_q_points fe) i j Hi Hj)
    as [_ He].
  destruct (quadrature_loop_el parameters fe delta_t cell (Fluid.n_q_points fe) j i Hj Hi)
    as [_ He'].
  rewrite He, He'. apply for_loop_Qeq; [| reflexivity].
  intros q s t _ Hst. rewrite Hst.
  rewrite (dot_comm (Fluid.phi_u cell i q) (Fluid.phi_u cell j q)).
  rewrite (ddot_comm (Fluid.symgrad_phi_u cell i q) (Fluid.symgrad_phi_u cell j q)).
  ring.
Qed.

Lemma stokes_local_matrix_symmetric_witness :
  LA.el (Fluid.local_matrix
           (Fluid.integrate_cell (Sample.fluid_parameters 2 1) Sample.fluid_fe
                                 (1 # 100) (Sample.fluid_cell 1))) 0 1
  == LA.el (Fluid.local_matrix
              (Fluid.integrate_cell (Sample.fluid_parameters 2 1) Sample.fluid_fe
                                    (1 # 100) (Sample.fluid_cell 1))) 1 0.
Proof.
  apply (stokes_local_matrix_symmetric (Sample.fluid_parameters 2 1) Sample.fluid_fe
           (1 # 100) (Sample.fluid_cell 1) 0 1); simpl; lia.
Defined.

Lemma dot_tscale (a : Q) (x y : list Q) : LA.dot (LA.tscale a x) y == a * LA.dot x y.
Proof.
  revert y. induction x as [| x0 x IH]; intros [| y0 y]; simpl; try ring.
  rewrite IH. ring.
Qed.

Section StokesPreconditioner.

Variable parameters : Fluid.AllParameters.
Variable fe : Fluid.Discretisation.
Variable delta_t : Q.
Variable cell : Fluid.Cell.

Let n := Fluid.dofs_per_cell fe.

Let coefficient : Q :=
  if (Fluid.indicator cell =? 0)%Z
  then Fluid.mass_coef_f parameters delta_t
  else Fluid.mass_coef_s parameters delta_t.

Let velocity_pair (i j : nat) : bool :=
  Nat.ltb (Fluid.system_to_component_index fe i) (Fluid.dim fe) &&
  Nat.ltb (Fluid.system_to_component_index fe j) (Fluid.dim fe).

Let pressure_pair (i j : nat) : bool :=
  Nat.eqb (Fluid.system_to_component_index fe i) (Fluid.dim fe) &&
  Nat.eqb (Fluid.system_to_component_index fe j) (Fluid.dim fe).

Let velocity_term (q i j : nat) : Q :=
  (LA.dot (LA.tscale coefficient (Fluid.phi_u cell i q)) (Fluid.phi_u cell j q)
   + Fluid.viscosity parameters
     * LA.ddot (Fluid.grad_phi_u cell i q) (Fluid.grad_phi_u cell j q))
  * Fluid.JxW cell q.

Let pressure_term (q i j : nat) : Q :=
  1 / Fluid.viscosity parameters * Fluid.phi_p cell i q * Fluid.phi_p cell j q
  * Fluid.JxW cell q.

Let block_update (q i j : nat) (x : Q) : Q :=
  if velocity_pair i j then x + velocity_term q i j
  else if pressure_pair i j then x + pressure_term q i j
  else x.

Let block_step (q i j : nat) (M : LA.Matrix) : LA.Matrix :=
  if velocity_pair i j then LA.add_entry i j (velocity_term q i j) M
  else if pressure_pair i j then LA.add_entry i j (pressure_term q i j) M
  else M.

Lemma integrate_cell_local_preconditioner :
  Fluid.local_preconditioner_matrix (Fluid.integrate_cell parameters fe delta_t cell)
  = for_loop (Fluid.n_q_points fe)
      (fun q M => for_loop n (fun i M => for_loop n (block_step q i) M) M)
      (LA.zero_matrix n n).
Proof.
  unfold Fluid.integrate_cell.
  rewrite (for_loop_project Fluid.local_preconditioner_matrix) with
    (body' := fun q M => for_loop n (fun i M => for_loop n (block_step q i) M) M);
    [reflexivity |].
  intros q l.
  apply (for_loop_project Fluid.local_preconditioner_matrix). intros i l'.
  match goal with
  | |- context [for_loop (Fluid.dofs_per_cell fe) ?body l'] =>
      transitivity
        (Fluid.local_preconditioner_matrix (for_loop (Fluid.dofs_per_cell fe) body l'))
  end.
  - destruct (negb (Fluid.indicator cell =? 0)%Z); reflexivity.
  - apply (for_loop_project Fluid.local_preconditioner_matrix). intros j l''.
    unfold block_step, velocity_term, pressure_term, coefficient, velocity_pair,
      pressure_pair. cbv zeta.
    destruct (Fluid.indicator cell =? 0)%Z;
      destruct (Nat.ltb (Fluid.system_to_component_index fe i) (Fluid.dim fe) &&
                Nat.ltb (Fluid.system_to_component_index fe j) (Fluid.dim fe));
      try reflexivity;
      destruct (Nat.eqb (Fluid.system_to_component_index fe i) (Fluid.dim fe) &&
                Nat.eqb (Fluid.system_to_component_index fe j) (Fluid.dim fe));
      reflexivity.
Qed.

Lemma block_step_dims (q i j : nat) (M : LA.Matrix) :
  dims n n M -> dims n n (block_step q i j M).
Proof.
  intros H. unfold block_step.
  destruct (velocity_pair i j); [now apply dims_add_entry |].
  destruct (pressure_pair i j); [now apply dims_add_entry | exact H].
Qed.

Lemma block_step_el (q i j : nat) (M : LA.Matrix) (i' j' : nat) :
  dims n n M -> (i < n)%nat -> (j < n)%nat ->
  LA.el (block_step q i j M) i' j'
  = if Nat.eqb i' i && Nat.eqb j' j
    then block_update q i j (LA.el M i j)
    else LA.el M i' j'.
Proof.
  intros HM Hi Hj. unfold block_step, block_update.
  destruct (velocity_pair i j); [now apply (el_add_entry n n) |].
  destruct (pressure_pair i j); [now apply (el_add_entry n n) |].
  destruct (Nat.eqb_spec i' i) as [-> | _]; [| reflexivity].
  destruct (Nat.eqb_spec j' j) as [-> | _]; reflexivity.
Qed.

Lemma block_loop_el (k i j : nat) :
  (i < n)%nat -> (j < n)%nat ->
  dims n n (for_loop k
              (fun q M => for_loop n (fun i M => for_loop n (block_step q i) M) M)
              (LA.zero_matrix n n)) /\
  LA.el (for_loop k
           (fun q M => for_loop n (fun i M => for_loop n (block_step q i) M) M)
           (LA.zero_matrix n n)) i j
  = for_loop k (fun q s => block_update q i j s) 0.
Proof.
  intros Hi Hj. induction k as [| k [IHd IHe]]; simpl.
  - split; [apply dims_zero_matrix | apply el_zero_matrix].
  - destruct (grid_loop n (block_step k) (block_update k))
      with (k := n)
           (M := for_loop k
                   (fun q M => for_loop n (fun i M => for_loop n (block_step q i) M) M)
                   (LA.zero_matrix n n)) as [Gd Ge]; try assumption; try lia.
    + intros. now apply block_step_dims.
    + intros. now apply block_step_el.
    + split; [exact Gd |].
      rewrite Ge, IHe.
      replace (i <? n)%nat with true by (symmetry; apply Nat.ltb_lt; lia).
      replace (j <? n)%nat with true by (symmetry; apply Nat.ltb_lt; lia).
      reflexivity.
Qed.

Lemma block_sum (k i j : nat) :
  for_loop k (fun q s => block_update q i j s) 0
  == if velocity_pair i j
     then coefficient
          * for_loop k
              (fun q s => s + LA.dot (Fluid.phi_u cell i q) (Fluid.phi_u cell j q)
                              * Fluid.JxW cell q) 0
          + Fluid.viscosity parameters
            * for_loop k
                (fun q s => s + LA.ddot (Fluid.grad_phi_u cell i q)
                                        (Fluid.grad_phi_u cell j q)
                                * Fluid.JxW cell q) 0
     else if pressure_pair i j
          then 1 / Fluid.viscosity parameters
               * for_loop k
                   (fun q s => s + Fluid.phi_p cell i q * Fluid.phi_p cell j q
                                   * Fluid.JxW cell q) 0
          else 0.
Proof.
  unfold block_update.
  destruct (velocity_pair i j); [| destruct (pressure_pair i j)];
    induction k as [| k IH]; simpl; try ring.
  - rewrite IH. unfold velocity_term. rewrite dot_tscale. ring.
  - rewrite IH. unfold pressure_term. ring.
  - exact IH.
Qed.

(** X2.  The cell matrix of the preconditioner is block diagonal.  For two
    velocity degrees of freedom the entry is the mass coefficient of the
    cell ([mass_coef_f] for indicator 0, [mass_coef_s] otherwise) times the
    velocity mass integral plus the viscosity times the integral of
    [grad phi_u[i] : grad phi_u[j]]; for two pressure degrees of freedom it
    is the pressure mass integral over the viscosity; for a velocity and a
    pressure degree of freedom it is 0. *)
Theorem stokes_preconditioner_blocks (i j : nat) :
  (i < Fluid.dofs_per_cell fe)%nat -> (j < Fluid.dofs_per_cell fe)%nat ->
  LA.el (Fluid.local_preconditioner_matrix
           (Fluid.integrate_cell parameters fe delta_t cell)) i j
  == if Nat.ltb (Fluid.system_to_component_index fe i) (Fluid.dim fe) &&
        Nat.ltb (Fluid.system_to_component_index fe j) (Fluid.dim fe)
     then (if (Fluid.indicator cell =? 0)%Z
           then Fluid.mass_coef_f parameters delta_t
           else Fluid.mass_coef_s parameters delta_t)
          * Fluid.mass_integral fe cell i j
          + Fluid.viscosity parameters * velocity_gradient_integral fe cell i j
     else if Nat.eqb (Fluid.system_to_component_index fe i) (Fluid.dim fe) &&
             Nat.eqb (Fluid.system_to_component_index fe j) (Fluid.dim fe)
          then 1 / Fluid.viscosity parameters * pressure_mass_integral fe cell i j
          else 0.
Proof.
  intros Hi Hj. rewrite integrate_cell_local_preconditioner.
  destruct (block_loop_el (Fluid.n_q_points fe) i j Hi Hj) as [_ He].
  rewrite He, block_sum. reflexivity.
Qed.

End StokesPreconditioner.

Lemma stokes_preconditioner_blocks_witness :
  LA.el (Fluid.local_preconditioner_matrix
           (Fluid.integrate_cell (Sample.fluid_parameters 2 1) Sample.fluid_fe
                                 (1 # 100) (Sample.fluid_cell 1))) 0 1
  == 0.
Proof.
  apply (stokes_preconditioner_blocks (Sample.fluid_parameters 2 1) Sample.fluid_fe
           (1 # 100) (Sample.fluid_cell 1) 0 1); simpl; lia.
Defined.

Lemma length_add_at (i : nat) (v : Q) (x : LA.Vector) :
  length (Constraints.add_at i v x) = length x.
Proof. apply length_update. Qed.

Lemma nth_add_at (i k : nat) (v : Q) (x : LA.Vector) :
  nth k (Constraints.add_at i v x) 0
  = if Nat.eqb k i && Nat.ltb i (length x) then nth k x 0 + v else nth k x 0.
Proof.
  unfold Constraints.add_at.
  destruct (Nat.ltb_spec i (length x)) as [Hi | Hi].
  - rewrite nth_update by exact Hi. rewrite andb_true_r.
    destruct (Nat.eqb_spec k i) as [-> | _]; reflexivity.
  - rewrite update_out_of_range by exact Hi. now rewrite andb_false_r.
Qed.

Lemma nth_zero_vector (n i : nat) : nth i (LA.zero_vector n) 0 = 0.
Proof.
  unfold LA.zero_vector. destruct (Nat.lt_ge_cases i n) as [H | H].
  - now rewrite nth_repeat_lt.
  - rewrite nth_overflow; [reflexivity | now rewrite repeat_length].
Qed.

Lemma forces_split_step (i : nat) (a s t : Q) (l : Fluid.Local) :
  t == s + a -> forces_split l ->
  forces_split (Fluid.on_local_forces (Constraints.add_at i a) (Constraints.add_at i s)
                                      (Constraints.add_at i t) l).
Proof.
  intros Ht (La & Ls & H). unfold forces_split. simpl.
  rewrite !length_add_at. repeat split; try assumption.
  intros k. rewrite !nth_add_at, La, Ls.
  destruct (Nat.eqb k i && Nat.ltb i (length (Fluid.local_fsi_force l)));
    rewrite (H k), ?Ht; ring.
Qed.

Section StokesCellForces.

Variable parameters : Fluid.AllParameters.
Variable fe : Fluid.Discretisation.
Variable delta_t : Q.
Variable cell : Fluid.Cell.

Lemma integrate_cell_forces (P : Fluid.Local -> Prop) :
  (forall l f, P l -> P (Fluid.on_local_matrix f l)) ->
  (forall l f, P l -> P (Fluid.on_local_preconditioner f l)) ->
  (forall l f, P l -> P (Fluid.on_local_rhs f l)) ->
  (forall l i a s t,
      (Fluid.indicator cell =? 0)%Z = false -> t == s + a -> P l ->
      P (Fluid.on_local_forces (Constraints.add_at i a) (Constraints.add_at i s)
                               (Constraints.add_at i t) l)) ->
  P (Fluid.mkLocal (LA.zero_matrix (Fluid.dofs_per_cell fe) (Fluid.dofs_per_cell fe))
                   (LA.zero_matrix (Fluid.dofs_per_cell fe) (Fluid.dofs_per_cell fe))
                   (LA.zero_vector (Fluid.dofs_per_cell fe))
                   (LA.zero_vector (Fluid.dofs_per_cell fe))
                   (LA.zero_vector (Fluid.dofs_per_cell fe))
                   (LA.zero_vector (Fluid.dofs_per_cell fe))) ->
  P (Fluid.integrate_cell parameters fe delta_t cell).
Proof.
  intros Hm Hp Hr Hf H0. unfold Fluid.integrate_cell.
  apply (for_loop_invariant P); [| exact H0].
  intros q l _ Hl.
  apply (for_loop_invariant P); [| exact Hl].
  intros i l' _ Hl'. cbv zeta.
  match goal with
  | |- context [for_loop (Fluid.dofs_per_cell fe) ?body l'] =>
      assert (Hj : P (for_loop (Fluid.dofs_per_cell fe) body l'))
  end.
  { apply (for_loop_invariant P); [| exact Hl'].
    intros j l'' _ Hl''.
    destruct (Fluid.indicator cell =? 0)%Z;
      destruct (Nat.ltb (Fluid.system_to_component_index fe i) (Fluid.dim fe) &&
                Nat.ltb (Fluid.system_to_component_index fe j) (Fluid.dim fe));
      try (apply Hp; apply Hm; apply Hm; exact Hl'');
      destruct (Nat.eqb (Fluid.system_to_component_index fe i) (Fluid.dim fe) &&
                Nat.eqb (Fluid.system_to_component_index fe j) (Fluid.dim fe));
      try (apply Hp; apply Hm; apply Hm; exact Hl'');
      apply Hm; apply Hm; exact Hl''. }
  destruct (Fluid.indicator cell =? 0)%Z eqn:Hind; simpl negb; cbv iota.
  - apply Hr, Hr, Hj.
  - apply Hf; [reflexivity | ring |]. apply Hr, Hr, Hr, Hj.
Qed.

End StokesCellForces.

(** X3.  In every cell the interaction force [local_fsi_force] is, entry by
    entry, the sum of [local_rhs_acceleration_part] and
    [local_rhs_stress_part]; in a cell whose indicator is 0 the three
    vectors stay zero. *)
Theorem stokes_fsi_force_split
        (parameters : Fluid.AllParameters) (fe : Fluid.Discretisation)
        (delta_t : Q) (cell : Fluid.Cell) :
  let l := Fluid.integrate_cell parameters fe delta_t cell in
  (forall i, nth i (Fluid.local_fsi_force l) 0
             == nth i (Fluid.local_rhs_acceleration_part l) 0
                + nth i (Fluid.local_rhs_stress_part l) 0) /\
  ((Fluid.indicator cell =? 0)%Z = true ->
   forces_zero (Fluid.dofs_per_cell fe) l).
Proof.
  split.
  - apply (integrate_cell_forces parameters fe delta_t cell forces_split);
      try (intros; assumption).
    + intros l0 i a s t _ Ht H. now apply forces_split_step.
    + repeat split. intros i. simpl. rewrite nth_zero_vector. ring.
  - intros Hind.
    apply (integrate_cell_forces parameters fe delta_t cell
             (forces_zero (Fluid.dofs_per_cell fe)));
      try (intros; assumption).
    + intros l0 i a s t Hne. rewrite Hind in Hne. discriminate.
    + repeat split.
Qed.

Lemma stokes_fsi_force_split_witness :
  forces_zero 2 (Fluid.integrate_cell (Sample.fluid_parameters 2 1) Sample.fluid_fe
                                      (1 # 100) (Sample.fluid_cell 0)).
Proof.
  apply (stokes_fsi_force_split (Sample.fluid_parameters 2 1) Sample.fluid_fe
           (1 # 100) (Sample.fluid_cell 0)).
  reflexivity.
Defined.

(** ** The pressure pin when no process has a candidate *)

Lemma map_const_repeat {A B : Type} (b : B) (l : list A) :
  map (fun _ => b) l = repeat b (length l).
Proof. induction l as [| x l IH]; simpl; [reflexivity | now rewrite IH]. Qed.

(** X4.  When no process has a pressure degree of freedom with a support
    point closer to the anchor than the largest double, the degree of
    freedom that is broadcast is [invalid_dof_index] and no process adds a
    constraint: the pressure is left without a pin, and no error is
    raised. *)
Theorem pressure_pin_without_candidate
        (invalid_dof_index : nat) (distance : Fluid.Point -> Fluid.Point -> Q)
        (target_point : Fluid.Point) (world : list Fluid.Process) :
  (forall P c, In P world -> In c (Fluid.candidates distance target_point P) ->
               Fluid.double_max <= snd c) ->
  Fluid.global_fixed_pressure_dof invalid_dof_index distance target_point world
  = invalid_dof_index /\
  Fluid.set_up_pressure_pin invalid_dof_index distance target_point world
  = repeat [] (length world).
Proof.
  intros Hfar.
  assert (Hglobal :
            Fluid.global_fixed_pressure_dof invalid_dof_index distance target_point world
            = invalid_dof_index).
  { unfold Fluid.global_fixed_pressure_dof.
    destruct (nth_error world
                (snd (Fluid.global_data invalid_dof_index distance target_point world)))
      as [P |] eqn:HP; [| reflexivity].
    apply nth_error_In in HP.
    destruct (local_search_spec invalid_dof_index distance target_point P)
      as (_ & _ & [Hr | [Hin Hlt]]).
    - now rewrite Hr.
    - exfalso. apply (Hfar P _ HP) in Hin. simpl in Hin.
      apply (Qlt_not_le _ _ Hlt Hin). }
  split; [exact Hglobal |].
  unfold Fluid.set_up_pressure_pin.
  rewrite <- map_const_repeat. apply map_ext. intros P.
  unfold Fluid.pin_constraints, Fluid.add_pin. rewrite Hglobal, Nat.eqb_refl. reflexivity.
Qed.

Lemma pressure_pin_without_candidate_witness :
  Fluid.set_up_pressure_pin 1000 Sample.distance Sample.anchor
                            [Fluid.mkProcess [0; 1]%nat [1]%nat [];
                             Fluid.mkProcess [2; 3]%nat [3]%nat []]
  = [[]; []].
Proof.
  apply (pressure_pin_without_candidate 1000 Sample.distance Sample.anchor
           [Fluid.mkProcess [0; 1]%nat [1]%nat [];
            Fluid.mkProcess [2; 3]%nat [3]%nat []]).
  intros P c [<- | [<- | []]] Hc; vm_compute in Hc; destruct Hc.
Defined.

(** ** The materials of the solid *)

Lemma subscript_in_range {A : Type} (v : list A) (i : nat) (d : A) :
  (i < length v)%nat -> subscript v (Z.of_nat i) = Returns (nth i v d).
Proof.
  intros H. unfold subscript.
  replace (0 <=? Z.of_nat i)%Z with true by (symmetry; apply Z.leb_le; lia).
  rewrite Nat2Z.id.
  destruct (nth_error v i) as [a |] eqn:Hn.
  - now rewrite (nth_error_nth _ _ d Hn).
  - apply nth_error_None in Hn. lia.
Qed.

Lemma construct_materials_from (parameters : Solid.AllParameters) (k : nat) :
  forall s acc,
    (s + k <= length (Solid.E parameters))%nat ->
    (s + k <= length (Solid.nu parameters))%nat ->
    (s + k <= length (Solid.eta parameters))%nat ->
    for_each (seq s k)
      (fun i material =>
         bind (subscript (Solid.E parameters) (Z.of_nat i))
           (fun e =>
              bind (subscript (Solid.nu parameters) (Z.of_nat i))
                (fun n =>
                   bind (subscript (Solid.eta parameters) (Z.of_nat i))
                     (fun et =>
                        Returns
                          (material ++
                           [Solid.make_material e n (Solid.solid_rho parameters) et])))))
      acc
    = Returns
        (acc ++
         map (fun i =>
                Solid.make_material (nth i (Solid.E parameters) 0)
                                    (nth i (Solid.nu parameters) 0)
                                    (Solid.solid_rho parameters)
                                    (nth i (Solid.eta parameters) 0))
             (seq s k)).
Proof.
  induction k as [| k IH]; intros s acc HE Hnu Heta; simpl.
  - now rewrite List.app_nil_r.
  - rewrite (subscript_in_range _ s 0) by lia. simpl.
    rewrite (subscript_in_range _ s 0) by lia. simpl.
    rewrite (subscript_in_range _ s 0) by lia. simpl.
    rewrite IH by lia. now rewrite <- List.app_assoc.
Qed.

(** X5.  The constructor of the solid integrator builds one material per
    solid part, the [i]-th from [E[i]], [nu[i]], [eta[i]] and the common
    density [solid_rho], when each of the three lists has at least
    [n_solid_parts] entries; when one of them is shorter it reads beyond
    the end of that list. *)
Theorem construct_materials_spec (parameters : Solid.AllParameters) :
  let n := Solid.n_solid_parts parameters in
  ((n <= length (Solid.E parameters))%nat /\
   (n <= length (Solid.nu parameters))%nat /\
   (n <= length (Solid.eta parameters))%nat ->
   Solid.construct_materials parameters
   = Returns
       (map (fun i =>
               Solid.make_material (nth i (Solid.E parameters) 0)
                                   (nth i (Solid.nu parameters) 0)
                                   (Solid.solid_rho parameters)
                                   (nth i (Solid.eta parameters) 0))
            (seq 0 n))) /\
  ((length (Solid.E parameters) < n)%nat \/
   (length (Solid.nu parameters) < n)%nat \/
   (length (Solid.eta parameters) < n)%nat ->
   Solid.construct_materials parameters = Undefined).
Proof.
  split.
  - intros (HE & Hnu & Heta). unfold Solid.construct_materials.
    now rewrite (construct_materials_from parameters _ 0 []).
  - intros Hshort. unfold Solid.construct_materials.
    apply for_each_undefined.
    + intros x s _ e.
      destruct (subscript (Solid.E parameters) (Z.of_nat x)) eqn:H1; simpl;
        try discriminate; [| now apply subscript_not_thrown in H1].
      destruct (subscript (Solid.nu parameters) (Z.of_nat x)) eqn:H2; simpl;
        try discriminate; [| now apply subscript_not_thrown in H2].
      destruct (subscript (Solid.eta parameters) (Z.of_nat x)) eqn:H3; simpl;
        try discriminate. now apply subscript_not_thrown in H3.
    + set (m := Nat.min (length (Solid.E parameters))
                        (Nat.min (length (Solid.nu parameters))
                                 (length (Solid.eta parameters)))).
      exists m. split; [apply in_seq; lia |].
      intros s.
      destruct (Nat.le_gt_cases (length (Solid.E parameters)) m) as [HE | HE].
      { rewrite subscript_out_of_range by lia. reflexivity. }
      rewrite (subscript_in_range _ m 0) by lia. simpl.
      destruct (Nat.le_gt_cases (length (Solid.nu parameters)) m) as [Hn | Hn].
      { rewrite subscript_out_of_range by lia. reflexivity. }
      rewrite (subscript_in_range _ m 0) by lia. simpl.
      rewrite subscript_out_of_range by lia. reflexivity.
Qed.

Lemma construct_materials_spec_witness :
  Solid.construct_materials (Sample.parameters 2 "Solid") = Returns Sample.materials /\
  Solid.construct_materials (Sample.parameters 3 "Solid") = Undefined.
Proof.
  split.
  - apply (construct_materials_spec (Sample.parameters 2 "Solid")). simpl. lia.
  - apply (construct_materials_spec (Sample.parameters 3 "Solid")). simpl. lia.
Defined.

(** X6.  With the materials the constructor builds, the assembly and the
    strain and stress update select the same material for a cell.  With a
    single solid part that is the one material, whatever the material id
    of the cell; with several parts an id between 1 and their number
    selects the material of that part, and an id below 1 (0 is the id of a
    cell that was never tagged) reads in front of the list. *)
Theorem material_lookup_in_range
        (parameters : Solid.AllParameters)
        (material : list Solid.LinearElasticMaterial) (cell : Solid.Cell) :
  Solid.construct_materials parameters = Returns material ->
  Solid.assemble_material material cell
  = Solid.update_material parameters material cell /\
  (Solid.n_solid_parts parameters = 1%nat ->
   exists m, material = [m] /\ Solid.assemble_material material cell = Returns m) /\
  (Solid.n_solid_parts parameters <> 1%nat ->
   (1 <= Solid.material_id cell <= Z.of_nat (Solid.n_solid_parts parameters))%Z ->
   exists m, nth_error material (Z.to_nat (Solid.material_id cell - 1)) = Some m /\
             Solid.assemble_material material cell = Returns m) /\
  (Solid.n_solid_parts parameters <> 1%nat ->
   (Solid.material_id cell <= 0)%Z ->
   Solid.assemble_material material cell = Undefined).
Proof.
  intros Hc. pose proof (construct_materials_length _ _ Hc) as Hlen.
  unfold Solid.assemble_material, Solid.update_material. rewrite Hlen.
  split; [reflexivity |]. split; [| split].
  - intros H1. rewrite H1 in *. simpl.
    destruct material as [| m [| m' rest]]; try discriminate.
    exists m. split; reflexivity.
  - intros Hn Hid.
    replace (Nat.eqb (Solid.n_solid_parts parameters) 1) with false
      by (symmetry; now apply Nat.eqb_neq).
    unfold subscript.
    replace (0 <=? Solid.material_id cell - 1)%Z with true
      by (symmetry; apply Z.leb_le; lia).
    destruct (nth_error material (Z.to_nat (Solid.material_id cell - 1)))
      as [m |] eqn:Hm.
    + exists m. split; reflexivity.
    + apply nth_error_None in Hm. lia.
  - intros Hn Hid.
    replace (Nat.eqb (Solid.n_solid_parts parameters) 1) with false
      by (symmetry; now apply Nat.eqb_neq).
    apply subscript_out_of_range. lia.
Qed.

Lemma material_lookup_in_range_witness :
  Solid.assemble_material Sample.materials (Sample.cell 0 [0; 1]%nat) = Undefined.
Proof.
  apply (material_lookup_in_range (Sample.parameters 2 "Solid") Sample.materials
           (Sample.cell 0 [0; 1]%nat)).
  - reflexivity.
  - simpl. lia.
  - simpl. lia.
Defined.

(** ** The assembly of the solid *)

Lemma same_matrices_trans explicit (s1 s2 s3 : Solid.State) :
  same_matrices explicit s1 s2 -> same_matrices explicit s2 s3 ->
  same_matrices explicit s1 s3.
Proof.
  unfold same_matrices.
  intros (A1 & A2 & A3 & A4 & A5 & A6) (B1 & B2 & B3 & B4 & B5 & B6).
  repeat split; try congruence. intros H. rewrite (B6 H). exact (A6 H).
Qed.

Lemma rhs_cells_same_matrices parameters fe constraints material explicit
      is_initial rho mesh :
  forall acc r,
    for_each mesh
             (Solid.assemble_cell parameters fe constraints material explicit
                                  is_initial false rho) acc = Returns r ->
    same_matrices explicit (fst acc) (fst r).
Proof.
  induction mesh as [| cell mesh IH]; intros [s d] r H; simpl in H.
  - inversion H. repeat split.
  - unfold Solid.assemble_cell at 1 in H.
    destruct (Solid.assemble_material material cell) as [m | e |]; try discriminate.
    simpl in H. apply IH in H. simpl in *.
    eapply same_matrices_trans; [| exact H].
    unfold Solid.distribute_cell. destruct explicit; repeat split.
    discriminate.
Qed.

(** X7.  An assembly of the right-hand side alone ([assemble_rhs]) leaves
    the system matrix, the stiffness matrix, the effective matrix, the
    nodal masses and the added mass as they were, and with the explicit
    penalty the damping matrix too. *)
Theorem assemble_rhs_keeps_matrices
        (parameters : Solid.AllParameters) (fe : Solid.Discretisation)
        (constraints : Constraints.AffineConstraints)
        (material : list Solid.LinearElasticMaterial)
        (is_lag_penalty_explicit : bool) (mesh : list Solid.Cell)
        (s s' : Solid.State) :
  Solid.assemble_rhs parameters fe constraints material is_lag_penalty_explicit mesh s
  = Returns s' ->
  same_matrices is_lag_penalty_explicit s s'.
Proof.
  unfold Solid.assemble_rhs, Solid.assemble. intros H.
  destruct (subscript material 0) as [m0 | e |]; try discriminate.
  simpl in H.
  match type of H with
  | bind (for_each _ _ ?acc) _ = _ =>
      destruct (for_each mesh
                  (Solid.assemble_cell parameters fe constraints material
                                       is_lag_penalty_explicit false false
                                       (Solid.get_density m0))
                  acc) as [r | e |] eqn:Hr; try discriminate
  end.
  simpl in H. inversion H; subst s'.
  apply rhs_cells_same_matrices in Hr. exact Hr.
Qed.


Lemma assemble_rhs_keeps_matrices_witness :
  exists s',
    Solid.assemble_rhs (Sample.parameters 2 "FSI") Sample.fe [] Sample.materials true
                       Sample.mesh Sample.state = Returns s' /\
    same_matrices true Sample.state s'.
Proof.
  eexists. split; [vm_compute; reflexivity |].
  apply (assemble_rhs_keeps_matrices (Sample.parameters 2 "FSI") Sample.fe []
           Sample.materials true Sample.mesh Sample.state).
  vm_compute. reflexivity.
Defined.

(** ** The damping matrix of the implicit penalty *)

Lemma for_loop_id {S : Type} (n : nat) (s : S) : for_loop n (fun _ x => x) s = s.
Proof. induction n as [| n IH]; simpl; [reflexivity | exact IH]. Qed.

Lemma integrate_face_local_damping parameters fe face l :
  Solid.local_damping (Solid.integrate_face parameters fe face l)
  = Solid.local_damping l.
Proof.
  unfold Solid.integrate_face.
  destruct (negb (Solid.at_boundary face) ||
            Solid.contains (Solid.boundary_id face) (Solid.solid_dirichlet_bcs parameters));
    [reflexivity |].
  destruct (negb (Solid.is_FSI parameters) &&
            negb (Solid.contains (Solid.boundary_id face)
                                 (Solid.solid_neumann_bcs parameters)));
    [reflexivity |].
  match goal with
  | |- Solid.local_damping (snd (for_loop ?k ?body ?init)) = _ =>
      apply (for_loop_invariant
               (fun p => Solid.local_damping (snd p) = Solid.local_damping l)
               k body init)
  end; [| reflexivity].
  intros q [traction l'] _ Hl'. simpl in *.
  apply (for_loop_invariant
           (fun l0 => Solid.local_damping l0 = Solid.local_damping l)); [| exact Hl'].
  intros j l0 _ Hl0. exact Hl0.
Qed.

Lemma integrate_faces_local_damping parameters fe faces :
  forall l,
    Solid.local_damping
      (fold_left (fun l face => Solid.integrate_face parameters fe face l) faces l)
    = Solid.local_damping l.
Proof.
  induction faces as [| face faces IH]; intros l; simpl; [reflexivity |].
  now rewrite IH, integrate_face_local_damping.
Qed.

Lemma integrate_volumetric_local_damping fe is_initial assemble_matrix lambda_ cell l :
  Solid.local_damping
    (Solid.integrate_volumetric fe is_initial assemble_matrix lambda_ cell l)
  = Solid.local_damping l.
Proof.
  unfold Solid.integrate_volumetric.
  apply (for_loop_invariant
           (fun l0 => Solid.local_damping l0 = Solid.local_damping l)); [| reflexivity].
  intros i l0 _ Hl0. destruct assemble_matrix; [| exact Hl0].
  apply (for_loop_invariant
           (fun l1 => Solid.local_damping l1 = Solid.local_damping l)); [| exact Hl0].
  intros j l1 _ Hl1. destruct (negb is_initial); exact Hl1.
Qed.

Section LocalDamping.

Variable parameters : Solid.AllParameters.
Variable fe : Solid.Discretisation.
Variable is_initial assemble_matrix : bool.
Variables rho mu_ dt : Q.
Variable cell : Solid.Cell.

Hypothesis FSI : Solid.is_FSI parameters = true.

Let n := Solid.dofs_per_cell fe.

Let term (q i j : nat) : Q :=
  LA.dot (LA.tscale rho (Solid.value cell i q)) (Solid.value cell j q)
  * Solid.JxW cell q / dt.

Lemma integrate_volume_local_damping (l : Solid.Local) :
  Solid.local_damping
    (Solid.integrate_volume parameters fe false is_initial assemble_matrix
                            rho mu_ dt cell l)
  = for_loop (Solid.n_q_points fe)
      (fun q M =>
         for_loop n (fun i M => for_loop n (fun j M => LA.add_entry i j (term q i j) M) M)
                  M)
      (Solid.local_damping l).
Proof.
  unfold Solid.integrate_volume. rewrite FSI.
  apply (for_loop_project Solid.local_damping). intros q l0.
  apply (for_loop_project Solid.local_damping). intros i l1.
  cbv zeta. simpl negb. cbv iota.
  match goal with
  | |- Solid.local_damping (for_loop _ ?body ?init) = _ =>
      rewrite (for_loop_project Solid.local_damping) with
        (body' := fun j M => LA.add_entry i j (term q i j) M) (s := init)
  end.
  - f_equal. simpl. destruct assemble_matrix; [| reflexivity].
    apply (for_loop_invariant
             (fun l2 => Solid.local_damping l2 = Solid.local_damping l1));
      [| reflexivity].
    intros j l2 _ Hl2. destruct (negb is_initial); exact Hl2.
  - intros j l2. reflexivity.
Qed.

Lemma damping_loop_el (M : LA.Matrix) (k i j : nat) :
  dims n n M -> (i < n)%nat -> (j < n)%nat ->
  dims n n (for_loop k
              (fun q M =>
                 for_loop n
                   (fun i M => for_loop n (fun j M => LA.add_entry i j (term q i j) M) M)
                   M) M) /\
  LA.el (for_loop k
           (fun q M =>
              for_loop n
                (fun i M => for_loop n (fun j M => LA.add_entry i j (term q i j) M) M)
                M) M) i j
  == LA.el M i j + for_loop k (fun q s => s + term q i j) 0.
Proof.
  intros HM Hi Hj. induction k as [| k [IHd IHe]]; simpl.
  - split; [exact HM | ring].
  - destruct (grid_loop n (fun i j M => LA.add_entry i j (term k i j) M)
                        (fun i j x => x + term k i j))
      with (k := n)
           (M := for_loop k
                   (fun q M =>
                      for_loop n
                        (fun i M =>
                           for_loop n (fun j M => LA.add_entry i j (term q i j) M) M)
                        M) M) as [Gd Ge]; try assumption; try lia.
    + intros. now apply dims_add_entry.
    + intros. now apply (el_add_entry n n).
    + split; [exact Gd |].
      rewrite Ge.
      replace (i <? n)%nat with true by (symmetry; apply Nat.ltb_lt; lia).
      replace (j <? n)%nat with true by (symmetry; apply Nat.ltb_lt; lia).
      simpl. rewrite IHe. ring.
Qed.

End LocalDamping.

(** X8.  In an FSI run with the implicit penalty the damping matrix of a
    cell is not started from zero: [local_damping] is declared outside the
    loop over the cells and never reset, so after a cell its entry
    [(i, j)] is the entry it had when the cell was entered plus the
    damping integral of the cell, and, in an assembly of the right-hand
    side, that accumulated matrix is what is distributed into
    [damping_matrix]. *)
Theorem local_damping_carried
        (parameters : Solid.AllParameters) (fe : Solid.Discretisation)
        (constraints : Constraints.AffineConstraints)
        (material : list Solid.LinearElasticMaterial)
        (is_initial assemble_matrix : bool) (rho : Q) (cell : Solid.Cell)
        (s s' : Solid.State) (damping_in damping_out : LA.Matrix) (i j : nat) :
  Solid.is_FSI parameters = true ->
  dims (Solid.dofs_per_cell fe) (Solid.dofs_per_cell fe) damping_in ->
  (i < Solid.dofs_per_cell fe)%nat -> (j < Solid.dofs_per_cell fe)%nat ->
  Solid.assemble_cell parameters fe constraints material false
                      is_initial assemble_matrix rho cell (s, damping_in)
  = Returns (s', damping_out) ->
  LA.el damping_out i j
  == LA.el damping_in i j
     + damping_integral fe rho (Time.get_delta_t (Solid.time s)) cell i j /\
  (assemble_matrix = false ->
   Solid.damping_matrix s'
   = Constraints.distribute_matrix constraints damping_out
                                   (Solid.local_dof_indices cell)
                                   (Solid.damping_matrix s)).
Proof.
  intros FSI HM Hi Hj H. rewrite assemble_cell_step in H.
  destruct (Solid.assemble_material material cell) as [m | e |]; try discriminate.
  simpl in H. inversion H as [[Hs Hd]]. clear H.
  split.
  - unfold Solid.integrate_cell.
    rewrite integrate_faces_local_damping, integrate_volumetric_local_damping.
    rewrite integrate_volume_local_damping by exact FSI.
    destruct (damping_loop_el fe rho (Time.get_delta_t (Solid.time s)) cell damping_in
                              (Solid.n_q_points fe) i j HM Hi Hj) as [_ He].
    exact He.
  - intros ->. reflexivity.
Qed.

Lemma local_damping_carried_witness :
  exists s' damping_out,
    Solid.assemble_cell (Sample.parameters 2 "FSI") Sample.fe [] Sample.materials false
                        false false 1 (Sample.cell 2 [1; 2]%nat)
                        (Sample.state, [[2; 2]; [2; 2]])
    = Returns (s', damping_out) /\
    LA.el damping_out 0 1 == 4.
Proof.
  eexists. eexists. split; [vm_compute; reflexivity |].
  destruct (local_damping_carried (Sample.parameters 2 "FSI") Sample.fe []
              Sample.materials false false 1 (Sample.cell 2 [1; 2]%nat)
              Sample.state
              (fst (Sample.returned
                      (Solid.assemble_cell (Sample.parameters 2 "FSI") Sample.fe []
                         Sample.materials false false false 1
                         (Sample.cell 2 [1; 2]%nat) (Sample.state, [[2; 2]; [2; 2]]))
                      (Sample.state, [])))
              [[2; 2]; [2; 2]]
              (snd (Sample.returned
                      (Solid.assemble_cell (Sample.parameters 2 "FSI") Sample.fe []
                         Sample.materials false false false 1
                         (Sample.cell 2 [1; 2]%nat) (Sample.state, [[2; 2]; [2; 2]]))
                      (Sample.state, [])))
              0%nat 1%nat) as [H _].
  - reflexivity.
  - split; [reflexivity | repeat constructor].
  - simpl. lia.
  - simpl. lia.
  - vm_compute. reflexivity.
  - vm_compute in H. vm_compute. exact H.
Defined.

(** ** Restart from a checkpoint *)

(** *** Decimal numerals of a fixed width *)

Lemma of_uint_acc_split (d : Decimal.uint) (acc : nat) :
  Nat.of_uint_acc d acc = (Nat.of_uint d + acc * 10 ^ Unsigned.usize d)%nat.
Proof. unfold Nat.of_uint. rewrite !Unsigned.of_uint_acc_spec. lia. Qed.

Ltac digit_value :=
  unfold Nat.of_uint at 1; simpl Nat.of_uint_acc; rewrite ?Nat.tail_mul_spec;
  rewrite of_uint_acc_split; lia.

Lemma of_uint_digit (d : Decimal.uint) :
  Nat.of_uint (Decimal.D0 d) = Nat.of_uint d /\
  Nat.of_uint (Decimal.D1 d) = (Nat.of_uint d + 1 * 10 ^ Unsigned.usize d)%nat /\
  Nat.of_uint (Decimal.D2 d) = (Nat.of_uint d + 2 * 10 ^ Unsigned.usize d)%nat /\
  Nat.of_uint (Decimal.D3 d) = (Nat.of_uint d + 3 * 10 ^ Unsigned.usize d)%nat /\
  Nat.of_uint (Decimal.D4 d) = (Nat.of_uint d + 4 * 10 ^ Unsigned.usize d)%nat /\
  Nat.of_uint (Decimal.D5 d) = (Nat.of_uint d + 5 * 10 ^ Unsigned.usize d)%nat /\
  Nat.of_uint (Decimal.D6 d) = (Nat.of_uint d + 6 * 10 ^ Unsigned.usize d)%nat /\
  Nat.of_uint (Decimal.D7 d) = (Nat.of_uint d + 7 * 10 ^ Unsigned.usize d)%nat /\
  Nat.of_uint (Decimal.D8 d) = (Nat.of_uint d + 8 * 10 ^ Unsigned.usize d)%nat /\
  Nat.of_uint (Decimal.D9 d) = (Nat.of_uint d + 9 * 10 ^ Unsigned.usize d)%nat.
Proof. repeat split; digit_value. Qed.

Lemma of_uint_bound (d : Decimal.uint) : (Nat.of_uint d < 10 ^ Unsigned.usize d)%nat.
Proof.
  induction d;
    try (destruct (of_uint_digit d) as (E0 & E1 & E2 & E3 & E4 & E5 & E6 & E7 & E8 & E9);
         simpl Unsigned.usize; rewrite Nat.pow_succ_r';
         rewrite ?E0, ?E1, ?E2, ?E3, ?E4, ?E5, ?E6, ?E7, ?E8, ?E9;
         generalize dependent (10 ^ Unsigned.usize d)%nat; intros; lia).
  cbv. lia.
Qed.

(** On numerals with the same number of digits the order of the strings is
    the order of the numbers. *)
Lemma digits_lt_string (d1 : Decimal.uint) :
  forall d2,
    Unsigned.usize d1 = Unsigned.usize d2 ->
    (Nat.of_uint d1 < Nat.of_uint d2)%nat ->
    String.compare (NilEmpty.string_of_uint d1) (NilEmpty.string_of_uint d2) = Lt.
Proof.
  induction d1 as [| d1 IH | d1 IH | d1 IH | d1 IH | d1 IH | d1 IH | d1 IH | d1 IH
                   | d1 IH | d1 IH];
    intros d2 Hlen Hlt; destruct d2; simpl in Hlen; try discriminate;
    try (exfalso; simpl in Hlt; lia);
    injection Hlen as Hlen;
    pose proof (of_uint_bound d1) as B1; pose proof (of_uint_bound d2) as B2;
    destruct (of_uint_digit d1) as (E0 & E1 & E2 & E3 & E4 & E5 & E6 & E7 & E8 & E9);
    destruct (of_uint_digit d2) as (F0 & F1 & F2 & F3 & F4 & F5 & F6 & F7 & F8 & F9);
    rewrite ?E0, ?E1, ?E2, ?E3, ?E4, ?E5, ?E6, ?E7, ?E8, ?E9,
            ?F0, ?F1, ?F2, ?F3, ?F4, ?F5, ?F6, ?F7, ?F8, ?F9 in Hlt;
    assert (HP : (10 ^ Unsigned.usize d1 = 10 ^ Unsigned.usize d2)%nat)
      by (now rewrite Hlen);
    rewrite HP in *; clear HP;
    generalize dependent (10 ^ Unsigned.usize d2)%nat; intros;
    simpl;
    first [ reflexivity | apply IH; [assumption | lia] | exfalso; lia ].
Qed.

Lemma string_of_leading_zeros (k : nat) (d : Decimal.uint) :
  NilEmpty.string_of_uint (leading_zeros k d)
  = (Checkpoint.zeros k ++ NilEmpty.string_of_uint d)%string.
Proof. induction k as [| k IH]; simpl; [reflexivity | now rewrite IH]. Qed.

Lemma string_of_uint_length (d : Decimal.uint) :
  String.length (NilEmpty.string_of_uint d) = Unsigned.usize d.
Proof. induction d; simpl; congruence. Qed.

Lemma usize_leading_zeros (k : nat) (d : Decimal.uint) :
  Unsigned.usize (leading_zeros k d) = (k + Unsigned.usize d)%nat.
Proof. induction k as [| k IH]; simpl; [reflexivity | now rewrite IH]. Qed.

Lemma normal_numeral_size (d : Decimal.uint) :
  Decimal.unorm d = d ->
  (Unsigned.usize d <= 1)%nat \/ (10 ^ (Unsigned.usize d - 1) <= Nat.of_uint d)%nat.
Proof.
  intros Hn.
  destruct d as [| t | t | t | t | t | t | t | t | t | t];
    try (right;
         destruct (of_uint_digit t) as (E0 & E1 & E2 & E3 & E4 & E5 & E6 & E7 & E8 & E9);
         rewrite ?E1, ?E2, ?E3, ?E4, ?E5, ?E6, ?E7, ?E8, ?E9;
         simpl Unsigned.usize;
         replace (S (Unsigned.usize t) - 1)%nat with (Unsigned.usize t) by lia;
         generalize dependent (10 ^ Unsigned.usize t)%nat; intros; lia).
  - left. simpl. lia.
  - left. unfold Decimal.unorm in Hn. simpl Decimal.nzhead in Hn.
    destruct (Decimal.nzhead t) eqn:Ht;
      try (exfalso; apply (DecimalFacts.nzhead_nonzero t t); congruence).
    inversion Hn. simpl. lia.
Qed.

Lemma to_uint_size (n : nat) :
  (n < 10 ^ 6)%nat -> (Unsigned.usize (Nat.to_uint n) <= 6)%nat.
Proof.
  intros Hn.
  assert (Hnorm : Decimal.unorm (Nat.to_uint n) = Nat.to_uint n).
  { rewrite <- (Unsigned.of_to n) at 2. now rewrite Unsigned.to_of. }
  destruct (normal_numeral_size _ Hnorm) as [H | H]; [lia |].
  rewrite Unsigned.of_to in H.
  destruct (Nat.le_gt_cases (Unsigned.usize (Nat.to_uint n)) 6) as [Hle | Hgt];
    [exact Hle | exfalso].
  assert (H6 : (10 ^ 6 <= 10 ^ (Unsigned.usize (Nat.to_uint n) - 1))%nat)
    by (apply Nat.pow_le_mono_r; lia).
  apply (Nat.lt_irrefl n). eapply Nat.lt_le_trans; [exact Hn |].
  eapply Nat.le_trans; [exact H6 | exact H].
Qed.

Lemma int_to_string_numeral (n : nat) :
  Checkpoint.int_to_string n 6
  = NilEmpty.string_of_uint
      (leading_zeros (6 - Unsigned.usize (Nat.to_uint n)) (Nat.to_uint n)).
Proof.
  unfold Checkpoint.int_to_string.
  now rewrite string_of_leading_zeros, string_of_uint_length.
Qed.

(** Below one million the names of the checkpoints are ordered like the
    steps. *)
Lemma int_to_string_lt (k n : nat) :
  (k < n)%nat -> (n < 10 ^ 6)%nat ->
  String.ltb (Checkpoint.int_to_string k 6) (Checkpoint.int_to_string n 6) = true.
Proof.
  intros Hkn Hn. unfold String.ltb.
  rewrite !int_to_string_numeral, digits_lt_string; [reflexivity | |].
  - rewrite !usize_leading_zeros.
    pose proof (to_uint_size k). pose proof (to_uint_size n). lia.
  - now rewrite !of_uint_leading_zeros, !Unsigned.of_to.
Qed.

(** *** The latest checkpoint *)

Lemma string_ltb_lt (a b : string) :
  String.ltb a b = true <-> OrderedTypeEx.String_as_OT.lt a b.
Proof.
  unfold String.ltb.
  rewrite <- OrderedTypeEx.String_as_OT.cmp_lt. unfold OrderedTypeEx.String_as_OT.cmp.
  destruct (String.compare a b); split; intros H; (reflexivity || discriminate).
Qed.

Lemma string_ltb_trans (a b c : string) :
  String.ltb a b = true -> String.ltb b c = true -> String.ltb a c = true.
Proof. rewrite !string_ltb_lt. apply OrderedTypeEx.String_as_OT.lt_trans. Qed.

Lemma string_ltb_irrefl (a : string) : String.ltb a a = false.
Proof.
  destruct (String.ltb a a) eqn:H; [| reflexivity].
  apply string_ltb_lt in H. exfalso.
  now apply (OrderedTypeEx.String_as_OT.lt_not_eq _ _ H).
Qed.

Lemma string_ltb_total (a b : string) :
  String.ltb a b = false -> a = b \/ String.ltb b a = true.
Proof.
  unfold String.ltb. intros Hab.
  pose proof (OrderedTypeEx.String_as_OT.cmp_antisym a b) as Ha.
  unfold OrderedTypeEx.String_as_OT.cmp in Ha.
  destruct (String.compare a b) eqn:Hc; try discriminate.
  - left. now apply String.compare_eq_iff.
  - right. destruct (String.compare b a); simpl in Ha; try discriminate; reflexivity.
Qed.

Lemma find_latest_fold (d : Checkpoint.Directory) :
  forall acc,
    match acc with Some c => is_displacement c = true | None => True end ->
    match
      fold_left
        (fun checkpoint_file e =>
           let p := fst e in
           if String.eqb (Checkpoint.extension p) Checkpoint.displacement_ext &&
              match checkpoint_file with
              | Some c => String.ltb (Checkpoint.stem c) (Checkpoint.stem p)
              | None => true
              end
           then Some p
           else checkpoint_file)
        d acc
    with
    | None => acc = None /\ forall e, In e d -> is_displacement (fst e) = false
    | Some p =>
        is_displacement p = true /\
        (acc = Some p \/ In p (map fst d)) /\
        (forall c, acc = Some c ->
                   String.ltb (Checkpoint.stem p) (Checkpoint.stem c) = false) /\
        (forall e, In e d -> is_displacement (fst e) = true ->
                   String.ltb (Checkpoint.stem p) (Checkpoint.stem (fst e)) = false)
    end.
Proof.
  induction d as [| e d IH]; intros acc Hacc.
  - simpl. destruct acc as [c |].
    + repeat split; auto.
      * intros c' Hc. inversion Hc; subst. apply string_ltb_irrefl.
      * intros e [].
    + split; [reflexivity | intros e []].
  - simpl fold_left. fold (is_displacement (fst e)).
    destruct (is_displacement (fst e)) eqn:He.
    + destruct acc as [c |].
      * destruct (String.ltb (Checkpoint.stem c) (Checkpoint.stem (fst e))) eqn:Hlt;
          simpl andb; cbv iota.
        -- specialize (IH (Some (fst e)) He).
           destruct (fold_left _ d (Some (fst e))) as [p |];
             [| destruct IH as [IH _]; discriminate].
           destruct IH as (Hp & Hin & Hle & Hall).
           split; [exact Hp |]. split; [| split].
           ++ right. destruct Hin as [Hin | Hin]; [inversion Hin; now left | now right].
           ++ intros c' Hc. inversion Hc; subst c'.
              destruct (String.ltb (Checkpoint.stem p) (Checkpoint.stem c)) eqn:Hpc;
                [| reflexivity].
              rewrite <- (Hle (fst e) eq_refl).
              symmetry. eapply string_ltb_trans; eassumption.
           ++ intros e' [<- | Hin'] He'; [now apply Hle | now apply Hall].
        -- specialize (IH (Some c) Hacc).
           destruct (fold_left _ d (Some c)) as [p |];
             [| destruct IH as [IH _]; discriminate].
           destruct IH as (Hp & Hin & Hle & Hall).
           split; [exact Hp |]. split; [| split].
           ++ destruct Hin as [Hin | Hin]; [now left | right; now right].
           ++ exact Hle.
           ++ intros e' [<- | Hin'] He'; [| now apply Hall].
              destruct (String.ltb (Checkpoint.stem p) (Checkpoint.stem (fst e)))
                eqn:Hpe; [| reflexivity].
              rewrite <- (Hle c eq_refl). symmetry.
              destruct (string_ltb_total _ _ Hlt) as [Heq | Hec].
              ** now rewrite Heq.
              ** eapply string_ltb_trans; eassumption.
      * simpl andb. cbv iota.
        specialize (IH (Some (fst e)) He).
        destruct (fold_left _ d (Some (fst e))) as [p |];
          [| destruct IH as [IH _]; discriminate].
        destruct IH as (Hp & Hin & Hle & Hall).
        split; [exact Hp |]. split; [| split].
        -- right. destruct Hin as [Hin | Hin]; [inversion Hin; now left | now right].
        -- intros c Hc. discriminate.
        -- intros e' [<- | Hin'] He'; [now apply Hle | now apply Hall].
    + simpl andb. cbv iota. specialize (IH acc Hacc).
      destruct (fold_left _ d acc) as [p |].
      * destruct IH as (Hp & Hin & Hle & Hall).
        split; [exact Hp |]. split; [| split].
        -- destruct Hin as [Hin | Hin]; [now left | right; now right].
        -- exact Hle.
        -- intros e' [<- | Hin'] He'; [congruence | now apply Hall].
      * destruct IH as [Hn Hall]. split; [exact Hn |].
        intros e' [<- | Hin']; [exact He | now apply Hall].
Qed.

Lemma find_latest_cases (d : Checkpoint.Directory) :
  match Restart.find_latest d with
  | None => forall e, In e d -> is_displacement (fst e) = false
  | Some p =>
      is_displacement p = true /\ In p (map fst d) /\
      forall e, In e d -> is_displacement (fst e) = true ->
                String.ltb (Checkpoint.stem p) (Checkpoint.stem (fst e)) = false
  end.
Proof.
  pose proof (find_latest_fold d None I) as H.
  change (match Restart.find_latest d with
          | None => @None Checkpoint.path = None /\
                    forall e, In e d -> is_displacement (fst e) = false
          | Some p =>
              is_displacement p = true /\
              (None = Some p \/ In p (map fst d)) /\
              (forall c, None = Some c ->
                         String.ltb (Checkpoint.stem p) (Checkpoint.stem c) = false) /\
              (forall e, In e d -> is_displacement (fst e) = true ->
                         String.ltb (Checkpoint.stem p) (Checkpoint.stem (fst e)) = false)
          end) in H.
  destruct (Restart.find_latest d) as [p |].
  - destruct H as (Hp & [Hin | Hin] & _ & Hall); [discriminate |].
    repeat split; assumption.
  - now destruct H.
Qed.

(** X9.  [load_checkpoint] finds no checkpoint, and returns [false]
    before anything is set up, exactly when the directory holds no
    displacement file; otherwise the file it restarts from is a
    displacement file of the directory whose stem no other displacement
    file exceeds in the lexicographic order of the names. *)
Theorem find_latest_spec (d : Checkpoint.Directory) :
  (Restart.find_latest d = None <->
   forall e, In e d -> is_displacement (fst e) = false) /\
  (forall p,
      Restart.find_latest d = Some p ->
      In p (map fst d) /\ is_displacement p = true /\
      forall e, In e d -> is_displacement (fst e) = true ->
                String.ltb (Checkpoint.stem p) (Checkpoint.stem (fst e)) = false) /\
  (forall setup n_dofs s,
      (forall e, In e d -> is_displacement (fst e) = false) ->
      Restart.load_checkpoint setup n_dofs s d = Returns Restart.NotFound).
Proof.
  pose proof (find_latest_cases d) as H.
  assert (Hnone : Restart.find_latest d = None <->
                  forall e, In e d -> is_displacement (fst e) = false).
  { destruct (Restart.find_latest d) as [p |].
    - destruct H as (Hp & Hin & _).
      split; [discriminate |]. intros Hall. exfalso.
      apply in_map_iff in Hin. destruct Hin as (e & <- & Hin).
      rewrite (Hall e Hin) in Hp. discriminate.
    - split; [intros _; exact H | reflexivity]. }
  split; [exact Hnone |]. split.
  - intros p Hp. rewrite Hp in H. destruct H as (Hd & Hin & Hall).
    repeat split; assumption.
  - intros setup n_dofs s Hall. unfold Restart.load_checkpoint.
    now rewrite (proj2 Hnone Hall).
Qed.

Lemma unique_names_inj (d : Checkpoint.Directory) (e1 e2 : Checkpoint.path * LA.Vector) :
  unique_names d -> In e1 d -> In e2 d ->
  Checkpoint.filename (fst e1) = Checkpoint.filename (fst e2) -> e1 = e2.
Proof.
  unfold unique_names. induction d as [| e d IH]; intros Hu H1 H2 Hn; [destruct H1 |].
  simpl in Hu. inversion Hu as [| x l Hnotin Hnd]; subst.
  destruct H1 as [<- | H1], H2 as [<- | H2].
  - reflexivity.
  - exfalso. apply Hnotin. rewrite Hn.
    apply (in_map (fun e => Checkpoint.filename (fst e))). exact H2.
  - exfalso. apply Hnotin. rewrite <- Hn.
    apply (in_map (fun e => Checkpoint.filename (fst e))). exact H1.
  - now apply IH.
Qed.

Lemma block_read_written (d : Checkpoint.Directory) (p : Checkpoint.path)
      (v : LA.Vector) :
  unique_names d -> In (p, v) d -> Restart.block_read p d = Some v.
Proof.
  intros Hu Hin. unfold Restart.block_read.
  destruct (find (fun e => Checkpoint.path_eqb (fst e) p) d) as [e |] eqn:Hf.
  - apply find_some in Hf. destruct Hf as [He Heq].
    apply path_eqb_eq in Heq.
    rewrite (unique_names_inj d e (p, v) Hu He Hin Heq). reflexivity.
  - exfalso. pose proof (find_none _ _ Hf (p, v) Hin) as Hn. simpl in Hn.
    now rewrite path_eqb_refl in Hn.
Qed.

(** X10.  Saving and loading are inverse to each other below one million
    steps: in a directory whose displacement files are checkpoints of
    earlier steps, [load_checkpoint] after [save_checkpoint] at step [n]
    restores exactly the three vectors that were saved, as current and as
    previous fields, and advances the clock [n] times. *)
Theorem load_after_save
        (u v a : LA.Vector) (n : nat) (d : Checkpoint.Directory) (S : list nat)
        (n_dofs : nat) (s : Restart.Fields) :
  unique_names d -> saved_at S d ->
  (forall k, In k S -> (k < n)%nat) -> (n < 10 ^ 6)%nat ->
  length u = n_dofs -> length v = n_dofs -> length a = n_dofs ->
  Restart.load_checkpoint (Returns tt) n_dofs s (Checkpoint.save_checkpoint 0 u v a n d)
  = Returns
      (Restart.Restored
         (Restart.mkFields u v a u v a (Nat.iter n Time.increment (Restart.time s)))).
Proof.
  intros Hu Hs HS Hn Lu Lv La.
  set (saved := Checkpoint.save_checkpoint 0 u v a n d).
  pose proof (save_unique u v a n d Hu) as Hus. fold saved in Hus.
  pose proof (save_saved_at u v a n d S Hs) as Hss. fold saved in Hss.
  destruct (saved_set_complete u v a n d) as (Hd & Hv & Ha). fold saved in Hd, Hv, Ha.
  assert (Hlatest : Restart.find_latest saved = Some (Checkpoint.checkpoint_file n)).
  { pose proof (find_latest_cases saved) as Hcases.
    destruct (Restart.find_latest saved) as [p |] eqn:Hp.
    - destruct Hcases as (Hdisp & Hin & Hmax).
      apply in_map_iff in Hin. destruct Hin as (e & He & Hin).
      rewrite <- He in Hdisp.
      destruct (Hss e Hin Hdisp) as (k & [<- | Hk] & Hfile).
      + now rewrite <- He, Hfile.
      + exfalso. specialize (Hmax _ Hd eq_refl).
        rewrite <- He, Hfile in Hmax. simpl in Hmax.
        rewrite int_to_string_lt in Hmax; [discriminate | now apply HS | exact Hn].
    - exfalso. pose proof (Hcases _ Hd) as Hf. discriminate. }
  unfold Restart.load_checkpoint. rewrite Hlatest. simpl bind. cbv zeta.
  rewrite (block_read_written saved _ u Hus Hd).
  rewrite (block_read_written saved _ v Hus Hv).
  replace (Checkpoint.replace_extension Checkpoint.acceleration_ext
             (Checkpoint.replace_extension Checkpoint.velocity_ext
                (Checkpoint.checkpoint_file n)))
    with (Checkpoint.replace_extension Checkpoint.acceleration_ext
            (Checkpoint.checkpoint_file n)) by reflexivity.
  rewrite (block_read_written saved _ a Hus Ha).
  unfold Restart.assign. rewrite Lu, Lv, La, Nat.eqb_refl. simpl bind.
  change (Checkpoint.stem
            (Checkpoint.replace_extension Checkpoint.acceleration_ext
               (Checkpoint.checkpoint_file n)))
    with (Checkpoint.int_to_string n 6).
  now rewrite string_to_int_to_string.
Qed.

Lemma load_after_save_witness :
  Restart.load_checkpoint (Returns tt) 2 (Restart.mkFields [] [] [] [] [] []
                                                           (Time.mkTime 0 (1 # 2) 0))
    (Checkpoint.save_checkpoint 0 [1; 2] [3; 4] [5; 6] 7 [])
  = Returns
      (Restart.Restored
         (Restart.mkFields [1; 2] [3; 4] [5; 6] [1; 2] [3; 4] [5; 6]
            (Nat.iter 7 Time.increment (Time.mkTime 0 (1 # 2) 0)))).
Proof.
  apply (load_after_save [1; 2] [3; 4] [5; 6] 7 [] [] 2
           (Restart.mkFields [] [] [] [] [] [] (Time.mkTime 0 (1 # 2) 0))).
  - constructor.
  - intros e [].
  - intros k [].
  - apply Nat.lt_le_trans with (10 ^ 1)%nat;
      [simpl; lia | apply Nat.pow_le_mono_r; lia].
  - reflexivity.
  - reflexivity.
  - reflexivity.
Defined.

(** The order is that of the names, not of the steps: the file of step
    1000000 has a name below that of step 999999. *)
Example latest_is_by_name :
  Restart.find_latest
    [(Checkpoint.mkPath "999999" Checkpoint.displacement_ext, [1]);
     (Checkpoint.mkPath "1000000" Checkpoint.displacement_ext, [2])]
  = Some (Checkpoint.mkPath "999999" Checkpoint.displacement_ext).
Proof. vm_compute. reflexivity. Qed.

(** ** The distributed solid solver *)

(** *** The Dirichlet flags of the solid *)

(** X11.  The flag of a Dirichlet boundary is the set of its constrained
    directions in binary (x = 1, y = 2, z = 4).  With three space
    dimensions the mask has the bit of each direction for the flags 0 to
    7 and is all [false] for every larger flag.  With two space
    dimensions the flags 0 to 3 give the x and y bits, a larger flag
    than 7 gives an all [false] mask, and the flags 4 to 7 write
    [mask[2]], beyond the end of the two-entry mask. *)
Theorem dirichlet_mask_spec (flag : nat) :
  SharedSolid.dirichlet_mask 3 flag
  = Returns [Nat.leb flag 7 && Nat.testbit flag 0;
             Nat.leb flag 7 && Nat.testbit flag 1;
             Nat.leb flag 7 && Nat.testbit flag 2] /\
  SharedSolid.dirichlet_mask 2 flag
  = (if Nat.ltb flag 4 then Returns [Nat.testbit flag 0; Nat.testbit flag 1]
     else if Nat.leb flag 7 then Undefined
          else Returns [false; false]).
Proof.
  do 8 (destruct flag as [| flag]; [split; reflexivity |]).
  split; reflexivity.
Qed.

(** *** The kinetic energy of the solid *)

Lemma masked_sum_ext (n : nat) (c c' : nat -> bool) (f : nat -> Q) :
  (forall i, (i < n)%nat -> c i = c' i) -> masked_sum n c f = masked_sum n c' f.
Proof.
  intros H. unfold masked_sum. apply for_loop_ext.
  intros k s Hk. now rewrite (H k Hk).
Qed.

Lemma masked_sum_mark (n : nat) (c : nat -> bool) (f : nat -> Q) (index : nat) :
  (index < n)%nat -> c index = false ->
  masked_sum n (fun i => c i || Nat.eqb i index) f == masked_sum n c f + f index.
Proof.
  unfold masked_sum. induction n as [| n IH]; intros Hi Hc; [lia |].
  simpl. destruct (Nat.eqb_spec n index) as [-> | Hne].
  - rewrite Hc. simpl.
    rewrite (for_loop_ext index
               (fun i s => s + (if c i || Nat.eqb i index then f i else 0))
               (fun i s => s + (if c i then f i else 0))).
    + ring.
    + intros k s Hk.
      replace (Nat.eqb k index) with false by (symmetry; apply Nat.eqb_neq; lia).
      now rewrite orb_false_r.
  - rewrite orb_false_r, IH by (lia || assumption). ring.
Qed.

Section KineticEnergyFacts.

Variable n_dofs : nat.
Variables current_velocity previous_velocity nodal_mass : LA.Vector.
Variable time : Time.Time.
Variable P : SharedSolid.Process.

Let kterm := ke_term current_velocity nodal_mass.
Let rterm := ke_rate_term time current_velocity previous_velocity nodal_mass.

(** What holds of [dof_touched] and the two sums after the degrees of
    freedom of [seen] have been visited. *)
Let invariant (seen : list nat) (st : list nat * (Q * Q)) : Prop :=
  length (fst st) = n_dofs /\
  (forall i, (i < n_dofs)%nat ->
             nth i (fst st) 0%nat = if counted P seen i then 1%nat else 0%nat) /\
  fst (snd st) == masked_sum n_dofs (counted P seen) kterm /\
  snd (snd st) == masked_sum n_dofs (counted P seen) rterm.

Lemma counted_app (seen : list nat) (index i : nat) :
  counted P (seen ++ [index]) i
  = counted P seen i || (SharedSolid.in_local_range P i && Nat.eqb i index).
Proof.
  unfold counted. rewrite existsb_app. simpl. rewrite orb_false_r.
  now rewrite andb_orb_distrib_r.
Qed.

Lemma visit_dof_invariant (seen : list nat) (index : nat) (st : list nat * (Q * Q)) :
  invariant seen st ->
  (SharedSolid.in_local_range P index = true -> (index < n_dofs)%nat) ->
  exists st',
    SharedSolid.visit_dof current_velocity previous_velocity nodal_mass time P index st
    = Returns st' /\
    invariant (seen ++ [index]) st'.
Proof.
  destruct st as [touched [ke rate]]. intros (Hlen & Hnth & Hke & Hrate) Hrange.
  simpl in Hlen, Hnth, Hke, Hrate. unfold SharedSolid.visit_dof.
  destruct (SharedSolid.in_local_range P index) eqn:Hin; simpl negb; cbv iota.
  - specialize (Hrange eq_refl).
    rewrite (subscript_in_range touched index 0%nat) by lia. simpl bind.
    rewrite (Hnth index Hrange).
    destruct (counted P seen index) eqn:Hc; simpl Nat.eqb; cbv iota.
    + exists (touched, (ke, rate)). split; [reflexivity |].
      assert (Hsame : forall i, counted P (seen ++ [index]) i = counted P seen i).
      { intros i. rewrite counted_app.
        destruct (Nat.eqb_spec i index) as [-> | _];
          [rewrite Hc | rewrite andb_false_r, orb_false_r]; reflexivity. }
      repeat split; simpl.
      * exact Hlen.
      * intros i Hi. rewrite Hsame. now apply Hnth.
      * now rewrite (masked_sum_ext _ _ (counted P seen)).
      * now rewrite (masked_sum_ext _ _ (counted P seen)).
    + eexists. split; [reflexivity |].
      assert (Hnew : forall i,
                 counted P (seen ++ [index]) i = counted P seen i || Nat.eqb i index).
      { intros i. rewrite counted_app.
        destruct (Nat.eqb_spec i index) as [-> | _];
          [rewrite Hin | rewrite andb_false_r]; reflexivity. }
      repeat split; simpl.
      * rewrite length_update. exact Hlen.
      * intros i Hi. rewrite Hnew, nth_update by lia.
        destruct (Nat.eqb_spec i index) as [-> | _].
        -- now rewrite orb_true_r.
        -- rewrite orb_false_r. now apply Hnth.
      * rewrite (masked_sum_ext _ _ (fun i => counted P seen i || Nat.eqb i index))
          by (intros; apply Hnew).
        rewrite masked_sum_mark by assumption. rewrite Hke. reflexivity.
      * rewrite (masked_sum_ext _ _ (fun i => counted P seen i || Nat.eqb i index))
          by (intros; apply Hnew).
        rewrite masked_sum_mark by assumption.
        set (total := masked_sum n_dofs (counted P seen) rterm) in *.
        unfold rterm, ke_rate_term.
        destruct (Qeq_bool (Time.current time) (Time.get_delta_t time));
          rewrite Hrate; ring.
  - exists (touched, (ke, rate)). split; [reflexivity |].
    assert (Hsame : forall i, counted P (seen ++ [index]) i = counted P seen i).
    { intros i. rewrite counted_app.
      destruct (Nat.eqb_spec i index) as [-> | _];
        [rewrite Hin | rewrite andb_false_r]; now rewrite orb_false_r. }
    repeat split; simpl.
    + exact Hlen.
    + intros i Hi. rewrite Hsame. now apply Hnth.
    + now rewrite (masked_sum_ext _ _ (counted P seen)).
    + now rewrite (masked_sum_ext _ _ (counted P seen)).
Qed.

Lemma visit_dofs_invariant (dofs : list nat) :
  forall seen st,
    invariant seen st ->
    (forall index, In index dofs ->
                   SharedSolid.in_local_range P index = true -> (index < n_dofs)%nat) ->
    exists st',
      for_each dofs
               (SharedSolid.visit_dof current_velocity previous_velocity nodal_mass
                                      time P) st
      = Returns st' /\
      invariant (seen ++ dofs) st'.
Proof.
  induction dofs as [| index dofs IH]; intros seen st Hinv Hrange.
  - exists st. split; [reflexivity | now rewrite List.app_nil_r].
  - destruct (visit_dof_invariant seen index st Hinv) as (st1 & H1 & Hinv1).
    { apply Hrange. now left. }
    destruct (IH (seen ++ [index]) st1 Hinv1) as (st' & H' & Hinv').
    { intros i Hi. apply Hrange. now right. }
    exists st'. split.
    + simpl. rewrite H1. exact H'.
    + rewrite <- List.app_assoc in Hinv'. exact Hinv'.
Qed.

Lemma visit_cells_invariant (mesh : list SharedSolid.Cell) :
  forall seen st,
    invariant seen st ->
    (forall index, In index (visited P mesh) ->
                   SharedSolid.in_local_range P index = true -> (index < n_dofs)%nat) ->
    exists st',
      for_each mesh
               (fun cell acc =>
                  if Nat.eqb (SharedSolid.subdomain_id cell)
                             (SharedSolid.this_mpi_process P)
                  then for_each (SharedSolid.dof_indices cell)
                                (SharedSolid.visit_dof current_velocity previous_velocity
                                                       nodal_mass time P) acc
                  else Returns acc) st
      = Returns st' /\
      invariant (seen ++ visited P mesh) st'.
Proof.
  induction mesh as [| cell mesh IH]; intros seen st Hinv Hrange.
  - exists st. split; [reflexivity |]. unfold visited. simpl.
    now rewrite List.app_nil_r.
  - unfold visited in *. simpl in *.
    destruct (Nat.eqb (SharedSolid.subdomain_id cell) (SharedSolid.this_mpi_process P)).
    + simpl in Hrange.
      destruct (visit_dofs_invariant (SharedSolid.dof_indices cell) seen st Hinv)
        as (st1 & H1 & Hinv1).
      { intros i Hi. apply Hrange. apply in_or_app. now left. }
      destruct (IH (seen ++ SharedSolid.dof_indices cell) st1 Hinv1)
        as (st' & H' & Hinv').
      { intros i Hi. apply Hrange. apply in_or_app. now right. }
      exists st'. split.
      * rewrite H1. exact H'.
      * rewrite <- List.app_assoc in Hinv'. exact Hinv'.
    + destruct (IH seen st Hinv Hrange) as (st' & H' & Hinv').
      exists st'. split; assumption.
Qed.

Lemma masked_sum_none (n : nat) (f : nat -> Q) :
  masked_sum n (fun _ => false) f == 0.
Proof. unfold masked_sum. induction n as [| n IH]; simpl; [reflexivity |]. rewrite IH. ring. Qed.

Lemma local_KE_sums (mesh : list SharedSolid.Cell) :
  (forall index, In index (visited P mesh) ->
                 SharedSolid.in_local_range P index = true -> (index < n_dofs)%nat) ->
  exists ke ke_rate,
    SharedSolid.local_KE n_dofs current_velocity previous_velocity nodal_mass time P mesh
    = Returns (ke, ke_rate) /\
    ke == masked_sum n_dofs (counted P (visited P mesh)) kterm /\
    ke_rate == masked_sum n_dofs (counted P (visited P mesh)) rterm.
Proof.
  intros Hrange. unfold SharedSolid.local_KE.
  destruct (visit_cells_invariant mesh [] (repeat 0%nat n_dofs, (0, 0)))
    as ([touched [ke rate]] & H & (_ & _ & Hke & Hrate)).
  - repeat split; simpl.
    + apply repeat_length.
    + intros i Hi. unfold counted. simpl. rewrite andb_false_r.
      now rewrite nth_repeat_lt.
    + rewrite (masked_sum_ext _ _ (fun _ => false)), masked_sum_none; [reflexivity |].
      intros i _. unfold counted. simpl. now rewrite andb_false_r.
    + rewrite (masked_sum_ext _ _ (fun _ => false)), masked_sum_none; [reflexivity |].
      intros i _. unfold counted. simpl. now rewrite andb_false_r.
  - exact Hrange.
  - exists ke, rate. rewrite H. simpl in *. repeat split; assumption.
Qed.

End KineticEnergyFacts.

(** X12.  With a step size other than zero, on one process [calculate_KE]
    counts every degree of freedom of the cells of its subdomain that
    lies in its local range exactly once,
    however many cells share it: the kinetic energy is the sum of
    [0.5 v_i^2 m_i] over these degrees of freedom and the rate the sum of
    [v_i m_i (v_i - v_i^prev) / dt], to which the term
    [v_i m_i v_i^prev / dt] is added at the time [t = dt], where the rate
    is therefore the sum of [m_i v_i^2 / dt]. *)
Theorem calculate_KE_local
        (n_dofs : nat) (current_velocity previous_velocity nodal_mass : LA.Vector)
        (time : Time.Time) (P : SharedSolid.Process) (mesh : list SharedSolid.Cell) :
  ~ Time.get_delta_t time == 0 ->
  (forall index, In index (visited P mesh) ->
                 SharedSolid.in_local_range P index = true -> (index < n_dofs)%nat) ->
  exists ke ke_rate,
    SharedSolid.local_KE n_dofs current_velocity previous_velocity nodal_mass time P mesh
    = Returns (ke, ke_rate) /\
    ke == masked_sum n_dofs (counted P (visited P mesh))
                     (ke_term current_velocity nodal_mass) /\
    ke_rate == masked_sum n_dofs (counted P (visited P mesh))
                          (ke_rate_term time current_velocity previous_velocity
                                        nodal_mass) /\
    (Qeq_bool (Time.current time) (Time.get_delta_t time) = true ->
     ke_rate == masked_sum n_dofs (counted P (visited P mesh))
                           (fun i => nth i current_velocity 0 * nth i nodal_mass 0
                                     * nth i current_velocity 0
                                     / Time.get_delta_t time)).
Proof.
  intros _ Hrange.
  destruct (local_KE_sums n_dofs current_velocity previous_velocity nodal_mass time P
                          mesh Hrange) as (ke & rate & H & Hke & Hrate).
  exists ke, rate. repeat split; try assumption.
  intros Ht. rewrite Hrate. unfold masked_sum.
  apply for_loop_Qeq; [| reflexivity].
  intros i s t _ Hst. rewrite Hst. unfold ke_rate_term. rewrite Ht.
  destruct (counted P (visited P mesh) i); [| reflexivity].
  unfold Qdiv. ring.
Qed.

Lemma fold_left_Qplus_acc (l : list Q) (a : Q) :
  fold_left Qplus l a == a + fold_left Qplus l 0.
Proof.
  revert a. induction l as [| x l IH]; intros a; simpl; [ring |].
  rewrite IH, (IH (0 + x)). ring.
Qed.

Lemma MPI_sum_cons (x : Q) (l : list Q) :
  SharedSolid.MPI_sum (x :: l) == x + SharedSolid.MPI_sum l.
Proof. unfold SharedSolid.MPI_sum. simpl. rewrite fold_left_Qplus_acc. ring. Qed.

Lemma MPI_sum_app (l : list Q) (x : Q) :
  SharedSolid.MPI_sum (l ++ [x]) == SharedSolid.MPI_sum l + x.
Proof.
  induction l as [| y l IH]; simpl.
  - unfold SharedSolid.MPI_sum. simpl. ring.
  - rewrite !MPI_sum_cons, IH. ring.
Qed.

Lemma MPI_sum_plus {A : Type} (g h : A -> Q) (w : list A) :
  SharedSolid.MPI_sum (map (fun x => g x + h x) w)
  == SharedSolid.MPI_sum (map g w) + SharedSolid.MPI_sum (map h w).
Proof.
  induction w as [| x w IH]; simpl.
  - unfold SharedSolid.MPI_sum. simpl. ring.
  - rewrite !MPI_sum_cons, IH. ring.
Qed.

Lemma MPI_sum_zero {A : Type} (w : list A) (g : A -> Q) :
  (forall x, In x w -> g x == 0) -> SharedSolid.MPI_sum (map g w) == 0.
Proof.
  induction w as [| x w IH]; intros H; simpl.
  - reflexivity.
  - rewrite MPI_sum_cons. rewrite IH by (intros; apply H; now right).
    rewrite (H x) by now left. ring.
Qed.

Lemma MPI_sum_ext {A : Type} (w : list A) (g h : A -> Q) :
  (forall x, In x w -> g x == h x) ->
  SharedSolid.MPI_sum (map g w) == SharedSolid.MPI_sum (map h w).
Proof.
  induction w as [| x w IH]; intros H; simpl.
  - reflexivity.
  - rewrite !MPI_sum_cons. rewrite IH by (intros; apply H; now right).
    rewrite (H x) by now left. reflexivity.
Qed.

(** Exactly one element of the list, taken by position, is selected. *)
Lemma MPI_sum_exactly_one {A : Type} (c : A -> bool) (t : Q) (w : list A) :
  (exists r x, nth_error w r = Some x /\ c x = true /\
               forall r' x', nth_error w r' = Some x' -> c x' = true -> r' = r) ->
  SharedSolid.MPI_sum (map (fun x => if c x then t else 0) w) == t.
Proof.
  induction w as [| a w IH]; intros (r & x & Hr & Hc & Huniq).
  - destruct r; discriminate.
  - simpl map. rewrite MPI_sum_cons. destruct r as [| r].
    + simpl in Hr. inversion Hr; subst a. rewrite Hc.
      rewrite MPI_sum_zero; [ring |].
      intros y Hy. destruct (c y) eqn:Hcy; [| reflexivity].
      apply In_nth_error in Hy. destruct Hy as [k Hk].
      specialize (Huniq (S k) y Hk Hcy). discriminate.
    + destruct (c a) eqn:Hca.
      * specialize (Huniq 0%nat a eq_refl Hca). discriminate.
      * rewrite IH; [ring |].
        exists r, x. repeat split; try assumption.
        intros r' x' Hr' Hx'. specialize (Huniq (S r') x' Hr' Hx'). lia.
Qed.

Lemma sum_over_processes {A : Type} (w : list A) (c : A -> nat -> bool)
      (f : nat -> Q) (n : nat) :
  (forall i, (i < n)%nat ->
             exists r x, nth_error w r = Some x /\ c x i = true /\
                         forall r' x', nth_error w r' = Some x' -> c x' i = true ->
                                       r' = r) ->
  SharedSolid.MPI_sum (map (fun x => masked_sum n (c x) f) w)
  == for_loop n (fun i s => s + f i) 0.
Proof.
  unfold masked_sum. induction n as [| n IH]; intros H.
  - simpl. apply MPI_sum_zero. intros. reflexivity.
  - simpl.
    rewrite (MPI_sum_plus
               (fun x => for_loop n (fun i s => s + (if c x i then f i else 0)) 0)
               (fun x => if c x n then f n else 0)).
    rewrite IH by (intros i Hi; apply H; lia).
    rewrite (MPI_sum_exactly_one (fun x => c x n) (f n)) by (apply H; lia).
    reflexivity.
Qed.

Section GlobalKineticEnergy.

Variable n_dofs : nat.
Variables current_velocity previous_velocity nodal_mass : LA.Vector.
Variable time : Time.Time.
Variable mesh : list SharedSolid.Cell.

Lemma local_sums_of_world (world : list SharedSolid.Process) :
  (forall P, In P world ->
             forall index, In index (visited P mesh) ->
                           SharedSolid.in_local_range P index = true ->
                           (index < n_dofs)%nat) ->
  forall acc,
  exists locals,
    for_each world
      (fun P acc =>
         bind (SharedSolid.local_KE n_dofs current_velocity previous_velocity
                                    nodal_mass time P mesh)
              (fun r => Returns (acc ++ [r]))) acc
    = Returns (acc ++ locals) /\
    SharedSolid.MPI_sum (map fst locals)
    == SharedSolid.MPI_sum
         (map (fun P => masked_sum n_dofs (counted P (visited P mesh))
                                   (ke_term current_velocity nodal_mass)) world) /\
    SharedSolid.MPI_sum (map snd locals)
    == SharedSolid.MPI_sum
         (map (fun P => masked_sum n_dofs (counted P (visited P mesh))
                                   (ke_rate_term time current_velocity previous_velocity
                                                 nodal_mass)) world).
Proof.
  induction world as [| P world IH]; intros Hrange acc.
  - exists []. simpl. rewrite List.app_nil_r. repeat split; reflexivity.
  - destruct (local_KE_sums n_dofs current_velocity previous_velocity nodal_mass time P
                            mesh (Hrange P (or_introl eq_refl)))
      as (ke & rate & H & Hke & Hrate).
    destruct (IH (fun Q HQ => Hrange Q (or_intror HQ)) (acc ++ [(ke, rate)]))
      as (locals & Hl & Hk & Hr).
    exists ((ke, rate) :: locals). split; [| split].
    + simpl. rewrite H. simpl. rewrite Hl, <- List.app_assoc. reflexivity.
    + simpl map. rewrite !MPI_sum_cons, Hk, Hke. reflexivity.
    + simpl map. rewrite !MPI_sum_cons, Hr, Hrate. reflexivity.
Qed.

End GlobalKineticEnergy.

(** X13.  With a step size other than zero, when every degree of freedom
    lies in the local range of exactly
    one process and in a cell of the subdomain of that process, the sums
    that [calculate_KE] writes are those over all degrees of freedom, each
    counted once: [ke = sum_i 0.5 v_i^2 m_i]. *)
Theorem calculate_KE_global
        (n_dofs : nat) (current_velocity previous_velocity nodal_mass : LA.Vector)
        (time : Time.Time) (world : list SharedSolid.Process)
        (mesh : list SharedSolid.Cell) :
  ~ Time.get_delta_t time == 0 ->
  (forall P, In P world ->
             forall index, In index (visited P mesh) ->
                           SharedSolid.in_local_range P index = true ->
                           (index < n_dofs)%nat) ->
  (forall i, (i < n_dofs)%nat ->
             exists r P,
               nth_error world r = Some P /\
               counted P (visited P mesh) i = true /\
               forall r' P', nth_error world r' = Some P' ->
                             counted P' (visited P' mesh) i = true -> r' = r) ->
  exists ke ke_rate,
    SharedSolid.calculate_KE n_dofs current_velocity previous_velocity nodal_mass time
                             world mesh
    = Returns (ke, ke_rate) /\
    ke == for_loop n_dofs (fun i s => s + ke_term current_velocity nodal_mass i) 0 /\
    ke_rate == for_loop n_dofs
                 (fun i s => s + ke_rate_term time current_velocity previous_velocity
                                              nodal_mass i) 0.
Proof.
  intros _ Hrange Hone.
  destruct (local_sums_of_world n_dofs current_velocity previous_velocity nodal_mass
                                time mesh world Hrange [])
    as (locals & Hl & Hk & Hr).
  unfold SharedSolid.calculate_KE. rewrite Hl. simpl.
  eexists. eexists. split; [reflexivity |]. split.
  - rewrite Hk.
    apply (sum_over_processes world (fun P => counted P (visited P mesh))). exact Hone.
  - rewrite Hr.
    apply (sum_over_processes world (fun P => counted P (visited P mesh))). exact Hone.
Qed.

Lemma calculate_KE_local_witness :
  exists ke ke_rate,
    SharedSolid.local_KE 3 [1; 2; 3] [0; 0; 0] [2; 4; 2] Sample.first_step
                         (SharedSolid.mkProcess 0 0 2) Sample.cells
    = Returns (ke, ke_rate) /\
    ke == masked_sum 3 (counted (SharedSolid.mkProcess 0 0 2)
                                (visited (SharedSolid.mkProcess 0 0 2) Sample.cells))
                     (ke_term [1; 2; 3] [2; 4; 2]).
Proof.
  destruct (calculate_KE_local 3 [1; 2; 3] [0; 0; 0] [2; 4; 2] Sample.first_step
                               (SharedSolid.mkProcess 0 0 2) Sample.cells)
    as (ke & rate & H & Hke & _).
  - intros Hdt. vm_compute in Hdt. discriminate Hdt.
  - intros index [<- | [<- | []]] _; lia.
  - exists ke, rate. split; assumption.
Defined.

Lemma calculate_KE_global_witness :
  exists ke ke_rate,
    SharedSolid.calculate_KE 3 [1; 2; 3] [0; 0; 0] [2; 4; 2] Sample.first_step
                             Sample.partition Sample.cells
    = Returns (ke, ke_rate) /\
    ke == for_loop 3 (fun i s => s + ke_term [1; 2; 3] [2; 4; 2] i) 0.
Proof.
  destruct (calculate_KE_global 3 [1; 2; 3] [0; 0; 0] [2; 4; 2] Sample.first_step
                                Sample.partition Sample.cells)
    as (ke & rate & H & Hke & _).
  - intros Hdt. vm_compute in Hdt. discriminate Hdt.
  - intros P [<- | [<- | []]] index Hin _; simpl in Hin;
      repeat (destruct Hin as [<- | Hin]; [lia |]); destruct Hin.
  - intros i Hi.
    assert (Hcases : i = 0%nat \/ i = 1%nat \/ i = 2%nat) by lia.
    destruct Hcases as [-> | [-> | ->]].
    + exists 0%nat, (SharedSolid.mkProcess 0 0 2).
      split; [reflexivity |]. split; [reflexivity |].
      intros [| [| r']] P' Hr' Hc; simpl in Hr'; try reflexivity;
        [inversion Hr'; subst P'; vm_compute in Hc; discriminate
        | destruct r'; discriminate].
    + exists 0%nat, (SharedSolid.mkProcess 0 0 2).
      split; [reflexivity |]. split; [reflexivity |].
      intros [| [| r']] P' Hr' Hc; simpl in Hr'; try reflexivity;
        [inversion Hr'; subst P'; vm_compute in Hc; discriminate
        | destruct r'; discriminate].
    + exists 1%nat, (SharedSolid.mkProcess 1 2 3).
      split; [reflexivity |]. split; [reflexivity |].
      intros [| [| r']] P' Hr' Hc; simpl in Hr'; try reflexivity;
        [inversion Hr'; subst P'; vm_compute in Hc; discriminate
        | destruct r'; discriminate].
  - exists ke, rate. split; assumption.
Defined.

(** ** The ghost nodes of the external grid *)

Lemma int_range_length (lo hi : Z) :
  length (Sable.int_range lo hi) = Z.to_nat (hi - lo).
Proof. unfold Sable.int_range. now rewrite length_map, length_seq. Qed.

Lemma In_int_range (lo hi x : Z) :
  In x (Sable.int_range lo hi) <-> (lo <= x < hi)%Z.
Proof.
  unfold Sable.int_range. rewrite in_map_iff. split.
  - intros (k & <- & Hk). apply in_seq in Hk. lia.
  - intros H. exists (Z.to_nat (x - lo)). split; [lia |]. apply in_seq. lia.
Qed.

Lemma sorted_map_increasing (f : Z -> Z) (l : list Z) :
  (forall x y, In x l -> In y l -> (x < y)%Z -> (f x < f y)%Z) ->
  StronglySorted Z.lt l -> StronglySorted Z.lt (map f l).
Proof.
  intros Hf Hs. induction Hs as [| a l Hs IH Ha]; simpl; constructor.
  - apply IH. intros x y Hx Hy. apply Hf; now right.
  - apply Forall_forall. intros y Hy. apply in_map_iff in Hy.
    destruct Hy as (x & <- & Hx).
    apply Hf; [now left | now right |].
    rewrite Forall_forall in Ha. now apply Ha.
Qed.

Lemma seq_sorted (s k : nat) : StronglySorted lt (seq s k).
Proof.
  revert s. induction k as [| k IH]; intros s; simpl; constructor.
  - apply IH.
  - apply Forall_forall. intros y Hy. apply in_seq in Hy. lia.
Qed.

Lemma int_range_sorted (lo hi : Z) : StronglySorted Z.lt (Sable.int_range lo hi).
Proof.
  unfold Sable.int_range.
  generalize (seq_sorted 0 (Z.to_nat (hi - lo))).
  generalize (seq 0 (Z.to_nat (hi - lo))). intros l Hs.
  induction Hs as [| a l Hs IH Ha]; simpl; constructor.
  - exact IH.
  - apply Forall_forall. intros y Hy. apply in_map_iff in Hy.
    destruct Hy as (k & <- & Hk). rewrite Forall_forall in Ha.
    specialize (Ha k Hk). lia.
Qed.

Lemma sorted_app (l1 l2 : list Z) :
  StronglySorted Z.lt l1 -> StronglySorted Z.lt l2 ->
  (forall x y, In x l1 -> In y l2 -> (x < y)%Z) ->
  StronglySorted Z.lt (l1 ++ l2).
Proof.
  intros H1 H2 H. induction H1 as [| a l1 H1 IH Ha]; simpl; [exact H2 |].
  constructor.
  - apply IH. intros x y Hx Hy. apply H; [now right | exact Hy].
  - apply Forall_forall. intros y Hy. apply in_app_or in Hy.
    destruct Hy as [Hy | Hy].
    + rewrite Forall_forall in Ha. now apply Ha.
    + apply H; [now left | exact Hy].
Qed.

Lemma sorted_flat_map (f : Z -> list Z) (ks : list Z) :
  StronglySorted Z.lt ks ->
  (forall k, In k ks -> StronglySorted Z.lt (f k)) ->
  (forall k k' x y, In k ks -> In k' ks -> (k < k')%Z ->
                    In x (f k) -> In y (f k') -> (x < y)%Z) ->
  StronglySorted Z.lt (flat_map f ks).
Proof.
  intros Hs. induction Hs as [| a l Hs IH Ha]; intros Hblock Hord; simpl;
    [constructor |].
  apply sorted_app.
  - apply Hblock. now left.
  - apply IH.
    + intros k Hk. apply Hblock. now right.
    + intros k k' x y Hk Hk'. apply Hord; now right.
  - intros x y Hx Hy. apply in_flat_map in Hy. destruct Hy as (k' & Hk' & Hy).
    apply (Hord a k' x y); [now left | now right | | exact Hx | exact Hy].
    rewrite Forall_forall in Ha. now apply Ha.
Qed.

Lemma length_flat_map_const {A B : Type} (f : A -> list B) (l : list A) (k : nat) :
  (forall x, In x l -> length (f x) = k) ->
  length (flat_map f l) = (length l * k)%nat.
Proof.
  induction l as [| a l IH]; intros H; simpl; [reflexivity |].
  rewrite length_app. rewrite IH by (intros; apply H; now right).
  rewrite (H a) by now left. reflexivity.
Qed.

Lemma In_interior_ids (n z_begin z_end x : Z) :
  In x (Sable.interior_ids n z_begin z_end) <->
  exists l i j,
    (z_begin <= l < z_end)%Z /\ (0 <= i < n - 2)%Z /\ (0 <= j < n - 2)%Z /\
    x = (l * n * n + n + 1 + j + i * n)%Z.
Proof.
  unfold Sable.interior_ids. rewrite in_flat_map. split.
  - intros (l & Hl & Hx). apply in_flat_map in Hx. destruct Hx as (i & Hi & Hx).
    apply in_map_iff in Hx. destruct Hx as (j & <- & Hj).
    apply In_int_range in Hl, Hi, Hj. exists l, i, j. repeat split; lia.
  - intros (l & i & j & Hl & Hi & Hj & ->).
    exists l. split; [now apply In_int_range |].
    apply in_flat_map. exists i. split; [now apply In_int_range |].
    apply in_map_iff. exists j. split; [reflexivity | now apply In_int_range].
Qed.

Lemma interior_ids_length (n z_begin z_end : Z) :
  length (Sable.interior_ids n z_begin z_end)
  = (Z.to_nat (z_end - z_begin) * (Z.to_nat (n - 2) * Z.to_nat (n - 2)))%nat.
Proof.
  unfold Sable.interior_ids.
  rewrite (length_flat_map_const _ _ (Z.to_nat (n - 2) * Z.to_nat (n - 2))).
  - now rewrite int_range_length.
  - intros l _. rewrite (length_flat_map_const _ _ (Z.to_nat (n - 2))).
    + now rewrite int_range_length, Z.sub_0_r.
    + intros i _. now rewrite length_map, int_range_length, Z.sub_0_r.
Qed.

Lemma interior_ids_sorted (n z_begin z_end : Z) :
  StronglySorted Z.lt (Sable.interior_ids n z_begin z_end).
Proof.
  unfold Sable.interior_ids.
  apply sorted_flat_map; [apply int_range_sorted | |].
  - intros l _. apply sorted_flat_map; [apply int_range_sorted | |].
    + intros i _. apply sorted_map_increasing; [| apply int_range_sorted].
      intros. lia.
    + intros i i' x y Hi Hi' Hlt Hx Hy.
      apply in_map_iff in Hx, Hy.
      destruct Hx as (j & <- & Hj), Hy as (j' & <- & Hj').
      apply In_int_range in Hi, Hi', Hj, Hj'. nia.
  - intros l l' x y _ _ Hlt Hx Hy.
    apply in_flat_map in Hx, Hy.
    destruct Hx as (i & Hi & Hx), Hy as (i' & Hi' & Hy).
    apply in_map_iff in Hx, Hy.
    destruct Hx as (j & <- & Hj), Hy as (j' & <- & Hj').
    apply In_int_range in Hi, Hi', Hj, Hj'. nia.
Qed.

(** X14.  In two dimensions, for a grid of [n] by [n] nodes and [m] by [m]
    elements ([n, m >= 1]), the two loops of [find_ghost_nodes] append
    exactly the row-major indices [r n + c] of the nodes that are not on
    the outermost ring ([1 <= r, c <= n - 2]), and likewise for the
    elements: each of them once, in increasing order, [max(0, n - 2)^2]
    nodes and [max(0, m - 2)^2] elements in all, so none for a grid of
    one or two nodes, or elements, in each direction. *)
Theorem find_ghost_nodes_lattice (int_cbrt : Z -> Outcome Z) (n m : Z) :
  (1 <= n)%Z -> (1 <= m)%Z ->
  exists nodes cells,
    Sable.find_ghost_nodes int_cbrt 2 (Sable.mkSizes n (m * m) (n * n)) [] []
    = Returns (nodes, cells) /\
    (forall x, In x nodes <->
               exists r c, (1 <= r <= n - 2)%Z /\ (1 <= c <= n - 2)%Z /\
                           x = (r * n + c)%Z) /\
    (forall x, In x cells <->
               exists r c, (1 <= r <= m - 2)%Z /\ (1 <= c <= m - 2)%Z /\
                           x = (r * m + c)%Z) /\
    StronglySorted Z.lt nodes /\ StronglySorted Z.lt cells /\
    Z.of_nat (length nodes) = (Z.max 0 (n - 2) * Z.max 0 (n - 2))%Z /\
    Z.of_nat (length cells) = (Z.max 0 (m - 2) * Z.max 0 (m - 2))%Z.
Proof.
  intros Hn Hm.
  exists (Sable.interior_ids n 0 1), (Sable.interior_ids m 0 1).
  split; [| split; [| split; [| split; [| split; [| split]]]]].
  - unfold Sable.find_ghost_nodes, Sable.int_div, Sable.int_sqrt. simpl.
    replace (n * n =? 0)%Z with false by (symmetry; apply Z.eqb_neq; nia).
    simpl bind.
    replace (m * m <? 0)%Z with false by (symmetry; apply Z.ltb_ge; nia).
    simpl bind. rewrite Z.sqrt_square by lia.
    replace (m * m =? 0)%Z with false by (symmetry; apply Z.eqb_neq; nia).
    simpl bind. rewrite !Z.quot_same by nia. reflexivity.
  - intros x. rewrite In_interior_ids. split.
    + intros (l & i & j & Hl & Hi & Hj & ->).
      assert (l = 0%Z) by lia. subst l.
      exists (i + 1)%Z, (j + 1)%Z. repeat split; try lia; ring.
    + intros (r & c & Hr & Hc & ->).
      exists 0%Z, (r - 1)%Z, (c - 1)%Z. repeat split; try lia; ring.
  - intros x. rewrite In_interior_ids. split.
    + intros (l & i & j & Hl & Hi & Hj & ->).
      assert (l = 0%Z) by lia. subst l.
      exists (i + 1)%Z, (j + 1)%Z. repeat split; try lia; ring.
    + intros (r & c & Hr & Hc & ->).
      exists 0%Z, (r - 1)%Z, (c - 1)%Z. repeat split; try lia; ring.
  - apply interior_ids_sorted.
  - apply interior_ids_sorted.
  - rewrite interior_ids_length. simpl. lia.
  - rewrite interior_ids_length. simpl. lia.
Qed.

Lemma find_ghost_nodes_lattice_witness :
  (exists nodes cells,
      Sable.find_ghost_nodes (fun _ => Undefined) 2 (Sable.mkSizes 4 (3 * 3) (4 * 4)) [] []
      = Returns (nodes, cells) /\
      Z.of_nat (length nodes) = 4%Z /\ Z.of_nat (length cells) = 1%Z) /\
  (exists nodes cells,
      Sable.find_ghost_nodes (fun _ => Undefined) 2 (Sable.mkSizes 1 (1 * 1) (1 * 1)) [] []
      = Returns (nodes, cells) /\
      Z.of_nat (length nodes) = 0%Z /\ Z.of_nat (length cells) = 0%Z).
Proof.
  split.
  - destruct (find_ghost_nodes_lattice (fun _ => Undefined) 4 3)
      as (nodes & cells & H & _ & _ & _ & _ & Hnodes & Hcells); try lia.
    exists nodes, cells. split; [exact H |]. split; [exact Hnodes | exact Hcells].
  - destruct (find_ghost_nodes_lattice (fun _ => Undefined) 1 1)
      as (nodes & cells & H & _ & _ & _ & _ & Hnodes & Hcells); try lia.
    exists nodes, cells. split; [exact H |]. split; [exact Hnodes | exact Hcells].
Defined.

(** X15.  [find_ghost_nodes] divides by the square of the number of nodes
    in one direction and by the square of the number of elements in one
    direction without a check: when the first is 0, or, in two dimensions,
    when the number of elements is not positive, the call has undefined
    behaviour.  These are the values the sizes have in [run_one_step]
    unless another process contributes larger ones. *)
Theorem find_ghost_nodes_degenerate
        (int_cbrt : Z -> Outcome Z) (sizes : Sable.Sizes)
        (non_ghost_nodes non_ghost_cells : list Z) :
  (Sable.sable_no_nodes_one_dir sizes = 0%Z ->
   forall dim,
     Sable.find_ghost_nodes int_cbrt dim sizes non_ghost_nodes non_ghost_cells
     = Undefined) /\
  ((Sable.sable_no_ele sizes <= 0)%Z ->
   Sable.find_ghost_nodes int_cbrt 2 sizes non_ghost_nodes non_ghost_cells
   = Undefined).
Proof.
  split.
  - intros Hn dim. unfold Sable.find_ghost_nodes, Sable.int_div. rewrite Hn.
    reflexivity.
  - intros He. unfold Sable.find_ghost_nodes, Sable.int_div, Sable.int_sqrt.
    destruct (Sable.sable_no_nodes_one_dir sizes * Sable.sable_no_nodes_one_dir sizes
              =? 0)%Z; [reflexivity |].
    simpl.
    destruct (Z.ltb_spec (Sable.sable_no_ele sizes) 0) as [Hneg | Hpos];
      [reflexivity |].
    simpl. replace (Sable.sable_no_ele sizes) with 0%Z by lia. reflexivity.
Qed.

Lemma find_ghost_nodes_degenerate_witness :
  Sable.find_ghost_nodes (fun _ => Undefined) 2 (Sable.mkSizes 0 0 0) [] [] = Undefined.
Proof.
  apply (find_ghost_nodes_degenerate (fun _ => Undefined) (Sable.mkSizes 0 0 0) [] []).
  reflexivity.
Defined.

(** ** The diagnostics of the Stokes solver *)

Lemma allreduce_sum_cons (x : Q) (l : list Q) :
  Diagnostics.MPI_Allreduce_SUM (x :: l) == x + Diagnostics.MPI_Allreduce_SUM l.
Proof.
  unfold Diagnostics.MPI_Allreduce_SUM. simpl. rewrite fold_left_Qplus_acc. ring.
Qed.

Lemma allreduce_sum_plus {A : Type} (f g h : A -> Q) (w : list A) :
  (forall x, In x w -> f x == g x + h x) ->
  Diagnostics.MPI_Allreduce_SUM (map f w)
  == Diagnostics.MPI_Allreduce_SUM (map g w) + Diagnostics.MPI_Allreduce_SUM (map h w).
Proof.
  induction w as [| x w IH]; intros H; simpl.
  - unfold Diagnostics.MPI_Allreduce_SUM. simpl. ring.
  - rewrite !allreduce_sum_cons, IH by (intros; apply H; now right).
    rewrite (H x) by now left. ring.
Qed.

Lemma allreduce_sum_scale {A : Type} (a : Q) (f g : A -> Q) (w : list A) :
  (forall x, In x w -> f x == a * g x) ->
  Diagnostics.MPI_Allreduce_SUM (map f w) == a * Diagnostics.MPI_Allreduce_SUM (map g w).
Proof.
  induction w as [| x w IH]; intros H; simpl.
  - unfold Diagnostics.MPI_Allreduce_SUM. simpl. ring.
  - rewrite !allreduce_sum_cons, IH by (intros; apply H; now right).
    rewrite (H x) by now left. ring.
Qed.

Lemma allreduce_sum_nonneg {A : Type} (f : A -> Q) (w : list A) :
  (forall x, In x w -> 0 <= f x) -> 0 <= Diagnostics.MPI_Allreduce_SUM (map f w).
Proof.
  induction w as [| x w IH]; intros H; simpl.
  - unfold Diagnostics.MPI_Allreduce_SUM. simpl. apply Qle_refl.
  - rewrite allreduce_sum_cons.
    assert (H1 : 0 <= f x) by (apply H; now left).
    assert (H2 : 0 <= Diagnostics.MPI_Allreduce_SUM (map f w))
      by (apply IH; intros; apply H; now right).
    lra.
Qed.

Lemma fold_left_invariant {S A : Type} (P : S -> Prop) (f : S -> A -> S) (l : list A) (s : S) :
  (forall x s, In x l -> P s -> P (f s x)) -> P s -> P (fold_left f l s).
Proof.
  revert s. induction l as [| x l IH]; intros s H Hs; simpl; [assumption |].
  apply IH; [intros y s' Hy; apply H; now right |]. apply H; [now left | assumption].
Qed.

(** *** The traction on a face *)

Lemma map2_map_map {A B C D : Type} (f : B -> C -> D) (g : A -> B) (h : A -> C)
      (l : list A) :
  LA.map2 f (map g l) (map h l) = map (fun x => f (g x) (h x)) l.
Proof. induction l as [| x l IH]; simpl; [reflexivity | now rewrite IH]. Qed.

Lemma dot_map_ext {A : Type} (u : list Q) (f g : A -> Q) (l : list A) :
  (forall x, In x l -> f x == g x) -> LA.dot u (map f l) == LA.dot u (map g l).
Proof.
  revert u. induction l as [| x l IH]; intros u H; destruct u as [| a u]; simpl;
    try reflexivity.
  rewrite (H x) by now left. rewrite IH by (intros; apply H; now right). reflexivity.
Qed.

Lemma dot_map_plus {A : Type} (u : list Q) (f g : A -> Q) (l : list A) :
  LA.dot u (map (fun x => f x + g x) l) == LA.dot u (map f l) + LA.dot u (map g l).
Proof.
  revert u. induction l as [| x l IH]; intros [| a u]; simpl; try ring.
  rewrite IH. ring.
Qed.

Lemma dot_map_scale {A : Type} (a : Q) (u : list Q) (f : A -> Q) (l : list A) :
  LA.dot u (map (fun x => a * f x) l) == a * LA.dot u (map f l).
Proof.
  revert u. induction l as [| x l IH]; intros [| b u]; simpl; try ring.
  rewrite IH. ring.
Qed.

Lemma dot_map2_plus (a b n : list Q) :
  length a = length b ->
  LA.dot (LA.map2 Qplus a b) n == LA.dot a n + LA.dot b n.
Proof.
  revert b n. induction a as [| x a IH]; intros [| y b] n Hl; simpl in *;
    try discriminate; [ring |].
  destruct n as [| z n]; [ring |]. rewrite IH by congruence. ring.
Qed.

Lemma dot_delta (i : nat) (n : list Q) (k : nat) :
  LA.dot (map (fun j => if Nat.eqb i j then 1 else 0) (seq k (length n))) n
  == if Nat.leb k i && Nat.ltb i (k + length n) then nth (i - k) n 0 else 0.
Proof.
  revert k. induction n as [| x n IH]; intros k; simpl.
  - destruct (Nat.leb k i && Nat.ltb i (k + 0)) eqn:E; [| reflexivity].
    apply andb_prop in E. destruct E as [E1 E2].
    apply Nat.leb_le in E1. apply Nat.ltb_lt in E2. lia.
  - rewrite IH.
    destruct (Nat.eqb i k) eqn:Eik.
    + apply Nat.eqb_eq in Eik. subst k.
      replace (Nat.leb (S i) i) with false by (symmetry; apply Nat.leb_gt; lia).
      replace (Nat.leb i i && Nat.ltb i (i + S (length n))) with true
        by (symmetry; apply andb_true_intro; split;
            [apply Nat.leb_le | apply Nat.ltb_lt]; lia).
      rewrite Nat.sub_diag. simpl. ring.
    + apply Nat.eqb_neq in Eik.
      destruct (Nat.leb (S k) i) eqn:E1.
      * apply Nat.leb_le in E1.
        replace (Nat.leb k i) with true by (symmetry; apply Nat.leb_le; lia).
        replace (Nat.ltb i (k + S (length n))) with (Nat.ltb i (S (k + length n)))
          by (f_equal; lia).
        simpl. destruct (Nat.ltb i (S (k + length n))).
        -- replace (i - k)%nat with (S (i - S k)) by lia. simpl. ring.
        -- simpl. ring.
      * apply Nat.leb_gt in E1.
        replace (Nat.leb k i) with false by (symmetry; apply Nat.leb_gt; lia).
        simpl. ring.
Qed.

Lemma map_nth_seq (n : list Q) : map (fun i => nth i n 0) (seq 0 (length n)) = n.
Proof.
  apply (nth_ext _ _ 0 0).
  - now rewrite length_map, length_seq.
  - intros i Hi. rewrite length_map, length_seq in Hi.
    rewrite (nth_indep _ 0 (nth (length n) n 0)) by (now rewrite length_map, length_seq).
    rewrite (map_nth (fun i => nth i n 0)). now rewrite seq_nth.
Qed.

Lemma unit_tensor_traction (dim : nat) (a : Q) (u n : list Q) :
  length n = dim ->
  LA.dot u (LA.mv (LA.t2scale a (Diagnostics.unit_symmetric_tensor dim)) n)
  == a * LA.dot u n.
Proof.
  intros Hn. unfold LA.mv, LA.t2scale, Diagnostics.unit_symmetric_tensor.
  rewrite !map_map.
  rewrite (dot_map_ext u _ (fun i => a * nth i n 0)).
  - rewrite dot_map_scale. subst dim. now rewrite map_nth_seq.
  - intros i Hi. apply in_seq in Hi. rewrite dot_tscale. subst dim.
    rewrite dot_delta. simpl.
    replace (Nat.ltb i (length n)) with true by (symmetry; apply Nat.ltb_lt; lia).
    now rewrite Nat.sub_0_r.
Qed.

Lemma traction_split (dim : nat) (p c : Q) (g : LA.Tensor2) (u n : list Q) :
  length n = dim ->
  LA.dot u (LA.mv (Diagnostics.t2plus
                     (LA.t2scale (- p) (Diagnostics.unit_symmetric_tensor dim))
                     (LA.t2scale c (Diagnostics.symmetrize dim g))) n)
  == - p * LA.dot u n + LA.dot (LA.mv (LA.t2scale c (Diagnostics.symmetrize dim g)) n) u.
Proof.
  intros Hn.
  rewrite <- (unit_tensor_traction dim (- p) u n Hn).
  rewrite (dot_comm (LA.mv _ n) u).
  unfold Diagnostics.t2plus, LA.mv, LA.t2scale, Diagnostics.unit_symmetric_tensor,
    Diagnostics.symmetrize.
  rewrite !map_map, map2_map_map, map_map.
  rewrite <- dot_map_plus. apply dot_map_ext.
  intros i _. apply dot_map2_plus.
  unfold LA.tscale. now rewrite !length_map.
Qed.

(** *** The boundary work *)

Section EnergyFacts.

Variable parameters : Fluid.AllParameters.
Variable dim : nat.
Variables n_q_points n_face_q_points : nat.
Variable delta_t : Q.

Lemma energy_at_point_work (cell : Diagnostics.Cell) (is_artificial : bool) (q : nat)
      (e : Diagnostics.Energy) :
  work_split e ->
  work_split (Diagnostics.energy_at_point parameters delta_t cell is_artificial q e).
Proof.
  unfold work_split, Diagnostics.energy_at_point.
  destruct is_artificial; simpl; trivial.
Qed.

Lemma energy_at_face_point_work (face : Diagnostics.Face) (qf : nat)
      (e : Diagnostics.Energy) :
  length (Diagnostics.normal_vector face qf) = dim ->
  work_split e ->
  work_split (Diagnostics.energy_at_face_point parameters dim face qf e).
Proof.
  intros Hn [Hin Hout]. unfold work_split, Diagnostics.energy_at_face_point.
  destruct (Nat.eqb (Diagnostics.boundary_id face) 0); simpl.
  - split; [| exact Hout]. rewrite Hin, (traction_split dim) by exact Hn. ring.
  - destruct (Nat.eqb (Diagnostics.boundary_id face) 1); simpl.
    + split; [exact Hin |]. rewrite Hout, (traction_split dim) by exact Hn. ring.
    + split; assumption.
Qed.

Lemma local_energy_work (cells : list Diagnostics.Cell) :
  normals_of_dim dim n_face_q_points cells ->
  work_split (Diagnostics.local_energy parameters dim n_q_points n_face_q_points
                                       delta_t cells).
Proof.
  intros Hn. unfold Diagnostics.local_energy.
  apply fold_left_invariant; [| split; simpl; ring].
  intros cell e Hcell He. unfold Diagnostics.energy_of_cell.
  destruct (negb (Diagnostics.is_locally_owned cell)); [exact He |].
  assert (Hq : work_split
                 (for_loop n_q_points
                    (Diagnostics.energy_at_point parameters delta_t cell
                       (Diagnostics.indicator cell =? 1)%Z) e)).
  { apply for_loop_invariant; [| exact He].
    intros q s _. apply energy_at_point_work. }
  destruct (negb (Diagnostics.indicator cell =? 1)%Z); [| exact Hq].
  apply fold_left_invariant; [| exact Hq].
  intros face s Hface Hs.
  destruct (Diagnostics.at_boundary face); [| exact Hs].
  apply for_loop_invariant; [| exact Hs].
  intros qf s' Hqf. apply energy_at_face_point_work.
  now apply (Hn cell face qf).
Qed.

(** *** Signs *)

Lemma norm_square_nonneg (t : LA.Tensor1) : 0 <= Diagnostics.norm_square t.
Proof.
  unfold Diagnostics.norm_square. induction t as [| x t IH]; simpl; [apply Qle_refl |].
  assert (H : 0 <= x * x) by nra. lra.
Qed.

Lemma ddot_self_nonneg (t : LA.Tensor2) : 0 <= LA.ddot t t.
Proof.
  induction t as [| r t IH]; simpl; [apply Qle_refl |].
  pose proof (norm_square_nonneg r) as H. unfold Diagnostics.norm_square in H. lra.
Qed.

Lemma Qdiv_nonneg (a b : Q) : 0 <= a -> 0 < b -> 0 <= a / b.
Proof.
  intros Ha Hb. unfold Qdiv. apply Qmult_le_0_compat; [exact Ha |].
  apply Qinv_le_0_compat. now apply Qlt_le_weak.
Qed.

Hypothesis fluid_rho_nonneg : 0 <= Fluid.fluid_rho parameters.
Hypothesis solid_rho_nonneg : 0 <= Fluid.solid_rho parameters.
Hypothesis viscosity_nonneg : 0 <= Fluid.viscosity parameters.
Hypothesis delta_t_positive : 0 < delta_t.

Lemma energy_at_point_nonneg (cell : Diagnostics.Cell) (is_artificial : bool) (q : nat)
      (e : Diagnostics.Energy) :
  0 <= Diagnostics.JxW cell q ->
  energies_nonnegative e ->
  energies_nonnegative
    (Diagnostics.energy_at_point parameters delta_t cell is_artificial q e).
Proof.
  intros HJ (H1 & H2 & H3 & H4 & H5 & H6).
  pose proof (norm_square_nonneg (Diagnostics.velocity_values cell q)) as Hu.
  pose proof (norm_square_nonneg
                (LA.vminus (Diagnostics.velocity_values cell q)
                           (Diagnostics.velocity_prev_values cell q))) as Hd.
  pose proof (ddot_self_nonneg (Diagnostics.sym_grad_u cell q)) as Hs.
  assert (Hf : 0 <= 0.5 * Fluid.fluid_rho parameters / delta_t)
    by (apply Qdiv_nonneg; [lra | exact delta_t_positive]).
  assert (Hso : 0 <= 0.5 * Fluid.solid_rho parameters / delta_t)
    by (apply Qdiv_nonneg; [lra | exact delta_t_positive]).
  assert (Hv : 0 <= 2.0 * Fluid.viscosity parameters * LA.ddot (Diagnostics.sym_grad_u cell q)
                                            (Diagnostics.sym_grad_u cell q)
                    * Diagnostics.JxW cell q).
  { repeat apply Qmult_le_0_compat; try assumption. lra. }
  unfold energies_nonnegative, Diagnostics.energy_at_point.
  destruct is_artificial; simpl; repeat split; try assumption.
  - assert (0 <= 0.5 * Fluid.solid_rho parameters
                 * Diagnostics.norm_square (Diagnostics.velocity_values cell q)
                 * Diagnostics.JxW cell q)
      by (repeat apply Qmult_le_0_compat; try assumption; lra).
    lra.
  - lra.
  - assert (0 <= 0.5 * Fluid.solid_rho parameters / delta_t
                 * Diagnostics.norm_square
                     (LA.vminus (Diagnostics.velocity_values cell q)
                                (Diagnostics.velocity_prev_values cell q))
                 * Diagnostics.JxW cell q)
      by (apply Qmult_le_0_compat; [apply Qmult_le_0_compat |]; assumption).
    lra.
  - assert (0 <= 0.5 * Fluid.fluid_rho parameters
                 * Diagnostics.norm_square (Diagnostics.velocity_values cell q)
                 * Diagnostics.JxW cell q)
      by (repeat apply Qmult_le_0_compat; try assumption; lra).
    lra.
  - lra.
  - assert (0 <= 0.5 * Fluid.fluid_rho parameters / delta_t
                 * Diagnostics.norm_square
                     (LA.vminus (Diagnostics.velocity_values cell q)
                                (Diagnostics.velocity_prev_values cell q))
                 * Diagnostics.JxW cell q)
      by (apply Qmult_le_0_compat; [apply Qmult_le_0_compat |]; assumption).
    lra.
Qed.

Lemma energy_at_face_point_nonneg (face : Diagnostics.Face) (qf : nat)
      (e : Diagnostics.Energy) :
  energies_nonnegative e ->
  energies_nonnegative (Diagnostics.energy_at_face_point parameters dim face qf e).
Proof.
  unfold energies_nonnegative, Diagnostics.energy_at_face_point.
  destruct (Nat.eqb (Diagnostics.boundary_id face) 0); simpl; trivial.
  destruct (Nat.eqb (Diagnostics.boundary_id face) 1); simpl; trivial.
Qed.

Lemma local_energy_nonneg (cells : list Diagnostics.Cell) :
  weights_nonnegative n_q_points cells ->
  energies_nonnegative (Diagnostics.local_energy parameters dim n_q_points
                                                 n_face_q_points delta_t cells).
Proof.
  intros HJ. unfold Diagnostics.local_energy.
  apply fold_left_invariant;
    [| unfold energies_nonnegative; simpl; repeat split; apply Qle_refl].
  intros cell e Hcell He. unfold Diagnostics.energy_of_cell.
  destruct (Diagnostics.is_locally_owned cell) eqn:Hown; simpl; [| exact He].
  assert (Hq : energies_nonnegative
                 (for_loop n_q_points
                    (Diagnostics.energy_at_point parameters delta_t cell
                       (Diagnostics.indicator cell =? 1)%Z) e)).
  { apply for_loop_invariant; [| exact He].
    intros q s Hlt. apply energy_at_point_nonneg. now apply HJ. }
  destruct (negb (Diagnostics.indicator cell =? 1)%Z); [| exact Hq].
  apply fold_left_invariant; [| exact Hq].
  intros face s Hface Hs.
  destruct (Diagnostics.at_boundary face); [| exact Hs].
  apply for_loop_invariant; [| exact Hs].
  intros qf s' _. apply energy_at_face_point_nonneg.
Qed.

End EnergyFacts.

Lemma fold_left_related {S T A : Type} (R : S -> T -> Prop) (f : S -> A -> S)
      (g : T -> A -> T) (l : list A) (s : S) (t : T) :
  (forall x s t, In x l -> R s t -> R (f s x) (g t x)) -> R s t ->
  R (fold_left f l s) (fold_left g l t).
Proof.
  revert s t. induction l as [| x l IH]; intros s t H Hst; simpl; [assumption |].
  apply IH; [intros y s' t' Hy; apply H; now right |]. apply H; [now left | assumption].
Qed.

Lemma for_loop_related {S T : Type} (R : S -> T -> Prop) (n : nat)
      (f : nat -> S -> S) (g : nat -> T -> T) (s : S) (t : T) :
  (forall k s t, (k < n)%nat -> R s t -> R (f k s) (g k t)) -> R s t ->
  R (for_loop n f s) (for_loop n g t).
Proof.
  induction n as [| n IH]; intros H Hst; simpl; [assumption |].
  apply H; [lia |]. apply IH; [| assumption]. intros k s' t' Hk. apply H. lia.
Qed.

Lemma local_ke_of_fluid_sums (parameters : Fluid.AllParameters)
      (dim n_q_points n_face_q_points : nat) (delta_t : Q)
      (cells : list Diagnostics.Cell) :
  Diagnostics.local_ke
    (Diagnostics.local_energy parameters dim n_q_points n_face_q_points delta_t cells)
  == 0.5 * Fluid.fluid_rho parameters
     * fst (Diagnostics.local_fluid_sums n_q_points cells).
Proof.
  unfold Diagnostics.local_energy, Diagnostics.local_fluid_sums.
  apply (fold_left_related
           (fun e sums => Diagnostics.local_ke e
                          == 0.5 * Fluid.fluid_rho parameters * fst sums));
    [| simpl; ring].
  intros cell e sums _ He. unfold Diagnostics.energy_of_cell.
  destruct (Diagnostics.is_locally_owned cell); simpl; [| exact He].
  destruct (Diagnostics.indicator cell =? 1)%Z; simpl.
  - apply for_loop_invariant; [| exact He].
    intros q s _ Hs. unfold Diagnostics.energy_at_point. simpl. exact Hs.
  - apply (fold_left_invariant
             (fun e => Diagnostics.local_ke e == 0.5 * Fluid.fluid_rho parameters * _)).
    + intros face s _ Hs. destruct (Diagnostics.at_boundary face); [| exact Hs].
      apply for_loop_invariant; [| exact Hs].
      intros qf s' _ Hs'. unfold Diagnostics.energy_at_face_point.
      destruct (Nat.eqb (Diagnostics.boundary_id face) 0); simpl; [exact Hs' |].
      destruct (Nat.eqb (Diagnostics.boundary_id face) 1); simpl; exact Hs'.
    + apply (for_loop_related
               (fun e sums => Diagnostics.local_ke e
                              == 0.5 * Fluid.fluid_rho parameters * fst sums));
        [| exact He].
      intros q s t _ Hst. unfold Diagnostics.energy_at_point. simpl.
      rewrite Hst. ring.
Qed.

Lemma local_fluid_sums_nonneg (n_q_points : nat) (cells : list Diagnostics.Cell) :
  weights_nonnegative n_q_points cells ->
  0 <= fst (Diagnostics.local_fluid_sums n_q_points cells) /\
  0 <= snd (Diagnostics.local_fluid_sums n_q_points cells).
Proof.
  intros HJ. unfold Diagnostics.local_fluid_sums.
  apply (fold_left_invariant (fun sums : Q * Q => 0 <= fst sums /\ 0 <= snd sums));
    [| simpl; split; apply Qle_refl].
  intros cell sums Hcell Hs.
  destruct (Diagnostics.is_locally_owned cell) eqn:Hown; [| exact Hs].
  destruct (Diagnostics.indicator cell =? 1)%Z; [exact Hs |].
  apply (for_loop_invariant (fun sums : Q * Q => 0 <= fst sums /\ 0 <= snd sums));
    [| exact Hs].
  intros q s Hq [H1 H2]. simpl.
  pose proof (HJ cell q Hcell Hown Hq) as HJq.
  pose proof (norm_square_nonneg (Diagnostics.velocity_values cell q)) as Hu.
  assert (Hd : 0 <= Diagnostics.div_u_values cell q * Diagnostics.div_u_values cell q)
    by nra.
  assert (0 <= Diagnostics.norm_square (Diagnostics.velocity_values cell q)
               * Diagnostics.JxW cell q) by (apply Qmult_le_0_compat; assumption).
  assert (0 <= Diagnostics.div_u_values cell q * Diagnostics.div_u_values cell q
               * Diagnostics.JxW cell q) by (apply Qmult_le_0_compat; assumption).
  split; lra.
Qed.

Lemma local_sum_gradp_nonneg (n_q_points : nat) (cells : list Diagnostics.Cell) :
  weights_nonnegative n_q_points cells ->
  0 <= Diagnostics.local_sum_gradp n_q_points cells.
Proof.
  intros HJ. unfold Diagnostics.local_sum_gradp.
  apply (fold_left_invariant (fun s : Q => 0 <= s)); [| apply Qle_refl].
  intros cell s Hcell Hs.
  destruct (Diagnostics.is_locally_owned cell) eqn:Hown; simpl; [| exact Hs].
  destruct (negb (Diagnostics.indicator cell =? 0)%Z); [exact Hs |].
  apply (for_loop_invariant (fun s : Q => 0 <= s)); [| exact Hs].
  intros q s' Hq Hs'.
  pose proof (HJ cell q Hcell Hown Hq) as HJq.
  pose proof (norm_square_nonneg (Diagnostics.gradp_values cell q)) as Hg.
  assert (0 <= Diagnostics.norm_square (Diagnostics.gradp_values cell q)
               * Diagnostics.JxW cell q) by (apply Qmult_le_0_compat; assumption).
  lra.
Qed.

(** X16.  The work on the inlet that [compute_energy_estimates] writes is
    the sum of the pressure power and the shear power it writes for the
    inlet, and the same holds on the outlet: the integrand
    [u . (sigma n)] with [sigma = -p I + 2 mu eps(u)] is
    [-p (u . n) + (2 mu eps(u) n) . u] at every quadrature point of a
    face. *)
Theorem boundary_work_is_pressure_and_shear_power
        (parameters : Fluid.AllParameters) (dim n_q_points n_face_q_points : nat)
        (delta_t : Q) (world : list (list Diagnostics.Cell)) :
  (forall cells, In cells world -> normals_of_dim dim n_face_q_points cells) ->
  work_split (Diagnostics.compute_energy_estimates parameters dim n_q_points
                                                   n_face_q_points delta_t world).
Proof.
  intros Hn. unfold work_split, Diagnostics.compute_energy_estimates. simpl.
  split; apply allreduce_sum_plus; intros cells Hcells;
    apply (local_energy_work parameters dim n_q_points n_face_q_points delta_t cells
                             (Hn cells Hcells)).
Qed.

Lemma boundary_work_is_pressure_and_shear_power_witness :
  work_split (Diagnostics.compute_energy_estimates (Sample.fluid_parameters 2 1) 2 1 1
                                                   (1 # 2) Sample.channel).
Proof.
  apply boundary_work_is_pressure_and_shear_power.
  intros cells [<- | [<- | []]] cell face qf Hcell Hface _;
    simpl in Hcell; destruct Hcell as [<- | [<- | []]]; simpl in Hface;
    try contradiction; destruct Hface as [<- | []]; reflexivity.
Defined.

(** X17.  With densities and a viscosity that are not negative, a positive
    step size and quadrature weights that are not negative, none of the
    energies and dissipations that [compute_energy_estimates] writes is
    negative, and neither are the sums of which [compute_fluid_norms] and
    [compute_pressure_gradient_norm] take the square root. *)
Theorem diagnostics_nonnegative
        (parameters : Fluid.AllParameters) (dim n_q_points n_face_q_points : nat)
        (delta_t : Q) (world : list (list Diagnostics.Cell)) :
  0 <= Fluid.fluid_rho parameters ->
  0 <= Fluid.solid_rho parameters ->
  0 <= Fluid.viscosity parameters ->
  0 < delta_t ->
  (forall cells, In cells world -> weights_nonnegative n_q_points cells) ->
  energies_nonnegative (Diagnostics.compute_energy_estimates
                          parameters dim n_q_points n_face_q_points delta_t world) /\
  0 <= fst (Diagnostics.compute_fluid_norms n_q_points world) /\
  0 <= snd (Diagnostics.compute_fluid_norms n_q_points world) /\
  0 <= Diagnostics.compute_pressure_gradient_norm n_q_points world.
Proof.
  intros Hf Hs Hv Hdt HJ.
  assert (He : forall cells, In cells world ->
                 energies_nonnegative
                   (Diagnostics.local_energy parameters dim n_q_points n_face_q_points
                                             delta_t cells)).
  { intros cells Hcells. apply local_energy_nonneg; try assumption. now apply HJ. }
  split; [| split; [| split]].
  - unfold energies_nonnegative, Diagnostics.compute_energy_estimates. simpl.
    repeat split; apply allreduce_sum_nonneg; intros cells Hcells;
      destruct (He cells Hcells) as (H1 & H2 & H3 & H4 & H5 & H6); assumption.
  - simpl. apply allreduce_sum_nonneg. intros cells Hcells.
    now apply local_fluid_sums_nonneg, HJ.
  - simpl. apply allreduce_sum_nonneg. intros cells Hcells.
    now apply local_fluid_sums_nonneg, HJ.
  - unfold Diagnostics.compute_pressure_gradient_norm.
    apply allreduce_sum_nonneg. intros cells Hcells.
    now apply local_sum_gradp_nonneg, HJ.
Qed.

Lemma diagnostics_nonnegative_witness :
  energies_nonnegative (Diagnostics.compute_energy_estimates
                          (Sample.fluid_parameters 2 1) 2 1 1 (1 # 2) Sample.channel) /\
  0 <= fst (Diagnostics.compute_fluid_norms 1 Sample.channel) /\
  0 <= snd (Diagnostics.compute_fluid_norms 1 Sample.channel) /\
  0 <= Diagnostics.compute_pressure_gradient_norm 1 Sample.channel.
Proof.
  apply diagnostics_nonnegative; try (simpl; lra).
  intros cells [<- | [<- | []]] cell q Hcell _ _;
    simpl in Hcell; destruct Hcell as [<- | [<- | []]]; simpl; lra.
Defined.

(** X18.  The kinetic energy of the fluid that [compute_energy_estimates]
    writes is [0.5 fluid_rho] times the sum of which [compute_fluid_norms]
    takes the square root for the norm of the velocity: the two functions
    integrate the square of the velocity over the same cells, those the
    process owns whose indicator is not 1. *)
Theorem kinetic_energy_of_velocity_norm
        (parameters : Fluid.AllParameters) (dim n_q_points n_face_q_points : nat)
        (delta_t : Q) (world : list (list Diagnostics.Cell)) :
  Diagnostics.local_ke (Diagnostics.compute_energy_estimates
                          parameters dim n_q_points n_face_q_points delta_t world)
  == 0.5 * Fluid.fluid_rho parameters
     * fst (Diagnostics.compute_fluid_norms n_q_points world).
Proof.
  unfold Diagnostics.compute_energy_estimates, Diagnostics.compute_fluid_norms. simpl.
  apply allreduce_sum_scale. intros cells _. apply local_ke_of_fluid_sums.
Qed.

(** ** The time loop of the Stokes solver *)

Lemma Qltb_ge (x y : Q) : Fluid.Qltb x y = false <-> y <= x.
Proof.
  split; intros H.
  - apply Qnot_lt_le. intros Hlt. apply Qltb_lt in Hlt. congruence.
  - destruct (Fluid.Qltb x y) eqn:E; [| reflexivity].
    apply Qltb_lt in E. exfalso. apply (Qlt_not_le _ _ E H).
Qed.

Lemma iter_shift {A : Type} (f : A -> A) (k : nat) (x : A) :
  Nat.iter k f (f x) = Nat.iter (S k) f x.
Proof. induction k as [| k IH]; simpl; [reflexivity | now rewrite IH]. Qed.

Section StokesRunFacts.

Variable increment : Time.Time -> Time.Time.
Variable initialize : Outcome unit.
Variable first_output : Outcome unit.
Variable step_work : Time.Time -> Outcome unit.
Variable end_time : Q.

Local Abbreviation run_one_step_new :=
  (StokesRun.run_one_step_new increment first_output step_work).
Local Abbreviation time_loop :=
  (StokesRun.time_loop increment first_output step_work end_time).

(** A step that returns leaves the clock [increment] gives. *)
Lemma run_one_step_new_returns (t t' : Time.Time) :
  run_one_step_new t = Returns t' -> t' = increment t.
Proof.
  unfold StokesRun.run_one_step_new.
  destruct (if Nat.eqb (Time.get_timestep t) 0 then first_output else Returns tt)
    as [[] | e |]; try discriminate.
  cbn [bind]. cbv zeta.
  destruct (step_work (increment t)) as [[] | e |]; try discriminate.
  cbn [bind]. intros H. now inversion H.
Qed.

(** The loop from the clock [t]: it takes the steps that return until the
    first clock within the tolerance of the end. *)
Lemma time_loop_stops (n : nat) :
  forall t,
    (forall k, (k < n)%nat ->
               1e-12 < end_time - Time.current (Nat.iter k increment t) /\
               run_one_step_new (Nat.iter k increment t)
               = Returns (Nat.iter (S k) increment t)) ->
    end_time - Time.current (Nat.iter n increment t) <= 1e-12 ->
    forall fuel, (n < fuel)%nat ->
                 time_loop fuel t = Some (Returns (Nat.iter n increment t)).
Proof.
  induction n as [| n IH]; intros t Hsteps Hend fuel Hfuel;
    (destruct fuel as [| fuel]; [lia |]); cbn [StokesRun.time_loop].
  - apply Qltb_ge in Hend. simpl in Hend. now rewrite Hend.
  - destruct (Hsteps 0%nat ltac:(lia)) as [Hgap Hstep]. simpl in Hgap, Hstep.
    apply Qltb_lt in Hgap. rewrite Hgap, Hstep.
    rewrite <- iter_shift. apply IH; [| now rewrite iter_shift | lia].
    intros k Hk. rewrite !iter_shift. apply Hsteps. lia.
Qed.

Lemma time_loop_fails (n : nat) (failure : Outcome Time.Time) :
  forall t,
    (forall k, (k < n)%nat ->
               1e-12 < end_time - Time.current (Nat.iter k increment t) /\
               run_one_step_new (Nat.iter k increment t)
               = Returns (Nat.iter (S k) increment t)) ->
    1e-12 < end_time - Time.current (Nat.iter n increment t) ->
    run_one_step_new (Nat.iter n increment t) = failure ->
    (forall t', failure <> Returns t') ->
    forall fuel, (n < fuel)%nat -> time_loop fuel t = Some failure.
Proof.
  induction n as [| n IH]; intros t Hsteps Hgap Hfail Hnot fuel Hfuel;
    (destruct fuel as [| fuel]; [lia |]); cbn [StokesRun.time_loop].
  - simpl in Hgap, Hfail. apply Qltb_lt in Hgap. rewrite Hgap, Hfail.
    destruct failure as [t' | e |]; [exfalso; exact (Hnot t' eq_refl) | |];
      reflexivity.
  - destruct (Hsteps 0%nat ltac:(lia)) as [Hgap0 Hstep]. simpl in Hgap0, Hstep.
    apply Qltb_lt in Hgap0. rewrite Hgap0, Hstep.
    apply IH; [| now rewrite iter_shift | now rewrite iter_shift | exact Hnot | lia].
    intros k Hk. rewrite !iter_shift. apply Hsteps. lia.
Qed.

Lemma time_loop_never_ends (fuel : nat) :
  forall t,
    (forall k, 1e-12 < end_time - Time.current (Nat.iter k increment t) /\
               run_one_step_new (Nat.iter k increment t)
               = Returns (Nat.iter (S k) increment t)) ->
    time_loop fuel t = None.
Proof.
  induction fuel as [| fuel IH]; intros t Hsteps; cbn [StokesRun.time_loop];
    [reflexivity |].
  destruct (Hsteps 0%nat) as [Hgap Hstep]. simpl in Hgap, Hstep.
  apply Qltb_lt in Hgap. rewrite Hgap, Hstep. apply IH.
  intros k. rewrite !iter_shift. apply Hsteps.
Qed.

End StokesRunFacts.

(** X19.  [Stokes::run] takes one step whatever the clock, and then
    steps while the end time is more than [1e-12] ahead.  Writing [t_k]
    for the clock after [k] steps: when the setup and the first [n + 1]
    steps return, [t_1 .. t_n] are more than [1e-12] short of the end
    time and [t_(n+1)] is not, the function returns after exactly
    [n + 1] steps, and so after one step when the end time is reached
    before it starts; when step [n + 1] is the first that does not
    return, the function ends with the exception of that step; and when
    every step returns and no clock [t_k], [k >= 1], comes within
    [1e-12] of the end time, as with a step that leaves the time where it
    is, the function never returns. *)
Theorem stokes_run_steps
        (increment : Time.Time -> Time.Time) (first_output : Outcome unit)
        (step_work : Time.Time -> Outcome unit) (end_time : Q) (t : Time.Time) :
  let step := StokesRun.run_one_step_new increment first_output step_work in
  let run := StokesRun.run increment (Returns tt) first_output step_work end_time in
  let clock := fun k => Nat.iter k increment t in
  (forall n,
      (forall k, (k <= n)%nat -> step (clock k) = Returns (clock (S k))) ->
      (forall k, (1 <= k <= n)%nat -> 1e-12 < end_time - Time.current (clock k)) ->
      end_time - Time.current (clock (S n)) <= 1e-12 ->
      forall fuel, (n < fuel)%nat -> run fuel t = Some (Returns (clock (S n)))) /\
  (forall n failure,
      (forall k, (k < n)%nat -> step (clock k) = Returns (clock (S k))) ->
      (forall k, (1 <= k <= n)%nat -> 1e-12 < end_time - Time.current (clock k)) ->
      step (clock n) = failure ->
      (forall t', failure <> Returns t') ->
      forall fuel, (n <= fuel)%nat -> run fuel t = Some failure) /\
  ((forall k, step (clock k) = Returns (clock (S k))) ->
   (forall k, (1 <= k)%nat -> 1e-12 < end_time - Time.current (clock k)) ->
   forall fuel, run fuel t = None) /\
  (forall initialize fuel,
      (forall u, initialize <> Returns u) ->
      StokesRun.run increment initialize first_output step_work end_time fuel t
      = Some (bind initialize (fun _ => step t))).
Proof.
  cbv zeta. split; [| split; [| split]].
  - intros n Hsteps Hgaps Hend fuel Hfuel. unfold StokesRun.run. cbn [bind].
    pose proof (Hsteps 0%nat ltac:(lia)) as H0. simpl in H0. rewrite H0.
    rewrite <- (iter_shift increment n t).
    apply time_loop_stops; [| now rewrite iter_shift | exact Hfuel].
    intros k Hk. rewrite !iter_shift. split.
    + apply Hgaps. lia.
    + apply (Hsteps (S k)). lia.
  - intros n failure Hsteps Hgaps Hfail Hnot fuel Hfuel.
    unfold StokesRun.run. cbn [bind].
    destruct n as [| n].
    + simpl in Hfail. rewrite Hfail.
      destruct failure as [t' | e |]; [exfalso; exact (Hnot t' eq_refl) | |];
        reflexivity.
    + pose proof (Hsteps 0%nat ltac:(lia)) as H0. simpl in H0. rewrite H0.
      apply (time_loop_fails increment first_output step_work end_time n failure);
        [| rewrite iter_shift; apply Hgaps; lia
         | rewrite iter_shift; exact Hfail | exact Hnot | lia].
      intros k Hk. rewrite !iter_shift. split.
      * apply Hgaps. lia.
      * apply (Hsteps (S k)). lia.
  - intros Hsteps Hgaps fuel. unfold StokesRun.run. cbn [bind].
    pose proof (Hsteps 0%nat) as H0. simpl in H0. rewrite H0.
    apply time_loop_never_ends. intros k. rewrite !iter_shift. split.
    + apply Hgaps. lia.
    + apply (Hsteps (S k)).
  - intros initialize fuel Hnot. unfold StokesRun.run.
    destruct initialize as [u | e |]; [exfalso; exact (Hnot u eq_refl) | |];
      reflexivity.
Qed.

Lemma stokes_run_steps_witness :
  StokesRun.run Time.increment (Returns tt) (Returns tt) (fun _ => Returns tt) 1 2
                (Time.mkTime 0 (1 # 2) 0)
  = Some (Returns (Time.mkTime (0 + (1 # 2) + (1 # 2)) (1 # 2) 2)) /\
  StokesRun.run Time.increment (Returns tt) (Returns tt) (fun _ => Returns tt) 0 1
                (Time.mkTime 0 (1 # 2) 0)
  = Some (Returns (Time.mkTime (0 + (1 # 2)) (1 # 2) 1)) /\
  StokesRun.run Time.increment (Returns tt) (Returns tt)
                (fun time => if Nat.eqb (Time.get_timestep time) 2
                             then Throws ConvergenceError else Returns tt)
                1 5 (Time.mkTime 0 (1 # 4) 0)
  = Some (Throws ConvergenceError) /\
  (forall fuel,
      StokesRun.run (fun time => Time.mkTime (Time.current time) (Time.get_delta_t time)
                                             (S (Time.get_timestep time)))
                    (Returns tt) (Returns tt) (fun _ => Returns tt) 2 fuel
                    (Time.mkTime 1 (1 # 100000000000000000) 7)
      = None).
Proof.
  split; [| split; [| split]].
  - destruct (stokes_run_steps Time.increment (Returns tt) (fun _ => Returns tt) 1
                               (Time.mkTime 0 (1 # 2) 0)) as (H & _).
    cbv zeta in H. apply (H 1%nat).
    + intros k Hk. destruct k as [| [| k]]; [reflexivity | reflexivity | lia].
    + intros k Hk. assert (k = 1%nat) by lia. subst k. reflexivity.
    + discriminate.
    + lia.
  - destruct (stokes_run_steps Time.increment (Returns tt) (fun _ => Returns tt) 0
                               (Time.mkTime 0 (1 # 2) 0)) as (H & _).
    cbv zeta in H. apply (H 0%nat).
    + intros k Hk. assert (k = 0%nat) by lia. subst k. reflexivity.
    + intros k Hk. lia.
    + discriminate.
    + lia.
  - destruct (stokes_run_steps Time.increment (Returns tt)
                               (fun time => if Nat.eqb (Time.get_timestep time) 2
                                            then Throws ConvergenceError
                                            else Returns tt)
                               1 (Time.mkTime 0 (1 # 4) 0)) as (_ & H & _).
    cbv zeta in H. apply (H 1%nat).
    + intros k Hk. assert (k = 0%nat) by lia. subst k. reflexivity.
    + intros k Hk. assert (k = 1%nat) by lia. subst k. reflexivity.
    + reflexivity.
    + intros t'. discriminate.
    + lia.
  - destruct (stokes_run_steps
                (fun time => Time.mkTime (Time.current time) (Time.get_delta_t time)
                                         (S (Time.get_timestep time)))
                (Returns tt) (fun _ => Returns tt) 2
                (Time.mkTime 1 (1 # 100000000000000000) 7)) as (_ & _ & H & _).
    cbv zeta in H. apply H.
    + intros k. unfold StokesRun.run_one_step_new.
      destruct (Nat.eqb _ 0); reflexivity.
    + intros k _.
      assert (Hc : Time.current
                     (Nat.iter k
                        (fun time => Time.mkTime (Time.current time)
                                                 (Time.get_delta_t time)
                                                 (S (Time.get_timestep time)))
                        (Time.mkTime 1 (1 # 100000000000000000) 7)) = 1).
      { induction k as [| k IH]; [reflexivity | exact IH]. }
      rewrite Hc. reflexivity.
Defined.

(** ** The constrained points of the solid *)

Lemma for_each_app {A S : Type} (body : A -> S -> Outcome S) (xs ys : list A) (s : S) :
  for_each (xs ++ ys) body s = bind (for_each xs body s) (for_each ys body).
Proof.
  revert s. induction xs as [| x xs IH]; intros s; simpl; [reflexivity |].
  destruct (body x s) as [s' | e |]; simpl; [apply IH | reflexivity | reflexivity].
Qed.

Lemma for_each_map {A B S : Type} (h : A -> B) (body : B -> S -> Outcome S)
      (xs : list A) (s : S) :
  for_each (map h xs) body s = for_each xs (fun x => body (h x)) s.
Proof.
  revert s. induction xs as [| x xs IH]; intros s; simpl; [reflexivity |].
  destruct (body (h x) s) as [s' | e |]; simpl; [apply IH | reflexivity | reflexivity].
Qed.

Lemma for_each_ext {A S : Type} (f g : A -> S -> Outcome S) (xs : list A) (s : S) :
  (forall x s, In x xs -> f x s = g x s) -> for_each xs f s = for_each xs g s.
Proof.
  revert s. induction xs as [| x xs IH]; intros s H; simpl; [reflexivity |].
  rewrite (H x s) by now left.
  destruct (g x s) as [s' | e |]; simpl; try reflexivity.
  apply IH. intros y s'' Hy. apply H. now right.
Qed.

Lemma for_each_flat_map {A B S : Type} (g : A -> list B) (body : B -> S -> Outcome S)
      (xs : list A) (s : S) :
  for_each (flat_map g xs) body s = for_each xs (fun x => for_each (g x) body) s.
Proof.
  revert s. induction xs as [| x xs IH]; intros s; simpl; [reflexivity |].
  rewrite for_each_app.
  destruct (for_each (g x) body s) as [s' | e |]; simpl;
    [apply IH | reflexivity | reflexivity].
Qed.

Lemma update_map_seq {A : Type} (f : A -> A) (g : nat -> A) (n k idx : nat) :
  LA.update idx f (map g (seq k n))
  = map (fun i => if Nat.eqb i (k + idx) then f (g i) else g i) (seq k n).
Proof.
  revert k idx. induction n as [| n IH]; intros k idx; simpl.
  - now destruct idx.
  - destruct idx as [| idx]; simpl.
    + rewrite Nat.add_0_r, Nat.eqb_refl. f_equal.
      apply map_ext_in. intros i Hi. apply in_seq in Hi.
      replace (Nat.eqb i k) with false by (symmetry; apply Nat.eqb_neq; lia).
      reflexivity.
    + replace (Nat.eqb k (k + S idx)) with false by (symmetry; apply Nat.eqb_neq; lia).
      f_equal. rewrite IH. apply map_ext. intros i.
      now replace (S k + idx)%nat with (k + S idx)%nat by lia.
Qed.

Lemma touched_of_update (n_vertices : nat) (seen : list nat) (index : nat) :
  LA.update index (fun _ => true) (touched_of n_vertices seen)
  = touched_of n_vertices (index :: seen).
Proof.
  unfold touched_of. rewrite update_map_seq. apply map_ext. intros i. simpl.
  destruct (Nat.eqb i index); reflexivity.
Qed.

Lemma touched_of_subscript (n_vertices : nat) (seen : list nat) (index : nat) :
  (index < n_vertices)%nat ->
  subscript (touched_of n_vertices seen) (Z.of_nat index)
  = Returns (existsb (Nat.eqb index) seen).
Proof.
  intros H. rewrite (subscript_in_range _ _ false)
    by (unfold touched_of; now rewrite length_map, length_seq).
  f_equal. unfold touched_of.
  rewrite (nth_indep _ false (existsb (Nat.eqb n_vertices) seen))
    by (now rewrite length_map, length_seq).
  rewrite (map_nth (fun i => existsb (Nat.eqb i) seen)). now rewrite seq_nth.
Qed.

Lemma touched_of_nil (n_vertices : nat) : touched_of n_vertices [] = repeat false n_vertices.
Proof.
  unfold touched_of. generalize 0%nat.
  induction n_vertices as [| n IH]; intros k; simpl; [reflexivity | now rewrite IH].
Qed.

Section PointConstraintFacts.

Variable dim : nat.
Variables vertices_per_cell n_vertices : nat.
Variable abs : Q -> Q.
Variable mesh : list PointConstraints.Cell.

Lemma visit_vertices (point : Fluid.Point) (d : nat)
      (l : list (PointConstraints.Cell * nat)) :
  (d < dim)%nat ->
  (forall cv, In cv l ->
              (PointConstraints.vertex_index (fst cv) (snd cv) < n_vertices)%nat) ->
  forall seen found constraints,
  exists seen',
    for_each l
      (fun cv => PointConstraints.visit_vertex dim abs point d (fst cv) (snd cv))
      (PointConstraints.mkVertexSearch (touched_of n_vertices seen) found constraints)
    = Returns
        (PointConstraints.mkVertexSearch
           (touched_of n_vertices seen')
           (found || existsb (lies_at abs point) (first_visits seen l))
           (constraints
              ++ map (fun cv => PointConstraints.vertex_dof_index (fst cv) (snd cv) d)
                     (filter (lies_at abs point) (first_visits seen l)))).
Proof.
  intros Hd. induction l as [| cv l IH]; intros Hrange seen found constraints.
  - exists seen. simpl. now rewrite orb_false_r, app_nil_r.
  - simpl. unfold PointConstraints.visit_vertex at 1. simpl.
    rewrite touched_of_subscript by (apply Hrange; now left). simpl.
    destruct (existsb (Nat.eqb (PointConstraints.vertex_index (fst cv) (snd cv))) seen);
      simpl.
    + apply IH. intros cv' H. apply Hrange. now right.
    + rewrite touched_of_update.
      fold (lies_at abs point cv).
      destruct (lies_at abs point cv) eqn:Hlies; simpl.
      * replace (Nat.ltb d dim) with true by (symmetry; now apply Nat.ltb_lt). simpl.
        destruct (IH (fun cv' H => Hrange cv' (or_intror H))
                     (PointConstraints.vertex_index (fst cv) (snd cv) :: seen) true
                     (constraints
                        ++ [PointConstraints.vertex_dof_index (fst cv) (snd cv) d]))
          as (seen' & Hrun).
        exists seen'. rewrite Hrun. rewrite orb_true_r. simpl.
        now rewrite <- app_assoc.
      * apply IH. intros cv' H. apply Hrange. now right.
Qed.

Hypothesis vertices_in_range :
  forall cell v, In cell mesh -> (v < vertices_per_cell)%nat ->
                 (PointConstraints.vertex_index cell v < n_vertices)%nat.

Lemma constrain_point_spec (point : Fluid.Point) (d : nat) (constraints : list nat) :
  (d < dim)%nat ->
  PointConstraints.constrain_point dim vertices_per_cell n_vertices abs mesh point d
                                   constraints
  = if existsb (lies_at abs point) (first_visits [] (vertices_of vertices_per_cell mesh))
    then Returns (constraints ++ lines_at abs vertices_per_cell mesh point d)
    else Throws (ConfigurationError "Did not find the specified point!").
Proof.
  intros Hd. unfold PointConstraints.constrain_point.
  rewrite <- touched_of_nil.
  assert (Hflat :
    forall s,
      for_each mesh
        (fun cell s =>
           for_each (seq 0 vertices_per_cell)
                    (PointConstraints.visit_vertex dim abs point d cell) s) s
      = for_each (vertices_of vertices_per_cell mesh)
          (fun cv => PointConstraints.visit_vertex dim abs point d (fst cv) (snd cv)) s).
  { intros s. unfold vertices_of. rewrite for_each_flat_map.
    apply for_each_ext. intros cell s' _. now rewrite for_each_map. }
  rewrite Hflat.
  destruct (visit_vertices point d (vertices_of vertices_per_cell mesh) Hd) 
    with (seen := @nil nat) (found := false) (constraints := constraints)
    as (seen' & Hrun).
  { intros [cell v] Hin. unfold vertices_of in Hin. apply in_flat_map in Hin.
    destruct Hin as (cell' & Hcell & Hin). apply in_map_iff in Hin.
    destruct Hin as (v' & Heq & Hv). inversion Heq; subst. apply in_seq in Hv.
    simpl. apply vertices_in_range; [assumption | lia]. }
  rewrite Hrun. simpl.
  destruct (existsb (lies_at abs point)
                    (first_visits [] (vertices_of vertices_per_cell mesh)));
    reflexivity.
Qed.

Lemma constrain_points_spec (pds : list (Fluid.Point * nat)) (constraints : list nat) :
  (forall pd, In pd pds -> (snd pd < dim)%nat) ->
  for_each pds
    (fun pd =>
       PointConstraints.constrain_point dim vertices_per_cell n_vertices abs mesh
                                        (fst pd) (snd pd))
    constraints
  = if forallb (fun pd => existsb (lies_at abs (fst pd))
                                  (first_visits [] (vertices_of vertices_per_cell mesh)))
               pds
    then Returns (constraints
                    ++ flat_map (fun pd => lines_at abs vertices_per_cell mesh
                                                    (fst pd) (snd pd)) pds)
    else Throws (ConfigurationError "Did not find the specified point!").
Proof.
  revert constraints. induction pds as [| pd pds IH]; intros constraints Hd; simpl.
  - now rewrite app_nil_r.
  - rewrite constrain_point_spec by (apply Hd; now left).
    destruct (existsb (lies_at abs (fst pd))
                      (first_visits [] (vertices_of vertices_per_cell mesh))); simpl;
      [| reflexivity].
    rewrite IH by (intros pd' H; apply Hd; now right).
    now rewrite <- app_assoc.
Qed.

End PointConstraintFacts.

Lemma for_each_indexed {A B S : Type} (F : A -> B -> S -> Outcome S)
      (ps : list A) (ds : list B) :
  length ps = length ds ->
  forall (pre_p : list A) (pre_d : list B) (s : S),
    length pre_p = length pre_d ->
    for_each (seq (length pre_p) (length ps))
      (fun i s =>
         (p <- subscript (pre_p ++ ps) (Z.of_nat i) ;;
          d <- subscript (pre_d ++ ds) (Z.of_nat i) ;;
          F p d s)%outcome) s
    = for_each (combine ps ds) (fun pd => F (fst pd) (snd pd)) s.
Proof.
  revert ds. induction ps as [| p ps IH]; intros [| d ds] Hlen pre_p pre_d s Hpre;
    simpl in Hlen; try discriminate; [reflexivity |].
  simpl.
  rewrite (subscript_in_range _ _ p) by (rewrite length_app; simpl; lia).
  rewrite nth_middle. simpl.
  rewrite Hpre.
  rewrite (subscript_in_range _ _ d) by (rewrite length_app; simpl; lia).
  rewrite nth_middle. simpl.
  destruct (F p d s) as [s' | e |]; simpl; try reflexivity.
  specialize (IH ds (eq_add_S _ _ Hlen) (pre_p ++ [p]) (pre_d ++ [d]) s').
  rewrite !length_app, <- !app_assoc in IH. simpl in IH.
  rewrite Nat.add_1_r in IH. rewrite <- Hpre. apply IH. lia.
Qed.

(** X20.  What [setup_dofs] does with the points that [constrain_points]
    stored, when the vertices are numbered below [n_vertices] and every
    direction is below [dim]: nothing when the list of points or the list
    of directions is empty, whatever the other holds; an exception when
    both hold something and differ in length; otherwise one line for
    every vertex that lies at a point, for its degree of freedom in the
    direction of the point, a vertex that several cells share being taken
    once, unless one of the points has no vertex, which is an
    exception. *)
Theorem point_constraints_spec
        (dim vertices_per_cell n_vertices : nat) (abs : Q -> Q)
        (mesh : list PointConstraints.Cell)
        (points : list Fluid.Point) (directions : list nat) (constraints : list nat) :
  (forall cell v, In cell mesh -> (v < vertices_per_cell)%nat ->
                  (PointConstraints.vertex_index cell v < n_vertices)%nat) ->
  (forall d, In d directions -> (d < dim)%nat) ->
  PointConstraints.point_constraints dim vertices_per_cell n_vertices abs mesh
                                     points directions constraints
  = if Nat.eqb (length points) 0 || Nat.eqb (length directions) 0
    then Returns constraints
    else if negb (Nat.eqb (length points) (length directions))
    then Throws (ConfigurationError "Number of points and direcions must match!")
    else if forallb (fun point =>
                       existsb (lies_at abs point)
                               (first_visits [] (vertices_of vertices_per_cell mesh)))
                    points
    then Returns (constraints
                    ++ flat_map (fun pd => lines_at abs vertices_per_cell mesh
                                                    (fst pd) (snd pd))
                                (combine points directions))
    else Throws (ConfigurationError "Did not find the specified point!").
Proof.
  intros Hrange Hd. unfold PointConstraints.point_constraints.
  destruct (Nat.eqb (length points) 0); simpl; [reflexivity |].
  destruct (Nat.eqb (length directions) 0); simpl; [reflexivity |].
  destruct (Nat.eqb (length points) (length directions)) eqn:Hlen; simpl;
    [| reflexivity].
  apply Nat.eqb_eq in Hlen.
  pose proof (for_each_indexed
                (PointConstraints.constrain_point dim vertices_per_cell n_vertices abs
                                                  mesh)
                points directions Hlen [] [] constraints eq_refl) as Hloop.
  simpl in Hloop. unfold AssertThrow. simpl. rewrite Hloop. clear Hloop.
  rewrite (constrain_points_spec dim vertices_per_cell n_vertices abs mesh Hrange).
  - replace (forallb _ (combine points directions))
      with (forallb (fun point =>
                       existsb (lies_at abs point)
                               (first_visits [] (vertices_of vertices_per_cell mesh)))
                    points); [reflexivity |].
    clear Hd. revert directions Hlen.
    induction points as [| p ps IH]; intros [| d ds] Hlen; simpl in *;
      try discriminate; [reflexivity |].
    f_equal. apply IH. congruence.
  - intros [p d] Hin. simpl. apply Hd. apply in_combine_r in Hin. exact Hin.
Qed.

Lemma point_constraints_spec_witness :
  PointConstraints.point_constraints 2 4 6 Qabs Sample.two_quads [[1; 0]] [1%nat] []
  = Returns [3%nat] /\
  PointConstraints.point_constraints 2 4 6 Qabs Sample.two_quads [[1; 0]] [] []
  = Returns [] /\
  PointConstraints.point_constraints 2 4 6 Qabs Sample.two_quads [[3; 0]] [1%nat] []
  = Throws (ConfigurationError "Did not find the specified point!").
Proof.
  assert (Hrange : forall cell v, In cell Sample.two_quads -> (v < 4)%nat ->
                     (PointConstraints.vertex_index cell v < 6)%nat).
  { intros cell v [<- | [<- | []]] Hv;
      destruct v as [| [| [| [| v]]]]; simpl; lia. }
  split; [| split].
  - rewrite (point_constraints_spec 2 4 6 Qabs Sample.two_quads [[1; 0]] [1%nat] []
                                    Hrange).
    + reflexivity.
    + intros d [<- | []]. lia.
  - rewrite (point_constraints_spec 2 4 6 Qabs Sample.two_quads [[1; 0]] [] [] Hrange).
    + reflexivity.
    + intros d [].
  - rewrite (point_constraints_spec 2 4 6 Qabs Sample.two_quads [[3; 0]] [1%nat] []
                                    Hrange).
    + reflexivity.
    + intros d [<- | []]. lia.
Defined.

(** ** The strain and stress fields of the solid *)

(** Loops of which a projection sees one scalar. *)
Lemma for_loop_scalar {S T : Type} (pi : S -> T) (Inv : S -> Prop) (n : nat)
      (body : nat -> S -> S) (h : nat -> T -> T) :
  (forall k s, (k < n)%nat -> Inv s ->
               Inv (body k s) /\ pi (body k s) = h k (pi s)) ->
  forall s, Inv s ->
            Inv (for_loop n body s) /\ pi (for_loop n body s) = for_loop n h (pi s).
Proof.
  intros H s Hs. induction n as [| n IH]; simpl; [now split |].
  destruct IH as [IH1 IH2]; [intros k s' Hk; apply H; lia |].
  destruct (H n (for_loop n body s)) as [H1 H2]; [lia | assumption |].
  split; [assumption |]. now rewrite H2, IH2.
Qed.

Lemma for_loop_once {T : Type} (n i : nat) (g : T -> T) (x : T) :
  for_loop n (fun k x => if Nat.eqb k i then g x else x) x
  = if Nat.ltb i n then g x else x.
Proof.
  induction n as [| n IH]; simpl; [reflexivity |].
  rewrite IH. destruct (Nat.eqb_spec n i) as [-> | Hne].
  - replace (Nat.ltb i i) with false by (symmetry; apply Nat.ltb_ge; lia).
    replace (Nat.ltb i (S i)) with true by (symmetry; apply Nat.ltb_lt; lia).
    reflexivity.
  - destruct (Nat.ltb_spec i n) as [Hlt | Hge].
    + replace (Nat.ltb i (S n)) with true by (symmetry; apply Nat.ltb_lt; lia).
      reflexivity.
    + replace (Nat.ltb i (S n)) with false by (symmetry; apply Nat.ltb_ge; lia).
      reflexivity.
Qed.

(** Three nested loops whose body, at [(i, j)], rewrites what the
    projection sees and leaves it alone elsewhere. *)
Lemma triple_loop {S T : Type} (pi : S -> T) (Inv : S -> Prop) (n1 n2 n3 : nat)
      (body : nat -> nat -> nat -> S -> S) (i j : nat) (h : nat -> T -> T) :
  (forall i' j' k' s, (i' < n1)%nat -> (j' < n2)%nat -> (k' < n3)%nat -> Inv s ->
      Inv (body i' j' k' s) /\
      pi (body i' j' k' s)
      = if Nat.eqb i' i && Nat.eqb j' j then h k' (pi s) else pi s) ->
  forall s, Inv s ->
    Inv (for_loop n1 (fun i' s => for_loop n2 (fun j' s => for_loop n3 (body i' j') s) s) s) /\
    pi (for_loop n1 (fun i' s => for_loop n2 (fun j' s => for_loop n3 (body i' j') s) s) s)
    = if Nat.ltb i n1 && Nat.ltb j n2 then for_loop n3 h (pi s) else pi s.
Proof.
  intros H s Hs.
  assert (Hk : forall i' j' s, (i' < n1)%nat -> (j' < n2)%nat -> Inv s ->
             Inv (for_loop n3 (body i' j') s) /\
             pi (for_loop n3 (body i' j') s)
             = if Nat.eqb j' j then (if Nat.eqb i' i then for_loop n3 h (pi s) else pi s)
               else pi s).
  { intros i' j' s' Hi' Hj' Hs'.
    destruct (for_loop_scalar pi Inv n3 (body i' j')
                (fun k' x => if Nat.eqb i' i && Nat.eqb j' j then h k' x else x))
      with (s := s') as [H1 H2]; [| assumption |].
    - intros k' s'' Hk' Hs''. now apply H.
    - split; [assumption |]. rewrite H2.
      destruct (Nat.eqb i' i), (Nat.eqb j' j); simpl; try reflexivity;
        apply for_loop_id. }
  assert (Hj : forall i' s, (i' < n1)%nat -> Inv s ->
             Inv (for_loop n2 (fun j' s => for_loop n3 (body i' j') s) s) /\
             pi (for_loop n2 (fun j' s => for_loop n3 (body i' j') s) s)
             = if Nat.eqb i' i
               then (if Nat.ltb j n2 then for_loop n3 h (pi s) else pi s)
               else pi s).
  { intros i' s' Hi' Hs'.
    destruct (for_loop_scalar pi Inv n2 (fun j' s => for_loop n3 (body i' j') s)
                (fun j' x => if Nat.eqb j' j
                             then (if Nat.eqb i' i then for_loop n3 h x else x)
                             else x))
      with (s := s') as [H1 H2]; [| assumption |].
    - intros j' s'' Hj' Hs''. now apply Hk.
    - split; [assumption |]. rewrite H2, for_loop_once.
      destruct (Nat.eqb i' i), (Nat.ltb j n2); reflexivity. }
  destruct (for_loop_scalar pi Inv n1
              (fun i' s => for_loop n2 (fun j' s => for_loop n3 (body i' j') s) s)
              (fun i' x => if Nat.eqb i' i
                           then (if Nat.ltb j n2 then for_loop n3 h x else x)
                           else x))
    with (s := s) as [H1 H2]; [| assumption |].
  - intros i' s' Hi' Hs'. now apply Hj.
  - split; [assumption |]. rewrite H2, for_loop_once.
    destruct (Nat.ltb i n1), (Nat.ltb j n2); reflexivity.
Qed.

(** *** Components of a field *)

Lemma field_dims_on_component (dim n i j : nat) (g : LA.Vector -> LA.Vector)
      (f : StrainStress.Field) :
  (forall v, length (g v) = length v) -> (i < dim)%nat -> (j < dim)%nat ->
  field_dims dim n f -> field_dims dim n (StrainStress.on_component i j g f).
Proof.
  intros Hg Hi Hj [Hlen Hrows]. unfold StrainStress.on_component. split.
  - now rewrite length_update.
  - intros i' Hi'. destruct (Hrows i' Hi') as [Hrow Hvec].
    rewrite (nth_update _ _ _ _ []) by lia.
    destruct (Nat.eqb_spec i' i) as [-> | Hne]; cbv iota.
    + split; [now rewrite length_update |].
      intros j' Hj'. rewrite (@nth_update LA.Vector _ _ _ _ []) by lia.
      destruct (Nat.eqb_spec j' j) as [-> | Hne']; cbv iota; [rewrite Hg |];
        now apply Hvec.
    + split; assumption.
Qed.

Lemma component_on_component (dim n i j i' j' k : nat) (g : LA.Vector -> LA.Vector)
      (f : StrainStress.Field) :
  field_dims dim n f -> (i < dim)%nat -> (j < dim)%nat ->
  StrainStress.component (StrainStress.on_component i j g f) i' j' k
  = if Nat.eqb i' i && Nat.eqb j' j
    then nth k (g (nth j (nth i f []) [])) 0
    else StrainStress.component f i' j' k.
Proof.
  intros [Hlen Hrows] Hi Hj. destruct (Hrows i Hi) as [Hrow _].
  unfold StrainStress.component, StrainStress.on_component.
  rewrite (nth_update _ _ _ _ []) by lia.
  destruct (Nat.eqb_spec i' i) as [-> | Hne]; cbv iota; simpl andb; [| reflexivity].
  rewrite (@nth_update LA.Vector _ _ _ _ []) by lia.
  destruct (Nat.eqb_spec j' j) as [-> | Hne']; reflexivity.
Qed.

Lemma field_dims_zero (dim n : nat) :
  field_dims dim n (repeat (repeat (LA.zero_vector n) dim) dim).
Proof.
  split; [apply repeat_length |]. intros i Hi.
  rewrite nth_repeat_lt by exact Hi. split; [apply repeat_length |].
  intros j Hj. rewrite nth_repeat_lt by exact Hj. apply repeat_length.
Qed.

Lemma component_zero (dim n i j k : nat) :
  StrainStress.component (repeat (repeat (LA.zero_vector n) dim) dim) i j k = 0.
Proof.
  unfold StrainStress.component.
  destruct (Nat.lt_ge_cases i dim) as [Hi | Hi].
  - rewrite nth_repeat_lt by exact Hi.
    destruct (Nat.lt_ge_cases j dim) as [Hj | Hj].
    + rewrite nth_repeat_lt by exact Hj. apply nth_zero_vector.
    + rewrite (nth_overflow (repeat _ dim)) by (now rewrite repeat_length).
      now destruct k.
  - rewrite (nth_overflow (repeat _ dim)) by (now rewrite repeat_length).
    destruct j; now destruct k.
Qed.

Section StrainFacts.

Variable dim : nat.
Variables n_q_points dofs_per_cell n_dofs : nat.
Variable qpt_to_dof : LA.Matrix.
Variable elasticity : Solid.LinearElasticMaterial -> LA.Tensor2 -> LA.Tensor2.

Lemma scatter_step_dims (i j index : nat) (u v : Q) (s : StrainStress.Fields) :
  (i < dim)%nat -> (j < dim)%nat ->
  fields_dims dim n_dofs s ->
  fields_dims dim n_dofs
    (StrainStress.mkFields
       (StrainStress.on_component i j (Constraints.add_at index u) (StrainStress.strain s))
       (StrainStress.on_component i j (Constraints.add_at index v) (StrainStress.stress s))
       (if Nat.eqb i 0 && Nat.eqb j 0
        then LA.update index Z.succ (StrainStress.surrounding_cells s)
        else StrainStress.surrounding_cells s)).
Proof.
  intros Hi Hj (H1 & H2 & H3). unfold fields_dims. simpl. split; [| split].
  - apply field_dims_on_component; try assumption. intros w. apply length_add_at.
  - apply field_dims_on_component; try assumption. intros w. apply length_add_at.
  - destruct (Nat.eqb i 0 && Nat.eqb j 0); [now rewrite length_update | assumption].
Qed.

Lemma scatter_cell_dims (c : StrainStress.Cell) (m : Solid.LinearElasticMaterial)
      (s : StrainStress.Fields) :
  fields_dims dim n_dofs s ->
  fields_dims dim n_dofs
    (StrainStress.scatter_cell dim n_q_points dofs_per_cell qpt_to_dof elasticity c m s).
Proof.
  intros Hs. unfold StrainStress.scatter_cell. cbv zeta.
  apply (triple_loop (fun _ : StrainStress.Fields => tt) (fields_dims dim n_dofs)
                     dim dim dofs_per_cell _ 0%nat 0%nat (fun _ x => x)); [| exact Hs].
  intros i' j' k' s' Hi' Hj' Hk' Hs'. split.
  - now apply scatter_step_dims.
  - now destruct (Nat.eqb i' 0 && Nat.eqb j' 0).
Qed.

Lemma scatter_cell_effect (c : StrainStress.Cell) (m : Solid.LinearElasticMaterial)
      (s : StrainStress.Fields) (i j k : nat) :
  fields_dims dim n_dofs s ->
  (forall k', (k' < dofs_per_cell)%nat ->
              (nth k' (StrainStress.dof_indices c) 0 < n_dofs)%nat) ->
  (i < dim)%nat -> (j < dim)%nat -> (k < n_dofs)%nat ->
  fields_dims dim n_dofs
    (StrainStress.scatter_cell dim n_q_points dofs_per_cell qpt_to_dof elasticity c m s) /\
  StrainStress.component
    (StrainStress.strain
       (StrainStress.scatter_cell dim n_q_points dofs_per_cell qpt_to_dof elasticity
                                  c m s)) i j k
  = for_loop dofs_per_cell
      (fun k' x =>
         if Nat.eqb k (nth k' (StrainStress.dof_indices c) 0%nat)
         then x + nth k' (LA.vmult qpt_to_dof (LA.zero_vector dofs_per_cell)
                            (map (fun q =>
                                    LA.el (StrainStress.symmetric_part dim
                                             (StrainStress.current_displacement_gradients c q))
                                          i j)
                                 (seq 0 n_q_points))) 0
         else x)
      (StrainStress.component (StrainStress.strain s) i j k) /\
  nth k (StrainStress.surrounding_cells
           (StrainStress.scatter_cell dim n_q_points dofs_per_cell qpt_to_dof elasticity
                                      c m s)) 0%Z
  = for_loop dofs_per_cell
      (fun k' n =>
         if Nat.eqb k (nth k' (StrainStress.dof_indices c) 0%nat) then Z.succ n else n)
      (nth k (StrainStress.surrounding_cells s) 0%Z).
Proof.
  intros Hs Hidx Hi Hj Hk.
  split; [now apply scatter_cell_dims |].
  unfold StrainStress.scatter_cell. cbv zeta. split.
  - destruct (triple_loop
                (fun s : StrainStress.Fields =>
                   StrainStress.component (StrainStress.strain s) i j k)
                (fields_dims dim n_dofs) dim dim dofs_per_cell
                (fun i' j' k' s =>
                   StrainStress.mkFields
                     (StrainStress.on_component i' j'
                        (Constraints.add_at (nth k' (StrainStress.dof_indices c) 0%nat)
                           (nth k'
                              (LA.vmult qpt_to_dof (LA.zero_vector dofs_per_cell)
                                 (map (fun q =>
                                         LA.el (StrainStress.symmetric_part dim
                                                  (StrainStress.current_displacement_gradients c q))
                                               i' j')
                                      (seq 0 n_q_points))) 0))
                        (StrainStress.strain s))
                     (StrainStress.on_component i' j'
                        (Constraints.add_at (nth k' (StrainStress.dof_indices c) 0%nat)
                           (nth k'
                              (LA.vmult qpt_to_dof (LA.zero_vector dofs_per_cell)
                                 (map (fun q =>
                                         LA.el (elasticity m
                                                  (StrainStress.symmetric_part dim
                                                     (StrainStress.current_displacement_gradients c q)))
                                               i' j')
                                      (seq 0 n_q_points))) 0))
                        (StrainStress.stress s))
                     (if Nat.eqb i' 0 && Nat.eqb j' 0
                      then LA.update (nth k' (StrainStress.dof_indices c) 0%nat) Z.succ
                                     (StrainStress.surrounding_cells s)
                      else StrainStress.surrounding_cells s))
                i j
                (fun k' x =>
                   if Nat.eqb k (nth k' (StrainStress.dof_indices c) 0%nat)
                   then x + nth k' (LA.vmult qpt_to_dof (LA.zero_vector dofs_per_cell)
                                      (map (fun q =>
                                              LA.el (StrainStress.symmetric_part dim
                                                       (StrainStress.current_displacement_gradients c q))
                                                    i j)
                                           (seq 0 n_q_points))) 0
                   else x))
      with (s := s) as [_ Hpi]; [| exact Hs |].
    + intros i' j' k' s' Hi' Hj' Hk' Hs'. split; [now apply scatter_step_dims |].
      simpl. destruct Hs' as (Hstrain & _ & _).
      rewrite (component_on_component dim n_dofs) by assumption.
      rewrite (Nat.eqb_sym i i'), (Nat.eqb_sym j j').
      destruct (Nat.eqb_spec i' i) as [-> | Hne]; simpl; [| reflexivity].
      destruct (Nat.eqb_spec j' j) as [-> | Hne']; simpl; [| reflexivity].
      rewrite nth_add_at.
      destruct Hstrain as [_ Hrows]. destruct (Hrows i Hi) as [_ Hvec].
      rewrite (Hvec j Hj).
      replace (Nat.ltb (nth k' (StrainStress.dof_indices c) 0%nat) n_dofs) with true
        by (symmetry; apply Nat.ltb_lt; now apply Hidx).
      rewrite andb_true_r. reflexivity.
    + rewrite Hpi.
      replace (Nat.ltb i dim) with true by (symmetry; now apply Nat.ltb_lt).
      replace (Nat.ltb j dim) with true by (symmetry; now apply Nat.ltb_lt).
      reflexivity.
  - destruct (triple_loop
                (fun s : StrainStress.Fields =>
                   nth k (StrainStress.surrounding_cells s) 0%Z)
                (fields_dims dim n_dofs) dim dim dofs_per_cell
                (fun i' j' k' s =>
                   StrainStress.mkFields
                     (StrainStress.on_component i' j'
                        (Constraints.add_at (nth k' (StrainStress.dof_indices c) 0%nat)
                           (nth k'
                              (LA.vmult qpt_to_dof (LA.zero_vector dofs_per_cell)
                                 (map (fun q =>
                                         LA.el (StrainStress.symmetric_part dim
                                                  (StrainStress.current_displacement_gradients c q))
                                               i' j')
                                      (seq 0 n_q_points))) 0))
                        (StrainStress.strain s))
                     (StrainStress.on_component i' j'
                        (Constraints.add_at (nth k' (StrainStress.dof_indices c) 0%nat)
                           (nth k'
                              (LA.vmult qpt_to_dof (LA.zero_vector dofs_per_cell)
                                 (map (fun q =>
                                         LA.el (elasticity m
                                                  (StrainStress.symmetric_part dim
                                                     (StrainStress.current_displacement_gradients c q)))
                                               i' j')
                                      (seq 0 n_q_points))) 0))
                        (StrainStress.stress s))
                     (if Nat.eqb i' 0 && Nat.eqb j' 0
                      then LA.update (nth k' (StrainStress.dof_indices c) 0%nat) Z.succ
                                     (StrainStress.surrounding_cells s)
                      else StrainStress.surrounding_cells s))
                0%nat 0%nat
                (fun k' n =>
                   if Nat.eqb k (nth k' (StrainStress.dof_indices c) 0%nat)
                   then Z.succ n else n))
      with (s := s) as [_ Hpi]; [| exact Hs |].
    + intros i' j' k' s' Hi' Hj' Hk' Hs'. split; [now apply scatter_step_dims |].
      simpl. destruct Hs' as (_ & _ & Hcount).
      destruct (Nat.eqb i' 0 && Nat.eqb j' 0); [| reflexivity].
      rewrite nth_update by (rewrite Hcount; now apply Hidx).
      destruct (Nat.eqb_spec k (nth k' (StrainStress.dof_indices c) 0%nat)) as [<- | _];
        reflexivity.
    + rewrite Hpi.
      replace (Nat.ltb 0 dim) with true by (symmetry; apply Nat.ltb_lt; lia).
      reflexivity.
Qed.

Lemma average_effect (s : StrainStress.Fields) (i j k : nat) :
  fields_dims dim n_dofs s ->
  (i < dim)%nat -> (j < dim)%nat -> (k < n_dofs)%nat ->
  StrainStress.component (StrainStress.strain (StrainStress.average dim n_dofs s)) i j k
  = StrainStress.component (StrainStress.strain s) i j k
    / inject_Z (nth k (StrainStress.surrounding_cells s) 0%Z) /\
  StrainStress.surrounding_cells (StrainStress.average dim n_dofs s)
  = StrainStress.surrounding_cells s.
Proof.
  intros Hs Hi Hj Hk. unfold StrainStress.average.
  set (Inv := fun s' : StrainStress.Fields =>
                fields_dims dim n_dofs s' /\
                StrainStress.surrounding_cells s' = StrainStress.surrounding_cells s).
  assert (Hbody : forall i' j' k' s', (i' < dim)%nat -> (j' < dim)%nat ->
                    (k' < n_dofs)%nat -> Inv s' ->
            Inv (StrainStress.mkFields
                   (StrainStress.on_component i' j'
                      (LA.update k'
                         (fun x => x / inject_Z (nth k' (StrainStress.surrounding_cells s') 0%Z)))
                      (StrainStress.strain s'))
                   (StrainStress.on_component i' j'
                      (LA.update k'
                         (fun x => x / inject_Z (nth k' (StrainStress.surrounding_cells s') 0%Z)))
                      (StrainStress.stress s'))
                   (StrainStress.surrounding_cells s'))).
  { intros i' j' k' s' Hi' Hj' Hk' [(H1 & H2 & H3) Hc]. split; [| exact Hc].
    unfold fields_dims. simpl. split; [| split; [| exact H3]];
      apply field_dims_on_component; try assumption; intros w; apply length_update. }
  split.
  - destruct (triple_loop
                (fun s' : StrainStress.Fields =>
                   StrainStress.component (StrainStress.strain s') i j k)
                Inv dim dim n_dofs
                (fun i' j' k' s' =>
                   StrainStress.mkFields
                     (StrainStress.on_component i' j'
                        (LA.update k'
                           (fun x => x / inject_Z (nth k' (StrainStress.surrounding_cells s') 0%Z)))
                        (StrainStress.strain s'))
                     (StrainStress.on_component i' j'
                        (LA.update k'
                           (fun x => x / inject_Z (nth k' (StrainStress.surrounding_cells s') 0%Z)))
                        (StrainStress.stress s'))
                     (StrainStress.surrounding_cells s'))
                i j
                (fun k' x =>
                   if Nat.eqb k' k
                   then x / inject_Z (nth k (StrainStress.surrounding_cells s) 0%Z)
                   else x))
      with (s := s) as [_ Hpi]; [| now split |].
    + intros i' j' k' s' Hi' Hj' Hk' Hs'. split; [now apply Hbody |].
      simpl. destruct Hs' as [(Hstrain & _ & _) Hc].
      rewrite (component_on_component dim n_dofs) by assumption.
      rewrite (Nat.eqb_sym i i'), (Nat.eqb_sym j j').
      destruct (Nat.eqb_spec i' i) as [-> | Hne]; simpl; [| reflexivity].
      destruct (Nat.eqb_spec j' j) as [-> | Hne']; simpl; [| reflexivity].
      destruct Hstrain as [_ Hrows]. destruct (Hrows i Hi) as [_ Hvec].
      rewrite nth_update by (rewrite (Hvec j Hj); exact Hk').
      rewrite (Nat.eqb_sym k k'), Hc.
      destruct (Nat.eqb_spec k' k) as [-> | _]; reflexivity.
    + rewrite Hpi, for_loop_once.
      replace (Nat.ltb i dim) with true by (symmetry; now apply Nat.ltb_lt).
      replace (Nat.ltb j dim) with true by (symmetry; now apply Nat.ltb_lt).
      replace (Nat.ltb k n_dofs) with true by (symmetry; now apply Nat.ltb_lt).
      reflexivity.
  - destruct (triple_loop (fun _ : StrainStress.Fields => tt) Inv dim dim n_dofs
                (fun i' j' k' s' =>
                   StrainStress.mkFields
                     (StrainStress.on_component i' j'
                        (LA.update k'
                           (fun x => x / inject_Z (nth k' (StrainStress.surrounding_cells s') 0%Z)))
                        (StrainStress.strain s'))
                     (StrainStress.on_component i' j'
                        (LA.update k'
                           (fun x => x / inject_Z (nth k' (StrainStress.surrounding_cells s') 0%Z)))
                        (StrainStress.stress s'))
                     (StrainStress.surrounding_cells s'))
                0%nat 0%nat (fun _ x => x))
      with (s := s) as [[_ Hc] _]; [| now split | exact Hc].
    intros i' j' k' s' Hi' Hj' Hk' Hs'. split; [now apply Hbody |].
    now destruct (Nat.eqb i' 0 && Nat.eqb j' 0).
Qed.

End StrainFacts.

Lemma for_each_returns_invariant {A S : Type} (P : S -> Prop)
      (body : A -> S -> Outcome S) (xs : list A) :
  (forall x s s', In x xs -> P s -> body x s = Returns s' -> P s') ->
  forall s s', P s -> for_each xs body s = Returns s' -> P s'.
Proof.
  induction xs as [| x xs IH]; intros H s s' Hs Hrun; simpl in Hrun.
  - now inversion Hrun; subst.
  - destruct (body x s) as [s1 | e |] eqn:Hx; simpl in Hrun; try discriminate.
    apply (IH (fun y t t' Hy => H y t t' (or_intror Hy)) s1 s');
      [| exact Hrun].
    apply (H x s s1); [now left | assumption | assumption].
Qed.

Lemma nth_map_seq {A : Type} (F : nat -> A) (n i : nat) (d : A) :
  (i < n)%nat -> nth i (map F (seq 0 n)) d = F i.
Proof.
  intros Hi. rewrite (nth_indep _ d (F n)) by (now rewrite length_map, length_seq).
  rewrite (map_nth F). now rewrite seq_nth.
Qed.

Lemma el_symmetric_part (dim i j : nat) (g : LA.Tensor2) :
  (i < dim)%nat -> (j < dim)%nat ->
  LA.el (StrainStress.symmetric_part dim g) i j = (LA.el g i j + LA.el g j i) / 2.
Proof.
  intros Hi Hj. unfold LA.el at 1, StrainStress.symmetric_part.
  rewrite (nth_map_seq _ dim i []) by exact Hi. now rewrite nth_map_seq.
Qed.

Lemma nth_vmult (M : LA.Matrix) (dst src : LA.Vector) (k : nat) :
  (k < length M)%nat -> nth k (LA.vmult M dst src) 0 = LA.dot (nth k M []) src.
Proof.
  intros Hk. unfold LA.vmult.
  rewrite (nth_indep _ 0 (LA.dot [] src)) by (now rewrite length_map).
  apply (map_nth (fun row => LA.dot row src)).
Qed.

Lemma dot_constant (e : Q) (row : list Q) (f : nat -> Q) (n start : nat) :
  (forall q, (start <= q < start + n)%nat -> f q == e) ->
  LA.dot row (map f (seq start n)) == e * LA.dot row (repeat 1 n).
Proof.
  revert row start. induction n as [| n IH]; intros row start H; simpl.
  - destruct row; simpl; ring.
  - destruct row as [| r row]; simpl; [ring |].
    rewrite (H start) by lia. rewrite (IH row (S start)) by (intros; apply H; lia).
    ring.
Qed.

Lemma fields_dims_zero (dim n_dofs : nat) :
  fields_dims dim n_dofs
    (StrainStress.mkFields (repeat (repeat (LA.zero_vector n_dofs) dim) dim)
                           (repeat (repeat (LA.zero_vector n_dofs) dim) dim)
                           (repeat 0%Z n_dofs)).
Proof.
  split; [apply field_dims_zero |]. split; [apply field_dims_zero |].
  apply repeat_length.
Qed.

(** What holds of the sums when the loop over the cells returns. *)
Lemma scattered (parameters : Solid.AllParameters)
      (material : list Solid.LinearElasticMaterial)
      (dim n_q_points dofs_per_cell n_dofs : nat) (qpt_to_dof : LA.Matrix)
      (elasticity : Solid.LinearElasticMaterial -> LA.Tensor2 -> LA.Tensor2)
      (mesh : list StrainStress.Cell)
      (P : StrainStress.Fields -> Prop) (s0 s : StrainStress.Fields) :
  (forall c m s, In c mesh -> fields_dims dim n_dofs s -> P s ->
                 P (StrainStress.scatter_cell dim n_q_points dofs_per_cell qpt_to_dof
                                              elasticity c m s)) ->
  fields_dims dim n_dofs s0 -> P s0 ->
  for_each mesh
    (fun c s =>
       (m <- Solid.update_material parameters material (StrainStress.cell c) ;;
        Returns (StrainStress.scatter_cell dim n_q_points dofs_per_cell qpt_to_dof
                                           elasticity c m s))%outcome) s0
  = Returns s ->
  fields_dims dim n_dofs s /\ P s.
Proof.
  intros Hstep Hd0 HP0 Hrun.
  revert Hrun.
  apply (for_each_returns_invariant (fun s => fields_dims dim n_dofs s /\ P s));
    [| now split].
  intros c t t' Hc [Hd HP] Hbody.
  destruct (Solid.update_material parameters material (StrainStress.cell c))
    as [m | e |]; simpl in Hbody; try discriminate.
  inversion Hbody; subst t'. split; [now apply scatter_cell_dims | now apply Hstep].
Qed.

Lemma update_returns (parameters : Solid.AllParameters)
      (material : list Solid.LinearElasticMaterial)
      (dim n_q_points dofs_per_cell n_dofs : nat) (qpt_to_dof : LA.Matrix)
      (elasticity : Solid.LinearElasticMaterial -> LA.Tensor2 -> LA.Tensor2)
      (mesh : list StrainStress.Cell) (f : StrainStress.Fields) :
  StrainStress.update_strain_and_stress parameters material dim n_q_points dofs_per_cell
                                        n_dofs qpt_to_dof elasticity mesh
  = Returns f ->
  exists s,
    for_each mesh
      (fun c s =>
         (m <- Solid.update_material parameters material (StrainStress.cell c) ;;
          Returns (StrainStress.scatter_cell dim n_q_points dofs_per_cell qpt_to_dof
                                             elasticity c m s))%outcome)
      (StrainStress.mkFields (repeat (repeat (LA.zero_vector n_dofs) dim) dim)
                             (repeat (repeat (LA.zero_vector n_dofs) dim) dim)
                             (repeat 0%Z n_dofs))
    = Returns s /\
    f = StrainStress.average dim n_dofs s.
Proof.
  unfold StrainStress.update_strain_and_stress. cbv zeta.
  destruct (for_each mesh _ _) as [s | e |]; simpl; intros H; try discriminate.
  exists s. split; [reflexivity |]. now inversion H.
Qed.

(** X21.  The strain field that [update_strain_and_stress] leaves is
    symmetric: at every scalar degree of freedom that lies in a cell the
    components [(i, j)] and [(j, i)] agree. *)
Theorem nodal_strain_symmetric
        (parameters : Solid.AllParameters) (material : list Solid.LinearElasticMaterial)
        (dim n_q_points dofs_per_cell n_dofs : nat) (qpt_to_dof : LA.Matrix)
        (elasticity : Solid.LinearElasticMaterial -> LA.Tensor2 -> LA.Tensor2)
        (mesh : list StrainStress.Cell) (f : StrainStress.Fields) :
  dofs_in_range dofs_per_cell n_dofs mesh ->
  StrainStress.update_strain_and_stress parameters material dim n_q_points dofs_per_cell
                                        n_dofs qpt_to_dof elasticity mesh
  = Returns f ->
  forall i j k,
    (i < dim)%nat -> (j < dim)%nat -> (k < n_dofs)%nat ->
    nth k (StrainStress.surrounding_cells f) 0%Z <> 0%Z ->
    StrainStress.component (StrainStress.strain f) i j k
    == StrainStress.component (StrainStress.strain f) j i k.
Proof.
  intros Hrange Hrun i j k Hi Hj Hk _.
  destruct (update_returns _ _ _ _ _ _ _ _ _ _ Hrun) as (s & Hs & ->).
  set (s0 := StrainStress.mkFields _ _ _) in Hs.
  assert (Hinv : fields_dims dim n_dofs s /\
                 StrainStress.component (StrainStress.strain s) i j k
                 == StrainStress.component (StrainStress.strain s) j i k);
    [apply (scattered parameters material dim n_q_points dofs_per_cell n_dofs qpt_to_dof
                      elasticity mesh
                      (fun s => StrainStress.component (StrainStress.strain s) i j k
                                == StrainStress.component (StrainStress.strain s) j i k)
                      s0 s); [| | | exact Hs]
    | destruct Hinv as [Hd Hsym]].
  - intros c m t Hc Hd Ht.
    destruct (scatter_cell_effect dim n_q_points dofs_per_cell n_dofs qpt_to_dof
                                  elasticity c m t i j k Hd) as (_ & -> & _);
      try assumption; [intros k' Hk'; now apply Hrange |].
    destruct (scatter_cell_effect dim n_q_points dofs_per_cell n_dofs qpt_to_dof
                                  elasticity c m t j i k Hd) as (_ & -> & _);
      try assumption; [intros k' Hk'; now apply Hrange |].
    apply for_loop_Qeq; [| exact Ht].
    intros k' x y Hk' Hxy.
    destruct (Nat.eqb k (nth k' (StrainStress.dof_indices c) 0%nat)); [| exact Hxy].
    rewrite Hxy. apply Qplus_inj_l.
    destruct (Nat.lt_ge_cases k' (length qpt_to_dof)) as [Hin | Hout].
    + rewrite !nth_vmult by exact Hin. apply dot_map_ext.
      intros q Hq. apply in_seq in Hq.
      rewrite !el_symmetric_part by assumption.
      unfold Qdiv. ring.
    + rewrite !nth_overflow by (unfold LA.vmult; now rewrite length_map).
      reflexivity.
  - apply fields_dims_zero.
  - unfold s0. simpl. now rewrite !component_zero.
  - destruct (average_effect dim n_dofs s i j k Hd Hi Hj Hk) as [-> _].
    destruct (average_effect dim n_dofs s j i k Hd Hj Hi Hk) as [-> _].
    now rewrite Hsym.
Qed.

(** X22.  A uniform strain is reproduced: when the displacement gradient
    is the same tensor [G] at every quadrature point of every cell and
    every row of the projection matrix sums to one, the strain that
    [update_strain_and_stress] leaves at a scalar degree of freedom that
    lies in a cell is the symmetric part of [G], however many cells share
    the degree of freedom. *)
Theorem uniform_strain_reproduced
        (parameters : Solid.AllParameters) (material : list Solid.LinearElasticMaterial)
        (dim n_q_points dofs_per_cell n_dofs : nat) (qpt_to_dof : LA.Matrix)
        (elasticity : Solid.LinearElasticMaterial -> LA.Tensor2 -> LA.Tensor2)
        (mesh : list StrainStress.Cell) (G : LA.Tensor2) (f : StrainStress.Fields) :
  length qpt_to_dof = dofs_per_cell ->
  (forall k, (k < dofs_per_cell)%nat ->
             LA.dot (nth k qpt_to_dof []) (repeat 1 n_q_points) == 1) ->
  dofs_in_range dofs_per_cell n_dofs mesh ->
  (forall c q i j, In c mesh -> (q < n_q_points)%nat -> (i < dim)%nat -> (j < dim)%nat ->
                   LA.el (StrainStress.current_displacement_gradients c q) i j
                   == LA.el G i j) ->
  StrainStress.update_strain_and_stress parameters material dim n_q_points dofs_per_cell
                                        n_dofs qpt_to_dof elasticity mesh
  = Returns f ->
  forall i j k,
    (i < dim)%nat -> (j < dim)%nat -> (k < n_dofs)%nat ->
    nth k (StrainStress.surrounding_cells f) 0%Z <> 0%Z ->
    StrainStress.component (StrainStress.strain f) i j k
    == (LA.el G i j + LA.el G j i) / 2.
Proof.
  intros Hrows Hsum Hrange HG Hrun i j k Hi Hj Hk Hcount.
  destruct (update_returns _ _ _ _ _ _ _ _ _ _ Hrun) as (s & Hs & ->).
  set (s0 := StrainStress.mkFields _ _ _) in Hs.
  assert (Hinv' : fields_dims dim n_dofs s /\
                  StrainStress.component (StrainStress.strain s) i j k
                  == (LA.el G i j + LA.el G j i) / 2
                     * inject_Z (nth k (StrainStress.surrounding_cells s) 0%Z));
    [apply (scattered parameters material dim n_q_points dofs_per_cell n_dofs qpt_to_dof
                      elasticity mesh
                      (fun s => StrainStress.component (StrainStress.strain s) i j k
                                == (LA.el G i j + LA.el G j i) / 2
                                   * inject_Z (nth k (StrainStress.surrounding_cells s) 0%Z))
                      s0 s); [| | | exact Hs]
    | destruct Hinv' as [Hd Hinv]].
  - intros c m t Hc Hd Ht.
    destruct (scatter_cell_effect dim n_q_points dofs_per_cell n_dofs qpt_to_dof
                                  elasticity c m t i j k Hd) as (_ & -> & ->);
      try assumption; [intros k' Hk'; now apply Hrange |].
    apply (for_loop_related
             (fun (x : Q) (n : Z) => x == (LA.el G i j + LA.el G j i) / 2 * inject_Z n));
      [| exact Ht].
    intros k' x n Hk' Hxn.
    destruct (Nat.eqb k (nth k' (StrainStress.dof_indices c) 0%nat)); [| exact Hxn].
    rewrite Hxn, nth_vmult by (rewrite Hrows; exact Hk').
    rewrite (dot_constant ((LA.el G i j + LA.el G j i) / 2)).
    + rewrite (Hsum k' Hk'). unfold Z.succ. rewrite inject_Z_plus. ring.
    + intros q Hq. rewrite el_symmetric_part by assumption.
      rewrite (HG c q i j), (HG c q j i) by (try assumption; lia). reflexivity.
  - apply fields_dims_zero.
  - unfold s0. simpl. rewrite component_zero.
    destruct (Nat.lt_ge_cases k n_dofs) as [H | H].
    + rewrite nth_repeat_lt by exact H. ring.
    + lia.
  - destruct (average_effect dim n_dofs s i j k Hd Hi Hj Hk) as [Hval Hsc].
    rewrite Hsc in Hcount. rewrite Hval, Hinv.
    field. intros H0. apply Hcount.
    unfold Qeq in H0. simpl in H0. lia.
Qed.

Lemma nodal_strain_symmetric_witness :
  exists f,
    StrainStress.update_strain_and_stress (Sample.parameters 2 "Solid") Sample.materials
                                          2 1 2 3 [[1]; [1]] (fun _ t => t)
                                          Sample.strained_bar
    = Returns f /\
    StrainStress.component (StrainStress.strain f) 0 1 1
    == StrainStress.component (StrainStress.strain f) 1 0 1.
Proof.
  eexists. split; [vm_compute; reflexivity |].
  apply (nodal_strain_symmetric (Sample.parameters 2 "Solid") Sample.materials
                                2 1 2 3 [[1]; [1]] (fun _ t => t) Sample.strained_bar).
  - intros c k [<- | [<- | []]] Hk; destruct k as [| [| k]]; simpl; lia.
  - vm_compute. reflexivity.
  - lia.
  - lia.
  - lia.
  - vm_compute. discriminate.
Defined.

Lemma uniform_strain_reproduced_witness :
  exists f,
    StrainStress.update_strain_and_stress (Sample.parameters 2 "Solid") Sample.materials
                                          2 1 2 3 [[1]; [1]] (fun _ t => t)
                                          Sample.strained_bar
    = Returns f /\
    StrainStress.component (StrainStress.strain f) 0 1 1 == 1.
Proof.
  eexists. split; [vm_compute; reflexivity |].
  rewrite (uniform_strain_reproduced (Sample.parameters 2 "Solid") Sample.materials
                                     2 1 2 3 [[1]; [1]] (fun _ t => t)
                                     Sample.strained_bar [[1; 2]; [0; 3]]).
  - reflexivity.
  - reflexivity.
  - intros k Hk. destruct k as [| [| k]]; [reflexivity | reflexivity | lia].
  - intros c k [<- | [<- | []]] Hk; destruct k as [| [| k]]; simpl; lia.
  - intros c q i j [<- | [<- | []]] _ _ _; reflexivity.
  - vm_compute. reflexivity.
  - lia.
  - lia.
  - lia.
  - vm_compute. discriminate.
Defined.

(** ** The stress of the solid in the Stokes solver *)

Lemma triangle_succ (d : nat) : triangle (S d) = (triangle d + d + 1)%nat.
Proof.
  unfold triangle.
  replace (S d * (S d + 1))%nat with (d * (d + 1) + (d + 1) * 2)%nat by lia.
  rewrite Nat.div_add by lia. lia.
Qed.

Lemma triangle_double (d : nat) : (2 * triangle d = d * (d + 1))%nat.
Proof.
  induction d as [| d IH]; [reflexivity |]. rewrite triangle_succ. lia.
Qed.

Lemma to_int_integer (x : Q) (t : Z) : x == inject_Z t -> FsiStress.to_int x = t.
Proof.
  destruct x as [a b]. unfold Qeq, FsiStress.to_int. simpl. intros H.
  rewrite Z.mul_1_r in H. subst a. apply Z.quot_mul. lia.
Qed.

Lemma stress_vec_size_triangle (dim : nat) :
  FsiStress.stress_vec_size (Z.of_nat dim) = Z.of_nat (triangle dim).
Proof.
  unfold FsiStress.stress_vec_size. apply to_int_integer.
  pose proof (triangle_double dim) as H.
  assert (HZ : (2 * Z.of_nat (triangle dim) = Z.of_nat dim * (Z.of_nat dim + 1))%Z) by lia.
  unfold Qeq. simpl. lia.
Qed.

Lemma lower_triangle_succ (d : nat) :
  lower_triangle (S d) = lower_triangle d ++ map (pair d) (seq 0 (d + 1)).
Proof.
  unfold lower_triangle. rewrite seq_S, flat_map_app. simpl. now rewrite app_nil_r.
Qed.

Section StressRows.

Variable fsi_cell_stress : list (list Q).
Variable q : nat.

Hypothesis rows_long_enough : forall row, In row fsi_cell_stress -> (q < length row)%nat.

Lemma read_row (k n m0 : nat) (s : nat) (acc : list (nat * nat * Q)) :
  (s <= length fsi_cell_stress)%nat ->
  for_each (seq m0 n) (FsiStress.read_component fsi_cell_stress q k) (Z.of_nat s, acc)
  = if Nat.leb (s + n) (length fsi_cell_stress)
    then Returns (Z.of_nat (s + n),
                  acc ++ map (fun m => (k, m, nth q (nth (s + (m - m0)) fsi_cell_stress []) 0))
                             (seq m0 n))
    else Undefined.
Proof.
  revert m0 s acc. induction n as [| n IH]; intros m0 s acc Hs.
  - simpl. rewrite Nat.add_0_r, app_nil_r.
    now replace (Nat.leb s (length fsi_cell_stress)) with true
      by (symmetry; now apply Nat.leb_le).
  - simpl. unfold FsiStress.read_component at 1. simpl.
    destruct (Nat.eq_dec s (length fsi_cell_stress)) as [Heq | Hne].
    + rewrite subscript_out_of_range by lia. simpl.
      now replace (Nat.leb (s + S n) (length fsi_cell_stress)) with false
        by (symmetry; apply Nat.leb_gt; lia).
    + rewrite (subscript_in_range _ _ []) by lia. simpl.
      rewrite (subscript_in_range _ _ 0)
        by (apply rows_long_enough, nth_In; lia).
      simpl.
      replace (Z.of_nat s + 1)%Z with (Z.of_nat (S s)) by lia.
      rewrite IH by lia.
      replace (S s + n)%nat with (s + S n)%nat by lia.
      destruct (Nat.leb (s + S n) (length fsi_cell_stress)); [| reflexivity].
      rewrite <- app_assoc. simpl. rewrite Nat.sub_diag, Nat.add_0_r.
      do 4 f_equal. apply map_ext_in. intros m Hm. apply in_seq in Hm.
      do 3 f_equal. lia.
Qed.

Lemma read_rows (dim : nat) :
  for_each (seq 0 dim)
    (fun k acc =>
       for_each (seq 0 (k + 1)) (FsiStress.read_component fsi_cell_stress q k) acc)
    (0%Z, [])
  = if Nat.leb (triangle dim) (length fsi_cell_stress)
    then Returns (Z.of_nat (triangle dim),
                  map (fun km => (fst km, snd km,
                                  nth q (nth (triangle (fst km) + snd km)
                                             fsi_cell_stress []) 0))
                      (lower_triangle dim))
    else Undefined.
Proof.
  induction dim as [| d IH].
  - reflexivity.
  - rewrite lower_triangle_succ, triangle_succ, seq_S, for_each_app, IH.
    cbn [for_each Nat.add].
    destruct (Nat.leb_spec (triangle d) (length fsi_cell_stress)) as [Hle | Hgt];
      simpl.
    + rewrite read_row by exact Hle.
      replace (triangle d + d + 1)%nat with (triangle d + (d + 1))%nat by lia.
      destruct (Nat.leb (triangle d + (d + 1)) (length fsi_cell_stress));
        [| reflexivity].
      rewrite map_app, map_map. cbn [bind]. do 3 f_equal.
      apply map_ext. intros m. simpl. now rewrite Nat.sub_0_r.
    + now replace (Nat.leb (triangle d + d + 1) (length fsi_cell_stress)) with false
        by (symmetry; apply Nat.leb_gt; lia).
Qed.

End StressRows.

Lemma lower_triangle_length (dim : nat) : length (lower_triangle dim) = triangle dim.
Proof.
  induction dim as [| d IH]; [reflexivity |].
  rewrite lower_triangle_succ, length_app, IH, length_map, length_seq, triangle_succ.
  lia.
Qed.

(** X23.  [initialize_system] gives [fsi_stress] as many vectors as
    [assemble] reads: [stress_vec_size] is the number [dim (dim + 1) / 2]
    of components [(k, m)] with [m <= k < dim]; with that many rows in
    [fsi_cell_stress], or more, the loop that fills [fsi_stress_tensor]
    reads the rows [0, 1, 2, ...] in order, one for each component, row
    [k (k + 1) / 2 + m] for the component [(k, m)]; with fewer rows it
    reads beyond the end of [fsi_cell_stress]. *)
Theorem stress_rows_fit (dim : nat) (fsi_cell_stress : list (list Q)) (q : nat) :
  (forall row, In row fsi_cell_stress -> (q < length row)%nat) ->
  FsiStress.stress_vec_size (Z.of_nat dim) = Z.of_nat (length (lower_triangle dim)) /\
  ((Z.of_nat (length fsi_cell_stress) < FsiStress.stress_vec_size (Z.of_nat dim))%Z ->
   FsiStress.fill_stress_tensor dim fsi_cell_stress q = Undefined) /\
  ((FsiStress.stress_vec_size (Z.of_nat dim) <= Z.of_nat (length fsi_cell_stress))%Z ->
   FsiStress.fill_stress_tensor dim fsi_cell_stress q
   = Returns (map (fun km => (fst km, snd km,
                              nth q (nth (fst km * (fst km + 1) / 2 + snd km)
                                         fsi_cell_stress []) 0))
                  (lower_triangle dim))).
Proof.
  intros Hrows. rewrite stress_vec_size_triangle, lower_triangle_length.
  split; [reflexivity |].
  unfold FsiStress.fill_stress_tensor. rewrite read_rows by exact Hrows.
  split; intros H.
  - now replace (Nat.leb (triangle dim) (length fsi_cell_stress)) with false
      by (symmetry; apply Nat.leb_gt; lia).
  - now replace (Nat.leb (triangle dim) (length fsi_cell_stress)) with true
      by (symmetry; apply Nat.leb_le; lia).
Qed.

Lemma stress_rows_fit_witness :
  FsiStress.stress_vec_size 2 = 3%Z /\
  FsiStress.fill_stress_tensor 2 [[1]; [2]] 0 = Undefined /\
  FsiStress.fill_stress_tensor 2 [[1]; [2]; [3]] 0
  = Returns [(0%nat, 0%nat, 1); (1%nat, 0%nat, 2); (1%nat, 1%nat, 3)].
Proof.
  split; [| split].
  - apply (stress_rows_fit 2 [[1]; [2]; [3]] 0).
    intros row [<- | [<- | [<- | []]]]; simpl; lia.
  - apply (stress_rows_fit 2 [[1]; [2]] 0).
    + intros row [<- | [<- | []]]; simpl; lia.
    + reflexivity.
  - apply (stress_rows_fit 2 [[1]; [2]; [3]] 0).
    + intros row [<- | [<- | [<- | []]]]; simpl; lia.
    + discriminate.
Defined.

(** ** The acoustic test *)

Lemma fourth_power_monotone (s t : Q) : 0 <= s -> s <= t -> s ^ 4 <= t ^ 4.
Proof.
  intros Hs Hst. simpl.
  assert (H2 : s * s <= t * t) by nra.
  assert (H0 : 0 <= s * s) by nra.
  nra.
Qed.

Lemma Qdiv_le_compat (a b c : Q) : 0 < c -> a <= b -> a / c <= b / c.
Proof.
  intros Hc Hab. unfold Qdiv. apply Qmult_le_compat_r; [exact Hab |].
  apply Qinv_le_0_compat. now apply Qlt_le_weak.
Qed.

Lemma Qdiv_pos (a c : Q) : 0 < c -> 0 < a -> 0 < a / c.
Proof.
  intros Hc Ha. unfold Qdiv. apply Qmult_lt_0_compat; [exact Ha |].
  now apply Qinv_lt_0_compat.
Qed.

Lemma sigma_in_layer (PMLlength SigmaMax : Q) (p : Fluid.Point) (component : nat) :
  1.4 - PMLlength < nth 0 p 0 ->
  AcousticPML.sigma_pml_field PMLlength SigmaMax p component
  = SigmaMax * ((nth 0 p 0 + PMLlength - 1.4) / PMLlength) ^ 4.
Proof.
  intros H. unfold AcousticPML.sigma_pml_field. apply Qltb_lt in H. now rewrite H.
Qed.

Lemma sigma_before_layer (PMLlength SigmaMax : Q) (p : Fluid.Point) (component : nat) :
  nth 0 p 0 <= 1.4 - PMLlength ->
  AcousticPML.sigma_pml_field PMLlength SigmaMax p component = 0.0.
Proof.
  intros H. unfold AcousticPML.sigma_pml_field. apply Qltb_ge in H. now rewrite H.
Qed.

(** X24.  The damping of the absorbing layer, for a layer of positive
    length and a maximum that is not negative: it vanishes up to the
    start of the layer, [x <= 1.4 - PMLlength], is nowhere negative and
    does not decrease with [x].  It depends on the first coordinate of
    the point only. *)
Theorem sigma_pml_profile (PMLlength SigmaMax : Q) (p p' : Fluid.Point)
        (component component' : nat) :
  0 < PMLlength -> 0 <= SigmaMax ->
  (nth 0 p 0 <= 1.4 - PMLlength ->
   AcousticPML.sigma_pml_field PMLlength SigmaMax p component == 0) /\
  0 <= AcousticPML.sigma_pml_field PMLlength SigmaMax p component /\
  (nth 0 p 0 <= nth 0 p' 0 ->
   AcousticPML.sigma_pml_field PMLlength SigmaMax p component
   <= AcousticPML.sigma_pml_field PMLlength SigmaMax p' component') /\
  (nth 0 p 0 = nth 0 p' 0 ->
   AcousticPML.sigma_pml_field PMLlength SigmaMax p component
   = AcousticPML.sigma_pml_field PMLlength SigmaMax p' component').
Proof.
  intros HP HS.
  assert (Hnonneg : forall (r : Fluid.Point) (c : nat),
             0 <= AcousticPML.sigma_pml_field PMLlength SigmaMax r c).
  { intros r c. destruct (Qlt_le_dec (1.4 - PMLlength) (nth 0 r 0)) as [Hin | Hout].
    - rewrite sigma_in_layer by exact Hin.
      apply Qmult_le_0_compat; [exact HS |].
      apply (fourth_power_monotone 0); [apply Qle_refl |].
      apply Qlt_le_weak, Qdiv_pos; [exact HP | lra].
    - rewrite sigma_before_layer by exact Hout. unfold Qle. simpl. lia. }
  split; [| split; [| split]].
  - intros H. now rewrite sigma_before_layer.
  - apply Hnonneg.
  - intros Hle.
    destruct (Qlt_le_dec (1.4 - PMLlength) (nth 0 p 0)) as [Hin | Hout].
    + rewrite !sigma_in_layer by lra.
      rewrite !(Qmult_comm SigmaMax). apply Qmult_le_compat_r; [| exact HS].
      apply fourth_power_monotone.
      * apply Qlt_le_weak, Qdiv_pos; [exact HP | lra].
      * apply Qdiv_le_compat; [exact HP | lra].
    + rewrite (sigma_before_layer _ _ p) by exact Hout.
      apply Qle_trans with 0; [unfold Qle; simpl; lia | apply Hnonneg].
  - intros Heq. unfold AcousticPML.sigma_pml_field. now rewrite Heq.
Qed.

Lemma sigma_pml_profile_witness :
  AcousticPML.sigma_pml_field 1.2 340000 [0.1; 0.3] 0 == 0 /\
  AcousticPML.sigma_pml_field 1.2 340000 [0.5; 0.3] 0
  <= AcousticPML.sigma_pml_field 1.2 340000 [1; 0.1] 1.
Proof.
  destruct (sigma_pml_profile 1.2 340000 [0.1; 0.3] [0.1; 0.3] 0 0) as (H1 & _);
    [reflexivity | discriminate |].
  destruct (sigma_pml_profile 1.2 340000 [0.5; 0.3] [1; 0.1] 0 1)
    as (_ & _ & H3 & _); [reflexivity | discriminate |].
  split; [apply H1; discriminate | apply H3; discriminate].
Defined.

Section Pulse.

Variable dt : Q.
Variable exp : Q -> Q.

Hypothesis exp_compatible : forall x y, x == y -> exp x == exp y.
Hypothesis dt_positive : 0 < dt.

Lemma time_value_compatible (s t : Q) :
  s == t -> AcousticPML.time_value exp s == AcousticPML.time_value exp t.
Proof.
  intros H. unfold AcousticPML.time_value.
  apply Qmult_comp; [reflexivity |]. apply exp_compatible. now rewrite H.
Qed.

Lemma pulse_at_inlet (p : Fluid.Point) (k : nat) :
  Qabs (nth 0 p 0) < 1e-10 ->
  AcousticPML.gaussian_pulse dt exp p 0 (inject_Z (Z.of_nat (S k)) * dt)
  == AcousticPML.time_value exp (inject_Z (Z.of_nat (S k)) * dt)
     - (if Nat.eqb k 0 then 0
        else AcousticPML.time_value exp (inject_Z (Z.of_nat k) * dt)).
Proof.
  intros Hp. unfold AcousticPML.gaussian_pulse.
  apply Qltb_lt in Hp. rewrite Hp. simpl andb. cbv iota.
  rewrite Nat2Z.inj_succ. unfold Z.succ. rewrite inject_Z_plus.
  destruct k as [| k].
  - simpl Nat.eqb. cbv iota.
    replace (Fluid.Qltb ((inject_Z (Z.of_nat 0) + inject_Z 1) * dt) (2 * dt)) with true.
    + ring.
    + symmetry. apply Qltb_lt.
      change (inject_Z (Z.of_nat 0)) with 0. change (inject_Z 1) with 1. lra.
  - simpl Nat.eqb. cbv iota.
    replace (Fluid.Qltb ((inject_Z (Z.of_nat (S k)) + inject_Z 1) * dt) (2 * dt))
      with false.
    + rewrite (time_value_compatible
                 ((inject_Z (Z.of_nat (S k)) + inject_Z 1) * dt - dt)
                 (inject_Z (Z.of_nat (S k)) * dt)) by ring.
      reflexivity.
    + symmetry. apply Qltb_ge.
      assert (H1 : 1 <= inject_Z (Z.of_nat (S k))).
      { change 1 with (inject_Z 1). rewrite <- Zle_Qle. lia. }
      assert (H2 : (inject_Z (Z.of_nat (S k)) - 1) * dt >= 0)
        by (apply Qmult_le_0_compat; lra).
      change (inject_Z 1) with 1. lra.
Qed.

End Pulse.

(** X25.  The inlet condition is given by increments that add up to the
    pulse: for a positive step size, at a point of the inlet the values
    of [gaussian_pulse] for the velocity component 0 at the times
    [dt, 2 dt, ..., n dt] sum to [time_value (n dt)].  The first
    increment is the whole value [time_value dt], the value at time 0 not
    being subtracted. *)
Theorem gaussian_pulse_accumulates (dt : Q) (exp : Q -> Q) (p : Fluid.Point) (n : nat) :
  (forall x y, x == y -> exp x == exp y) ->
  0 < dt ->
  Qabs (nth 0 p 0) < 1e-10 ->
  (1 <= n)%nat ->
  for_loop n
    (fun k sum =>
       sum + AcousticPML.gaussian_pulse dt exp p 0 (inject_Z (Z.of_nat (S k)) * dt))
    0
  == AcousticPML.time_value exp (inject_Z (Z.of_nat n) * dt).
Proof.
  intros Hexp Hdt Hp Hn. destruct n as [| n]; [lia |]. clear Hn.
  induction n as [| n IH].
  - simpl for_loop. rewrite (pulse_at_inlet dt exp Hexp Hdt p 0 Hp). simpl Nat.eqb.
    cbv iota. ring.
  - change (for_loop (S (S n)) ?f 0) with (f (S n) (for_loop (S n) f 0)).
    cbv beta. rewrite IH, (pulse_at_inlet dt exp Hexp Hdt p (S n) Hp).
    simpl Nat.eqb. cbv iota. ring.
Qed.

Lemma gaussian_pulse_accumulates_witness :
  for_loop 3
    (fun k sum =>
       sum + AcousticPML.gaussian_pulse (1 # 10) (fun x => 1 + x) [0; 0.2] 0
                                        (inject_Z (Z.of_nat (S k)) * (1 # 10)))
    0
  == AcousticPML.time_value (fun x => 1 + x) (inject_Z (Z.of_nat 3) * (1 # 10)).
Proof.
  apply gaussian_pulse_accumulates.
  - intros x y H. now rewrite H.
  - reflexivity.
  - reflexivity.
  - lia.
Defined.

(** ** The rate of the potential energy of the solid *)

Lemma integrate_from (dim n_q_points : nat) (cell : PotentialEnergy.Cell)
      (scalar_cell : PotentialEnergy.ScalarCell) (pe_rate : Q) :
  PotentialEnergy.integrate dim n_q_points cell scalar_cell pe_rate
  == pe_rate + PotentialEnergy.integrate dim n_q_points cell scalar_cell 0.
Proof.
  unfold PotentialEnergy.integrate.
  induction n_q_points as [| n IH]; simpl; [ring |]. rewrite IH. ring.
Qed.

Lemma cell_loop_spec (dim n_q_points this_mpi_process : nat)
      (cells : list PotentialEnergy.Cell) (scalar_cells : list PotentialEnergy.ScalarCell)
      (pe_rate : Q) :
  (length scalar_cells <= length cells)%nat ->
  exists r,
    PotentialEnergy.cell_loop dim n_q_points this_mpi_process cells scalar_cells pe_rate
    = Returns r /\
    r == pe_rate
         + integral_over dim n_q_points (fun s => Nat.eqb s this_mpi_process)
                         (combine cells scalar_cells).
Proof.
  revert scalar_cells pe_rate.
  induction cells as [| cell cells IH]; intros [| scalar_cell scalar_cells] pe_rate Hlen;
    simpl in Hlen; try lia.
  - exists pe_rate. split; [reflexivity | simpl; ring].
  - exists pe_rate. split; [reflexivity | simpl; ring].
  - simpl.
    destruct (Nat.eqb (PotentialEnergy.subdomain_id cell) this_mpi_process); simpl.
    + destruct (IH scalar_cells
                   (PotentialEnergy.integrate dim n_q_points cell scalar_cell pe_rate))
        as (r & Hr & Hv); [lia |].
      exists r. split; [exact Hr |]. rewrite Hv, integrate_from. ring.
    + destruct (IH scalar_cells pe_rate) as (r & Hr & Hv); [lia |].
      exists r. split; [exact Hr |]. rewrite Hv. ring.
Qed.

Lemma cell_loop_beyond_end (dim n_q_points this_mpi_process : nat)
      (cells : list PotentialEnergy.Cell) (scalar_cells : list PotentialEnergy.ScalarCell)
      (pe_rate : Q) :
  (length cells < length scalar_cells)%nat ->
  PotentialEnergy.cell_loop dim n_q_points this_mpi_process cells scalar_cells pe_rate
  = Undefined.
Proof.
  revert scalar_cells pe_rate.
  induction cells as [| cell cells IH]; intros [| scalar_cell scalar_cells] pe_rate Hlen;
    simpl in Hlen; try lia; [reflexivity |].
  simpl.
  destruct (Nat.eqb (PotentialEnergy.subdomain_id cell) this_mpi_process); simpl;
    apply IH; lia.
Qed.

Lemma integral_over_next (dim n_q_points n : nat)
      (pairs : list (PotentialEnergy.Cell * PotentialEnergy.ScalarCell)) :
  integral_over dim n_q_points (fun s => Nat.ltb s (S n)) pairs
  == integral_over dim n_q_points (fun s => Nat.ltb s n) pairs
     + integral_over dim n_q_points (fun s => Nat.eqb s n) pairs.
Proof.
  induction pairs as [| [cell scalar_cell] pairs IH]; simpl; [ring |].
  rewrite IH.
  destruct (Nat.ltb_spec (PotentialEnergy.subdomain_id cell) (S n)) as [H1 | H1];
    destruct (Nat.ltb_spec (PotentialEnergy.subdomain_id cell) n) as [H2 | H2];
    destruct (Nat.eqb_spec (PotentialEnergy.subdomain_id cell) n) as [H3 | H3];
    try lia; ring.
Qed.

Lemma integral_over_none (dim n_q_points : nat)
      (pairs : list (PotentialEnergy.Cell * PotentialEnergy.ScalarCell)) :
  integral_over dim n_q_points (fun s => Nat.ltb s 0) pairs == 0.
Proof.
  induction pairs as [| [cell scalar_cell] pairs IH]; simpl; [reflexivity |].
  rewrite IH. ring.
Qed.

Lemma local_rates (dim n_q_points : nat)
      (cells : list PotentialEnergy.Cell) (scalar_cells : list PotentialEnergy.ScalarCell)
      (n : nat) :
  (length scalar_cells <= length cells)%nat ->
  exists locals,
    for_each (seq 0 n)
      (fun this_mpi_process acc =>
         (r <- PotentialEnergy.local_PE_rate dim n_q_points this_mpi_process cells
                                             scalar_cells ;;
          Returns (acc ++ [r]))%outcome)
      []
    = Returns locals /\
    SharedSolid.MPI_sum locals
    == integral_over dim n_q_points (fun s => Nat.ltb s n) (combine cells scalar_cells).
Proof.
  intros Hlen. induction n as [| n IH].
  - exists []. split; [reflexivity |]. now rewrite integral_over_none.
  - destruct IH as (locals & Hrun & Hsum).
    destruct (cell_loop_spec dim n_q_points n cells scalar_cells 0 Hlen)
      as (r & Hr & Hv).
    exists (locals ++ [r]). split.
    + rewrite seq_S, for_each_app, Hrun. simpl.
      unfold PotentialEnergy.local_PE_rate. now rewrite Hr.
    + rewrite MPI_sum_app, Hsum, Hv, integral_over_next. ring.
Qed.

(** X26.  When [scalar_dof_handler] has no more cells than [dof_handler],
    the rate that [compute_PE_rate] writes is the integral of
    [v . div(stress)] over the cells that go with a cell of
    [scalar_dof_handler] and are assigned to one of the processes, every
    such cell counted once; the cells beyond the last one of
    [scalar_dof_handler] are left out, the loop ending with the second
    comparison of its condition.  When [scalar_dof_handler] has more
    cells, the loop dereferences [cell] at the end of [dof_handler]. *)
Theorem compute_PE_rate_spec (dim n_q_points n_mpi_processes : nat)
        (cells : list PotentialEnergy.Cell)
        (scalar_cells : list PotentialEnergy.ScalarCell) :
  ((length scalar_cells <= length cells)%nat ->
   exists pe_rate,
     PotentialEnergy.compute_PE_rate dim n_q_points n_mpi_processes cells scalar_cells
     = Returns pe_rate /\
     pe_rate == integral_over dim n_q_points (fun s => Nat.ltb s n_mpi_processes)
                              (combine cells scalar_cells)) /\
  ((length cells < length scalar_cells)%nat -> (1 <= n_mpi_processes)%nat ->
   PotentialEnergy.compute_PE_rate dim n_q_points n_mpi_processes cells scalar_cells
   = Undefined).
Proof.
  split.
  - intros Hlen.
    destruct (local_rates dim n_q_points cells scalar_cells n_mpi_processes Hlen)
      as (locals & Hrun & Hsum).
    exists (SharedSolid.MPI_sum locals). split; [| exact Hsum].
    unfold PotentialEnergy.compute_PE_rate. now rewrite Hrun.
  - intros Hlen Hn. unfold PotentialEnergy.compute_PE_rate.
    destruct n_mpi_processes as [| n]; [lia |].
    simpl. unfold PotentialEnergy.local_PE_rate.
    now rewrite cell_loop_beyond_end.
Qed.

Lemma compute_PE_rate_spec_witness :
  (exists pe_rate,
     PotentialEnergy.compute_PE_rate 1 1 2 Sample.energy_cells Sample.energy_scalar_cells
     = Returns pe_rate /\
     pe_rate == 31) /\
  PotentialEnergy.compute_PE_rate 1 1 2 (firstn 1 Sample.energy_cells)
                                  Sample.energy_scalar_cells
  = Undefined.
Proof.
  split.
  - destruct (compute_PE_rate_spec 1 1 2 Sample.energy_cells Sample.energy_scalar_cells)
      as [H _].
    destruct H as (pe_rate & Hrun & Hv); [simpl; lia |].
    exists pe_rate. split; [exact Hrun |]. rewrite Hv. reflexivity.
  - destruct (compute_PE_rate_spec 1 1 2 (firstn 1 Sample.energy_cells)
                                   Sample.energy_scalar_cells) as [_ H].
    apply H; simpl; lia.
Defined.

(** ** The effective matrix of the solid in a coupled run *)

Lemma nth_map2 {A B C : Type} (g : A -> B -> C) (xs : list A) (ys : list B) (i : nat)
      (dx : A) (dy : B) (d : C) :
  (i < length xs)%nat -> (i < length ys)%nat ->
  nth i (LA.map2 g xs ys) d = g (nth i xs dx) (nth i ys dy).
Proof.
  revert ys i. induction xs as [| x xs IH]; intros [| y ys] i Hx Hy; simpl in *; try lia.
  destruct i as [| i]; [reflexivity |]. apply IH; lia.
Qed.

Lemma el_add_matrix (n i j : nat) (factor : Q) (M self : LA.Matrix) :
  dims n n self -> dims n n M -> (i < n)%nat -> (j < n)%nat ->
  LA.el (LA.add_matrix factor M self) i j = LA.el self i j + factor * LA.el M i j.
Proof.
  intros Hs HM Hi Hj. unfold LA.el, LA.add_matrix.
  pose proof (dims_nth n n self i Hs Hi) as Ls.
  pose proof (dims_nth n n M i HM Hi) as LM.
  destruct Hs as [Hs _]. destruct HM as [HM _].
  rewrite (nth_map2 _ self M i [] [] []) by lia.
  now rewrite (nth_map2 _ _ _ j 0 0 0) by lia.
Qed.

Lemma diagonal_loop (n : nat) (f : nat -> Q) (M : LA.Matrix) (k : nat) :
  dims n n M -> (k <= n)%nat ->
  dims n n (for_loop k (fun i m => LA.set i i (f i) m) M) /\
  forall i j,
    LA.el (for_loop k (fun i m => LA.set i i (f i) m) M) i j
    = if Nat.eqb i j && Nat.ltb i k then f i else LA.el M i j.
Proof.
  intros HM. induction k as [| k IH]; intros Hk; simpl.
  - split; [exact HM |]. intros i j. now rewrite andb_false_r.
  - destruct IH as [Hd Hel]; [lia |]. split; [now apply dims_set |].
    intros i j. rewrite (el_set n n) by (try assumption; lia). rewrite Hel.
    destruct (Nat.eqb_spec i k) as [-> | Hik]; simpl.
    + destruct (Nat.eqb_spec j k) as [-> | Hjk]; simpl.
      * rewrite Nat.eqb_refl. simpl.
        now replace (Nat.ltb k (S k)) with true by (symmetry; apply Nat.ltb_lt; lia).
      * replace (Nat.eqb k j) with false by (symmetry; apply Nat.eqb_neq; lia).
        reflexivity.
    + destruct (Nat.eqb i j); simpl; [| reflexivity].
      destruct (Nat.ltb_spec i k) as [H1 | H1].
      * now replace (Nat.ltb i (S k)) with true by (symmetry; apply Nat.ltb_lt; lia).
      * now replace (Nat.ltb i (S k)) with false by (symmetry; apply Nat.ltb_ge; lia).
Qed.

(** X27.  In a coupled run with the implicit penalty, what a step hands
    to the solver as effective matrix keeps, off the diagonal, what the
    steps before left in [system_matrix_updated] and adds
    [gamma dt damping_matrix] to it once more; only the diagonal is set
    anew, to the diagonal of [system_matrix] plus the added mass, before
    the same term is added. *)
Theorem effective_matrix_accumulates
        (parameters : Solid.AllParameters) (fe : Solid.Discretisation) (dt : Q)
        (s : Solid.State) :
  Solid.is_FSI parameters = true ->
  dims (Solid.n_dofs fe) (Solid.n_dofs fe) (Solid.system_matrix_updated s) ->
  dims (Solid.n_dofs fe) (Solid.n_dofs fe) (Solid.damping_matrix s) ->
  forall i j,
    (i < Solid.n_dofs fe)%nat -> (j < Solid.n_dofs fe)%nat ->
    LA.el (Solid.system_matrix_updated
             (fst (Solid.effective_system parameters fe false dt s))) i j
    == (if Nat.eqb i j
        then LA.el (Solid.system_matrix s) i i + nth i (Solid.added_mass_effect s) 0
        else LA.el (Solid.system_matrix_updated s) i j)
       + Solid.gamma parameters * dt * LA.el (Solid.damping_matrix s) i j.
Proof.
  intros HFSI Hu Hd i j Hi Hj.
  unfold Solid.effective_system. rewrite HFSI. simpl.
  destruct (diagonal_loop (Solid.n_dofs fe)
              (fun i => LA.el (Solid.system_matrix s) i i
                        + nth i (Solid.added_mass_effect s) 0)
              (Solid.system_matrix_updated s) (Solid.n_dofs fe) Hu (Nat.le_refl _))
    as [Hdims Hel].
  rewrite (el_add_matrix (Solid.n_dofs fe)) by assumption.
  rewrite Hel.
  replace (Nat.ltb i (Solid.n_dofs fe)) with true by (symmetry; now apply Nat.ltb_lt).
  rewrite andb_true_r. reflexivity.
Qed.

Lemma effective_matrix_accumulates_witness :
  LA.el (Solid.system_matrix_updated
           (fst (Solid.effective_system (Sample.parameters 2 "FSI") Sample.fe false
                                        (1 # 2) Sample.state))) 0 1
  == LA.el (Solid.system_matrix_updated Sample.state) 0 1
     + Solid.gamma (Sample.parameters 2 "FSI") * (1 # 2)
       * LA.el (Solid.damping_matrix Sample.state) 0 1.
Proof.
  apply (effective_matrix_accumulates (Sample.parameters 2 "FSI") Sample.fe (1 # 2)
                                      Sample.state eq_refl).
  - split; [reflexivity | repeat constructor].
  - split; [reflexivity | repeat constructor].
  - simpl. lia.
  - simpl. lia.
Defined.

(** ** The clock of the wrapper of the external solver *)

Lemma Qmax_cases (x y : Q) :
  (Fluid.Qmax x y = y /\ x <= y) \/ (Fluid.Qmax x y = x /\ y <= x).
Proof.
  unfold Fluid.Qmax. destruct (Qle_bool x y) eqn:E.
  - left. split; [reflexivity | now apply Qle_bool_iff].
  - right. split; [reflexivity |].
    apply Qnot_lt_le. intros H. apply Qlt_le_weak in H.
    apply Qle_bool_iff in H. congruence.
Qed.

Lemma Allreduce_MAX_double_spec (mine : Q) (others : list Q) :
  mine <= Fluid.MPI_Allreduce_MAX_double mine others /\
  (forall d, In d others -> d <= Fluid.MPI_Allreduce_MAX_double mine others) /\
  (Fluid.MPI_Allreduce_MAX_double mine others = mine \/
   In (Fluid.MPI_Allreduce_MAX_double mine others) others).
Proof.
  unfold Fluid.MPI_Allreduce_MAX_double. revert mine.
  induction others as [| d others IH]; intros mine; simpl.
  - split; [apply Qle_refl |]. split; [intros d [] | now left].
  - destruct (IH (Fluid.Qmax mine d)) as (H1 & H2 & H3).
    destruct (Qmax_cases mine d) as [[E Hle] | [E Hle]]; rewrite E in *.
    + split; [now apply Qle_trans with d |]. split.
      * intros d' [<- | Hin]; [exact H1 | now apply H2].
      * right. destruct H3 as [-> | H3]; [now left | now right].
    + split; [exact H1 |]. split.
      * intros d' [<- | Hin]; [now apply Qle_trans with mine | now apply H2].
      * destruct H3 as [H3 | H3]; [now left | right; now right].
Qed.

(** X28.  [get_dt_sable] takes as step size the largest of the values the
    other processes contribute and its own 0: the step size is one of
    these values and never negative.  A turn of the loop of
    [SableWrap::run] that returns has therefore not moved the clock back,
    and it has advanced the step index by one; after the first step a
    turn returns when [int(output_interval)] is not 0 and the output can
    be written. *)
Theorem sable_clock_never_goes_back
        (peers : Fluid.Peers) (parameters : Fluid.AllParameters) (space_dim : nat)
        (int_cbrt : Z -> Outcome Z) (NDEBUG : bool)
        (output_results : nat -> Outcome unit) (w : Fluid.SableWrap) :
  let dt := Time.get_delta_t (Fluid.time (Fluid.get_dt_sable peers w)) in
  let loop_body :=
    Fluid.loop_body peers parameters space_dim int_cbrt NDEBUG output_results in
  0 <= dt /\
  (forall d, In d (Fluid.peer_dt peers (Fluid.dt_calls w)) -> d <= dt) /\
  (dt = 0 \/ In dt (Fluid.peer_dt peers (Fluid.dt_calls w))) /\
  (forall w',
      loop_body w = Returns w' ->
      Time.current (Fluid.time w) <= Time.current (Fluid.time w') /\
      Time.get_timestep (Fluid.time w') = S (Time.get_timestep (Fluid.time w))) /\
  (Sable.double_to_int (Fluid.output_interval parameters) <> 0%Z ->
   (forall step, output_results step = Returns tt) ->
   Time.get_timestep (Fluid.time w) <> 0%nat ->
   exists w', loop_body w = Returns w').
Proof.
  assert (Hdt : forall v,
             Time.current (Fluid.time v)
             <= Time.current (Fluid.time (Fluid.get_dt_sable peers v)) /\
             Time.get_timestep (Fluid.time (Fluid.get_dt_sable peers v))
             = S (Time.get_timestep (Fluid.time v))).
  { intros v. unfold Fluid.get_dt_sable. simpl. split; [| reflexivity].
    destruct (Allreduce_MAX_double_spec 0 (Fluid.peer_dt peers (Fluid.dt_calls v)))
      as (H0 & _).
    unfold Time.current. lra. }
  destruct (Allreduce_MAX_double_spec 0 (Fluid.peer_dt peers (Fluid.dt_calls w)))
    as (H0 & Hmax & Hin).
  cbv zeta. split; [exact H0 |]. split; [exact Hmax |]. split; [exact Hin |].
  split.
  - intros w'. unfold Fluid.loop_body.
    destruct (if Qeq_bool (Time.current (Fluid.time w)) 0
              then Fluid.run_one_step peers parameters space_dim int_cbrt NDEBUG
                                      output_results w
              else Returns w) as [w1 | e |] eqn:Hfirst; try discriminate.
    cbn [bind]. cbv zeta. intros Hlast.
    apply run_one_step_returns in Hlast. destruct Hlast as (Ht' & _).
    assert (Ht1 : Fluid.time w1 = Fluid.time w).
    { destruct (Qeq_bool (Time.current (Fluid.time w)) 0).
      - apply run_one_step_returns in Hfirst. apply Hfirst.
      - now inversion Hfirst. }
    rewrite Ht', <- Ht1. apply Hdt.
  - intros Hne Hout Hstep.
    apply (proj2 (loop_body_returns peers parameters space_dim int_cbrt NDEBUG
                                    output_results w) Hne Hout).
    intros _ Hzero. contradiction.
Qed.

Lemma sable_clock_never_goes_back_witness :
  exists w',
    Fluid.loop_body Sample.peers_inactive (Sample.fluid_parameters 1 1) 2
                    Sample.int_cbrt false Sample.output_results
                    Sample.wrapper_stalled = Returns w' /\
    Time.current (Fluid.time Sample.wrapper_stalled) <= Time.current (Fluid.time w') /\
    Time.get_timestep (Fluid.time w') = 2%nat.
Proof.
  destruct (sable_clock_never_goes_back
              Sample.peers_inactive (Sample.fluid_parameters 1 1) 2 Sample.int_cbrt
              false Sample.output_results Sample.wrapper_stalled)
    as (_ & _ & _ & Hturn & Hreturns).
  cbv zeta in Hturn, Hreturns.
  destruct Hreturns as [w' Hw']; [discriminate | reflexivity | discriminate |].
  exists w'. split; [exact Hw' |]. exact (Hturn w' Hw').
Defined.
